(** * ARM semihosting dispatcher and TPIU/SWO trace controller

    A shallow embedding of [src/target/semihosting_common.c] and
    [src/target/arm_tpiu_swo.c], and the properties of the two components
    that the specification states about them.

    Conventions of the embedding.
    - C integers are [Z] with the conversions written out ([to_int],
      [to_int64], [to_uint32], ...).  The host is taken to be LP64:
      [int] is 32 bits, [size_t], [ssize_t], [off_t] and [long] are 64 bits.
    - Byte buffers and C strings are [list Z]; a C string ends at its first
      zero byte ([cstr]).
    - The collaborators that are not part of the two files (host libc,
      target memory, the probe driver, the script interpreter, ...) are
      oracles collected in a record; every call of one is also recorded
      as an event in a trace, so that "is called" and "is not called" are
      statements about the trace. *)

From Stdlib Require Import ZArith List String Ascii Bool Lia.
From stdpp Require Import base option list gmap strings.

Local Open Scope Z_scope.

(** ** Machine integers *)

Definition wrap_unsigned (w x : Z) : Z := x mod 2 ^ w.
Definition wrap_signed (w x : Z) : Z := (x + 2 ^ (w - 1)) mod 2 ^ w - 2 ^ (w - 1).

Definition to_uint16 : Z → Z := wrap_unsigned 16.
Definition to_uint32 : Z → Z := wrap_unsigned 32.
Definition to_uint64 : Z → Z := wrap_unsigned 64.
Definition to_int : Z → Z := wrap_signed 32.
Definition to_int64 : Z → Z := wrap_signed 64.
(** [size_t] and [ssize_t] of the LP64 host. *)
Definition to_size_t : Z → Z := to_uint64.
Definition to_ssize_t : Z → Z := to_int64.

Definition BIT (n : Z) : Z := Z.shiftl 1 n.

(** ** Bytes and C strings *)

Definition bytes_of_string (s : string) : list Z :=
  map (λ a, Z.of_N (N_of_ascii a)) (list_ascii_of_string s).

(** The bytes of a buffer up to, and without, its first zero byte. *)
Fixpoint cstr (l : list Z) : list Z :=
  match l with
  | [] => []
  | c :: r => if c =? 0 then [] else c :: cstr r
  end.

Definition strlen (l : list Z) : Z := Z.of_nat (length (cstr l)).

Definition bytes_eqb (a b : list Z) : bool := bool_decide (a = b).

(** [strcmp(a, b) == 0]. *)
Definition streq (a b : list Z) : bool := bytes_eqb (cstr a) (cstr b).

(** Little-endian value of a byte string. *)
Fixpoint le_decode (bs : list Z) : Z :=
  match bs with
  | [] => 0
  | b :: r => b + 256 * le_decode r
  end.

Fixpoint le_encode (n : nat) (v : Z) : list Z :=
  match n with
  | O => []
  | S k => v mod 256 :: le_encode k (v / 256)
  end.

(** ** Error codes and constants

    The values below come from headers that are not part of the two source
    files ([helper/log.h], [helper/command.h], [jim.h], the host's
    [errno.h] and [fcntl.h]); where the source states a value in a comment
    (the opcodes, the ADP reason codes) that value is used.  No theorem
    depends on the numeric value of an errno or an open flag beyond their
    being distinct from one another. *)

Definition ERROR_OK : Z := 0.
Definition ERROR_FAIL : Z := -4.
Definition ERROR_NOT_IMPLEMENTED : Z := -100.
Definition ERROR_COMMAND_CLOSE_CONNECTION : Z := -600.
Definition ERROR_COMMAND_SYNTAX_ERROR : Z := -601.
Definition ERROR_SERVER_REMOTE_CLOSED : Z := -400.

Definition EBADF : Z := 9.
Definition ENOMEM : Z := 12.
Definition EINVAL : Z := 22.
Definition ENOTSUP : Z := 95.
Definition EOF : Z := -1.

Definition STDIN_FILENO : Z := 0.
Definition STDOUT_FILENO : Z := 1.
Definition STDERR_FILENO : Z := 2.
Definition SEEK_SET : Z := 0.
Definition CLOCKS_PER_SEC : Z := 1000000.


(** ** C functions as programs over a state

    A piece of a C function either runs to its end with a value, leaves
    the function by [return retval], or stops: the process exits, an
    [assert] fails, the behaviour is undefined (a division by zero, a use
    of freed memory), or a bounded walk is cut off. *)

Inductive stop :=
  | ProcessExit (code : Z)   (* exit(code) *)
  | AssertFailure            (* a failing assert() *)
  | Undefined                (* undefined behaviour *)
  | OutOfFuel.               (* a bounded walk was cut off *)

Inductive res (A : Type) :=
  | Val (a : A)
  | Return (retval : Z)
  | Stop (r : stop).
Arguments Val {A} a.
Arguments Return {A} retval.
Arguments Stop {A} r.

Definition prog (Σ A : Type) : Type := Σ → res A * Σ.

Definition ret {Σ A} (a : A) : prog Σ A := λ w, (Val a, w).
Definition bind {Σ A B} (m : prog Σ A) (f : A → prog Σ B) : prog Σ B := λ w,
  match m w with
  | (Val a, w') => f a w'
  | (Return r, w') => (Return r, w')
  | (Stop r, w') => (Stop r, w')
  end.

Notation "'do' x <- m ; k" := (bind m (λ x, k))
  (at level 10, x name, m at level 100, k at level 200).
Notation "'do' ( x , y ) <- m ; k" := (bind m (λ '(x, y), k))
  (at level 10, x name, y name, m at level 100, k at level 200).
Notation "m ;; k" := (bind m (λ _, k))
  (at level 100, k at level 200, right associativity).

Definition return_ {Σ A} (retval : Z) : prog Σ A := λ w, (Return retval, w).
Definition stop_ {Σ A} (r : stop) : prog Σ A := λ w, (Stop r, w).
Definition skip {Σ} : prog Σ unit := ret tt.
Definition when_ {Σ} (b : bool) (m : prog Σ unit) : prog Σ unit :=
  if b then m else skip.

(** [if (retval != ERROR_OK) return retval;] *)
Definition check {Σ} (retval : Z) : prog Σ unit :=
  if retval =? ERROR_OK then skip else return_ retval.

(** A block that is left by [goto] to a label at its end: inside [m] a
    [return_ r] stands for the jump carrying [r]; the block yields
    [ERROR_OK] when [m] runs to its end. *)
Definition block {Σ} (m : prog Σ unit) : prog Σ Z := λ w,
  match m w with
  | (Val _, w') => (Val ERROR_OK, w')
  | (Return r, w') => (Val r, w')
  | (Stop r, w') => (Stop r, w')
  end.

(** The value a C function hands to its caller, if it comes back. *)
Definition returned {Σ} (r : res Z * Σ) : option Z :=
  match fst r with
  | Val a => Some a
  | Return a => Some a
  | Stop _ => None
  end.
(** * Part I: the semihosting dispatcher ([semihosting_common.c]) *)

Module Semihosting.

(** Operation numbers, as in the comments of the [switch] of
    [semihosting_common]. *)
Definition SEMIHOSTING_SYS_OPEN : Z := 0x01.
Definition SEMIHOSTING_SYS_CLOSE : Z := 0x02.
Definition SEMIHOSTING_SYS_WRITEC : Z := 0x03.
Definition SEMIHOSTING_SYS_WRITE0 : Z := 0x04.
Definition SEMIHOSTING_SYS_WRITE : Z := 0x05.
Definition SEMIHOSTING_SYS_READ : Z := 0x06.
Definition SEMIHOSTING_SYS_READC : Z := 0x07.
Definition SEMIHOSTING_SYS_ISERROR : Z := 0x08.
Definition SEMIHOSTING_SYS_ISTTY : Z := 0x09.
Definition SEMIHOSTING_SYS_SEEK : Z := 0x0A.
Definition SEMIHOSTING_SYS_FLEN : Z := 0x0C.
Definition SEMIHOSTING_SYS_TMPNAM : Z := 0x0D.
Definition SEMIHOSTING_SYS_REMOVE : Z := 0x0E.
Definition SEMIHOSTING_SYS_RENAME : Z := 0x0F.
Definition SEMIHOSTING_SYS_CLOCK : Z := 0x10.
Definition SEMIHOSTING_SYS_TIME : Z := 0x11.
Definition SEMIHOSTING_SYS_SYSTEM : Z := 0x12.
Definition SEMIHOSTING_SYS_ERRNO : Z := 0x13.
Definition SEMIHOSTING_SYS_GET_CMDLINE : Z := 0x15.
Definition SEMIHOSTING_SYS_HEAPINFO : Z := 0x16.
Definition SEMIHOSTING_SYS_EXIT : Z := 0x18.
Definition SEMIHOSTING_SYS_EXIT_EXTENDED : Z := 0x20.
Definition SEMIHOSTING_SYS_ELAPSED : Z := 0x30.
Definition SEMIHOSTING_SYS_TICKFREQ : Z := 0x31.
Definition SEMIHOSTING_USER_CMD_0X100 : Z := 0x100.
Definition SEMIHOSTING_USER_CMD_0X107 : Z := 0x107.

Definition ADP_STOPPED_RUN_TIME_ERROR : Z := 0x20023.
Definition ADP_STOPPED_APPLICATION_EXIT : Z := 0x20026.
Definition TARGET_EVENT_HALTED : Z := 4.

(** Modelled from the spec: the bound on the parameter string of a user
    command, [SEMIHOSTING_MAX_TCL_COMMAND_FIELD_LENGTH], is declared in
    [semihosting_common.h], which is not among the sources; Table 1 of the
    specification gives "len ≤ 1024". *)
Definition SEMIHOSTING_MAX_TCL_COMMAND_FIELD_LENGTH : Z := 1024.

(** Open flags of the GDB remote protocol (the [enum] at the top of the file). *)
Definition TARGET_O_RDONLY : Z := 0x000.
Definition TARGET_O_WRONLY : Z := 0x001.
Definition TARGET_O_RDWR : Z := 0x002.
Definition TARGET_O_APPEND : Z := 0x008.
Definition TARGET_O_CREAT : Z := 0x200.
Definition TARGET_O_TRUNC : Z := 0x400.

Definition open_gdb_modeflags : list Z :=
  [ TARGET_O_RDONLY;
    TARGET_O_RDONLY;
    TARGET_O_RDWR;
    TARGET_O_RDWR;
    Z.lor (Z.lor TARGET_O_WRONLY TARGET_O_CREAT) TARGET_O_TRUNC;
    Z.lor (Z.lor TARGET_O_WRONLY TARGET_O_CREAT) TARGET_O_TRUNC;
    Z.lor (Z.lor TARGET_O_RDWR TARGET_O_CREAT) TARGET_O_TRUNC;
    Z.lor (Z.lor TARGET_O_RDWR TARGET_O_CREAT) TARGET_O_TRUNC;
    Z.lor (Z.lor TARGET_O_WRONLY TARGET_O_CREAT) TARGET_O_APPEND;
    Z.lor (Z.lor TARGET_O_WRONLY TARGET_O_CREAT) TARGET_O_APPEND;
    Z.lor (Z.lor TARGET_O_RDWR TARGET_O_CREAT) TARGET_O_APPEND;
    Z.lor (Z.lor TARGET_O_RDWR TARGET_O_CREAT) TARGET_O_APPEND ].

(** Host open flags (Linux values; [O_BINARY] is 0 where the host has none). *)
Definition O_RDONLY : Z := 0x000.
Definition O_WRONLY : Z := 0x001.
Definition O_RDWR : Z := 0x002.
Definition O_CREAT : Z := 0x040.
Definition O_TRUNC : Z := 0x200.
Definition O_APPEND : Z := 0x400.
Definition O_BINARY : Z := 0.

Definition open_host_modeflags : list Z :=
  [ O_RDONLY;
    Z.lor O_RDONLY O_BINARY;
    O_RDWR;
    Z.lor O_RDWR O_BINARY;
    Z.lor (Z.lor O_WRONLY O_CREAT) O_TRUNC;
    Z.lor (Z.lor (Z.lor O_WRONLY O_CREAT) O_TRUNC) O_BINARY;
    Z.lor (Z.lor O_RDWR O_CREAT) O_TRUNC;
    Z.lor (Z.lor (Z.lor O_RDWR O_CREAT) O_TRUNC) O_BINARY;
    Z.lor (Z.lor O_WRONLY O_CREAT) O_APPEND;
    Z.lor (Z.lor (Z.lor O_WRONLY O_CREAT) O_APPEND) O_BINARY;
    Z.lor (Z.lor O_RDWR O_CREAT) O_APPEND;
    Z.lor (Z.lor (Z.lor O_RDWR O_CREAT) O_APPEND) O_BINARY ].

Definition modeflag (table : list Z) (mode : Z) : Z :=
  default 0 (table !! Z.to_nat mode).

(** ** State *)

Inductive semihosting_redirect_config :=
  | SEMIHOSTING_REDIRECT_CFG_NONE
  | SEMIHOSTING_REDIRECT_CFG_DEBUG
  | SEMIHOSTING_REDIRECT_CFG_STDIO
  | SEMIHOSTING_REDIRECT_CFG_ALL.

Global Instance semihosting_redirect_config_eq_dec :
  EqDecision semihosting_redirect_config.
Proof. solve_decision. Defined.

(** [struct semihosting].  [tcp_connection] is [None] for the null pointer
    and otherwise names the attached client; [cmdline] and [basedir] are
    [None] for the null pointer; [user_command_extension] records whether
    the function pointer is set (what it does is the host's
    [user_command_extension_run]). *)
Record semihosting := mk_semihosting {
  is_active : bool;
  redirect_cfg : semihosting_redirect_config;
  tcp_connection : option Z;
  stdin_fd : Z;
  stdout_fd : Z;
  stderr_fd : Z;
  is_fileio : bool;
  hit_fileio : bool;
  is_resumable : bool;
  has_resumable_exit : bool;
  word_size_bytes : Z;
  op : Z;
  param : Z;
  result : Z;
  sys_errno : Z;
  cmdline : option (list Z);
  basedir : option (list Z);
  setup_time : Z;
  user_command_extension : bool;
}.

Definition set_result (v : Z) (s : semihosting) : semihosting :=
  mk_semihosting (is_active s) (redirect_cfg s) (tcp_connection s) (stdin_fd s)
    (stdout_fd s) (stderr_fd s) (is_fileio s) (hit_fileio s) (is_resumable s)
    (has_resumable_exit s) (word_size_bytes s) (op s) (param s) v (sys_errno s)
    (cmdline s) (basedir s) (setup_time s) (user_command_extension s).

Definition set_sys_errno (v : Z) (s : semihosting) : semihosting :=
  mk_semihosting (is_active s) (redirect_cfg s) (tcp_connection s) (stdin_fd s)
    (stdout_fd s) (stderr_fd s) (is_fileio s) (hit_fileio s) (is_resumable s)
    (has_resumable_exit s) (word_size_bytes s) (op s) (param s) (result s) v
    (cmdline s) (basedir s) (setup_time s) (user_command_extension s).

Definition set_hit_fileio (v : bool) (s : semihosting) : semihosting :=
  mk_semihosting (is_active s) (redirect_cfg s) (tcp_connection s) (stdin_fd s)
    (stdout_fd s) (stderr_fd s) (is_fileio s) v (is_resumable s)
    (has_resumable_exit s) (word_size_bytes s) (op s) (param s) (result s)
    (sys_errno s) (cmdline s) (basedir s) (setup_time s)
    (user_command_extension s).

Definition set_is_resumable (v : bool) (s : semihosting) : semihosting :=
  mk_semihosting (is_active s) (redirect_cfg s) (tcp_connection s) (stdin_fd s)
    (stdout_fd s) (stderr_fd s) (is_fileio s) (hit_fileio s) v
    (has_resumable_exit s) (word_size_bytes s) (op s) (param s) (result s)
    (sys_errno s) (cmdline s) (basedir s) (setup_time s)
    (user_command_extension s).

Definition set_stdin_fd (v : Z) (s : semihosting) : semihosting :=
  mk_semihosting (is_active s) (redirect_cfg s) (tcp_connection s) v
    (stdout_fd s) (stderr_fd s) (is_fileio s) (hit_fileio s) (is_resumable s)
    (has_resumable_exit s) (word_size_bytes s) (op s) (param s) (result s)
    (sys_errno s) (cmdline s) (basedir s) (setup_time s)
    (user_command_extension s).

Definition set_stdout_fd (v : Z) (s : semihosting) : semihosting :=
  mk_semihosting (is_active s) (redirect_cfg s) (tcp_connection s) (stdin_fd s)
    v (stderr_fd s) (is_fileio s) (hit_fileio s) (is_resumable s)
    (has_resumable_exit s) (word_size_bytes s) (op s) (param s) (result s)
    (sys_errno s) (cmdline s) (basedir s) (setup_time s)
    (user_command_extension s).

Definition set_stderr_fd (v : Z) (s : semihosting) : semihosting :=
  mk_semihosting (is_active s) (redirect_cfg s) (tcp_connection s) (stdin_fd s)
    (stdout_fd s) v (is_fileio s) (hit_fileio s) (is_resumable s)
    (has_resumable_exit s) (word_size_bytes s) (op s) (param s) (result s)
    (sys_errno s) (cmdline s) (basedir s) (setup_time s)
    (user_command_extension s).

(** [struct gdb_fileio_info]: the request published for the frontend. *)
Record gdb_fileio_info := mk_fileio_info {
  identifier : string;
  param_1 : Z;
  param_2 : Z;
  param_3 : Z;
  param_4 : Z;
}.

(** Calls of the collaborators, in the order they happen. *)
Inductive event :=
  | EvPostResult
  | EvClock
  | EvTime
  | EvClose (fd : Z)
  | EvFstat (fd : Z)
  | EvIsatty (fd : Z)
  | EvDup (fd : Z)
  | EvOpen (fn : list Z) (flags mode : Z)
  | EvRead (fd size : Z)
  | EvWrite (fd : Z) (buf : list Z) (size : Z)
  | EvLseek (fd pos : Z)
  | EvRemove (fn : list Z)
  | EvRename (fn1 fn2 : list Z)
  | EvSystem (cmd : list Z)
  | EvGetchar
  | EvPutchar (c : Z)
  | EvConnectionRead (size : Z)
  | EvConnectionWrite (buf : list Z) (size : Z)
  | EvStderr (msg : string)
  | EvTargetCallEventCallbacks (e : Z)
  | EvTargetHandleEvent (e : Z)
  | EvUserCommandExtension.

Global Instance event_eq_dec : EqDecision event.
Proof. solve_decision. Defined.

(** The host side.  A call that can fail returns its value together with
    the [errno] it leaves behind. *)
Record host := mk_host {
  malloc_ok : Z → bool;
  host_clock : Z;
  host_time : Z;
  host_close : Z → Z * Z;
  host_fstat : Z → Z * Z * Z;
  host_isatty : Z → Z * Z;
  host_dup : Z → Z * Z;
  host_open : list Z → Z → Z → Z * Z;
  host_read : Z → Z → Z * Z * list Z;
  host_write : Z → list Z → Z → Z * Z;
  host_lseek : Z → Z → Z * Z;
  host_remove : list Z → Z * Z;
  host_rename : list Z → list Z → Z * Z;
  host_system : list Z → Z;
  host_getchar : Z;
  host_putchar : Z → Z;
  connection_read : Z → Z * list Z;
  connection_write : list Z → Z → Z;
  gdb_get_actual_connections : Z;
  post_result : Z;
  target_call_event_callbacks : Z → Z;
  user_command_extension_run : semihosting → Z * semihosting;
}.

(** [struct target] as far as the dispatcher uses it: the semihosting
    state, the file-I/O request, the target's memory (the mapped bytes),
    its byte order, the module-scope [semihosting_user_op_params] and the
    trace of calls made so far (most recent first). *)
Record world := mk_world {
  sh : semihosting;
  fileio_info : gdb_fileio_info;
  mem : gmap Z Z;
  little_endian : bool;
  semihosting_user_op_params : option (list Z);
  trace : list event;
}.

Definition with_sh (f : semihosting → semihosting) (w : world) : world :=
  mk_world (f (sh w)) (fileio_info w) (mem w) (little_endian w)
    (semihosting_user_op_params w) (trace w).
Definition with_fileio_info (i : gdb_fileio_info) (w : world) : world :=
  mk_world (sh w) i (mem w) (little_endian w)
    (semihosting_user_op_params w) (trace w).
Definition with_mem (m : gmap Z Z) (w : world) : world :=
  mk_world (sh w) (fileio_info w) m (little_endian w)
    (semihosting_user_op_params w) (trace w).
Definition with_user_op_params (p : option (list Z)) (w : world) : world :=
  mk_world (sh w) (fileio_info w) (mem w) (little_endian w) p (trace w).
Definition with_event (e : event) (w : world) : world :=
  mk_world (sh w) (fileio_info w) (mem w) (little_endian w)
    (semihosting_user_op_params w) (e :: trace w).

(** ** The dispatcher as a program over the world *)

Abbreviation M := (prog world).

Definition get {A} (f : semihosting → A) : M A := λ w, (Val (f (sh w)), w).
Definition modify (f : semihosting → semihosting) : M unit :=
  λ w, (Val tt, with_sh f w).
Definition emit (e : event) : M unit := λ w, (Val tt, with_event e w).
Definition set_fileio_info (id : string) (p1 p2 p3 p4 : option Z) : M unit :=
  λ w, let i := fileio_info w in
       (Val tt, with_fileio_info
                  (mk_fileio_info id (default (param_1 i) p1) (default (param_2 i) p2)
                     (default (param_3 i) p3) (default (param_4 i) p4)) w).

(** ** Target memory

    Modelled from the spec: [target_read_memory], [target_write_memory],
    [target_read_buffer], [target_write_buffer] and the
    [target_buffer_get/set_u32/u64] helpers belong to the target layer
    ([target.c]), which is not among the sources.  The specification
    describes them as transfers of [count] units of [width] bytes at an
    address that can fail as a whole ("transport failure"), and the fields
    as target words "little- or big-endian per target".  Here the target's
    memory is the finite map of its accessible bytes; a transfer fails
    with [ERROR_FAIL] when it touches a byte that is not accessible.  The
    size and count parameters are [uint32_t]. *)

Definition addrs (addr : Z) (n : Z) : list Z :=
  map (λ i, addr + Z.of_nat i) (seq 0 (Z.to_nat n)).

Definition read_bytes (m : gmap Z Z) (addr n : Z) : option (list Z) :=
  mapM (λ a, m !! a) (addrs addr n).

Definition write_bytes (m : gmap Z Z) (addr : Z) (bs : list Z) : option (gmap Z Z) :=
  match read_bytes m addr (Z.of_nat (length bs)) with
  | None => None
  | Some _ => Some (list_to_map (zip (addrs addr (Z.of_nat (length bs))) bs) ∪ m)
  end.

Definition target_read_memory (addr size count : Z) : M (Z * list Z) :=
  λ w, match read_bytes (mem w) addr (to_uint32 size * to_uint32 count) with
       | Some bs => (Val (ERROR_OK, bs), w)
       | None => (Val (ERROR_FAIL, []), w)
       end.

Definition target_write_memory (addr size count : Z) (buf : list Z) : M Z :=
  λ w, match write_bytes (mem w) addr
               (resize (Z.to_nat (to_uint32 size * to_uint32 count)) 0 buf) with
       | Some m => (Val ERROR_OK, with_mem m w)
       | None => (Val ERROR_FAIL, w)
       end.

Definition target_read_buffer (addr len : Z) : M (Z * list Z) :=
  target_read_memory addr 1 len.

Definition target_write_buffer (addr len : Z) (buf : list Z) : M Z :=
  target_write_memory addr 1 len buf.

Definition target_buffer_get (little : bool) (n : nat) (buf : list Z) : Z :=
  let raw := resize n 0 buf in
  wrap_unsigned (8 * Z.of_nat n)
    (if little then le_decode raw else le_decode (rev raw)).

Definition target_buffer_set (little : bool) (n : nat) (v : Z) : list Z :=
  let raw := le_encode n v in
  if little then raw else rev raw.

(** ** Utility functions of the file *)

(** [semihosting_read_fields]: [number * (word_size_bytes / 4)] units of 4
    bytes at [param]. *)
Definition semihosting_read_fields (number : Z) : M (Z * list Z) :=
  do s <- get id;
  target_read_memory (param s) 4 (number * (word_size_bytes s / 4)).

Definition semihosting_write_fields (number : Z) (fields : list Z) : M Z :=
  do s <- get id;
  target_write_memory (param s) 4 (number * (word_size_bytes s / 4)) fields.

(** [semihosting_get_field]: a 64-bit field when the word size is 8, and a
    32-bit one otherwise. *)
Definition semihosting_get_field (w : world) (index : nat) (fields : list Z) : Z :=
  if word_size_bytes (sh w) =? 8
  then target_buffer_get (little_endian w) 8 (drop (index * 8) fields)
  else target_buffer_get (little_endian w) 4 (drop (index * 4) fields).

Definition get_field (index : nat) (fields : list Z) : M Z :=
  λ w, (Val (semihosting_get_field w index fields), w).

Definition splice (pos : nat) (new old : list Z) : list Z :=
  take pos old ++ new ++ drop (pos + length new) old.

Definition semihosting_set_field (w : world) (value : Z) (index : nat)
    (fields : list Z) : list Z :=
  if word_size_bytes (sh w) =? 8
  then splice (index * 8) (target_buffer_set (little_endian w) 8 (to_uint64 value)) fields
  else splice (index * 4) (target_buffer_set (little_endian w) 4 (to_uint32 value)) fields.

(** ** Redirection *)

Definition semihosting_is_redirected (s : semihosting) (fd : Z) : bool :=
  if bool_decide (redirect_cfg s = SEMIHOSTING_REDIRECT_CFG_NONE) then false
  else
    let debug_op (is_read_op : bool) :=
      (* debug operations are redirected when CFG is either DEBUG or ALL *)
      if bool_decide (redirect_cfg s = SEMIHOSTING_REDIRECT_CFG_STDIO) then None
      else Some is_read_op in
    let stdio_op (is_read_op : bool) :=
      (* stdio operations are redirected when CFG is either STDIO or ALL *)
      if bool_decide (redirect_cfg s = SEMIHOSTING_REDIRECT_CFG_DEBUG) then None
      else Some is_read_op in
    let class :=
      if op s =? SEMIHOSTING_SYS_READC then debug_op true
      else if (op s =? SEMIHOSTING_SYS_WRITEC) || (op s =? SEMIHOSTING_SYS_WRITE0)
      then debug_op false
      else if op s =? SEMIHOSTING_SYS_READ then stdio_op true
      else if op s =? SEMIHOSTING_SYS_WRITE then stdio_op false
      else None in
    match class with
    | None => false
    | Some true => fd =? stdin_fd s
    | Some false => (fd =? stdout_fd s) || (fd =? stderr_fd s)
    end.

Section Dispatcher.

Variable H : host.

Definition semihosting_redirect_write (buf : list Z) (size : Z) : M Z :=
  do conn <- get tcp_connection;
  match conn with
  | None =>
      modify (set_sys_errno EBADF);;  (* Bad file number *)
      ret (-1)
  | Some _ =>
      emit (EvConnectionWrite buf size);;
      ret (connection_write H buf size)
  end.

Definition semihosting_write (fd : Z) (buf : list Z) (size : Z) : M Z :=
  do s <- get id;
  if semihosting_is_redirected s fd then semihosting_redirect_write buf size
  else
    (* default write *)
    emit (EvWrite fd buf (to_size_t size));;
    let '(r, e) := host_write H fd buf (to_size_t size) in
    let result := to_int r in
    when_ (result =? -1) (modify (set_sys_errno e));;
    ret result.

(** The bookkeeping on the service ([service->error]) and on the
    connection ([input_pending]) around the read is not part of the state
    modelled here. *)
Definition semihosting_redirect_read (size : Z) : M (Z * list Z) :=
  do conn <- get tcp_connection;
  match conn with
  | None =>
      modify (set_sys_errno EBADF);;  (* Bad file number *)
      ret (-1, [])
  | Some _ =>
      emit (EvConnectionRead size);;
      ret (connection_read H size)
  end.

(** [semihosting_putchar] passes the address of the [int] and a size of 1:
    on a little-endian host that is the low byte of [c]. *)
Definition semihosting_putchar (fd : Z) (c : Z) : M Z :=
  do s <- get id;
  if semihosting_is_redirected s fd then semihosting_redirect_write [c mod 256] 1
  else
    (* default putchar *)
    emit (EvPutchar c);;
    ret (host_putchar H c).

Definition semihosting_read (fd : Z) (size : Z) : M (Z * list Z) :=
  do s <- get id;
  if semihosting_is_redirected s fd then semihosting_redirect_read size
  else
    (* default read *)
    emit (EvRead fd (to_size_t size));;
    let '(r, e, data) := host_read H fd (to_size_t size) in
    when_ (r =? -1) (modify (set_sys_errno e));;
    ret (r, data).

Definition semihosting_getchar (fd : Z) : M Z :=
  do s <- get id;
  if semihosting_is_redirected s fd then
    do (r, data) <- semihosting_redirect_read 1;
    if 0 <? r then ret (default 0 (head data) mod 256) else ret EOF
  else
    (* default getchar *)
    emit EvGetchar;;
    ret (host_getchar H).

(** [exit(code)] when no debugger is attached, a diagnostic otherwise. *)
Definition exit_or_report (code : Z) (msg : string) : M unit :=
  if gdb_get_actual_connections H =? 0 then stop_ (ProcessExit code)
  else emit (EvStderr msg).

(** The common tail of the two exit operations. *)
Definition halt_unless_resumable : M unit :=
  do resumable_exit <- get has_resumable_exit;
  if negb resumable_exit then
    modify (set_is_resumable false);;
    emit (EvTargetCallEventCallbacks TARGET_EVENT_HALTED);;
    return_ (target_call_event_callbacks H TARGET_EVENT_HALTED)
  else skip.

(** *** The cases of the [switch] *)

(* case SEMIHOSTING_SYS_CLOCK *)
Definition sys_clock : M unit :=
  emit EvClock;;
  do start <- get setup_time;
  let delta := host_clock H - start in
  modify (set_result (Z.quot delta (Z.quot CLOCKS_PER_SEC 100))).

(* case SEMIHOSTING_SYS_CLOSE *)
Definition sys_close : M unit :=
  do (retval, fields) <- semihosting_read_fields 1;
  check retval;;
  do field0 <- get_field 0 fields;
  let fd := to_int field0 in
  (* Do not allow to close OpenOCD's own standard streams *)
  if (fd =? 0) || (fd =? 1) || (fd =? 2) then
    (* Just pretend success *)
    modify (set_result 0)
  else
    (* Close the descriptor *)
    do fileio <- get is_fileio;
    if fileio then
      modify (set_hit_fileio true);;
      set_fileio_info "close" (Some (to_uint64 fd)) None None None
    else
      emit (EvClose fd);;
      let '(r, e) := host_close H fd in
      modify (set_result r);;
      when_ (r =? -1) (modify (set_sys_errno e)).

(* case SEMIHOSTING_SYS_ERRNO *)
Definition sys_errno_ : M unit :=
  do e <- get sys_errno;
  modify (set_result e).

(* case SEMIHOSTING_SYS_EXIT *)
Definition sys_exit : M unit :=
  do wsize <- get word_size_bytes;
  (if wsize =? 8 then
     do (retval, fields) <- semihosting_read_fields 2;
     check retval;;
     do field0 <- get_field 0 fields;
     do field1 <- get_field 1 fields;
     let type := to_int field0 in
     let code := to_int field1 in
     if type =? ADP_STOPPED_APPLICATION_EXIT
     then exit_or_report code "semihosting: *** application exited with %d ***"
     else emit (EvStderr "semihosting: application exception %#x")
   else
     do p <- get param;
     if p =? ADP_STOPPED_APPLICATION_EXIT
     then exit_or_report 0 "semihosting: *** application exited normally ***"
     else if p =? ADP_STOPPED_RUN_TIME_ERROR
     then exit_or_report 1 "semihosting: *** application exited with error ***"
     else exit_or_report 1 "semihosting: application exception %#x");;
  halt_unless_resumable.

(* case SEMIHOSTING_SYS_EXIT_EXTENDED *)
Definition sys_exit_extended : M unit :=
  do (retval, fields) <- semihosting_read_fields 2;
  check retval;;
  do field0 <- get_field 0 fields;
  do field1 <- get_field 1 fields;
  let type := to_int field0 in
  let code := to_int field1 in
  (if type =? ADP_STOPPED_APPLICATION_EXIT
   then exit_or_report code "semihosting: *** application exited with %d ***"
   else emit (EvStderr "semihosting: exception %#x"));;
  halt_unless_resumable.

(* case SEMIHOSTING_SYS_FLEN *)
Definition sys_flen : M unit :=
  do fileio <- get is_fileio;
  when_ fileio (modify (set_result (-1));; modify (set_sys_errno EINVAL));;
  do (retval, fields) <- semihosting_read_fields 1;
  check retval;;
  do field0 <- get_field 0 fields;
  let fd := to_int field0 in
  emit (EvFstat fd);;
  let '(r, e, st_size) := host_fstat H fd in
  modify (set_result r);;
  if r =? -1 then modify (set_sys_errno e)
  else modify (set_result st_size).

(* case SEMIHOSTING_SYS_GET_CMDLINE *)
Definition sys_get_cmdline : M unit :=
  do (retval, fields) <- semihosting_read_fields 2;
  check retval;;
  do addr <- get_field 0 fields;
  do size <- get_field 1 fields;
  do cmd <- get cmdline;
  let arg := cstr (default [] cmd) in
  let len := to_uint32 (strlen arg + 1) in
  if size <? len then modify (set_result (-1))
  else
    do fields' <- (λ w, (Val (semihosting_set_field w len 1 fields), w));
    do retval <- target_write_buffer addr len (arg ++ [0]);
    check retval;;
    modify (set_result 0);;
    do retval <- semihosting_write_fields 2 fields';
    check retval.

(* case SEMIHOSTING_SYS_HEAPINFO *)
Definition sys_heapinfo : M unit :=
  do (retval, fields) <- semihosting_read_fields 1;
  check retval;;
  do addr <- get_field 0 fields;
  do wsize <- get word_size_bytes;
  (* tell the remote we have no idea *)
  do retval <- target_write_memory addr 4 wsize [];
  check retval;;
  modify (set_result 0).

(* case SEMIHOSTING_SYS_ISERROR *)
Definition sys_iserror : M unit :=
  do (retval, fields) <- semihosting_read_fields 1;
  check retval;;
  do code <- get_field 0 fields;
  modify (set_result (if code =? 0 then 0 else 1)).

(* case SEMIHOSTING_SYS_ISTTY *)
Definition sys_istty : M unit :=
  do fileio <- get is_fileio;
  if fileio then
    modify (set_hit_fileio true);;
    do p <- get param;
    set_fileio_info "isatty" (Some p) None None None
  else
    do (retval, fields) <- semihosting_read_fields 1;
    check retval;;
    do field0 <- get_field 0 fields;
    let fd := to_int field0 in
    emit (EvIsatty fd);;
    let '(r, e) := host_isatty H fd in
    let result := if r =? 0 then 0 else 1 in
    modify (set_result result);;
    when_ (result =? 0) (modify (set_sys_errno e)).

(** The name that [SYS_OPEN] builds in [fn]: [basedir], a ['/'] unless
    [basedir] already ends in one, then the [len] bytes read from the
    target; nothing is put in front when [basedir] is unset or empty. *)
Definition open_prefix (basedir : option (list Z)) : list Z :=
  let dir := cstr (default [] basedir) in
  let basedir_len := length dir in
  if (0 <? basedir_len)%nat then
    if bool_decide (last dir = Some 47) then dir else dir ++ [47]
  else [].

Definition open_fn (basedir : option (list Z)) (name : list Z) : list Z :=
  cstr (open_prefix basedir ++ name).

(** [SYS_OPEN] once the name is in [fn]: the special names, and the open
    itself on the host or through the frontend. *)
Definition open_by_name (addr len mode : Z) (fn : list Z) : M unit :=
  (* TODO: implement the :semihosting-features special file. *)
  do fileio <- get is_fileio;
  if fileio then
    if streq fn (bytes_of_string ":semihosting-features") then
      modify (set_result (-1));;
      modify (set_sys_errno EINVAL)
    else if streq fn (bytes_of_string ":tt") then
      if mode =? 0 then modify (set_result 0)
      else if mode =? 4 then modify (set_result 1)
      else if mode =? 8 then modify (set_result 2)
      else
        modify (set_result (-1));;
        modify (set_sys_errno EINVAL)
    else
      modify (set_hit_fileio true);;
      set_fileio_info "open" (Some addr) (Some len)
        (Some (modeflag open_gdb_modeflags mode)) (Some 420 (* 0644 *))
  else
    if streq fn (bytes_of_string ":tt") then
      (* Mode is: 0-3 ("r") for stdin, 4-7 ("w") for stdout,
         8-11 ("a") for stderr *)
      do fd <-
        (if mode <? 4 then
           emit (EvDup STDIN_FILENO);;
           let '(fd, e) := host_dup H STDIN_FILENO in
           modify (set_stdin_fd fd);; ret (fd, e)
         else if mode <? 8 then
           emit (EvDup STDOUT_FILENO);;
           let '(fd, e) := host_dup H STDOUT_FILENO in
           modify (set_stdout_fd fd);; ret (fd, e)
         else
           emit (EvDup STDERR_FILENO);;
           let '(fd, e) := host_dup H STDERR_FILENO in
           modify (set_stderr_fd fd);; ret (fd, e));
      modify (set_result (fst fd));;
      when_ (fst fd =? -1) (modify (set_sys_errno (snd fd)))
    else
      let flags := modeflag open_host_modeflags mode in
      emit (EvOpen fn flags 420 (* 0644 *));;
      let '(r, e) := host_open H fn flags 420 in
      modify (set_result r);;
      when_ (r =? -1) (modify (set_sys_errno e)).

(* case SEMIHOSTING_SYS_OPEN *)
Definition sys_open : M unit :=
  do (retval, fields) <- semihosting_read_fields 3;
  check retval;;
  do addr <- get_field 0 fields;
  do field1 <- get_field 1 fields;
  do len <- get_field 2 fields;
  let mode := to_uint32 field1 in
  if 11 <? mode then
    modify (set_result (-1));;
    modify (set_sys_errno EINVAL)
  else
    do dir <- get basedir;
    let basedir_len := strlen (default [] dir) in
    if negb (malloc_ok H (to_size_t (basedir_len + len + 2))) then
      modify (set_result (-1));;
      modify (set_sys_errno ENOMEM)
    else
      do (retval, name) <- target_read_memory addr 1 len;
      check retval;;
      open_by_name addr len mode (open_fn dir name).

(* case SEMIHOSTING_SYS_READ *)
Definition sys_read : M unit :=
  do (retval, fields) <- semihosting_read_fields 3;
  check retval;;
  do field0 <- get_field 0 fields;
  do addr <- get_field 1 fields;
  do len <- get_field 2 fields;
  let fd := to_int field0 in
  do fileio <- get is_fileio;
  if fileio then
    modify (set_hit_fileio true);;
    set_fileio_info "read" (Some (to_uint64 fd)) (Some addr) (Some len) None
  else
    if negb (malloc_ok H len) then
      modify (set_result (-1));;
      modify (set_sys_errno ENOMEM)
    else
      do (r, buf) <- semihosting_read fd (to_int len);
      modify (set_result r);;
      when_ (0 <=? r)
        (do retval <- target_write_buffer addr r buf;
         check retval;;
         (* the number of bytes NOT filled in *)
         modify (set_result (to_int64 (len - r)))).

(* case SEMIHOSTING_SYS_READC *)
Definition sys_readc : M unit :=
  do fileio <- get is_fileio;
  if fileio then return_ ERROR_FAIL
  else
    do fd <- get stdin_fd;
    do c <- semihosting_getchar fd;
    modify (set_result c).

(* case SEMIHOSTING_SYS_REMOVE *)
Definition sys_remove : M unit :=
  do (retval, fields) <- semihosting_read_fields 2;
  check retval;;
  do addr <- get_field 0 fields;
  do len <- get_field 1 fields;
  do fileio <- get is_fileio;
  if fileio then
    modify (set_hit_fileio true);;
    set_fileio_info "unlink" (Some addr) (Some len) None None
  else
    if negb (malloc_ok H (to_size_t (len + 1))) then
      modify (set_result (-1));;
      modify (set_sys_errno ENOMEM)
    else
      do (retval, fn) <- target_read_memory addr 1 len;
      check retval;;
      emit (EvRemove (cstr fn));;
      let '(r, e) := host_remove H (cstr fn) in
      modify (set_result r);;
      when_ (r =? -1) (modify (set_sys_errno e)).

(* case SEMIHOSTING_SYS_RENAME *)
Definition sys_rename : M unit :=
  do (retval, fields) <- semihosting_read_fields 4;
  check retval;;
  do addr1 <- get_field 0 fields;
  do len1 <- get_field 1 fields;
  do addr2 <- get_field 2 fields;
  do len2 <- get_field 3 fields;
  do fileio <- get is_fileio;
  if fileio then
    modify (set_hit_fileio true);;
    set_fileio_info "rename" (Some addr1) (Some len1) (Some addr2) (Some len2)
  else
    if negb (malloc_ok H (to_size_t (len1 + 1)))
       || negb (malloc_ok H (to_size_t (len2 + 1))) then
      modify (set_result (-1));;
      modify (set_sys_errno ENOMEM)
    else
      do (retval, fn1) <- target_read_memory addr1 1 len1;
      check retval;;
      do (retval, fn2) <- target_read_memory addr2 1 len2;
      check retval;;
      emit (EvRename (cstr fn1) (cstr fn2));;
      let '(r, e) := host_rename H (cstr fn1) (cstr fn2) in
      modify (set_result r);;
      (* rename() on Windows returns nonzero on error *)
      when_ (negb (r =? 0)) (modify (set_sys_errno e)).

(* case SEMIHOSTING_SYS_SEEK *)
Definition sys_seek : M unit :=
  do (retval, fields) <- semihosting_read_fields 2;
  check retval;;
  do field0 <- get_field 0 fields;
  do field1 <- get_field 1 fields;
  let fd := to_int field0 in
  let pos := to_int64 field1 in
  do fileio <- get is_fileio;
  if fileio then
    modify (set_hit_fileio true);;
    set_fileio_info "lseek" (Some (to_uint64 fd)) (Some (to_uint64 pos))
      (Some SEEK_SET) None
  else
    emit (EvLseek fd pos);;
    let '(r, e) := host_lseek H fd pos in
    modify (set_result r);;
    when_ (r =? -1) (modify (set_sys_errno e));;
    when_ (r =? pos) (modify (set_result 0)).

(* case SEMIHOSTING_SYS_SYSTEM *)
Definition sys_system : M unit :=
  do (retval, fields) <- semihosting_read_fields 2;
  check retval;;
  do addr <- get_field 0 fields;
  do len <- get_field 1 fields;
  do fileio <- get is_fileio;
  if fileio then
    modify (set_hit_fileio true);;
    set_fileio_info "system" (Some addr) (Some len) None None
  else
    if negb (malloc_ok H (to_size_t (len + 1))) then
      modify (set_result (-1));;
      modify (set_sys_errno ENOMEM)
    else
      do (retval, cmd) <- target_read_memory addr 1 len;
      check retval;;
      emit (EvSystem (cstr cmd));;
      modify (set_result (host_system H (cstr cmd))).

(* case SEMIHOSTING_SYS_TIME *)
Definition sys_time : M unit :=
  emit EvTime;;
  modify (set_result (host_time H)).

(* case SEMIHOSTING_SYS_WRITE *)
Definition sys_write : M unit :=
  do (retval, fields) <- semihosting_read_fields 3;
  check retval;;
  do field0 <- get_field 0 fields;
  do addr <- get_field 1 fields;
  do len <- get_field 2 fields;
  let fd := to_int field0 in
  do fileio <- get is_fileio;
  if fileio then
    modify (set_hit_fileio true);;
    set_fileio_info "write" (Some (to_uint64 fd)) (Some addr) (Some len) None
  else
    if negb (malloc_ok H len) then
      modify (set_result (-1));;
      modify (set_sys_errno ENOMEM)
    else
      do (retval, buf) <- target_read_buffer addr len;
      check retval;;
      do r <- semihosting_write fd buf (to_int len);
      modify (set_result r);;
      when_ (0 <=? r)
        (* The number of bytes that are NOT written. *)
        (modify (set_result (to_int64 (len - r)))).

(* case SEMIHOSTING_SYS_WRITEC *)
Definition sys_writec : M unit :=
  do fileio <- get is_fileio;
  if fileio then
    modify (set_hit_fileio true);;
    do p <- get param;
    set_fileio_info "write" (Some 1) (Some p) (Some 1) None
  else
    do addr <- get param;
    do (retval, c) <- target_read_memory addr 1 1;
    check retval;;
    do fd <- get stdout_fd;
    semihosting_putchar fd (default 0 (head c));;
    modify (set_result 0).

(** The two loops of [SYS_WRITE0] walk the target's memory up to the first
    zero byte.  [fuel] bounds the number of bytes visited; the dispatcher
    gives one more than the number of accessible bytes, which the walk
    cannot exhaust (see [write0_count_total] and [write0_print_total]). *)
Fixpoint write0_count (fuel : nat) (addr count : Z) : M Z :=
  match fuel with
  | O => stop_ OutOfFuel
  | S fuel' =>
      do (retval, c) <- target_read_memory addr 1 1;
      check retval;;
      if default 0 (head c) =? 0 then ret count
      else write0_count fuel' (addr + 1) (count + 1)
  end.

Fixpoint write0_print (fuel : nat) (addr : Z) : M unit :=
  match fuel with
  | O => stop_ OutOfFuel
  | S fuel' =>
      do (retval, c) <- target_read_memory addr 1 1;
      check retval;;
      if default 0 (head c) =? 0 then skip
      else
        do fd <- get stdout_fd;
        semihosting_putchar fd (default 0 (head c));;
        write0_print fuel' (addr + 1)
  end.

Definition enough_fuel : M nat := λ w, (Val (S (size (mem w))), w).

(* case SEMIHOSTING_SYS_WRITE0 *)
Definition sys_write0 : M unit :=
  do fileio <- get is_fileio;
  do fuel <- enough_fuel;
  if fileio then
    do addr <- get param;
    do count <- write0_count fuel addr 0;
    modify (set_hit_fileio true);;
    set_fileio_info "write" (Some 1) (Some addr) (Some count) None
  else
    do addr <- get param;
    write0_print fuel addr;;
    modify (set_result 0).

Definition set_user_op_params (p : option (list Z)) : M unit :=
  λ w, (Val tt, with_user_op_params p w).

(* case SEMIHOSTING_USER_CMD_0X100 ... SEMIHOSTING_USER_CMD_0X107 *)
Definition sys_user_cmd : M unit :=
  do ext <- get user_command_extension;
  do handled <-
    (if ext then
       emit EvUserCommandExtension;;
       do retval <- (λ w, let '(r, s) := user_command_extension_run H (sh w) in
                          (Val r, with_sh (λ _, s) w));
       ret (negb (retval =? ERROR_NOT_IMPLEMENTED))
     else ret false);
  if (handled : bool) then skip
  else
    (* If custom user command not handled, we are looking for the TCL handler *)
    do pending <- (λ w, (Val (semihosting_user_op_params w), w));
    (if pending is Some _ then stop_ AssertFailure else skip);;
    do (retval, fields) <- semihosting_read_fields 2;
    check retval;;
    do addr <- get_field 0 fields;
    do len <- get_field 1 fields;
    if SEMIHOSTING_MAX_TCL_COMMAND_FIELD_LENGTH <? len then return_ ERROR_FAIL
    else if negb (malloc_ok H (to_size_t (len + 1))) then return_ ERROR_FAIL
    else
      do (retval, buf) <- target_read_buffer addr len;
      check retval;;
      set_user_op_params (Some (buf ++ [0]));;
      do opc <- get op;
      emit (EvTargetHandleEvent opc);;
      set_user_op_params None;;
      modify (set_result 0).

(* default:, with SYS_ELAPSED, SYS_TICKFREQ and SYS_TMPNAM falling into it *)
Definition sys_unsupported : M unit :=
  emit (EvStderr "semihosting: unsupported call %#x");;
  modify (set_result (-1));;
  modify (set_sys_errno ENOTSUP).

(** The [switch (semihosting->op)]. *)
Definition handler (opc : Z) : M unit :=
  if opc =? SEMIHOSTING_SYS_CLOCK then sys_clock
  else if opc =? SEMIHOSTING_SYS_CLOSE then sys_close
  else if opc =? SEMIHOSTING_SYS_ERRNO then sys_errno_
  else if opc =? SEMIHOSTING_SYS_EXIT then sys_exit
  else if opc =? SEMIHOSTING_SYS_EXIT_EXTENDED then sys_exit_extended
  else if opc =? SEMIHOSTING_SYS_FLEN then sys_flen
  else if opc =? SEMIHOSTING_SYS_GET_CMDLINE then sys_get_cmdline
  else if opc =? SEMIHOSTING_SYS_HEAPINFO then sys_heapinfo
  else if opc =? SEMIHOSTING_SYS_ISERROR then sys_iserror
  else if opc =? SEMIHOSTING_SYS_ISTTY then sys_istty
  else if opc =? SEMIHOSTING_SYS_OPEN then sys_open
  else if opc =? SEMIHOSTING_SYS_READ then sys_read
  else if opc =? SEMIHOSTING_SYS_READC then sys_readc
  else if opc =? SEMIHOSTING_SYS_REMOVE then sys_remove
  else if opc =? SEMIHOSTING_SYS_RENAME then sys_rename
  else if opc =? SEMIHOSTING_SYS_SEEK then sys_seek
  else if opc =? SEMIHOSTING_SYS_SYSTEM then sys_system
  else if opc =? SEMIHOSTING_SYS_TIME then sys_time
  else if opc =? SEMIHOSTING_SYS_WRITE then sys_write
  else if opc =? SEMIHOSTING_SYS_WRITEC then sys_writec
  else if opc =? SEMIHOSTING_SYS_WRITE0 then sys_write0
  else if (SEMIHOSTING_USER_CMD_0X100 <=? opc) && (opc <=? SEMIHOSTING_USER_CMD_0X107)
  then sys_user_cmd
  else sys_unsupported.

(** What [semihosting_common] does before the [switch] ... *)
Definition prologue : M unit :=
  (* By default return an error.  The actual result must be set by each
     function *)
  modify (set_result (-1));;
  (* Most operations are resumable, except the two exit calls. *)
  modify (set_is_resumable true).

(** ... and after it. *)
Definition epilogue : M Z :=
  do hit <- get hit_fileio;
  (if negb hit then
     emit EvPostResult;;
     check (post_result H)
   else skip);;
  ret ERROR_OK.

(** [semihosting_common], for a target that has a semihosting state (for
    one that has none the function returns [ERROR_OK] at once).  [Val r]
    and [Return r] both stand for the C function returning [r]: the first
    from its last line, the second from a [return] further up. *)
Definition semihosting_common : M Z :=
  prologue;;
  do opc <- get op;
  handler opc;;
  epilogue.

(** [semihosting_common_fileio_end], the frontend's completion call. *)
Definition semihosting_common_fileio_end (result_ fileio_errno : Z) (ctrl_c : bool) : M Z :=
  (* clear pending status *)
  modify (set_hit_fileio false);;
  modify (set_result result_);;
  do opc <- get op;
  do info <- (λ w, (Val (fileio_info w), w));
  (if (opc =? SEMIHOSTING_SYS_WRITE) || (opc =? SEMIHOSTING_SYS_READ) then
     if result_ <? 0 then
       modify (set_result (to_int64 (param_3 info)))  (* Zero bytes read/written. *)
     else
       modify (set_result (to_int64 (to_int64 (param_3 info) - result_)))
   else if opc =? SEMIHOSTING_SYS_SEEK then
     when_ (0 <? result_) (modify (set_result 0))
   else skip);;
  do r <- get result;
  let fileio_failed :=
    if opc =? SEMIHOSTING_SYS_ISTTY then r =? 0
    else if opc =? SEMIHOSTING_SYS_RENAME then negb (r =? 0)
    else r =? -1 in
  when_ fileio_failed (modify (set_sys_errno fileio_errno));;
  emit EvPostResult;;
  ret (post_result H).

(** [semihosting_common_fileio_info]. *)
Definition semihosting_common_fileio_info (s : semihosting) : Z :=
  if negb (is_fileio s) || negb (hit_fileio s) then ERROR_FAIL else ERROR_OK.

End Dispatcher.

End Semihosting.

(** ** Initialisation, the redirection service and the commands

    The rest of [semihosting_common.c]: [semihosting_common_init], the
    handlers of the TCP service that carries the redirected streams, and
    the handlers of the [semihosting ...] commands. *)

Module SemihostingCommands.
Import Semihosting.

Definition set_is_active (v : bool) (s : semihosting) : semihosting :=
  mk_semihosting v (redirect_cfg s) (tcp_connection s) (stdin_fd s)
    (stdout_fd s) (stderr_fd s) (is_fileio s) (hit_fileio s) (is_resumable s)
    (has_resumable_exit s) (word_size_bytes s) (op s) (param s) (result s)
    (sys_errno s) (cmdline s) (basedir s) (setup_time s)
    (user_command_extension s).

Definition set_redirect_cfg (v : semihosting_redirect_config) (s : semihosting) :
    semihosting :=
  mk_semihosting (is_active s) v (tcp_connection s) (stdin_fd s)
    (stdout_fd s) (stderr_fd s) (is_fileio s) (hit_fileio s) (is_resumable s)
    (has_resumable_exit s) (word_size_bytes s) (op s) (param s) (result s)
    (sys_errno s) (cmdline s) (basedir s) (setup_time s)
    (user_command_extension s).

Definition set_tcp_connection (v : option Z) (s : semihosting) : semihosting :=
  mk_semihosting (is_active s) (redirect_cfg s) v (stdin_fd s)
    (stdout_fd s) (stderr_fd s) (is_fileio s) (hit_fileio s) (is_resumable s)
    (has_resumable_exit s) (word_size_bytes s) (op s) (param s) (result s)
    (sys_errno s) (cmdline s) (basedir s) (setup_time s)
    (user_command_extension s).

Definition set_is_fileio (v : bool) (s : semihosting) : semihosting :=
  mk_semihosting (is_active s) (redirect_cfg s) (tcp_connection s) (stdin_fd s)
    (stdout_fd s) (stderr_fd s) v (hit_fileio s) (is_resumable s)
    (has_resumable_exit s) (word_size_bytes s) (op s) (param s) (result s)
    (sys_errno s) (cmdline s) (basedir s) (setup_time s)
    (user_command_extension s).

Definition set_has_resumable_exit (v : bool) (s : semihosting) : semihosting :=
  mk_semihosting (is_active s) (redirect_cfg s) (tcp_connection s) (stdin_fd s)
    (stdout_fd s) (stderr_fd s) (is_fileio s) (hit_fileio s) (is_resumable s)
    v (word_size_bytes s) (op s) (param s) (result s)
    (sys_errno s) (cmdline s) (basedir s) (setup_time s)
    (user_command_extension s).

Definition set_cmdline (v : option (list Z)) (s : semihosting) : semihosting :=
  mk_semihosting (is_active s) (redirect_cfg s) (tcp_connection s) (stdin_fd s)
    (stdout_fd s) (stderr_fd s) (is_fileio s) (hit_fileio s) (is_resumable s)
    (has_resumable_exit s) (word_size_bytes s) (op s) (param s) (result s)
    (sys_errno s) v (basedir s) (setup_time s)
    (user_command_extension s).

Definition set_basedir (v : option (list Z)) (s : semihosting) : semihosting :=
  mk_semihosting (is_active s) (redirect_cfg s) (tcp_connection s) (stdin_fd s)
    (stdout_fd s) (stderr_fd s) (is_fileio s) (hit_fileio s) (is_resumable s)
    (has_resumable_exit s) (word_size_bytes s) (op s) (param s) (result s)
    (sys_errno s) (cmdline s) v (setup_time s)
    (user_command_extension s).

(** *** [semihosting_common_init]

    The two allocations can fail; [clock] is what [clock()] returns.  The
    function yields its return value, [target->fileio_info] and
    [target->semihosting] (for a target that had neither). *)
Definition semihosting_common_init (fileio_info_alloc semihosting_alloc : bool)
    (clock : Z) : Z * option gdb_fileio_info * option semihosting :=
  if negb fileio_info_alloc then (ERROR_FAIL, None, None)
  else
    let info := mk_fileio_info "" 0 0 0 0 in   (* memset(..., 0, ...) *)
    if negb semihosting_alloc then (ERROR_FAIL, Some info, None)
    else
      (ERROR_OK, Some info,
       Some (mk_semihosting
               false                           (* is_active *)
               SEMIHOSTING_REDIRECT_CFG_NONE   (* redirect_cfg *)
               None                            (* tcp_connection *)
               (-1) (-1) (-1)                  (* stdin_fd, stdout_fd, stderr_fd *)
               false false                     (* is_fileio, hit_fileio *)
               false false                     (* is_resumable, has_resumable_exit *)
               0                               (* word_size_bytes *)
               (-1)                            (* op *)
               0                               (* param *)
               (-1) (-1)                       (* result, sys_errno *)
               None None                       (* cmdline, basedir *)
               clock                           (* setup_time *)
               false)).                        (* user_command_extension *)

(** *** The TCP service

    [semihosting_service_new_connection_handler] makes the new connection
    the redirection's client. *)
Definition semihosting_service_new_connection_handler (connection : Z)
    (s : semihosting) : Z * semihosting :=
  (ERROR_OK, set_tcp_connection (Some connection) s).

(** [semihosting_service_input_handler], given [connection->input_pending],
    [service->error] and what a [connection_read] of up to 100 bytes
    would return. *)
Definition semihosting_service_input_handler (input_pending : bool)
    (service_error : Z) (bytes_read : Z) : Z :=
  if negb input_pending then
    (* consume received data, not for semihosting IO *)
    if bytes_read =? 0 then ERROR_SERVER_REMOTE_CLOSED
    else if bytes_read =? -1 then ERROR_SERVER_REMOTE_CLOSED
    else ERROR_OK
  else if negb (service_error =? ERROR_OK) then ERROR_SERVER_REMOTE_CLOSED
  else ERROR_OK.

(** *** The commands *)

(** What a command says and which collaborators it calls.  A [%s] of a
    format is recorded with the string it is given, [None] for a null
    pointer. *)
Inductive command_event :=
  | EvCommandPrint (format : string) (arg : option (list Z))
  | EvCommandPrintSameline (format : string) (arg : option (list Z))
  | EvLogError (message : string)
  | EvSetup (is_active : bool)          (* semihosting->setup(target, is_active) *)
  | EvRemoveService                     (* remove_service(name, port) *)
  | EvAddService (port : list Z).       (* add_service(&driver, port, 1, service) *)

Global Instance command_event_eq_dec : EqDecision command_event.
Proof. solve_decision. Defined.

(** The collaborators of the commands.  [command_parse_bool_arg] stands
    for the macro [COMMAND_PARSE_ENABLE] of [helper/command.h], which is
    not among the sources: it parses its argument and, when that fails,
    makes the handler return the error code (what it prints then is not
    recorded).  The allocation oracles are asked about the string to be
    allocated. *)
Record command_env := mk_command_env {
  command_parse_bool_arg : list Z → Z * bool;
  target_was_examined : bool;
  setup : bool → Z;
  calloc_service_ok : bool;
  alloc_printf_ok : list Z → bool;
  strdup_ok : list Z → bool;
  add_service : list Z → Z;
}.

(** What a command works on: whether a target is selected, its
    [target->semihosting] ([None] for a null pointer), the module-scope
    [semihosting_user_op_params], and the events so far (most recent
    first). *)
Record command_state := mk_command_state {
  current_target : bool;
  target_semihosting : option semihosting;
  user_op_params : option (list Z);
  output : list command_event;
}.

Abbreviation C := (prog command_state).

Definition say (e : command_event) : C unit := λ st,
  (Val tt, mk_command_state (current_target st) (target_semihosting st)
             (user_op_params st) (e :: output st)).

Definition command_print (format : string) (arg : option (list Z)) : C unit :=
  say (EvCommandPrint format arg).

Definition LOG_ERROR (message : string) : C unit := say (EvLogError message).

(** [semihosting->field = ...] on the current target's state. *)
Definition update (f : semihosting → semihosting) : C unit := λ st,
  match target_semihosting st with
  | Some s =>
      (Val tt, mk_command_state (current_target st) (Some (f s))
                 (user_op_params st) (output st))
  | None => (Stop Undefined, st)
  end.

(** [target->semihosting] of the current target, dereferenced. *)
Definition the_semihosting : C semihosting := λ st,
  match target_semihosting st with
  | Some s => (Val s, st)
  | None => (Stop Undefined, st)
  end.

(** The tests that most handlers start with: a target is selected and it
    has a semihosting state. *)
Definition require_semihosting : C unit := λ st,
  if negb (current_target st) then
    (LOG_ERROR "No target selected";; return_ ERROR_FAIL) st
  else if target_semihosting st is None then
    (command_print "semihosting not supported for current target" None;;
     return_ ERROR_FAIL) st
  else (Val tt, st).

Definition require_active : C unit :=
  do s <- the_semihosting;
  if negb (is_active s) then
    command_print "semihosting not yet enabled for current target" None;;
    return_ ERROR_FAIL
  else skip.

Definition on_off (b : bool) : option (list Z) :=
  Some (bytes_of_string (if b then "enabled" else "disabled")).

Definition strdup (E : command_env) (s : list Z) : option (list Z) :=
  if strdup_ok E (cstr s) then Some (cstr s) else None.

Definition CMD_ARGC (argv : list (list Z)) : Z := Z.of_nat (length argv).

Section Commands.

Variable E : command_env.

(** [COMMAND_PARSE_ENABLE(CMD_ARGV[0], out)]. *)
Definition COMMAND_PARSE_ENABLE (arg : list Z) : C bool :=
  let '(retval, value) := command_parse_bool_arg E arg in
  if negb (retval =? ERROR_OK) then return_ retval else ret value.

(** [handle_common_semihosting_command]. *)
Definition handle_common_semihosting_command (argv : list (list Z)) : C Z :=
  require_semihosting;;
  (match argv with
   | arg0 :: _ =>
       do is_active_ <- COMMAND_PARSE_ENABLE arg0;
       if negb (target_was_examined E) then
         LOG_ERROR "Target not examined yet";;
         return_ ERROR_FAIL
       else
         say (EvSetup is_active_);;
         if negb (setup E is_active_ =? ERROR_OK) then
           LOG_ERROR "Failed to Configure semihosting";;
           return_ ERROR_FAIL
         else
           (* FIXME never let that "catch" be dropped! (???) *)
           update (set_is_active is_active_)
   | [] => skip
   end);;
  do s <- the_semihosting;
  command_print "semihosting is %s" (on_off (is_active s));;
  ret ERROR_OK.

(** [semihosting_tcp_close_cnx]. *)
Definition semihosting_tcp_close_cnx : C unit :=
  do s <- the_semihosting;
  if tcp_connection s is Some _ then
    say EvRemoveService;;
    update (set_tcp_connection None)
  else skip.

(** The parsing of the arguments of [semihosting_redirect]: the
    configuration asked for and, for [tcp], the port. *)
Definition redirect_arguments (argv : list (list Z)) :
    C (semihosting_redirect_config * list Z) :=
  let argc := CMD_ARGC argv in
  if argc <? 1 then return_ ERROR_COMMAND_SYNTAX_ERROR
  else
    let arg n := default [] (argv !! n) in
    if streq (arg 0%nat) (bytes_of_string "disable") then
      if 1 <? argc then return_ ERROR_COMMAND_SYNTAX_ERROR
      else ret (SEMIHOSTING_REDIRECT_CFG_NONE, [])
    else if streq (arg 0%nat) (bytes_of_string "tcp") then
      if (argc <? 2) || (3 <? argc) then return_ ERROR_COMMAND_SYNTAX_ERROR
      else
        let port := arg 1%nat in
        if argc =? 3 then
          if streq (arg 2%nat) (bytes_of_string "debug")
          then ret (SEMIHOSTING_REDIRECT_CFG_DEBUG, port)
          else if streq (arg 2%nat) (bytes_of_string "stdio")
          then ret (SEMIHOSTING_REDIRECT_CFG_STDIO, port)
          else if negb (streq (arg 2%nat) (bytes_of_string "all"))
          then return_ ERROR_COMMAND_SYNTAX_ERROR
          else ret (SEMIHOSTING_REDIRECT_CFG_ALL, port)
        else ret (SEMIHOSTING_REDIRECT_CFG_ALL, port)
    else return_ ERROR_COMMAND_SYNTAX_ERROR.

(** [handle_common_semihosting_redirect_command]. *)
Definition handle_common_semihosting_redirect_command (argv : list (list Z)) :
    C Z :=
  require_semihosting;;
  require_active;;
  do (cfg, port) <- redirect_arguments argv;
  semihosting_tcp_close_cnx;;
  update (set_redirect_cfg SEMIHOSTING_REDIRECT_CFG_NONE);;
  (if negb (bool_decide (cfg = SEMIHOSTING_REDIRECT_CFG_NONE)) then
     if negb (calloc_service_ok E) then
       LOG_ERROR "Failed to allocate semihosting TCP service.";;
       return_ ERROR_FAIL
     else if negb (alloc_printf_ok E (bytes_of_string "%s semihosting service")) then
       LOG_ERROR "Out of memory";;
       return_ ERROR_FAIL
     else
       say (EvAddService port);;
       if negb (add_service E port =? ERROR_OK) then
         LOG_ERROR "failed to initialize %s";;
         return_ ERROR_FAIL
       else skip
   else skip);;
  update (set_redirect_cfg cfg);;
  ret ERROR_OK.

(** [handle_common_semihosting_fileio_command]. *)
Definition handle_common_semihosting_fileio_command (argv : list (list Z)) : C Z :=
  require_semihosting;;
  require_active;;
  (match argv with
   | arg0 :: _ =>
       do value <- COMMAND_PARSE_ENABLE arg0;
       update (set_is_fileio value)
   | [] => skip
   end);;
  do s <- the_semihosting;
  command_print "semihosting fileio is %s" (on_off (is_fileio s));;
  ret ERROR_OK.

(** The loop of [handle_common_semihosting_cmdline] over the arguments
    after the first: each is appended after a space; the loop is left
    when an allocation fails. *)
Fixpoint cmdline_append (args : list (list Z)) : C unit :=
  match args with
  | [] => skip
  | arg :: rest =>
      do s <- the_semihosting;
      match cmdline s with
      | None => stop_ Undefined   (* "%s" of a null pointer *)
      | Some line =>
          let cmdline_ := cstr line ++ bytes_of_string " " ++ cstr arg in
          if negb (alloc_printf_ok E cmdline_) then skip   (* break *)
          else
            update (set_cmdline (Some cmdline_));;
            cmdline_append rest
      end
  end.

(** [handle_common_semihosting_cmdline]. *)
Definition handle_common_semihosting_cmdline (argv : list (list Z)) : C Z :=
  require_semihosting;;
  update (set_cmdline (if argv is arg0 :: _ then strdup E arg0 else None));;
  cmdline_append (tail argv);;
  do s <- the_semihosting;
  command_print "semihosting command line is [%s]" (cmdline s);;
  ret ERROR_OK.

(** [handle_common_semihosting_resumable_exit_command]. *)
Definition handle_common_semihosting_resumable_exit_command
    (argv : list (list Z)) : C Z :=
  require_semihosting;;
  require_active;;
  (match argv with
   | arg0 :: _ =>
       do value <- COMMAND_PARSE_ENABLE arg0;
       update (set_has_resumable_exit value)
   | [] => skip
   end);;
  do s <- the_semihosting;
  command_print "semihosting resumable exit is %s" (on_off (has_resumable_exit s));;
  ret ERROR_OK.

(** [handle_common_semihosting_read_user_param_command]: the target and
    its semihosting state are used without a test. *)
Definition handle_common_semihosting_read_user_param_command
    (argv : list (list Z)) : C Z :=
  do selected <- (λ st, (Val (current_target st), st));
  if negb (selected : bool) then stop_ Undefined
  else if negb (CMD_ARGC argv =? 0) then return_ ERROR_COMMAND_SYNTAX_ERROR
  else
    do s <- the_semihosting;
    if negb (is_active s) then
      LOG_ERROR "semihosting not yet enabled for current target";;
      return_ ERROR_FAIL
    else
      do params <- (λ st, (Val (user_op_params st), st));
      match params with
      | None =>
          LOG_ERROR
            "This command is usable only from a registered user semihosting event callback.";;
          return_ ERROR_FAIL
      | Some p =>
          say (EvCommandPrintSameline "%s" (Some (cstr p)));;
          ret ERROR_OK
      end.

(** [handle_common_semihosting_basedir_command]. *)
Definition handle_common_semihosting_basedir_command (argv : list (list Z)) : C Z :=
  if 1 <? CMD_ARGC argv then return_ ERROR_COMMAND_SYNTAX_ERROR
  else
    require_semihosting;;
    require_active;;
    (match argv with
     | arg0 :: _ =>
         update (set_basedir (strdup E arg0));;
         if strdup E arg0 is None then
           command_print "semihosting failed to allocate memory for basedir!" None;;
           return_ ERROR_FAIL
         else skip
     | [] => skip
     end);;
    do s <- the_semihosting;
    command_print "semihosting base dir: %s"
      (Some (default [] (basedir s)));;
    ret ERROR_OK.

End Commands.

End SemihostingCommands.

(** * Part II: the TPIU/SWO controller ([arm_tpiu_swo.c]) *)

Module Tpiu.

Definition TCP_SERVICE_NAME : string := "tpiu_swo_trace".

(* default for Cortex-M3 and Cortex-M4 specific TPIU *)
Definition TPIU_SWO_DEFAULT_BASE : Z := 0xE0040000.

Definition TPIU_SSPSR_OFFSET : Z := 0x000.
Definition TPIU_CSPSR_OFFSET : Z := 0x004.
Definition TPIU_ACPR_OFFSET : Z := 0x010.
Definition TPIU_SPPR_OFFSET : Z := 0x0F0.
Definition TPIU_FFSR_OFFSET : Z := 0x300.
Definition TPIU_FFCR_OFFSET : Z := 0x304.
Definition TPIU_FSCR_OFFSET : Z := 0x308.
Definition TPIU_DEVID_OFFSET : Z := 0xfc8.

Definition TPIU_ACPR_MAX_PRESCALER : Z := 0x1fff.

(** Modelled from the spec: the values of [TPIU_PIN_PROTOCOL_SYNC],
    [TPIU_PIN_PROTOCOL_ASYNC_MANCHESTER] and [TPIU_PIN_PROTOCOL_ASYNC_UART]
    are declared in [arm_tpiu_swo.h], which is not among the sources; they
    are the values of the SPPR register (scenario S5 of the specification
    has [SPPR=2] for the UART protocol). *)
Definition TPIU_SPPR_PROTOCOL_SYNC : Z := 0.
Definition TPIU_SPPR_PROTOCOL_MANCHESTER : Z := 1.
Definition TPIU_SPPR_PROTOCOL_UART : Z := 2.

Definition TPIU_DEVID_NOSUPPORT_SYNC : Z := BIT 9.
Definition TPIU_DEVID_SUPPORT_MANCHESTER : Z := BIT 10.
Definition TPIU_DEVID_SUPPORT_UART : Z := BIT 11.

Definition JIM_OK : Z := 0.
Definition JIM_ERR : Z := 1.
Definition JIM_RETURN : Z := 2.

Inductive arm_tpiu_swo_event :=
  | TPIU_SWO_EVENT_PRE_ENABLE
  | TPIU_SWO_EVENT_POST_ENABLE
  | TPIU_SWO_EVENT_PRE_DISABLE
  | TPIU_SWO_EVENT_POST_DISABLE.

Global Instance arm_tpiu_swo_event_eq_dec : EqDecision arm_tpiu_swo_event.
Proof. solve_decision. Defined.

(** [struct arm_tpiu_swo_event_action]; the chain through [next] is a
    list, the interpreter is the one of the environment. *)
Record arm_tpiu_swo_event_action := mk_event_action {
  ea_event : arm_tpiu_swo_event;
  ea_body : string;
}.

(** [struct arm_tpiu_swo_object].  [ap] and [file] are [None] for the null
    pointer; [spot_dap], [spot_ap_num] and [spot_base] are the
    [adiv5_mem_ap_spot]. *)
Record arm_tpiu_swo_object := mk_object {
  spot_dap : Z;
  spot_ap_num : Z;
  spot_base : Z;
  ap : option Z;
  name : string;
  event_action : list arm_tpiu_swo_event_action;
  deferred_enable : bool;
  enabled : bool;
  en_capture : bool;
  port_width : Z;
  file : option Z;
  pin_protocol : Z;
  en_formatter : bool;
  traceclkin_freq : Z;
  swo_pin_freq : Z;
  out_filename : string;
  connections : list Z;
  recheck_ap_cur_target : bool;
}.

Definition set_ap (v : option Z) (o : arm_tpiu_swo_object) :=
  mk_object (spot_dap o) (spot_ap_num o) (spot_base o) v (name o)
    (event_action o) (deferred_enable o) (enabled o) (en_capture o)
    (port_width o) (file o) (pin_protocol o) (en_formatter o)
    (traceclkin_freq o) (swo_pin_freq o) (out_filename o) (connections o)
    (recheck_ap_cur_target o).
Definition set_deferred_enable (v : bool) (o : arm_tpiu_swo_object) :=
  mk_object (spot_dap o) (spot_ap_num o) (spot_base o) (ap o) (name o)
    (event_action o) v (enabled o) (en_capture o)
    (port_width o) (file o) (pin_protocol o) (en_formatter o)
    (traceclkin_freq o) (swo_pin_freq o) (out_filename o) (connections o)
    (recheck_ap_cur_target o).
Definition set_enabled (v : bool) (o : arm_tpiu_swo_object) :=
  mk_object (spot_dap o) (spot_ap_num o) (spot_base o) (ap o) (name o)
    (event_action o) (deferred_enable o) v (en_capture o)
    (port_width o) (file o) (pin_protocol o) (en_formatter o)
    (traceclkin_freq o) (swo_pin_freq o) (out_filename o) (connections o)
    (recheck_ap_cur_target o).
Definition set_en_capture (v : bool) (o : arm_tpiu_swo_object) :=
  mk_object (spot_dap o) (spot_ap_num o) (spot_base o) (ap o) (name o)
    (event_action o) (deferred_enable o) (enabled o) v
    (port_width o) (file o) (pin_protocol o) (en_formatter o)
    (traceclkin_freq o) (swo_pin_freq o) (out_filename o) (connections o)
    (recheck_ap_cur_target o).
Definition set_file (v : option Z) (o : arm_tpiu_swo_object) :=
  mk_object (spot_dap o) (spot_ap_num o) (spot_base o) (ap o) (name o)
    (event_action o) (deferred_enable o) (enabled o) (en_capture o)
    (port_width o) v (pin_protocol o) (en_formatter o)
    (traceclkin_freq o) (swo_pin_freq o) (out_filename o) (connections o)
    (recheck_ap_cur_target o).
Definition set_swo_pin_freq (v : Z) (o : arm_tpiu_swo_object) :=
  mk_object (spot_dap o) (spot_ap_num o) (spot_base o) (ap o) (name o)
    (event_action o) (deferred_enable o) (enabled o) (en_capture o)
    (port_width o) (file o) (pin_protocol o) (en_formatter o)
    (traceclkin_freq o) v (out_filename o) (connections o)
    (recheck_ap_cur_target o).
Definition set_spot_ap_num (v : Z) (o : arm_tpiu_swo_object) :=
  mk_object (spot_dap o) v (spot_base o) (ap o) (name o)
    (event_action o) (deferred_enable o) (enabled o) (en_capture o)
    (port_width o) (file o) (pin_protocol o) (en_formatter o)
    (traceclkin_freq o) (swo_pin_freq o) (out_filename o) (connections o)
    (recheck_ap_cur_target o).
Definition set_recheck_ap_cur_target (v : bool) (o : arm_tpiu_swo_object) :=
  mk_object (spot_dap o) (spot_ap_num o) (spot_base o) (ap o) (name o)
    (event_action o) (deferred_enable o) (enabled o) (en_capture o)
    (port_width o) (file o) (pin_protocol o) (en_formatter o)
    (traceclkin_freq o) (swo_pin_freq o) (out_filename o) (connections o) v.

(** Calls of the collaborators, with what they gave back. *)
Inductive event :=
  | EvHook (e : arm_tpiu_swo_event) (body : string)   (* Jim_EvalObj *)
  | EvDapGetAp (dap ap_num : Z) (got : option Z)
  | EvDapPutAp (ap : Z)
  | EvReadU32 (address : Z)
  | EvWriteU32 (address value : Z)
  | EvAddService (port : string) (retval : Z)
  | EvRemoveService (port : string)
  | EvFopen (filename : string) (got : option Z)
  | EvFclose (f : Z)
  | EvConfigTrace (enable : bool) (retval : Z)        (* adapter_config_trace *)
  | EvRegisterTimer
  | EvUnregisterTimer
  | EvTraceConfigEvent                                (* TARGET_EVENT_TRACE_CONFIG *)
  | EvCommandPrint (msg : string)
  | EvDecrRefCount (body : string)
  | EvFree (what : string).

Global Instance event_eq_dec : EqDecision event.
Proof. solve_decision. Defined.

(** The collaborators: transport, debug port, script interpreter, probe
    driver, service registry and host files.  [jim_eval] gives the return
    code of [Jim_EvalObj] on a body and the interpreter's [returnCode];
    [adapter_config_trace_start] gives the return code of
    [adapter_config_trace(true, ...)] and what it stores through its two
    pointers (pin frequency, prescaler). *)
Record env := mk_env {
  transport_is_hla : bool;
  target_type_name : string;
  target_was_examined : bool;
  debug_ap_num : Z;
  dap_get_ap : Z → Z → option Z;
  jim_eval : string → Z * Z;
  read_u32 : Z → Z * Z;
  write_u32 : Z → Z → Z;
  malloc_ok : bool;
  add_service : string → Z;
  fopen : string → option Z;
  adapter_config_trace_start : Z → Z → Z → Z → Z * Z * Z;
  adapter_config_trace_stop : Z;
}.

(** One instance together with the trace of calls (most recent first). *)
Record state := mk_state {
  obj : arm_tpiu_swo_object;
  trace : list event;
}.

Abbreviation M := (prog state).

Definition get {A} (f : arm_tpiu_swo_object → A) : M A :=
  λ st, (Val (f (obj st)), st).
Definition modify (f : arm_tpiu_swo_object → arm_tpiu_swo_object) : M unit :=
  λ st, (Val tt, mk_state (f (obj st)) (trace st)).
Definition emit (e : event) : M unit :=
  λ st, (Val tt, mk_state (obj st) (e :: trace st)).

Definition is_async (protocol : Z) : bool :=
  (protocol =? TPIU_SPPR_PROTOCOL_MANCHESTER) || (protocol =? TPIU_SPPR_PROTOCOL_UART).

(** [out_filename[0] == ':'], with [&out_filename[1]]. *)
Definition tcp_port (out : string) : option string :=
  match out with
  | String ":" port => Some port
  | _ => None
  end.

Section Controller.

Variable E : env.

Definition command_print (msg : string) : M unit := emit (EvCommandPrint msg).

(** [wrap_read_u32] and [wrap_write_u32]: through the target with the hla
    transport and through the access port otherwise; either way a 32-bit
    access of the collaborator at [address]. *)
Definition wrap_read_u32 (address : Z) : M (Z * Z) :=
  emit (EvReadU32 address);;
  ret (read_u32 E address).

Definition wrap_write_u32 (address value : Z) : M Z :=
  emit (EvWriteU32 address (to_uint32 value));;
  ret (write_u32 E address (to_uint32 value)).

(** [arm_tpiu_swo_handle_event]: the first action of the chain bound to
    [event] is run and decides the result. *)
Fixpoint handle_event_chain (chain : list arm_tpiu_swo_event_action)
    (event : arm_tpiu_swo_event) : M Z :=
  match chain with
  | [] => ret ERROR_OK
  | ea :: next =>
      if bool_decide (ea_event ea ≠ event) then handle_event_chain next event
      else
        (* prevent event execution to change current target *)
        emit (EvHook event (ea_body ea));;
        let '(retval, returnCode) := jim_eval E (ea_body ea) in
        let retval := if retval =? JIM_RETURN then returnCode else retval in
        if (retval =? JIM_OK) || (retval =? ERROR_COMMAND_CLOSE_CONNECTION)
        then ret ERROR_OK
        else ret ERROR_FAIL
  end.

Definition arm_tpiu_swo_handle_event (event : arm_tpiu_swo_event) : M Z :=
  do chain <- get event_action;
  handle_event_chain chain event.

Definition arm_tpiu_swo_close_output : M unit :=
  do f <- get file;
  (if f is Some h then
     emit (EvFclose h);;
     modify (set_file None)
   else skip);;
  do out <- get out_filename;
  if tcp_port out is Some port then emit (EvRemoveService port) else skip.

(** [adapter_config_trace(false, 0, 0, NULL, 0, NULL)]. *)
Definition adapter_config_trace_off : M Z :=
  emit (EvConfigTrace false (adapter_config_trace_stop E));;
  ret (adapter_config_trace_stop E).

(** The part of [enable] between the register checks and the register
    writes: it sets up the sink and the probe, or computes the prescaler
    for external capture, and yields the prescaler. *)
Definition start_capture (output_external : bool) : M Z :=
  do out <- get out_filename;
  do protocol <- get pin_protocol;
  do width <- get port_width;
  do clk <- get traceclkin_freq;
  do pin <- get swo_pin_freq;
  if negb output_external then
    (match tcp_port out with
     | Some port =>
         if negb (malloc_ok E) then return_ ERROR_FAIL
         else
           let retval := add_service E port in
           emit (EvAddService port retval);;
           if negb (retval =? ERROR_OK) then
             command_print "Can't configure trace TCP port %s";;
             return_ retval
           else skip
     | None =>
         if negb (String.eqb out "-") then
           emit (EvFopen out (fopen E out));;
           modify (set_file (fopen E out));;
           if fopen E out is None then
             command_print "Can't open trace destination file";;
             return_ ERROR_FAIL
           else skip
         else skip
     end);;
    let '(retval, swo_pin_freq_, prescaler) :=
      adapter_config_trace_start E protocol width pin clk in
    emit (EvConfigTrace true retval);;
    if negb (retval =? ERROR_OK) then
      command_print "Failed to start adapter's trace";;
      arm_tpiu_swo_close_output;;
      return_ retval
    else if is_async protocol && (swo_pin_freq_ =? 0) then
      command_print "Adapter rejected SWO pin frequency";;
      arm_tpiu_swo_close_output;;
      return_ ERROR_FAIL
    else
      modify (set_swo_pin_freq swo_pin_freq_);;
      emit EvRegisterTimer;;
      modify (set_en_capture true);;
      ret (to_uint16 prescaler)
  else if is_async protocol then
    if pin =? 0 then stop_ Undefined
    else
      let prescaler := to_uint16 (to_uint32 (clk + pin / 2) / pin) in
      let prescaler :=
        if TPIU_ACPR_MAX_PRESCALER <? prescaler then TPIU_ACPR_MAX_PRESCALER
        else prescaler in
      if prescaler =? 0 then stop_ Undefined
      else
        let swo_pin_freq_ := clk / prescaler in
        modify (set_swo_pin_freq swo_pin_freq_);;
        ret prescaler
  else ret 1 (* dummy value *).

(** The register writes and the post-enable hook; a failure jumps to
    [error_exit]. *)
Definition program_tpiu (prescaler : Z) : M unit :=
  do base <- get spot_base;
  do width <- get port_width;
  do protocol <- get pin_protocol;
  do formatter <- get en_formatter;
  do retval <- wrap_write_u32 (base + TPIU_CSPSR_OFFSET) (BIT (width - 1));
  check retval;;
  do retval <- wrap_write_u32 (base + TPIU_ACPR_OFFSET) (prescaler - 1);
  check retval;;
  do retval <- wrap_write_u32 (base + TPIU_SPPR_OFFSET) protocol;
  check retval;;
  do (retval, value) <- wrap_read_u32 (base + TPIU_FFCR_OFFSET);
  check retval;;
  let value :=
    if (formatter : bool) then Z.lor value (BIT 1)
    else Z.land value (Z.lnot (BIT 1)) in
  do retval <- wrap_write_u32 (base + TPIU_FFCR_OFFSET) value;
  check retval;;
  do retval <- arm_tpiu_swo_handle_event TPIU_SWO_EVENT_POST_ENABLE;
  check retval.

(* error_exit: *)
Definition error_exit (retval : Z) : M Z :=
  command_print "Error!";;
  do capture <- get en_capture;
  when_ capture
    (modify (set_en_capture false);;
     arm_tpiu_swo_close_output;;
     emit EvUnregisterTimer;;
     do retval1 <- adapter_config_trace_off;
     when_ (negb (retval1 =? ERROR_OK))
       (command_print "Failed to stop adapter's trace"));;
  ret retval.

(** [handle_arm_tpiu_swo_enable] is given in the order of the source, cut
    into its stages.  [argc] is [CMD_ARGC] and [config_mode] says whether
    the command runs while the configuration is loaded
    ([CMD_CTX->mode == COMMAND_CONFIG]). *)

(** The tests at the head of the function; yields [output_external]. *)
Definition enable_checks (argc : Z) (config_mode : bool) : M bool :=
  (if negb (argc =? 0) then return_ ERROR_COMMAND_SYNTAX_ERROR else skip);;
  (if config_mode then
     modify (set_deferred_enable true);;
     return_ ERROR_OK
   else skip);;
  do already <- get enabled;
  (if (already : bool) then return_ ERROR_OK else skip);;
  do ap_num <- get spot_ap_num;
  (if transport_is_hla E && negb (ap_num =? 0) then
     command_print "Invalid access port. Only AP#0 allowed with hla transport";;
     return_ ERROR_FAIL
   else skip);;
  do clk <- get traceclkin_freq;
  (if clk =? 0 then
     command_print "Trace clock-in frequency not set";;
     return_ ERROR_FAIL
   else skip);;
  do out <- get out_filename;
  let output_external := String.eqb out "external" in
  do protocol <- get pin_protocol;
  do pin <- get swo_pin_freq;
  (if is_async protocol && (pin =? 0) && output_external then
     command_print "SWO pin frequency required when using external capturing";;
     return_ ERROR_FAIL
   else skip);;
  ret output_external.

(* START_DEPRECATED_TPIU ... END_DEPRECATED_TPIU *)
Definition recheck_ap : M unit :=
  do recheck <- get recheck_ap_cur_target;
  if (recheck : bool) then
    if negb (String.eqb (target_type_name E) "cortex_m")
       && negb (String.eqb (target_type_name E) "hla_target")
    then return_ ERROR_FAIL
    else if negb (target_was_examined E) then return_ ERROR_FAIL
    else
      modify (set_recheck_ap_cur_target false);;
      modify (set_spot_ap_num (debug_ap_num E))
  else skip.

(* if (!obj->ap) { obj->ap = dap_get_ap(...); ... } *)
Definition acquire_ap : M unit :=
  do held <- get ap;
  if held is None then
    do dap <- get spot_dap;
    do ap_num <- get spot_ap_num;
    emit (EvDapGetAp dap ap_num (dap_get_ap E dap ap_num));;
    match dap_get_ap E dap ap_num with
    | None =>
        command_print "Cannot get AP";;
        return_ ERROR_FAIL
    | Some a => modify (set_ap (Some a))
    end
  else skip.

(** The reads of [TPIU_DEVID] and, for the synchronous protocol, of
    [TPIU_SSPSR]. *)
Definition check_protocol_support : M unit :=
  do base <- get spot_base;
  do protocol <- get pin_protocol;
  do (retval, value) <- wrap_read_u32 (base + TPIU_DEVID_OFFSET);
  (if negb (retval =? ERROR_OK) then
     command_print "Unable to read %s";;
     return_ retval
   else skip);;
  let value :=
    if protocol =? TPIU_SPPR_PROTOCOL_SYNC
    then (if Z.land value TPIU_DEVID_NOSUPPORT_SYNC =? 0 then 1 else 0)
    else if protocol =? TPIU_SPPR_PROTOCOL_UART
    then Z.land value TPIU_DEVID_SUPPORT_UART
    else if protocol =? TPIU_SPPR_PROTOCOL_MANCHESTER
    then Z.land value TPIU_DEVID_SUPPORT_MANCHESTER
    else 0 in
  (if value =? 0 then
     command_print "%s does not support protocol %s";;
     return_ ERROR_FAIL
   else skip);;
  if protocol =? TPIU_SPPR_PROTOCOL_SYNC then
    do (retval, value) <- wrap_read_u32 (base + TPIU_SSPSR_OFFSET);
    if negb (retval =? ERROR_OK) then
      command_print "Cannot read TPIU register SSPSR";;
      return_ retval
    else
      do width <- get port_width;
      if Z.land value (BIT (width - 1)) =? 0 then
        command_print "TPIU does not support port-width of %d bits";;
        return_ ERROR_FAIL
      else skip
  else skip.

(** Everything up to the sink set-up: of the resources of the enable
    path only the access port is taken here. *)
Definition enable_prepare (argc : Z) (config_mode : bool) : M bool :=
  do output_external <- enable_checks argc config_mode;
  recheck_ap;;
  acquire_ap;;
  (* trigger the event before any attempt to R/W in the TPIU/SWO *)
  do retval <- arm_tpiu_swo_handle_event TPIU_SWO_EVENT_PRE_ENABLE;
  check retval;;
  check_protocol_support;;
  ret output_external.

(** The rest: sinks and probe, registers, post-enable hook. *)
Definition enable_commit (output_external : bool) : M Z :=
  do prescaler <- start_capture output_external;
  do retval <- block (program_tpiu prescaler);
  if retval =? ERROR_OK then
    (* START_DEPRECATED_TPIU *)
    emit EvTraceConfigEvent;;
    (* END_DEPRECATED_TPIU *)
    modify (set_enabled true);;
    ret ERROR_OK
  else error_exit retval.

Definition handle_arm_tpiu_swo_enable (argc : Z) (config_mode : bool) : M Z :=
  do output_external <- enable_prepare argc config_mode;
  enable_commit output_external.

(** [handle_arm_tpiu_swo_disable]. *)
Definition handle_arm_tpiu_swo_disable (argc : Z) : M Z :=
  if negb (argc =? 0) then return_ ERROR_COMMAND_SYNTAX_ERROR
  else
  do en <- get enabled;
  if negb en then return_ ERROR_OK
  else
  modify (set_enabled false);;
  arm_tpiu_swo_handle_event TPIU_SWO_EVENT_PRE_DISABLE;;
  do capture <- get en_capture;
  when_ capture
    (modify (set_en_capture false);;
     arm_tpiu_swo_close_output;;
     emit EvUnregisterTimer;;
     do retval <- adapter_config_trace_off;
     if negb (retval =? ERROR_OK) then
       command_print "Failed to stop adapter's trace";;
       return_ retval
     else skip);;
  arm_tpiu_swo_handle_event TPIU_SWO_EVENT_POST_DISABLE;;
  (* START_DEPRECATED_TPIU *)
  emit EvTraceConfigEvent;;
  (* END_DEPRECATED_TPIU *)
  ret ERROR_OK.

(** ** The registry

    [all_tpiu_swo] is the list of the instances in the order of the
    intrusive list; the instances live in [heap], where a freed one is
    absent.  The list nodes are part of the instances, so walking the list
    reads the instance. *)
Record registry := mk_registry {
  all_tpiu_swo : list Z;
  heap : gmap Z arm_tpiu_swo_object;
  calls : list event;
}.

(** Runs a piece of code on the instance at [p]; touching a freed
    instance is undefined. *)
Definition on_object {A} (p : Z) (m : M A) : prog registry A := λ r,
  match heap r !! p with
  | None => (Stop Undefined, r)
  | Some o =>
      let '(a, st) := m (mk_state o (calls r)) in
      (a, mk_registry (all_tpiu_swo r) (<[p := obj st]> (heap r)) (trace st))
  end.

(** [free(obj)]. *)
Definition free_object (p : Z) : prog registry unit := λ r,
  match heap r !! p with
  | None => (Stop Undefined, r)
  | Some _ => (Val tt, mk_registry (all_tpiu_swo r) (delete p (heap r)) (calls r))
  end.

(** The [while (ea)] loop that releases the event actions. *)
Fixpoint release_event_actions (l : list arm_tpiu_swo_event_action) : M unit :=
  match l with
  | [] => skip
  | ea :: next => emit (EvDecrRefCount (ea_body ea));; release_event_actions next
  end.

(** The body of the loop of [arm_tpiu_swo_cleanup_all], up to the
    [free(obj)]. *)
Definition cleanup_object : M unit :=
  do en <- get enabled;
  when_ en (arm_tpiu_swo_handle_event TPIU_SWO_EVENT_PRE_DISABLE;; skip);;
  arm_tpiu_swo_close_output;;
  do capture <- get en_capture;
  when_ capture
    (emit EvUnregisterTimer;;
     adapter_config_trace_off;;
     skip);;
  do en <- get enabled;
  when_ en (arm_tpiu_swo_handle_event TPIU_SWO_EVENT_POST_DISABLE;; skip);;
  do chain <- get event_action;
  release_event_actions chain;;
  do held <- get ap;
  (if held is Some a then emit (EvDapPutAp a) else skip);;
  emit (EvFree "name");;
  emit (EvFree "out_filename").

Fixpoint cleanup_each (l : list Z) : prog registry unit :=
  match l with
  | [] => skip
  | p :: tmp =>
      on_object p cleanup_object;;
      free_object p;;
      cleanup_each tmp
  end.

(** [arm_tpiu_swo_cleanup_all]. *)
Definition arm_tpiu_swo_cleanup_all : prog registry Z := λ r,
  (cleanup_each (all_tpiu_swo r);; ret ERROR_OK) r.

End Controller.

End Tpiu.

(** ** The trace sinks of an instance: the poll timer and the TCP clients *)

Module TpiuServices.
Import Tpiu.

Definition ARM_TPIU_SWO_TRACE_BUF_SIZE : Z := 4096.

(** [obj->connections] holds the [struct connection] pointers of the
    clients, most recently added first. *)
Definition set_connections (v : list Z) (o : arm_tpiu_swo_object) :=
  mk_object (spot_dap o) (spot_ap_num o) (spot_base o) (ap o) (name o)
    (event_action o) (deferred_enable o) (enabled o) (en_capture o)
    (port_width o) (file o) (pin_protocol o) (en_formatter o)
    (traceclkin_freq o) (swo_pin_freq o) (out_filename o) v
    (recheck_ap_cur_target o).

(** Calls of the collaborators of the sinks, with what they gave back. *)
Inductive service_event :=
  | EvLogError (msg : string)
  | EvAdapterPollTrace (retval size : Z)
  | EvTraceCallbacks (buf : list Z)          (* target_call_trace_callbacks *)
  | EvFwrite (f : Z) (buf : list Z) (written : Z)
  | EvFflush (f : Z)
  | EvConnectionWrite (connection : Z) (buf : list Z) (written : Z)
  | EvConnectionRead (connection : Z) (bytes_read : Z)
  | EvFreeConnection (connection : Z).

(** The probe driver, the host's [stdio] and the server.
    [adapter_poll_trace] is given the capacity of the buffer and gives
    its return code and the bytes it stored, whose number is what it
    leaves in [size]. *)
Record service_env := mk_service_env {
  adapter_poll_trace : Z → Z * list Z;
  fwrite : Z → list Z → Z;
  connection_write : Z → list Z → Z;
  connection_read : Z → Z;
  connection_alloc_ok : bool;
}.

Record service_state := mk_service_state {
  sobj : arm_tpiu_swo_object;
  slog : list service_event;
}.

Abbreviation S := (prog service_state).

Definition sget {A} (f : arm_tpiu_swo_object → A) : S A :=
  λ st, (Val (f (sobj st)), st).
Definition smodify (f : arm_tpiu_swo_object → arm_tpiu_swo_object) : S unit :=
  λ st, (Val tt, mk_service_state (f (sobj st)) (slog st)).
Definition slogged (e : service_event) : S unit :=
  λ st, (Val tt, mk_service_state (sobj st) (e :: slog st)).
Definition LOG_ERROR (msg : string) : S unit := slogged (EvLogError msg).

Section Services.

Variable SE : service_env.

(** The [list_for_each_entry] loop of [arm_tpiu_swo_poll_trace]. *)
Fixpoint write_connections (cs : list Z) (buf : list Z) (size : Z) : S unit :=
  match cs with
  | [] => skip
  | c :: next =>
      let written := connection_write SE c buf in
      slogged (EvConnectionWrite c buf written);;
      (if negb (written =? to_int size)
       then LOG_ERROR "Error writing to connection"
       else skip);;
      write_connections next buf size
  end.

Definition arm_tpiu_swo_poll_trace : S Z :=
  let '(retval, buf) := adapter_poll_trace SE ARM_TPIU_SWO_TRACE_BUF_SIZE in
  let size := Z.of_nat (length buf) in
  slogged (EvAdapterPollTrace retval size);;
  if negb (retval =? ERROR_OK) || (size =? 0) then return_ retval
  else
    slogged (EvTraceCallbacks buf);;
    do f <- sget file;
    (if f is Some h then
       let written := fwrite SE h buf in
       slogged (EvFwrite h buf written);;
       if written =? size then slogged (EvFflush h)
       else
         LOG_ERROR "Error writing to the SWO trace destination file";;
         return_ ERROR_FAIL
     else skip);;
    do out <- sget out_filename;
    (if tcp_port out is Some _ then
       do cs <- sget connections;
       write_connections cs buf size
     else skip);;
    return_ ERROR_OK.

Definition arm_tpiu_swo_service_new_connection (connection : Z) : S Z :=
  if negb (connection_alloc_ok SE) then
    LOG_ERROR "Out of memory";;
    return_ ERROR_FAIL
  else
    do cs <- sget connections;
    smodify (set_connections (connection :: cs));;
    return_ ERROR_OK.

Definition arm_tpiu_swo_service_input (connection : Z) : S Z :=
  (* read a dummy buffer to check if the connection is still active *)
  let bytes_read := connection_read SE connection in
  slogged (EvConnectionRead connection bytes_read);;
  if bytes_read =? 0 then return_ ERROR_SERVER_REMOTE_CLOSED
  else if bytes_read =? -1 then
    LOG_ERROR "error during read: %s";;
    return_ ERROR_SERVER_REMOTE_CLOSED
  else return_ ERROR_OK.

(** The [list_for_each_entry_safe] loop of
    [arm_tpiu_swo_service_connection_closed]: [seen] are the entries
    already passed. *)
Fixpoint close_connection (connection : Z) (seen rest : list Z) : S Z :=
  match rest with
  | [] =>
      LOG_ERROR "Failed to find connection to close!";;
      return_ ERROR_FAIL
  | c :: tmp =>
      if c =? connection then
        smodify (set_connections (seen ++ tmp));;
        slogged (EvFreeConnection c);;
        return_ ERROR_OK
      else close_connection connection (seen ++ [c]) tmp
  end.

Definition arm_tpiu_swo_service_connection_closed (connection : Z) : S Z :=
  do cs <- sget connections;
  close_connection connection [] cs.

End Services.

(** The buffers written to the clients, oldest first. *)
Fixpoint delivered (l : list service_event) : list (Z * list Z) :=
  match l with
  | [] => []
  | EvConnectionWrite c buf _ :: rest => delivered rest ++ [(c, buf)]
  | _ :: rest => delivered rest
  end.

(** The buffers written to files, oldest first. *)
Fixpoint filed (l : list service_event) : list (Z * list Z) :=
  match l with
  | [] => []
  | EvFwrite f buf _ :: rest => filed rest ++ [(f, buf)]
  | _ :: rest => filed rest
  end.

(** A probe that has three bytes of trace, a host that writes whatever
    it is given, and clients that take nothing. *)
Definition sinks_stalled : service_env :=
  mk_service_env (λ _, (ERROR_OK, [1; 2; 3])) (λ _ buf, Z.of_nat (length buf))
    (λ _ _, -1) (λ _, 8) true.

End TpiuServices.

(** ** Creating and configuring an instance *)

Module TpiuConfigure.
Import Tpiu.

(* enum arm_tpiu_swo_cfg_param *)
Definition CFG_PORT_WIDTH : Z := 0.
Definition CFG_PROTOCOL : Z := 1.
Definition CFG_FORMATTER : Z := 2.
Definition CFG_TRACECLKIN : Z := 3.
Definition CFG_BITRATE : Z := 4.
Definition CFG_OUTFILE : Z := 5.
Definition CFG_EVENT : Z := 6.

Definition UINT16_MAX : Z := 65535.

Definition set_spot (v : Z * Z * Z) (o : arm_tpiu_swo_object) :=
  mk_object v.1.1 v.1.2 v.2 (ap o) (name o)
    (event_action o) (deferred_enable o) (enabled o) (en_capture o)
    (port_width o) (file o) (pin_protocol o) (en_formatter o)
    (traceclkin_freq o) (swo_pin_freq o) (out_filename o) (connections o)
    (recheck_ap_cur_target o).
Definition set_name (v : string) (o : arm_tpiu_swo_object) :=
  mk_object (spot_dap o) (spot_ap_num o) (spot_base o) (ap o) v
    (event_action o) (deferred_enable o) (enabled o) (en_capture o)
    (port_width o) (file o) (pin_protocol o) (en_formatter o)
    (traceclkin_freq o) (swo_pin_freq o) (out_filename o) (connections o)
    (recheck_ap_cur_target o).
Definition set_event_action (v : list arm_tpiu_swo_event_action)
    (o : arm_tpiu_swo_object) :=
  mk_object (spot_dap o) (spot_ap_num o) (spot_base o) (ap o) (name o)
    v (deferred_enable o) (enabled o) (en_capture o)
    (port_width o) (file o) (pin_protocol o) (en_formatter o)
    (traceclkin_freq o) (swo_pin_freq o) (out_filename o) (connections o)
    (recheck_ap_cur_target o).
Definition set_port_width (v : Z) (o : arm_tpiu_swo_object) :=
  mk_object (spot_dap o) (spot_ap_num o) (spot_base o) (ap o) (name o)
    (event_action o) (deferred_enable o) (enabled o) (en_capture o)
    v (file o) (pin_protocol o) (en_formatter o)
    (traceclkin_freq o) (swo_pin_freq o) (out_filename o) (connections o)
    (recheck_ap_cur_target o).
Definition set_pin_protocol (v : Z) (o : arm_tpiu_swo_object) :=
  mk_object (spot_dap o) (spot_ap_num o) (spot_base o) (ap o) (name o)
    (event_action o) (deferred_enable o) (enabled o) (en_capture o)
    (port_width o) (file o) v (en_formatter o)
    (traceclkin_freq o) (swo_pin_freq o) (out_filename o) (connections o)
    (recheck_ap_cur_target o).
Definition set_en_formatter (v : bool) (o : arm_tpiu_swo_object) :=
  mk_object (spot_dap o) (spot_ap_num o) (spot_base o) (ap o) (name o)
    (event_action o) (deferred_enable o) (enabled o) (en_capture o)
    (port_width o) (file o) (pin_protocol o) v
    (traceclkin_freq o) (swo_pin_freq o) (out_filename o) (connections o)
    (recheck_ap_cur_target o).
Definition set_traceclkin_freq (v : Z) (o : arm_tpiu_swo_object) :=
  mk_object (spot_dap o) (spot_ap_num o) (spot_base o) (ap o) (name o)
    (event_action o) (deferred_enable o) (enabled o) (en_capture o)
    (port_width o) (file o) (pin_protocol o) (en_formatter o)
    v (swo_pin_freq o) (out_filename o) (connections o)
    (recheck_ap_cur_target o).
Definition set_out_filename (v : string) (o : arm_tpiu_swo_object) :=
  mk_object (spot_dap o) (spot_ap_num o) (spot_base o) (ap o) (name o)
    (event_action o) (deferred_enable o) (enabled o) (en_capture o)
    (port_width o) (file o) (pin_protocol o) (en_formatter o)
    (traceclkin_freq o) (swo_pin_freq o) v (connections o)
    (recheck_ap_cur_target o).

(** The result object of the interpreter, by the call that set it. *)
Inductive jim_result :=
  | ResultEmpty                                  (* Jim_SetEmptyResult *)
  | ResultInt (v : Z)                            (* Jim_NewIntObj *)
  | ResultString (s : string)                    (* Jim_SetResultString, Jim_NewStringObj *)
  | ResultObj (body : string)                    (* Jim_DuplicateObj of a script *)
  | ResultFormatted (format arg : string)        (* Jim_SetResultFormatted *)
  | ResultWrongNumArgs (msg : string)            (* Jim_WrongNumArgs *)
  | ResultNvpUnknown (hadprefix : Z).            (* jim_getopt_nvp_unknown *)

(** [reslen > 0] for the string of a result. *)
Definition result_has_text (r : jim_result) : bool :=
  match r with
  | ResultEmpty => false
  | ResultString s | ResultObj s => negb (String.eqb s "")
  | _ => true
  end.

(** [struct jim_getopt_info], without [is_configure], which the parser
    does not change: the words still to be read and the result of the
    interpreter it belongs to. *)
Record jim_getopt_info := mk_goi {
  argv : list string;
  result : jim_result;
}.

Inductive config_event :=
  | EvLogError (msg : string)
  | EvDecrRefCount (body : string)
  | EvIncrRefCount (body : string)
  | EvFree (what : string)
  | EvCommandPrint (format arg : string)
  | EvCommandPrintResult (r : jim_result)
  | EvRegisterCommands (name : string) (retval : Z).

(** The option parser, the C library and the command registry.  A
    parsing function is given the [jim_getopt_info] and gives its return
    code, what it stores through its pointer and the
    [jim_getopt_info] it leaves; [jim_getopt_nvp] is one function for
    each of the four tables it is called with.
    [adiv5_jim_mem_ap_spot_configure] works on the [spot] of the
    instance (dap, access port number, base address). *)
Record jim_env := mk_jim_env {
  adiv5_jim_mem_ap_spot_configure :
    bool → Z * Z * Z → jim_getopt_info → Z * (Z * Z * Z) * jim_getopt_info;
  jim_getopt_nvp_config_opts : jim_getopt_info → Z * Z * jim_getopt_info;
  jim_getopt_nvp_protocol_opts : jim_getopt_info → Z * Z * jim_getopt_info;
  jim_getopt_nvp_bool_opts : jim_getopt_info → Z * Z * jim_getopt_info;
  jim_getopt_nvp_event :
    jim_getopt_info → Z * arm_tpiu_swo_event * jim_getopt_info;
  jim_getopt_wide : jim_getopt_info → Z * Z * jim_getopt_info;
  jim_getopt_string : jim_getopt_info → Z * string * jim_getopt_info;
  jim_getopt_obj : jim_getopt_info → Z * option string * jim_getopt_info;
  jim_nvp_value2name_protocol : Z → Z * string;
  jim_nvp_value2name_bool : Z → Z * string;
  strtol : string → Z * string;
  strdup_ok : string → bool;
  calloc_event_action_ok : bool;
  (* for [create] *)
  jim_command_exists : string → bool;
  calloc_object : option Z;
  adiv5_mem_ap_spot_init : Z * Z * Z;
  DP_APSEL_INVALID : Z;
  register_commands_with_data : string → Z;
}.

Record config_state := mk_config_state {
  cobj : arm_tpiu_swo_object;
  goi : jim_getopt_info;
  clog : list config_event;
}.

Abbreviation J := (prog config_state).

Definition cget {A} (f : arm_tpiu_swo_object → A) : J A :=
  λ st, (Val (f (cobj st)), st).
Definition cmodify (f : arm_tpiu_swo_object → arm_tpiu_swo_object) : J unit :=
  λ st, (Val tt, mk_config_state (f (cobj st)) (goi st) (clog st)).
Definition clogged (e : config_event) : J unit :=
  λ st, (Val tt, mk_config_state (cobj st) (goi st) (e :: clog st)).
Definition LOG_ERROR (msg : string) : J unit := clogged (EvLogError msg).

(** [goi->argc]. *)
Definition argc : J Z := λ st, (Val (Z.of_nat (length (argv (goi st)))), st).
Definition get_result : J jim_result := λ st, (Val (result (goi st)), st).
Definition set_result (r : jim_result) : J unit :=
  λ st, (Val tt, mk_config_state (cobj st) (mk_goi (argv (goi st)) r) (clog st)).

(** A call of a parsing function. *)
Definition parse {A} (f : jim_getopt_info → Z * A * jim_getopt_info) : J (Z * A) :=
  λ st, let '(e, a, g) := f (goi st) in
        (Val (e, a), mk_config_state (cobj st) g (clog st)).

(** A call of a function of this file: its [return] ends the call, not
    the caller. *)
Definition call {Σ} (m : prog Σ Z) : prog Σ Z := λ w,
  match m w with
  | (Val r, w') => (Val r, w')
  | (Return r, w') => (Val r, w')
  | (Stop r, w') => (Stop r, w')
  end.

(** The first action bound to [event] and its position in the chain:
    the [while (ea)] loop of the [-event] option. *)
Fixpoint find_action (chain : list arm_tpiu_swo_event_action)
    (event : arm_tpiu_swo_event) : option (nat * arm_tpiu_swo_event_action) :=
  match chain with
  | [] => None
  | ea :: next =>
      if bool_decide (ea_event ea = event) then Some (O, ea)
      else prod_map Datatypes.S id <$> find_action next event
  end.

Section Configure.

Variable JE : jim_env.

(* err_no_params: *)
Definition err_no_params : J unit :=
  set_result (ResultWrongNumArgs "NO PARAMS");;
  return_ JIM_ERR.

(** [if (goi->argc) goto err_no_params;] *)
Definition no_params : J unit :=
  do n <- argc;
  if negb (n =? 0) then err_no_params else skip.

(* case CFG_PORT_WIDTH: *)
Definition configure_port_width (is_configure : bool) : J unit :=
  if is_configure then
    do (e, port_width_) <- parse (jim_getopt_wide JE);
    if negb (e =? JIM_OK) then return_ e
    else if (port_width_ <? 1) || (32 <? port_width_) then
      set_result (ResultString "Invalid port width!");;
      return_ JIM_ERR
    else cmodify (set_port_width (to_uint32 port_width_))
  else
    no_params;;
    do w <- cget port_width;
    set_result (ResultInt w).

(* case CFG_PROTOCOL: *)
Definition configure_protocol (is_configure : bool) : J unit :=
  if is_configure then
    do (e, p) <- parse (jim_getopt_nvp_protocol_opts JE);
    if negb (e =? JIM_OK) then return_ e
    else cmodify (set_pin_protocol (to_uint32 p))
  else
    no_params;;
    do protocol <- cget pin_protocol;
    let '(e, p_name) := jim_nvp_value2name_protocol JE protocol in
    if negb (e =? JIM_OK) then
      set_result (ResultString "protocol error");;
      return_ JIM_ERR
    else set_result (ResultString p_name).

(* case CFG_FORMATTER: *)
Definition configure_formatter (is_configure : bool) : J unit :=
  if is_configure then
    do (e, p) <- parse (jim_getopt_nvp_bool_opts JE);
    if negb (e =? JIM_OK) then return_ e
    else cmodify (set_en_formatter (negb (p =? 0)))
  else
    no_params;;
    do formatter <- cget en_formatter;
    let '(e, p_name) :=
      jim_nvp_value2name_bool JE (if (formatter : bool) then 1 else 0) in
    if negb (e =? JIM_OK) then
      set_result (ResultString "formatter error");;
      return_ JIM_ERR
    else set_result (ResultString p_name).

(* case CFG_TRACECLKIN: *)
Definition configure_traceclkin (is_configure : bool) : J unit :=
  if is_configure then
    do (e, clk) <- parse (jim_getopt_wide JE);
    if negb (e =? JIM_OK) then return_ e
    else cmodify (set_traceclkin_freq (to_uint32 clk))
  else
    no_params;;
    do clk <- cget traceclkin_freq;
    set_result (ResultInt clk).

(* case CFG_BITRATE: *)
Definition configure_bitrate (is_configure : bool) : J unit :=
  if is_configure then
    do (e, clk) <- parse (jim_getopt_wide JE);
    if negb (e =? JIM_OK) then return_ e
    else cmodify (set_swo_pin_freq (to_uint32 clk))
  else
    no_params;;
    do clk <- cget swo_pin_freq;
    set_result (ResultInt clk).

(** [port <= 0 || port > UINT16_MAX || *end != '\0'] for the text after
    the colon. *)
Definition invalid_tcp_port (text : string) : bool :=
  let '(port, end_) := strtol JE text in
  (port <=? 0) || (UINT16_MAX <? port) || negb (String.eqb end_ "").

(* case CFG_OUTFILE: *)
Definition configure_outfile (is_configure : bool) : J unit :=
  if is_configure then
    do (e, s) <- parse (jim_getopt_string JE);
    if negb (e =? JIM_OK) then return_ e
    else
      (if tcp_port s is Some text then
         if invalid_tcp_port text then
           set_result (ResultFormatted "Invalid TCP port '%s'" text);;
           return_ JIM_ERR
         else skip
       else skip);;
      if negb (strdup_ok JE s) then
        LOG_ERROR "Out of memory";;
        return_ JIM_ERR
      else
        clogged (EvFree "out_filename");;
        cmodify (set_out_filename s)
  else
    no_params;;
    do out <- cget out_filename;
    set_result (ResultString out).

(** The last steps of [-event] in [configure]: the body is read from
    the words and bound to the event, at the position [at_] of the
    chain or in a new action at its head. *)
Definition bind_event_body (event : arm_tpiu_swo_event) (at_ : option nat) : J unit :=
  do chain <- cget event_action;
  do (_, o) <- parse (jim_getopt_obj JE);
  match o with
  | None => stop_ Undefined
  | Some body =>
      let ea := mk_event_action event body in
      cmodify (set_event_action
                 (match at_ with
                  | Some i => <[i := ea]> chain
                  | None => ea :: chain
                  end));;
      clogged (EvIncrRefCount body)
  end.

(* case CFG_EVENT: *)
Definition configure_event (is_configure : bool) : J unit :=
  do n <- argc;
  (if is_configure then
     if n <? 2 then
       set_result (ResultWrongNumArgs "-event ?event-name? ?EVENT-BODY?");;
       return_ JIM_ERR
     else skip
   else
     if negb (n =? 1) then
       set_result (ResultWrongNumArgs "-event ?event-name?");;
       return_ JIM_ERR
     else skip);;
  do chain <- cget event_action;
  do (e, p) <- parse (jim_getopt_nvp_event JE);
  if negb (e =? JIM_OK) then
    set_result (ResultNvpUnknown 1);;
    return_ e
  else
    let ea := find_action chain p in
    if is_configure then
      match ea with
      | None =>
          if negb (calloc_event_action_ok JE) then
            LOG_ERROR "Out of memory";;
            return_ JIM_ERR
          else bind_event_body p None
      | Some (i, old) =>
          (* replace existing *)
          clogged (EvDecrRefCount (ea_body old));;
          bind_event_body p (Some i)
      end
    else
      if ea is Some (_, found)
      then set_result (ResultObj (ea_body found))
      else skip.

(* switch (n->value) *)
Definition configure_option (is_configure : bool) (n : Z) : J unit :=
  if n =? CFG_PORT_WIDTH then configure_port_width is_configure
  else if n =? CFG_PROTOCOL then configure_protocol is_configure
  else if n =? CFG_FORMATTER then configure_formatter is_configure
  else if n =? CFG_TRACECLKIN then configure_traceclkin is_configure
  else if n =? CFG_BITRATE then configure_bitrate is_configure
  else if n =? CFG_OUTFILE then configure_outfile is_configure
  else if n =? CFG_EVENT then configure_event is_configure
  else skip.

(** [adiv5_jim_mem_ap_spot_configure(&obj->spot, goi)]. *)
Definition spot_configure (is_configure : bool) : J Z := λ st,
  let o := cobj st in
  let '(e, spot, g) :=
    adiv5_jim_mem_ap_spot_configure JE is_configure
      (spot_dap o, spot_ap_num o, spot_base o) (goi st) in
  (Val e, mk_config_state (set_spot spot o) g (clog st)).

(** The [while (goi->argc > 0)] loop; [fuel] bounds the number of its
    rounds. *)
Fixpoint configure_options (fuel : nat) (is_configure : bool) : J Z :=
  match fuel with
  | O => stop_ OutOfFuel
  | Datatypes.S fuel' =>
      do n <- argc;
      if negb (0 <? n) then return_ JIM_OK
      else
        set_result ResultEmpty;;
        do e <- spot_configure is_configure;
        if e =? JIM_OK then configure_options fuel' is_configure
        else if e =? JIM_ERR then return_ e
        else
          do (e, n) <- parse (jim_getopt_nvp_config_opts JE);
          if negb (e =? JIM_OK) then
            set_result (ResultNvpUnknown 0);;
            return_ e
          else
            configure_option is_configure n;;
            configure_options fuel' is_configure
  end.

Definition arm_tpiu_swo_configure (fuel : nat) (is_configure : bool) : J Z :=
  do en <- cget enabled;
  if is_configure && en then
    do nm <- cget name;
    set_result (ResultFormatted "Cannot configure TPIU/SWO; %s is enabled!" nm);;
    return_ JIM_ERR
  else configure_options fuel is_configure.

(** The lines after the call of [arm_tpiu_swo_configure] in the two
    commands that use it: the result of the interpreter is printed. *)
Definition print_result : J unit :=
  do r <- get_result;
  if result_has_text r then clogged (EvCommandPrintResult r) else skip.

(** [handle_arm_tpiu_swo_configure], for [configure] and [cget]:
    [args] are the words of the command and [cmd_name] is [CMD_NAME]. *)
Definition handle_arm_tpiu_swo_configure (fuel : nat) (args : list string)
    (cmd_name : string) : J Z :=
  if Z.of_nat (length args) =? 0 then return_ ERROR_COMMAND_SYNTAX_ERROR
  else
    do r <- get_result;
    (λ st, (Val tt, mk_config_state (cobj st) (mk_goi args r) (clog st)));;
    let is_configure := String.eqb cmd_name "configure" in
    do e <- call (arm_tpiu_swo_configure fuel is_configure);
    print_result;;
    if negb (e =? JIM_OK) then return_ ERROR_FAIL
    else return_ ERROR_OK.

(** ** [tpiu create]

    The registry of the instances, the result of the interpreter and
    the calls made. *)
Record creation_state := mk_creation_state {
  reg : registry;
  interp_result : jim_result;
  created_log : list config_event;
}.

Abbreviation K := (prog creation_state).

Definition klogged (e : config_event) : K unit :=
  λ w, (Val tt, mk_creation_state (reg w) (interp_result w) (e :: created_log w)).

(** The instance right after [calloc] and the first assignments. *)
Definition fresh_object : arm_tpiu_swo_object :=
  let spot := adiv5_mem_ap_spot_init JE in
  mk_object spot.1.1 spot.1.2 TPIU_SWO_DEFAULT_BASE None "" [] false false false 1
    None 0 false 0 0 "" [] false.

(** [arm_tpiu_swo_configure] and the printing of its result, run on
    the instance that is being created. *)
Definition configure_new (fuel : nat) (o : arm_tpiu_swo_object)
    (args : list string) : K (Z * arm_tpiu_swo_object) := λ w,
  let '(r, st) :=
    (do e <- call (arm_tpiu_swo_configure fuel true); print_result;; ret e)
      (mk_config_state o (mk_goi args (interp_result w)) (created_log w)) in
  let w' := mk_creation_state (reg w) (result (goi st)) (clog st) in
  match r with
  | Val e => (Val (e, cobj st), w')
  | Return r => (Return r, w')
  | Stop r => (Stop r, w')
  end.

(* err_exit: *)
Definition err_exit (retval : Z) : K Z :=
  klogged (EvFree "name");;
  klogged (EvFree "out_filename");;
  klogged (EvFree "obj");;
  return_ retval.

(** [list_add_tail(&obj->lh, &all_tpiu_swo)] for the instance at [p]. *)
Definition list_add_tail (p : Z) (o : arm_tpiu_swo_object) : K unit := λ w,
  (Val tt,
   mk_creation_state
     (mk_registry (all_tpiu_swo (reg w) ++ [p]) (<[p := o]> (heap (reg w)))
        (calls (reg w)))
     (interp_result w) (created_log w)).

Definition handle_arm_tpiu_swo_create (fuel : nat) (args : list string) : K Z :=
  match args with
  | [] => return_ ERROR_COMMAND_SYNTAX_ERROR
  | argv0 :: rest =>
      (* does this command exist? *)
      if jim_command_exists JE argv0 then
        klogged (EvCommandPrint
          "cannot create TPIU object because a command with name '%s' already exists"
          argv0);;
        return_ ERROR_FAIL
      else
        match calloc_object JE with
        | None =>
            klogged (EvLogError "Out of memory");;
            return_ ERROR_FAIL
        | Some p =>
            let obj := fresh_object in
            if negb (strdup_ok JE "external") then
              klogged (EvLogError "Out of memory");;
              err_exit ERROR_FAIL
            else
            let obj := set_out_filename "external" obj in
            if negb (strdup_ok JE argv0) then
              klogged (EvLogError "Out of memory");;
              err_exit ERROR_FAIL
            else
            let obj := set_name argv0 obj in
            (* Do the rest as "configure" options *)
            do (e, obj) <- configure_new fuel obj rest;
            if negb (e =? JIM_OK) then err_exit ERROR_FAIL
            else if (spot_dap obj =? 0) || (spot_ap_num obj =? DP_APSEL_INVALID JE)
            then
              klogged (EvCommandPrint
                "-dap and -ap-num required when creating TPIU" "");;
              err_exit ERROR_FAIL
            else
              (* now - create the new tpiu/swo name command *)
              let retval := register_commands_with_data JE (name obj) in
              klogged (EvRegisterCommands (name obj) retval);;
              if negb (retval =? ERROR_OK) then err_exit retval
              else
                list_add_tail p obj;;
                return_ ERROR_OK
        end
  end.

End Configure.

End TpiuConfigure.

(** * Part III: vocabulary of the properties *)

Module SemihostingSpec.
Import Semihosting.

(** The state in which the [switch] starts. *)
Definition after_prologue (w : world) : world :=
  with_sh (λ s, set_is_resumable true (set_result (-1) s)) w.

(** The parameter block of [number] fields at [param], if it is readable,
    and its field [index]. *)
Definition fields_at (w : world) (number : Z) : option (list Z) :=
  read_bytes (mem w) (param (sh w))
    (to_uint32 4 * to_uint32 (number * (word_size_bytes (sh w) / 4))).

Definition field (w : world) (number : Z) (index : nat) : option Z :=
  match fields_at w number with
  | Some fields => Some (semihosting_get_field w index fields)
  | None => None
  end.

(** The bytes of a buffer in the target's memory, if readable. *)
Definition buffer_at (w : world) (addr len : Z) : option (list Z) :=
  read_bytes (mem w) addr (to_uint32 1 * to_uint32 len).

(** Number of times [post_result] was called in a trace. *)
Definition post_result_calls (w : world) : nat :=
  length (filter (λ e, e = EvPostResult) (trace w)).

(** A program that never calls [post_result]. *)
Definition quiet {A} (m : M A) : Prop :=
  ∀ w, post_result_calls (snd (m w)) = post_result_calls w.

(** A program that leaves the target's memory as it is. *)
Definition keeps_mem {A} (m : M A) : Prop :=
  ∀ w, mem (snd (m w)) = mem w.

(** The accessible bytes at or above an address. *)
Definition above (m : gmap Z Z) (addr : Z) : gmap Z Z :=
  filter (λ kv, addr ≤ kv.1) m.

(** The prefix of the name of [SYS_OPEN] in the words of the
    specification: [basedir] when it is non-empty, followed by a ['/']
    when it does not end in one. *)
Definition basedir_prefix (basedir : option (list Z)) : list Z :=
  match cstr (default [] basedir) with
  | [] => []
  | dir => if bool_decide (last dir = Some 47) then dir else dir ++ bytes_of_string "/"
  end.

Definition tt_name : list Z := bytes_of_string ":tt".
Definition features_name : list Z := bytes_of_string ":semihosting-features".

(** The standard stream that [:tt] stands for in a mode. *)
Definition tt_stream (mode : Z) : Z :=
  if mode <? 4 then STDIN_FILENO
  else if mode <? 8 then STDOUT_FILENO
  else STDERR_FILENO.

(** What the epilogue adds to the trace. *)
Definition post_result_event (w : world) : list event :=
  if hit_fileio (sh w) then [] else [EvPostResult].

(** ** Concrete hosts and worlds *)

(** A host on which every call succeeds; [read] and [write] transfer 4
    bytes, a file is 1234 bytes long, a debugger is attached. *)
Definition host_ok : host :=
  mk_host (λ _, true) 500 1000 (λ _, (0, 0)) (λ _, (0, 0, 1234))
    (λ _, (1, 0)) (λ fd, (fd + 10, 0)) (λ _ _ _, (7, 0))
    (λ _ _, (4, 0, [1; 2; 3; 4])) (λ _ _ _, (4, 0)) (λ _ p, (p, 0))
    (λ _, (0, 0)) (λ _ _, (0, 0)) (λ _, 0) 65 (λ c, c)
    (λ _, (0, [])) (λ _ n, n) 1 0 (λ _, 0) (λ s, (0, s)).


Definition bytes_at (addr : Z) (bs : list Z) : gmap Z Z :=
  list_to_map (zip (addrs addr (Z.of_nat (length bs))) bs).

(** Little-endian 32-bit words. *)
Definition words (ws : list Z) : list Z := concat (map (le_encode 4) ws).

(** A 32-bit little-endian target stopped on operation [opc] with its
    parameter register at [0x1000]. *)
Definition state_of (opc : Z) (fileio : bool) (cfg : semihosting_redirect_config)
    (dir : option (list Z)) : semihosting :=
  mk_semihosting true cfg None 3 4 5 fileio false false false 4 opc 0x1000
    0 0 None dir 0 false.

Definition world_of (s : semihosting) (m : gmap Z Z) : world :=
  mk_world s (mk_fileio_info "" 0 0 0 0) m true None [].

(** [SYS_READ]/[SYS_WRITE] of 16 bytes at [0x2000] on descriptor 3. *)
Definition transfer_mem : gmap Z Z :=
  bytes_at 0x1000 (words [3; 0x2000; 16]) ∪ bytes_at 0x2000 (repeat 7 16).

Definition world_read : world :=
  world_of (state_of SEMIHOSTING_SYS_READ false SEMIHOSTING_REDIRECT_CFG_NONE None)
    transfer_mem.
Definition world_read_redirected : world :=
  world_of (state_of SEMIHOSTING_SYS_READ false SEMIHOSTING_REDIRECT_CFG_ALL None)
    transfer_mem.
Definition world_read_redirected_fileio : world :=
  world_of (state_of SEMIHOSTING_SYS_READ true SEMIHOSTING_REDIRECT_CFG_ALL None)
    transfer_mem.

(** [SYS_FLEN] and [SYS_CLOSE] with the descriptor in the parameter block. *)
Definition world_flen_fileio : world :=
  world_of (state_of SEMIHOSTING_SYS_FLEN true SEMIHOSTING_REDIRECT_CFG_NONE None)
    (bytes_at 0x1000 (words [7])).
Definition world_close_stdout : world :=
  world_of (state_of SEMIHOSTING_SYS_CLOSE false SEMIHOSTING_REDIRECT_CFG_NONE None)
    (bytes_at 0x1000 (words [1])).

(** [SYS_OPEN] of the name at [0x2000] with mode 0. *)
Definition open_mem (name : string) : gmap Z Z :=
  bytes_at 0x1000 (words [0x2000; 0; Z.of_nat (String.length name)])
  ∪ bytes_at 0x2000 (bytes_of_string name ++ [0]).

Definition world_open (name : string) (dir : option string) : world :=
  world_of (state_of SEMIHOSTING_SYS_OPEN false SEMIHOSTING_REDIRECT_CFG_NONE
              (bytes_of_string <$> dir))
    (open_mem name).

(** [SYS_EXIT] of a 32-bit target reporting a normal exit. *)
Definition world_exit : world :=
  world_of (mk_semihosting true SEMIHOSTING_REDIRECT_CFG_NONE None 3 4 5 false
              false false false 4 SEMIHOSTING_SYS_EXIT ADP_STOPPED_APPLICATION_EXIT
              0 0 None None 0 false) ∅.

End SemihostingSpec.

Module TpiuSpec.
Import Tpiu.

(** The body of the first action bound to an event, the result of
    [arm_tpiu_swo_handle_event] for it and the call it makes. *)
Fixpoint hook_body (chain : list arm_tpiu_swo_event_action)
    (event : arm_tpiu_swo_event) : option string :=
  match chain with
  | [] => None
  | ea :: next =>
      if bool_decide (ea_event ea ≠ event) then hook_body next event
      else Some (ea_body ea)
  end.

Definition hook_retval (E : env) (chain : list arm_tpiu_swo_event_action)
    (event : arm_tpiu_swo_event) : Z :=
  match hook_body chain event with
  | None => ERROR_OK
  | Some body =>
      let '(retval, returnCode) := jim_eval E body in
      let retval := if retval =? JIM_RETURN then returnCode else retval in
      if (retval =? JIM_OK) || (retval =? ERROR_COMMAND_CLOSE_CONNECTION)
      then ERROR_OK
      else ERROR_FAIL
  end.

Definition hook_events (chain : list arm_tpiu_swo_event_action)
    (event : arm_tpiu_swo_event) : list Tpiu.event :=
  match hook_body chain event with
  | None => []
  | Some body => [EvHook event body]
  end.

(** ** Counting calls in a trace *)

Fixpoint tally (f : Tpiu.event → Z) (l : list Tpiu.event) : Z :=
  match l with
  | [] => 0
  | e :: rest => f e + tally f rest
  end.

(** Files opened less files closed, and the like for services and timers. *)
Definition opens_file (e : Tpiu.event) : Z :=
  match e with
  | EvFopen _ (Some _) => 1
  | EvFclose _ => -1
  | _ => 0
  end.
Definition adds_service (e : Tpiu.event) : Z :=
  match e with
  | EvAddService _ retval => if retval =? ERROR_OK then 1 else 0
  | EvRemoveService _ => -1
  | _ => 0
  end.
Definition registers_timer (e : Tpiu.event) : Z :=
  match e with
  | EvRegisterTimer => 1
  | EvUnregisterTimer => -1
  | _ => 0
  end.
(** [adapter_config_trace(true, ...)] returning [ERROR_OK], and
    [adapter_config_trace(false, ...)]. *)
Definition starts_trace (e : Tpiu.event) : Z :=
  match e with
  | EvConfigTrace true retval => if retval =? ERROR_OK then 1 else 0
  | _ => 0
  end.
Definition stops_trace (e : Tpiu.event) : Z :=
  match e with
  | EvConfigTrace false _ => 1
  | _ => 0
  end.
Definition puts_ap (e : Tpiu.event) : Z :=
  match e with
  | EvDapPutAp _ => 1
  | _ => 0
  end.
Definition runs_hook (event : arm_tpiu_swo_event) (e : Tpiu.event) : Z :=
  match e with
  | EvHook event' _ => if bool_decide (event' = event) then 1 else 0
  | _ => 0
  end.
Definition accesses_register (e : Tpiu.event) : Z :=
  match e with
  | EvReadU32 _ | EvWriteU32 _ _ => 1
  | _ => 0
  end.

(** What is held on behalf of an instance, read off the trace. *)
Record ledger := mk_ledger {
  files : Z;
  services : Z;
  timers : Z;
  starts : Z;
  stops : Z;
  ap_released : Z;
}.

Definition ledger_of (l : list Tpiu.event) : ledger :=
  mk_ledger (tally opens_file l) (tally adds_service l) (tally registers_timer l)
    (tally starts_trace l) (tally stops_trace l) (tally puts_ap l).

(** The configuration of an instance that [enable] reads. *)
Definition settings (o : arm_tpiu_swo_object) :=
  (pin_protocol o, port_width o, traceclkin_freq o, out_filename o,
   event_action o, en_formatter o).

(** The part of a state that the preparation of [enable] leaves alone:
    the flags, the sink, the configuration and the ledger. *)
Definition resources (st : state) :=
  (enabled (obj st), en_capture (obj st), file (obj st), swo_pin_freq (obj st),
   settings (obj st), ledger_of (trace st)).

(** How a failed [enable] leaves an instance, [st] being the state at
    the call and [st'] the state at the return: the flags and the sink are
    as they were; every file opened has been closed, every service added
    removed, every timer registered unregistered; the access port has not
    been put back; [adapter_config_trace(false, ...)] has been called at
    most once, and then after an [adapter_config_trace(true, ...)] that
    returned [ERROR_OK]; and a successful [adapter_config_trace(true, ...)]
    is left without its [adapter_config_trace(false, ...)] only when the
    probe reported a pin frequency of 0 for an asynchronous protocol. *)
Definition failure_outcome (E : env) (st st' : state) : Prop :=
  let o := obj st in
  let o' := obj st' in
  let before := ledger_of (trace st) in
  let after := ledger_of (trace st') in
  enabled o' = enabled o
  ∧ en_capture o' = en_capture o
  ∧ file o' = file o
  ∧ files after = files before
  ∧ services after = services before
  ∧ timers after = timers before
  ∧ ap_released after = ap_released before
  ∧ (stops after = stops before ∧ starts after = starts before
     ∨ stops after = stops before + 1 ∧ starts after = starts before + 1
     ∨ stops after = stops before ∧ starts after = starts before + 1
       ∧ is_async (pin_protocol o) = true
       ∧ (adapter_config_trace_start E (pin_protocol o) (port_width o)
            (swo_pin_freq o) (traceclkin_freq o)).1.2 = 0).

(** The part of a state that nothing before the pre-enable hook touches. *)
Definition untouched (st : state) :=
  (enabled (obj st), event_action (obj st),
   tally (runs_hook TPIU_SWO_EVENT_POST_ENABLE) (trace st),
   tally accesses_register (trace st)).

(** A program that leaves a part of the state alone. *)
Definition keeps {V A} (view : state → V) (m : M A) : Prop :=
  ∀ st, view (snd (m st)) = view st.

(** The prescaler in the words of the specification: the quotient
    rounded to the nearest integer, at most [TPIU_ACPR_MAX_PRESCALER]. *)
Definition round_div (a b : Z) : Z := (2 * a + b) / (2 * b).
Definition prescaler_spec (traceclkin swo_pin_freq_ : Z) : Z :=
  Z.min (round_div traceclkin swo_pin_freq_) TPIU_ACPR_MAX_PRESCALER.

(** ** Concrete environments and instances *)

(** Every collaborator succeeds; the TPIU supports every protocol and
    port width; the probe accepts the requested pin frequency. *)
Definition env_ok : env :=
  mk_env false "cortex_m" true 0 (λ _ _, Some 100) (λ _, (JIM_OK, 0))
    (λ a, (ERROR_OK, if a =? TPIU_SWO_DEFAULT_BASE + TPIU_DEVID_OFFSET
                     then 0xC00 else 0xFFFFFFFF))
    (λ _ _, ERROR_OK) true (λ _, ERROR_OK) (λ _, Some 200)
    (λ _ _ pin _, (ERROR_OK, pin, 1)) ERROR_OK.

(** As [env_ok], but every script fails. *)
Definition env_hooks_fail : env :=
  mk_env false "cortex_m" true 0 (λ _ _, Some 100) (λ _, (JIM_ERR, 0))
    (λ a, (ERROR_OK, if a =? TPIU_SWO_DEFAULT_BASE + TPIU_DEVID_OFFSET
                     then 0xC00 else 0xFFFFFFFF))
    (λ _ _, ERROR_OK) true (λ _, ERROR_OK) (λ _, Some 200)
    (λ _ _ pin _, (ERROR_OK, pin, 1)) ERROR_OK.

(** As [env_ok], but the probe starts the trace and reports a pin
    frequency of 0. *)
Definition env_no_pin_freq : env :=
  mk_env false "cortex_m" true 0 (λ _ _, Some 100) (λ _, (JIM_OK, 0))
    (λ a, (ERROR_OK, if a =? TPIU_SWO_DEFAULT_BASE + TPIU_DEVID_OFFSET
                     then 0xC00 else 0xFFFFFFFF))
    (λ _ _, ERROR_OK) true (λ _, ERROR_OK) (λ _, Some 200)
    (λ _ _ _ _, (ERROR_OK, 0, 1)) ERROR_OK.

(** As [env_ok], but the last register write fails. *)
Definition env_ffcr_write_fails : env :=
  mk_env false "cortex_m" true 0 (λ _ _, Some 100) (λ _, (JIM_OK, 0))
    (λ a, (ERROR_OK, if a =? TPIU_SWO_DEFAULT_BASE + TPIU_DEVID_OFFSET
                     then 0xC00 else 0xFFFFFFFF))
    (λ a _, if a =? TPIU_SWO_DEFAULT_BASE + TPIU_FFCR_OFFSET
            then ERROR_FAIL else ERROR_OK)
    true (λ _, ERROR_OK) (λ _, Some 200)
    (λ _ _ pin _, (ERROR_OK, pin, 1)) ERROR_OK.

(** An instance as [tpiu create] leaves it, then configured for the UART
    protocol. *)
Definition uart_instance (out : string) (traceclkin pin_freq : Z)
    (hooks : list arm_tpiu_swo_event_action) : arm_tpiu_swo_object :=
  mk_object 1 0 TPIU_SWO_DEFAULT_BASE None "tpiu0" hooks false false false 1
    None TPIU_SPPR_PROTOCOL_UART false traceclkin pin_freq out [] false.

(** The same instance once enabled with a file sink. *)
Definition enabled_instance (hooks : list arm_tpiu_swo_event_action) :
    arm_tpiu_swo_object :=
  mk_object 1 0 TPIU_SWO_DEFAULT_BASE (Some 100) "tpiu0" hooks false true true 1
    (Some 200) TPIU_SPPR_PROTOCOL_UART false 168000000 2000000 "trace.bin" []
    false.

Definition both_disable_hooks : list arm_tpiu_swo_event_action :=
  [ mk_event_action TPIU_SWO_EVENT_PRE_DISABLE "pre";
    mk_event_action TPIU_SWO_EVENT_POST_DISABLE "post" ].

Definition both_enable_hooks : list arm_tpiu_swo_event_action :=
  [ mk_event_action TPIU_SWO_EVENT_PRE_ENABLE "pre";
    mk_event_action TPIU_SWO_EVENT_POST_ENABLE "post" ].

(** A registry with one idle instance at address 1. *)
Definition one_instance : registry :=
  mk_registry [1] {[ 1 := uart_instance "external" 168000000 2000000 [] ]} [].

Definition empty_registry : registry := mk_registry [] ∅ [].

End TpiuSpec.

(** ** Vocabulary of the further properties of the dispatcher *)

Module SemihostingViews.
Import Semihosting SemihostingSpec.

(** A program that leaves a part of the world as it is. *)
Definition preserves {V A} (view : world → V) (m : M A) : Prop :=
  ∀ w, view (snd (m w)) = view w.

(** What the commands of the file configure, and what the target's stop
    hands over: none of it is for the dispatcher to change. *)
Definition configuration (s : semihosting) :=
  (is_active s, redirect_cfg s, tcp_connection s, is_fileio s,
   has_resumable_exit s, word_size_bytes s, op s, param s, cmdline s,
   basedir s, setup_time s, user_command_extension s).

(** The three descriptors that stand for the console. *)
Definition streams (s : semihosting) := (stdin_fd s, stdout_fd s, stderr_fd s).

Definition is_user_cmd (opc : Z) : bool :=
  (SEMIHOSTING_USER_CMD_0X100 <=? opc) && (opc <=? SEMIHOSTING_USER_CMD_0X107).

(** The operations whose result is data in the target's memory. *)
Definition writes_memory (opc : Z) : bool :=
  (opc =? SEMIHOSTING_SYS_READ) || (opc =? SEMIHOSTING_SYS_GET_CMDLINE)
  || (opc =? SEMIHOSTING_SYS_HEAPINFO).

(** The operations that have code of their own in the [switch]; the
    labels of [SYS_ELAPSED], [SYS_TICKFREQ] and [SYS_TMPNAM] have none
    and fall through to [default:]. *)
Definition has_case (opc : Z) : bool :=
  bool_decide (opc ∈ [ SEMIHOSTING_SYS_CLOCK; SEMIHOSTING_SYS_CLOSE;
    SEMIHOSTING_SYS_ERRNO; SEMIHOSTING_SYS_EXIT; SEMIHOSTING_SYS_EXIT_EXTENDED;
    SEMIHOSTING_SYS_FLEN; SEMIHOSTING_SYS_GET_CMDLINE; SEMIHOSTING_SYS_HEAPINFO;
    SEMIHOSTING_SYS_ISERROR; SEMIHOSTING_SYS_ISTTY; SEMIHOSTING_SYS_OPEN;
    SEMIHOSTING_SYS_READ; SEMIHOSTING_SYS_READC; SEMIHOSTING_SYS_REMOVE;
    SEMIHOSTING_SYS_RENAME; SEMIHOSTING_SYS_SEEK; SEMIHOSTING_SYS_SYSTEM;
    SEMIHOSTING_SYS_TIME; SEMIHOSTING_SYS_WRITE; SEMIHOSTING_SYS_WRITEC;
    SEMIHOSTING_SYS_WRITE0 ])
  || is_user_cmd opc.

(** A NUL-terminated string in the target's memory: the bytes of [s],
    none of them zero, from [addr] on, and a zero byte after them. *)
Fixpoint string_at (m : gmap Z Z) (addr : Z) (s : list Z) : Prop :=
  match s with
  | [] => m !! addr = Some 0
  | c :: rest => m !! addr = Some c ∧ c ≠ 0 ∧ string_at m (addr + 1) rest
  end.

(** The debug operations ([SYS_READC], [SYS_WRITEC], [SYS_WRITE0]) go
    to the client with the configurations [DEBUG] and [ALL], the stdio
    operations ([SYS_READ], [SYS_WRITE]) with [STDIO] and [ALL]. *)
Definition debug_redirected (s : semihosting) : bool :=
  bool_decide (redirect_cfg s = SEMIHOSTING_REDIRECT_CFG_DEBUG
               ∨ redirect_cfg s = SEMIHOSTING_REDIRECT_CFG_ALL).
Definition stdio_redirected (s : semihosting) : bool :=
  bool_decide (redirect_cfg s = SEMIHOSTING_REDIRECT_CFG_STDIO
               ∨ redirect_cfg s = SEMIHOSTING_REDIRECT_CFG_ALL).

(** The call by which one character leaves: [putchar] on the host, or a
    write of one byte to the client. *)
Definition char_event (redirected : bool) (c : Z) : event :=
  if redirected then EvConnectionWrite [c mod 256] 1 else EvPutchar c.

(** The calls that send a string, one character at a time (the trace has
    the most recent call first). *)
Definition chars_events (redirected : bool) (s : list Z) : list event :=
  rev (map (char_event redirected) s).

(** A world after some more calls. *)
Definition with_events (l : list event) (w : world) : world :=
  foldr with_event w l.

(** The width of a field of a parameter block, in bytes. *)
Definition field_width (w : world) : nat :=
  if word_size_bytes (sh w) =? 8 then 8%nat else 4%nat.

(** As [host_ok], with no debugger attached. *)
Definition host_detached : host :=
  mk_host (λ _, true) 500 1000 (λ _, (0, 0)) (λ _, (0, 0, 1234))
    (λ _, (1, 0)) (λ fd, (fd + 10, 0)) (λ _ _ _, (7, 0))
    (λ _ _, (4, 0, [1; 2; 3; 4])) (λ _ _ _, (4, 0)) (λ _ p, (p, 0))
    (λ _, (0, 0)) (λ _ _, (0, 0)) (λ _, 0) 65 (λ c, c)
    (λ _, (0, [])) (λ _ n, n) 0 0 (λ _, 0) (λ s, (0, s)).

(** [world_write]: a [SYS_WRITE] of 16 bytes on [stdout_fd] with every
    stream redirected and the client 9 attached. *)
Definition world_write_client : world :=
  world_of (mk_semihosting true SEMIHOSTING_REDIRECT_CFG_ALL (Some 9) 3 4 5
              false false false false 4 SEMIHOSTING_SYS_WRITE 0x1000 0 0 None
              None 0 false)
    (bytes_at 0x1000 (words [4; 0x2000; 16]) ∪ bytes_at 0x2000 (repeat 7 16)).

(** [SYS_GET_CMDLINE] into a buffer of 32 bytes at [0x2000], the
    command line being ["prog -v x"]. *)
Definition world_get_cmdline : world :=
  world_of (mk_semihosting true SEMIHOSTING_REDIRECT_CFG_NONE None 3 4 5
              false false false false 4 SEMIHOSTING_SYS_GET_CMDLINE 0x1000 0 0
              (Some (bytes_of_string "prog -v x")) None 0 false)
    (bytes_at 0x1000 (words [0x2000; 32]) ∪ bytes_at 0x2000 (repeat 255 32)).

End SemihostingViews.

(** ** Vocabulary of the properties of the commands *)

Module SemihostingCommandViews.
Import Semihosting SemihostingCommands.

(** The arguments of a command as one line: the C strings joined by
    single spaces; no line at all when there is no argument. *)
Definition joined (argv : list (list Z)) : option (list Z) :=
  match argv with
  | [] => None
  | arg0 :: rest =>
      Some (foldl (λ line arg, line ++ bytes_of_string " " ++ cstr arg)
              (cstr arg0) rest)
  end.

(** The state of a command on a selected target with the semihosting
    state [s], outside of any user-command event. *)
Definition command_state_of (s : semihosting) : command_state :=
  mk_command_state true (Some s) None [].

(** What a command that needs semihosting to be enabled answers when it
    is not. *)
Definition refused (st : command_state) : res Z * command_state :=
  (Return ERROR_FAIL,
   mk_command_state (current_target st) (target_semihosting st)
     (user_op_params st)
     (EvCommandPrint "semihosting not yet enabled for current target" None
      :: output st)).

(** The semihosting state a command leaves, if there is one. *)
Definition semihosting_after (out : res Z * command_state) : option semihosting :=
  target_semihosting (snd out).

(** How often the old service was removed in a run of events. *)
Definition service_removals (l : list command_event) : nat :=
  length (filter (λ e, e = EvRemoveService) l).

(** Whether the TCP service of a redirection can be set up: nothing is
    needed to switch the redirection off. *)
Definition service_added (E : command_env) (cfg : semihosting_redirect_config)
    (port : list Z) : bool :=
  bool_decide (cfg = SEMIHOSTING_REDIRECT_CFG_NONE)
  || (calloc_service_ok E
      && alloc_printf_ok E (bytes_of_string "%s semihosting service")
      && (add_service E port =? ERROR_OK)).

(** Collaborators that never fail; [enable] and [disable] are the
    arguments that [COMMAND_PARSE_ENABLE] understands. *)
Definition commands_ok : command_env :=
  mk_command_env
    (λ arg, if streq arg (bytes_of_string "enable") then (ERROR_OK, true)
            else if streq arg (bytes_of_string "disable") then (ERROR_OK, false)
            else (ERROR_COMMAND_SYNTAX_ERROR, false))
    true (λ _, ERROR_OK) true (λ _, true) (λ _, true) (λ _, ERROR_OK).

(** As [commands_ok], but the TCP service cannot be added. *)
Definition commands_no_service : command_env :=
  mk_command_env
    (λ arg, if streq arg (bytes_of_string "enable") then (ERROR_OK, true)
            else if streq arg (bytes_of_string "disable") then (ERROR_OK, false)
            else (ERROR_COMMAND_SYNTAX_ERROR, false))
    true (λ _, ERROR_OK) true (λ _, true) (λ _, true) (λ _, ERROR_FAIL).

(** The semihosting state right after [semihosting_common_init]. *)
Definition initial_semihosting (clock : Z) : semihosting :=
  mk_semihosting false SEMIHOSTING_REDIRECT_CFG_NONE None (-1) (-1) (-1) false
    false false false 0 (-1) 0 (-1) (-1) None None clock false.

End SemihostingCommandViews.

(** ** Views of the TPIU/SWO controller used by the lifecycle properties *)

Module TpiuViews.
Import Tpiu TpiuSpec.

(** What the trace says an instance holds: files open, services added,
    timers registered and probe traces started and not yet stopped. *)
Definition held (tr : list event) : Z * Z * Z * Z :=
  (tally opens_file tr, tally adds_service tr, tally registers_timer tr,
   tally starts_trace tr - tally stops_trace tr).

(** Calls that concern the probe's trace or a sink of the host. *)
Definition touches_sink (e : event) : Z :=
  match e with
  | EvAddService _ _ | EvRemoveService _ | EvFopen _ _ | EvFclose _
  | EvConfigTrace _ _ | EvRegisterTimer | EvUnregisterTimer => 1
  | _ => 0
  end.

(** The capture state of an instance and the sink calls made so far. *)
Definition capture_view (st : state) :=
  (en_capture (obj st), file (obj st), out_filename (obj st),
   tally touches_sink (trace st)).

(** The handles that [dap_get_ap] gave, the most recent first, and the
    calls of [dap_get_ap], whatever they gave. *)
Fixpoint acquired (tr : list event) : list Z :=
  match tr with
  | [] => []
  | EvDapGetAp _ _ (Some a) :: rest => a :: acquired rest
  | _ :: rest => acquired rest
  end.

Definition requests_ap (e : event) : Z :=
  match e with
  | EvDapGetAp _ _ _ => 1
  | _ => 0
  end.

Definition ap_view (st : state) :=
  (ap (obj st), acquired (trace st), tally requests_ap (trace st)).

(** The access port between two states of an instance: [ap] and the
    handles acquired are as they were, or no handle was held, one has
    been acquired and it is the one in [ap]. *)
Definition ap_kept (st st' : state) : Prop :=
  ap (obj st') = ap (obj st) ∧ acquired (trace st') = acquired (trace st)
  ∨ ap (obj st) = None
    ∧ ∃ a, ap (obj st') = Some a
           ∧ acquired (trace st') = a :: acquired (trace st).

(** A handle that is held is used again: [ap] is left as it is and
    [dap_get_ap] is not called. *)
Definition ap_reused (st st' : state) : Prop :=
  is_Some (ap (obj st)) → ap_view st' = ap_view st.

(** A program whose final state is related to its initial state. *)
Definition follows (R : state → state → Prop) {A} (m : M A) : Prop :=
  ∀ st, R st (snd (m st)).

(** How the calls of [adapter_config_trace] pair up over a failed
    [enable]: the trace is stopped at most once, and only after it was
    started; and it is stopped whenever it was started, as long as the
    probe does not report a pin frequency of 0 for an asynchronous
    protocol. *)
Definition trace_stopped (E : env) (st st' : state) : Prop :=
  let o := obj st in
  let started := tally starts_trace (trace st') - tally starts_trace (trace st) in
  let stopped := tally stops_trace (trace st') - tally stops_trace (trace st) in
  0 ≤ stopped ≤ 1
  ∧ (stopped = 1 → started = 1)
  ∧ ((is_async (pin_protocol o) = true →
      (adapter_config_trace_start E (pin_protocol o) (port_width o)
         (swo_pin_freq o) (traceclkin_freq o)).1.2 ≠ 0) →
     (stopped = 1 ↔ started = 1)).

(** An instance with a TCP sink, configured for the UART protocol. *)
Definition tcp_instance (hooks : list arm_tpiu_swo_event_action) :
    arm_tpiu_swo_object :=
  uart_instance ":3344" 168000000 2000000 hooks.

End TpiuViews.

(** ** Views of an instance used by the properties of [configure] *)

Module TpiuConfigureViews.
Import Tpiu TpiuConfigure.

(** What [enable], [disable] and the services keep in an instance, as
    against what [configure] sets. *)
Definition runtime (o : arm_tpiu_swo_object) :=
  (ap o, name o, deferred_enable o, enabled o, en_capture o, file o,
   connections o, recheck_ap_cur_target o).

Definition options (o : arm_tpiu_swo_object) :=
  (port_width o, pin_protocol o, en_formatter o, traceclkin_freq o,
   swo_pin_freq o, out_filename o, event_action o).

(** An output that names a TCP port names one that [configure] accepts. *)
Definition valid_output (JE : jim_env) (out : string) : Prop :=
  if tcp_port out is Some text then invalid_tcp_port JE text = false else True.

Definition well_formed (JE : jim_env) (o : arm_tpiu_swo_object) : Prop :=
  1 ≤ port_width o ≤ 32
  ∧ NoDup (map ea_event (event_action o))
  ∧ valid_output JE (out_filename o).

(** A piece of code that keeps a property of the instance. *)
Definition maintains (I : arm_tpiu_swo_object → Prop) {A} (m : J A) : Prop :=
  ∀ st, I (cobj st) → I (cobj (snd (m st))).

(** ** A parser that reads the words one by one

    The tables are the ones of the source; a number is a word of
    decimal digits. *)
Definition JIM_CONTINUE : Z := 4.

Definition nvp_arm_tpiu_swo_config_opts : list (string * Z) :=
  [ ("-port-width", CFG_PORT_WIDTH); ("-protocol", CFG_PROTOCOL);
    ("-formatter", CFG_FORMATTER); ("-traceclk", CFG_TRACECLKIN);
    ("-pin-freq", CFG_BITRATE); ("-output", CFG_OUTFILE);
    ("-event", CFG_EVENT);
    ("-dap", -1); ("-ap-num", -1); ("-baseaddr", -1) ].

Definition nvp_arm_tpiu_swo_protocol_opts : list (string * Z) :=
  [ ("sync", TPIU_SPPR_PROTOCOL_SYNC); ("uart", TPIU_SPPR_PROTOCOL_UART);
    ("manchester", TPIU_SPPR_PROTOCOL_MANCHESTER) ].

Definition nvp_arm_tpiu_swo_bool_opts : list (string * Z) :=
  [ ("on", 1); ("yes", 1); ("1", 1); ("true", 1);
    ("off", 0); ("no", 0); ("0", 0); ("false", 0) ].

Definition nvp_arm_tpiu_swo_event : list (string * arm_tpiu_swo_event) :=
  [ ("pre-enable", TPIU_SWO_EVENT_PRE_ENABLE);
    ("post-enable", TPIU_SWO_EVENT_POST_ENABLE);
    ("pre-disable", TPIU_SWO_EVENT_PRE_DISABLE);
    ("post-disable", TPIU_SWO_EVENT_POST_DISABLE) ].

Fixpoint name2value {A} (table : list (string * A)) (word : string) : option A :=
  match table with
  | [] => None
  | (n, v) :: rest => if String.eqb n word then Some v else name2value rest word
  end.

Fixpoint value2name (table : list (string * Z)) (value : Z) : option string :=
  match table with
  | [] => None
  | (n, v) :: rest => if v =? value then Some n else value2name rest value
  end.

Fixpoint decimal (s : string) (acc : Z) : option Z :=
  match s with
  | EmptyString => Some acc
  | String c rest =>
      let d := Z.of_N (N_of_ascii c) - 48 in
      if (0 <=? d) && (d <=? 9) then decimal rest (10 * acc + d) else None
  end.

Definition word_nvp {A} (table : list (string * A)) (default : A)
    (g : jim_getopt_info) : Z * A * jim_getopt_info :=
  match argv g with
  | [] => (JIM_ERR, default, g)
  | word :: rest =>
      match name2value table word with
      | Some v => (JIM_OK, v, mk_goi rest (result g))
      | None => (JIM_ERR, default, mk_goi rest (result g))
      end
  end.

Definition word_wide (g : jim_getopt_info) : Z * Z * jim_getopt_info :=
  match argv g with
  | [] => (JIM_ERR, 0, g)
  | word :: rest =>
      match (if String.eqb word "" then None else decimal word 0) with
      | Some v => (JIM_OK, v, mk_goi rest (result g))
      | None => (JIM_ERR, 0, mk_goi rest (ResultString "expected integer"))
      end
  end.

Definition word_string (g : jim_getopt_info) : Z * string * jim_getopt_info :=
  match argv g with
  | [] => (JIM_ERR, "", g)
  | word :: rest => (JIM_OK, word, mk_goi rest (result g))
  end.

Definition word_obj (g : jim_getopt_info) : Z * option string * jim_getopt_info :=
  match argv g with
  | [] => (JIM_ERR, None, g)
  | word :: rest => (JIM_OK, Some word, mk_goi rest (result g))
  end.

(** [-dap] and [-ap-num] with a number; anything else is left to the
    caller. *)
Definition word_spot (is_configure : bool) (spot : Z * Z * Z)
    (g : jim_getopt_info) : Z * (Z * Z * Z) * jim_getopt_info :=
  match argv g with
  | "-dap" :: word :: rest =>
      if decimal word 0 is Some v
      then (JIM_OK, (v, spot.1.2, spot.2), mk_goi rest (result g))
      else (JIM_ERR, spot, g)
  | "-ap-num" :: word :: rest =>
      if decimal word 0 is Some v
      then (JIM_OK, (spot.1.1, v, spot.2), mk_goi rest (result g))
      else (JIM_ERR, spot, g)
  | _ => (JIM_CONTINUE, spot, g)
  end.

Definition word_strtol (text : string) : Z * string :=
  if String.eqb text "" then (0, text)
  else if decimal text 0 is Some v then (v, "") else (0, text).

Definition jim_words : jim_env :=
  mk_jim_env word_spot
    (word_nvp nvp_arm_tpiu_swo_config_opts (-1))
    (word_nvp nvp_arm_tpiu_swo_protocol_opts (-1))
    (word_nvp nvp_arm_tpiu_swo_bool_opts (-1))
    (word_nvp nvp_arm_tpiu_swo_event TPIU_SWO_EVENT_PRE_ENABLE)
    word_wide word_string word_obj
    (λ v, if value2name nvp_arm_tpiu_swo_protocol_opts v is Some n
          then (JIM_OK, n) else (JIM_ERR, ""))
    (λ v, if value2name nvp_arm_tpiu_swo_bool_opts v is Some n
          then (JIM_OK, n) else (JIM_ERR, ""))
    word_strtol (λ _, true) true
    (λ _, false) (Some 1) (0, 0xFFFFFFFF, 0) 0xFFFFFFFF (λ _, ERROR_OK).

(** The interpreter and the log before a command. *)
Definition at_command (o : arm_tpiu_swo_object) (args : list string) :
    config_state :=
  mk_config_state o (mk_goi args ResultEmpty) [].

Definition no_instances : creation_state :=
  mk_creation_state (mk_registry [] ∅ []) ResultEmpty [].

End TpiuConfigureViews.

(** * Part IV: properties of the semihosting dispatcher *)

Section MachineIntegers.

Lemma to_int_small (v : Z) : -2 ^ 31 ≤ v < 2 ^ 31 → to_int v = v.
Proof.
  intros Hv. unfold to_int, wrap_signed.
  rewrite Z.mod_small; lia.
Qed.

Lemma to_int64_small (v : Z) : -2 ^ 63 ≤ v < 2 ^ 63 → to_int64 v = v.
Proof.
  intros Hv. unfold to_int64, wrap_signed.
  rewrite Z.mod_small; lia.
Qed.


End MachineIntegers.

Module SemihostingProofs.
Import Semihosting SemihostingSpec.

Lemma semihosting_common_unfold (H : host) (w : world) :
  semihosting_common H w
  = (handler H (op (sh w));; epilogue H) (after_prologue w).
Proof. reflexivity. Qed.

Lemma read_fields_eq (number : Z) (w : world) :
  semihosting_read_fields number w
  = (Val (match fields_at w number with
          | Some fields => (ERROR_OK, fields)
          | None => (ERROR_FAIL, [])
          end), w).
Proof.
  unfold semihosting_read_fields, fields_at, bind, get, target_read_memory; simpl.
  destruct (read_bytes _ _ _); reflexivity.
Qed.

Lemma field_fields (w : world) (number : Z) (index : nat) (v : Z) :
  field w number index = Some v →
  ∃ fields, fields_at w number = Some fields
            ∧ semihosting_get_field w index fields = v.
Proof.
  unfold field. destruct (fields_at w number) as [fields|]; [|discriminate].
  intros [= <-]. eauto.
Qed.

Lemma epilogue_eq (H : host) (w : world) :
  epilogue H w
  = if hit_fileio (sh w) then (Val ERROR_OK, w)
    else (if post_result H =? ERROR_OK then Val ERROR_OK else Return (post_result H),
          with_event EvPostResult w).
Proof.
  unfold epilogue, bind, get, check, emit, skip, ret, return_.
  destruct (hit_fileio (sh w)); simpl; [reflexivity|].
  destruct (post_result H =? ERROR_OK); reflexivity.
Qed.

(** The case of [SYS_CLOSE] on one of the three standard descriptors. *)
Lemma sys_close_stdio (H : host) (w : world) (v : Z) :
  field w 1 0 = Some v →
  v = 0 ∨ v = 1 ∨ v = 2 →
  sys_close H w = (Val tt, with_sh (set_result 0) w).
Proof.
  intros Hf Hv. apply field_fields in Hf as (fields & Hfs & Hget).
  unfold sys_close, bind. rewrite read_fields_eq, Hfs. simpl.
  unfold get_field. rewrite Hget.
  destruct Hv as [-> | [-> | ->]]; reflexivity.
Qed.

(** C5 (protected stdio).  A [SYS_CLOSE] whose field is 0, 1 or 2 ends
    with [result = 0]; the dispatcher calls nothing but [post_result] (so
    the host's [close] is not called) and the file-I/O request and
    [hit_fileio] are as before (so no "close" request is published),
    whatever [is_fileio] is. *)
Theorem C5_close_protects_stdio (H : host) (w : world) (v : Z) :
  op (sh w) = SEMIHOSTING_SYS_CLOSE →
  field w 1 0 = Some v →
  v = 0 ∨ v = 1 ∨ v = 2 →
  let w' := snd (semihosting_common H w) in
  result (sh w') = 0
  ∧ trace w' = (if hit_fileio (sh w) then [] else [EvPostResult]) ++ trace w
  ∧ (∀ fd, EvClose fd ∈ trace w' → EvClose fd ∈ trace w)
  ∧ fileio_info w' = fileio_info w
  ∧ hit_fileio (sh w') = hit_fileio (sh w).
Proof.
  intros Hop Hf Hv w'.
  assert (Hrun : semihosting_common H w
                 = epilogue H (with_sh (set_result 0) (after_prologue w))).
  { rewrite semihosting_common_unfold, Hop.
    change (handler H SEMIHOSTING_SYS_CLOSE) with (sys_close H).
    unfold bind at 1.
    now rewrite (sys_close_stdio H (after_prologue w) v Hf Hv). }
  subst w'. rewrite Hrun, epilogue_eq. simpl.
  destruct (hit_fileio (sh w)) eqn:Hhit; simpl; rewrite ?Hhit; repeat split; auto.
  intros fd Hin. apply elem_of_cons in Hin as [Heq | Hin]; [discriminate | exact Hin].
Qed.

(** ** The handlers never call [post_result] *)

Create HintDb quiet.

Lemma quiet_ret {A} (a : A) : quiet (ret a).
Proof. intros w. reflexivity. Qed.

Lemma quiet_return {A} (r : Z) : quiet (@return_ world A r).
Proof. intros w. reflexivity. Qed.

Lemma quiet_stop {A} (r : stop) : quiet (@stop_ world A r).
Proof. intros w. reflexivity. Qed.

Lemma quiet_skip : quiet (@skip world).
Proof. intros w. reflexivity. Qed.

Lemma quiet_bind {A B} (m : M A) (f : A → M B) :
  quiet m → (∀ a, quiet (f a)) → quiet (bind m f).
Proof.
  intros Hm Hf w. unfold bind. specialize (Hm w).
  destruct (m w) as [[a | r | r] w1]; simpl in *; [|assumption..].
  rewrite <- Hm. apply Hf.
Qed.

Lemma quiet_get {A} (f : semihosting → A) : quiet (get f).
Proof. intros w. reflexivity. Qed.

Lemma quiet_modify (f : semihosting → semihosting) : quiet (modify f).
Proof. intros w. reflexivity. Qed.

Lemma quiet_emit (e : event) : e ≠ EvPostResult → quiet (emit e).
Proof.
  intros He w. unfold emit, post_result_calls; simpl.
  rewrite filter_cons_False; auto.
Qed.

Lemma quiet_when (b : bool) (m : M unit) : quiet m → quiet (when_ b m).
Proof. intros Hm. destruct b; [exact Hm | apply quiet_skip]. Qed.

Lemma quiet_check (r : Z) : quiet (@check world r).
Proof. unfold check. destruct (r =? ERROR_OK); [apply quiet_skip | apply quiet_return]. Qed.

Lemma quiet_set_fileio_info id p1 p2 p3 p4 : quiet (set_fileio_info id p1 p2 p3 p4).
Proof. intros w. reflexivity. Qed.

Lemma quiet_target_read_memory addr size count :
  quiet (target_read_memory addr size count).
Proof. intros w. unfold target_read_memory. destruct (read_bytes _ _ _); reflexivity. Qed.

Lemma quiet_target_write_memory addr size count buf :
  quiet (target_write_memory addr size count buf).
Proof. intros w. unfold target_write_memory. destruct (write_bytes _ _ _); reflexivity. Qed.

Lemma quiet_get_field index fields : quiet (get_field index fields).
Proof. intros w. reflexivity. Qed.

Lemma quiet_enough_fuel : quiet enough_fuel.
Proof. intros w. reflexivity. Qed.

Lemma quiet_set_user_op_params p : quiet (set_user_op_params p).
Proof. intros w. reflexivity. Qed.

Lemma quiet_state {A} (f : world → A) : quiet (λ w, (Val (f w), w)).
Proof. intros w. reflexivity. Qed.

Lemma quiet_user_extension (H : host) :
  quiet (λ w, let '(r, s) := user_command_extension_run H (sh w) in
              (Val r, with_sh (λ _, s) w)).
Proof. intros w. destruct (user_command_extension_run H (sh w)). reflexivity. Qed.

(** One step of the structural proof that a handler is quiet. *)
Ltac quiet_step :=
  match goal with
  | |- quiet (bind _ _) => apply quiet_bind; [| intros ?]
  | |- quiet (ret _) => apply quiet_ret
  | |- quiet (return_ _) => apply quiet_return
  | |- quiet (stop_ _) => apply quiet_stop
  | |- quiet skip => apply quiet_skip
  | |- quiet (get _) => apply quiet_get
  | |- quiet (modify _) => apply quiet_modify
  | |- quiet (emit _) => apply quiet_emit; discriminate
  | |- quiet (when_ _ _) => apply quiet_when
  | |- quiet (check _) => apply quiet_check
  | |- quiet (set_fileio_info _ _ _ _ _) => apply quiet_set_fileio_info
  | |- quiet (target_read_memory _ _ _) => apply quiet_target_read_memory
  | |- quiet (target_write_memory _ _ _ _) => apply quiet_target_write_memory
  | |- quiet (target_read_buffer _ _) => apply quiet_target_read_memory
  | |- quiet (target_write_buffer _ _ _) => apply quiet_target_write_memory
  | |- quiet (get_field _ _) => apply quiet_get_field
  | |- quiet enough_fuel => apply quiet_enough_fuel
  | |- quiet (set_user_op_params _) => apply quiet_set_user_op_params
  | |- quiet (semihosting_read_fields _) => unfold semihosting_read_fields
  | |- quiet (semihosting_write_fields _ _) => unfold semihosting_write_fields
  | |- quiet (if ?b then _ else _) => destruct b
  | |- quiet (match ?x with _ => _ end) => destruct x
  | |- quiet (let '(_, _) := ?x in _) => destruct x
  | |- quiet (λ w, (Val _, w)) => intros ?; reflexivity
  end.

Ltac quiet_auto := repeat (quiet_step; simpl).

Section Quiet.

Variable H : host.

Lemma quiet_redirect_write buf size : quiet (semihosting_redirect_write H buf size).
Proof. unfold semihosting_redirect_write. quiet_auto. Qed.

Lemma quiet_redirect_read size : quiet (semihosting_redirect_read H size).
Proof. unfold semihosting_redirect_read. quiet_auto. Qed.

Lemma quiet_write fd buf size : quiet (semihosting_write H fd buf size).
Proof.
  unfold semihosting_write. quiet_auto; try apply quiet_redirect_write.
Qed.

Lemma quiet_read fd size : quiet (semihosting_read H fd size).
Proof.
  unfold semihosting_read. quiet_auto; try apply quiet_redirect_read.
Qed.

Lemma quiet_putchar fd c : quiet (semihosting_putchar H fd c).
Proof.
  unfold semihosting_putchar. quiet_auto; try apply quiet_redirect_write.
Qed.

Lemma quiet_getchar fd : quiet (semihosting_getchar H fd).
Proof.
  unfold semihosting_getchar. quiet_auto; try apply quiet_redirect_read.
Qed.

Lemma quiet_exit_or_report code msg : quiet (exit_or_report H code msg).
Proof. unfold exit_or_report. quiet_auto. Qed.

Lemma quiet_halt_unless_resumable : quiet (halt_unless_resumable H).
Proof. unfold halt_unless_resumable. quiet_auto. Qed.

Lemma quiet_write0_count fuel addr count : quiet (write0_count fuel addr count).
Proof.
  revert addr count. induction fuel as [|fuel IH]; intros addr count; simpl.
  - apply quiet_stop.
  - quiet_auto. apply IH.
Qed.

Lemma quiet_write0_print fuel addr : quiet (write0_print H fuel addr).
Proof.
  revert addr. induction fuel as [|fuel IH]; intros addr; simpl.
  - apply quiet_stop.
  - quiet_auto; try apply quiet_putchar. apply IH.
Qed.

#[local] Hint Resolve quiet_write quiet_read quiet_putchar quiet_getchar
  quiet_exit_or_report quiet_halt_unless_resumable quiet_write0_count
  quiet_write0_print quiet_user_extension : quiet.

Ltac quiet_handler := quiet_auto; auto with quiet.

Lemma quiet_sys_clock : quiet (sys_clock H).
Proof. unfold sys_clock. quiet_handler. Qed.
Lemma quiet_sys_close : quiet (sys_close H).
Proof. unfold sys_close. quiet_handler. Qed.
Lemma quiet_sys_errno : quiet sys_errno_.
Proof. unfold sys_errno_. quiet_handler. Qed.
Lemma quiet_sys_exit : quiet (sys_exit H).
Proof. unfold sys_exit. quiet_handler. Qed.
Lemma quiet_sys_exit_extended : quiet (sys_exit_extended H).
Proof. unfold sys_exit_extended. quiet_handler. Qed.
Lemma quiet_sys_flen : quiet (sys_flen H).
Proof. unfold sys_flen. quiet_handler. Qed.
Lemma quiet_sys_get_cmdline : quiet sys_get_cmdline.
Proof. unfold sys_get_cmdline. quiet_handler. Qed.
Lemma quiet_sys_heapinfo : quiet sys_heapinfo.
Proof. unfold sys_heapinfo. quiet_handler. Qed.
Lemma quiet_sys_iserror : quiet sys_iserror.
Proof. unfold sys_iserror. quiet_handler. Qed.
Lemma quiet_sys_istty : quiet (sys_istty H).
Proof. unfold sys_istty. quiet_handler. Qed.
Lemma quiet_sys_open : quiet (sys_open H).
Proof. unfold sys_open, open_by_name. quiet_handler. Qed.
Lemma quiet_sys_read : quiet (sys_read H).
Proof. unfold sys_read. quiet_handler. Qed.
Lemma quiet_sys_readc : quiet (sys_readc H).
Proof. unfold sys_readc. quiet_handler. Qed.
Lemma quiet_sys_remove : quiet (sys_remove H).
Proof. unfold sys_remove. quiet_handler. Qed.
Lemma quiet_sys_rename : quiet (sys_rename H).
Proof. unfold sys_rename. quiet_handler. Qed.
Lemma quiet_sys_seek : quiet (sys_seek H).
Proof. unfold sys_seek. quiet_handler. Qed.
Lemma quiet_sys_system : quiet (sys_system H).
Proof. unfold sys_system. quiet_handler. Qed.
Lemma quiet_sys_time : quiet (sys_time H).
Proof. unfold sys_time. quiet_handler. Qed.
Lemma quiet_sys_write : quiet (sys_write H).
Proof. unfold sys_write. quiet_handler. Qed.
Lemma quiet_sys_writec : quiet (sys_writec H).
Proof. unfold sys_writec. quiet_handler. Qed.
Lemma quiet_sys_write0 : quiet (sys_write0 H).
Proof. unfold sys_write0. quiet_handler. Qed.
Lemma quiet_sys_user_cmd : quiet (sys_user_cmd H).
Proof. unfold sys_user_cmd. quiet_handler. Qed.
Lemma quiet_sys_unsupported : quiet sys_unsupported.
Proof. unfold sys_unsupported. quiet_handler. Qed.

Lemma quiet_handler_all (opc : Z) : quiet (handler H opc).
Proof.
  unfold handler.
  repeat match goal with |- quiet (if ?b then _ else _) => destruct b end;
    eauto using quiet_sys_clock, quiet_sys_close, quiet_sys_errno, quiet_sys_exit,
      quiet_sys_exit_extended, quiet_sys_flen, quiet_sys_get_cmdline,
      quiet_sys_heapinfo, quiet_sys_iserror, quiet_sys_istty, quiet_sys_open,
      quiet_sys_read, quiet_sys_readc, quiet_sys_remove, quiet_sys_rename,
      quiet_sys_seek, quiet_sys_system, quiet_sys_time, quiet_sys_write,
      quiet_sys_writec, quiet_sys_write0, quiet_sys_user_cmd, quiet_sys_unsupported.
Qed.

End Quiet.

(** ** Result initial state and [post_result] (C6) *)

Lemma after_prologue_result (w : world) : result (sh (after_prologue w)) = -1.
Proof. reflexivity. Qed.

Lemma post_result_calls_event (w : world) :
  post_result_calls (with_event EvPostResult w) = S (post_result_calls w).
Proof.
  unfold post_result_calls, with_event; cbn [trace].
  rewrite filter_cons_True by reflexivity. reflexivity.
Qed.

(** C6 (result initial state), as the code has it.  The [switch] starts
    in a state with [result = -1].  [post_result] is called by the
    epilogue only: when the handler runs to its end, either [hit_fileio]
    holds and [post_result] is not called, or it does not hold and
    [post_result] is called exactly once; when the handler leaves
    [semihosting_common] by a [return] of its own (or stops the process),
    [post_result] is not called at all. *)
Theorem C6_result_and_post_result (H : host) (w : world) :
  result (sh (after_prologue w)) = -1
  ∧ semihosting_common H w
    = (handler H (op (sh w));; epilogue H) (after_prologue w)
  ∧ let w' := snd (semihosting_common H w) in
    match fst (handler H (op (sh w)) (after_prologue w)) with
    | Val _ =>
        (hit_fileio (sh w') = true
         ∧ post_result_calls w' = post_result_calls w)
        ∨ (hit_fileio (sh w') = false
           ∧ post_result_calls w' = S (post_result_calls w))
    | Return _ | Stop _ =>
        post_result_calls w' = post_result_calls w
    end.
Proof.
  split; [reflexivity|]. split; [reflexivity|].
  cbv zeta. rewrite semihosting_common_unfold. unfold bind.
  pose proof (quiet_handler_all H (op (sh w)) (after_prologue w)) as Hq.
  destruct (handler H (op (sh w)) (after_prologue w)) as [[[] | r | r] w1];
    simpl in *; try exact Hq.
  rewrite epilogue_eq.
  destruct (hit_fileio (sh w1)) eqn:Hhit; simpl.
  - left. split; [exact Hhit | exact Hq].
  - right. split; [exact Hhit|].
    rewrite post_result_calls_event. now rewrite Hq.
Qed.

(** C6 as stated fails for the exit operations: with the default
    [has_resumable_exit = false] and a debugger attached, [SYS_EXIT]
    returns [ERROR_OK] to its caller with [hit_fileio] false and without a
    call of [post_result]. *)
Lemma C6_exit_returns_without_post_result :
  let out := semihosting_common host_ok world_exit in
  returned out = Some ERROR_OK
  ∧ hit_fileio (sh (snd out)) = false
  ∧ post_result_calls (snd out) = 0%nat
  ∧ ¬ (hit_fileio (sh (snd out)) = true ∨ post_result_calls (snd out) = 1%nat).
Proof.
  vm_compute. repeat split; try reflexivity.
  intros [Hc | Hc]; discriminate.
Qed.

(** ** Read/write return convention (C1) and redirection (C10) *)

Lemma epilogue_sh (H : host) (w : world) : sh (snd (epilogue H w)) = sh w.
Proof. rewrite epilogue_eq. destruct (hit_fileio (sh w)); reflexivity. Qed.

Lemma epilogue_trace (H : host) (w : world) :
  trace (snd (epilogue H w)) = post_result_event w ++ trace w.
Proof.
  rewrite epilogue_eq. unfold post_result_event.
  destruct (hit_fileio (sh w)); reflexivity.
Qed.

Lemma epilogue_fileio_info (H : host) (w : world) :
  fileio_info (snd (epilogue H w)) = fileio_info w.
Proof. rewrite epilogue_eq. destruct (hit_fileio (sh w)); reflexivity. Qed.

(** When the handler runs to its end the dispatcher ends in the
    epilogue's state. *)
Lemma run_to_end (H : host) (w w1 : world) :
  handler H (op (sh w)) (after_prologue w) = (Val tt, w1) →
  snd (semihosting_common H w) = snd (epilogue H w1).
Proof.
  intros Hh. rewrite semihosting_common_unfold. unfold bind at 1.
  now rewrite Hh.
Qed.

Lemma three_fields (w : world) (a b c : Z) :
  field w 3 0 = Some a → field w 3 1 = Some b → field w 3 2 = Some c →
  ∃ fields, fields_at w 3 = Some fields
            ∧ semihosting_get_field w 0 fields = a
            ∧ semihosting_get_field w 1 fields = b
            ∧ semihosting_get_field w 2 fields = c.
Proof.
  unfold field. destruct (fields_at w 3) as [fields|]; [|discriminate].
  intros [= <-] [= <-] [= <-]. eauto.
Qed.

(** Redirected transfers without a client attached. *)
Lemma semihosting_read_no_client (H : host) (w : world) (fd size : Z) :
  semihosting_is_redirected (sh w) fd = true →
  tcp_connection (sh w) = None →
  semihosting_read H fd size w = (Val (-1, []), with_sh (set_sys_errno EBADF) w).
Proof.
  intros Hred Hconn.
  unfold semihosting_read, semihosting_redirect_read, bind, get; simpl.
  rewrite Hred; simpl. now rewrite Hconn.
Qed.

Lemma semihosting_write_no_client (H : host) (w : world) (fd : Z) (buf : list Z)
    (size : Z) :
  semihosting_is_redirected (sh w) fd = true →
  tcp_connection (sh w) = None →
  semihosting_write H fd buf size w = (Val (-1), with_sh (set_sys_errno EBADF) w).
Proof.
  intros Hred Hconn.
  unfold semihosting_write, semihosting_redirect_write, bind, get; simpl.
  rewrite Hred; simpl. now rewrite Hconn.
Qed.

(** [SYS_READ] on the host, up to the transfer. *)
Lemma sys_read_host (H : host) (w : world) (fdv addr len : Z) :
  field w 3 0 = Some fdv → field w 3 1 = Some addr → field w 3 2 = Some len →
  is_fileio (sh w) = false →
  malloc_ok H len = true →
  sys_read H w
  = (do (r, buf) <- semihosting_read H (to_int fdv) (to_int len);
     modify (set_result r);;
     when_ (0 <=? r)
       (do retval <- target_write_buffer addr r buf;
        check retval;;
        modify (set_result (to_int64 (len - r))))) w.
Proof.
  intros H0 H1 H2 Hfio Hmalloc.
  destruct (three_fields w _ _ _ H0 H1 H2) as (fields & Hfs & <- & <- & <-).
  unfold sys_read. unfold bind at 1. rewrite read_fields_eq, Hfs.
  unfold bind, check, get_field, get.
  cbn -[semihosting_read target_write_buffer to_int to_int64 Z.sub].
  rewrite Hfio, Hmalloc. reflexivity.
Qed.

(** [SYS_WRITE] on the host, up to the transfer. *)
Lemma sys_write_host (H : host) (w : world) (fdv addr len : Z) (buf : list Z) :
  field w 3 0 = Some fdv → field w 3 1 = Some addr → field w 3 2 = Some len →
  is_fileio (sh w) = false →
  malloc_ok H len = true →
  buffer_at w addr len = Some buf →
  sys_write H w
  = (do r <- semihosting_write H (to_int fdv) buf (to_int len);
     modify (set_result r);;
     when_ (0 <=? r) (modify (set_result (to_int64 (len - r))))) w.
Proof.
  intros H0 H1 H2 Hfio Hmalloc Hbuf.
  destruct (three_fields w _ _ _ H0 H1 H2) as (fields & Hfs & <- & <- & <-).
  unfold sys_write. unfold bind at 1. rewrite read_fields_eq, Hfs.
  unfold bind, check, get_field, get, target_read_buffer, target_read_memory.
  unfold buffer_at in Hbuf.
  cbn -[semihosting_write to_int to_int64 Z.sub to_uint32 Z.mul].
  rewrite Hfio, Hmalloc.
  cbn -[semihosting_write to_int to_int64 Z.sub to_uint32 Z.mul].
  rewrite Hbuf. reflexivity.
Qed.









(** C10 (redirected transfer without a client), as the code has it: on
    the host -- [is_fileio] false, the parameter block read, the buffer
    allocated and, for a write, the data read from the target -- a
    [SYS_READ] or [SYS_WRITE] on a redirected descriptor with no client
    attached ends with [result = -1] and [sys_errno = EBADF], and the
    dispatcher calls nothing but [post_result]: no host [read] or [write]. *)
Theorem C10_redirect_without_client (H : host) (w : world) (fdv addr len : Z) :
  op (sh w) = SEMIHOSTING_SYS_READ ∨ op (sh w) = SEMIHOSTING_SYS_WRITE →
  is_fileio (sh w) = false →
  field w 3 0 = Some fdv → field w 3 1 = Some addr → field w 3 2 = Some len →
  malloc_ok H len = true →
  (op (sh w) = SEMIHOSTING_SYS_WRITE → is_Some (buffer_at w addr len)) →
  semihosting_is_redirected (sh w) (to_int fdv) = true →
  tcp_connection (sh w) = None →
  let final := snd (semihosting_common H w) in
  result (sh final) = -1
  ∧ sys_errno (sh final) = EBADF
  ∧ trace final = post_result_event w ++ trace w.
Proof.
  intros Hop Hfio H0 H1 H2 Hmalloc Hbuf Hred Hconn final.
  assert (Hh : handler H (op (sh w)) (after_prologue w)
               = (Val tt, with_sh (set_result (-1))
                            (with_sh (set_sys_errno EBADF) (after_prologue w)))).
  { destruct Hop as [HR | HW].
    - rewrite HR. change (handler H SEMIHOSTING_SYS_READ) with (sys_read H).
      rewrite (sys_read_host H (after_prologue w) fdv addr len H0 H1 H2 Hfio Hmalloc).
      unfold bind at 1.
      rewrite (semihosting_read_no_client H (after_prologue w)) by assumption.
      reflexivity.
    - destruct (Hbuf HW) as [buf Hb].
      rewrite HW. change (handler H SEMIHOSTING_SYS_WRITE) with (sys_write H).
      rewrite (sys_write_host H (after_prologue w) fdv addr len buf
                 H0 H1 H2 Hfio Hmalloc Hb).
      unfold bind at 1.
      rewrite (semihosting_write_no_client H (after_prologue w)) by assumption.
      reflexivity. }
  subst final. rewrite (run_to_end H w _ Hh).
  rewrite epilogue_sh, epilogue_trace. repeat split.
Qed.

Lemma C10_redirect_without_client_witness :
  let final := snd (semihosting_common host_ok world_read_redirected) in
  result (sh final) = -1 ∧ sys_errno (sh final) = EBADF
  ∧ trace final = [EvPostResult].
Proof.
  apply (C10_redirect_without_client host_ok world_read_redirected 3 0x2000 16);
    try reflexivity.
  - left; reflexivity.
  - intros Hw; discriminate Hw.
Defined.

(** C10 as stated fails in file-I/O mode, where the redirection is not
    consulted: the same read is published as a "read" request for the
    frontend and [sys_errno] is not [EBADF]. *)
Lemma C10_fileio_read_is_not_redirected :
  let w := world_read_redirected_fileio in
  let final := snd (semihosting_common host_ok w) in
  field w 3 0 = Some 3
  ∧ semihosting_is_redirected (sh w) 3 = true
  ∧ tcp_connection (sh w) = None
  ∧ sys_errno (sh final) ≠ EBADF
  ∧ hit_fileio (sh final) = true
  ∧ identifier (fileio_info final) = "read"%string.
Proof. vm_compute. repeat split; discriminate. Qed.

(** ** [SYS_FLEN] in file-I/O mode (C2) *)

(** C2: what the code does.  In file-I/O mode [SYS_FLEN] first sets
    [result = -1] and [sys_errno = EINVAL], but does not leave the case:
    it goes on to read the parameter block and to call the host's
    [fstat] on the descriptor, whose outcome replaces the result (and the
    errno when [fstat] fails). *)
Theorem C2_flen_fileio_still_calls_fstat (H : host) (w : world) (v : Z) :
  op (sh w) = SEMIHOSTING_SYS_FLEN →
  is_fileio (sh w) = true →
  field w 1 0 = Some v →
  let final := snd (semihosting_common H w) in
  let '(r, e, st_size) := host_fstat H (to_int v) in
  trace final = post_result_event w ++ EvFstat (to_int v) :: trace w
  ∧ result (sh final) = (if r =? -1 then r else st_size)
  ∧ sys_errno (sh final) = (if r =? -1 then e else EINVAL).
Proof.
  intros Hop Hfio Hf final.
  apply field_fields in Hf as (fields & Hfs & Hget).
  destruct (host_fstat H (to_int v)) as [[r e] st_size] eqn:Hstat.
  assert (Hh : ∃ w1, handler H (op (sh w)) (after_prologue w) = (Val tt, w1)
                     ∧ trace w1 = EvFstat (to_int v) :: trace w
                     ∧ hit_fileio (sh w1) = hit_fileio (sh w)
                     ∧ result (sh w1) = (if r =? -1 then r else st_size)
                     ∧ sys_errno (sh w1) = (if r =? -1 then e else EINVAL)).
  { rewrite Hop. change (handler H SEMIHOSTING_SYS_FLEN) with (sys_flen H).
    unfold sys_flen. unfold bind at 1. unfold get at 1.
    cbn [after_prologue with_sh sh is_fileio set_is_resumable set_result].
    rewrite Hfio. unfold bind at 1.
    unfold when_, bind at 2, modify at 1 2.
    unfold bind at 1. rewrite read_fields_eq.
    change (fields_at _ 1) with (fields_at w 1). rewrite Hfs.
    unfold bind, check, get_field, emit, modify, skip, ret.
    cbn -[to_int]. 
    change (semihosting_get_field _ 0 fields) with (semihosting_get_field w 0 fields).
    rewrite Hget, Hstat.
    destruct (r =? -1); eexists; (split; [reflexivity|]); cbn; auto. }
  destruct Hh as (w1 & Hh & Htr & Hhit & Hres & Herr).
  subst final. rewrite (run_to_end H w _ Hh).
  rewrite epilogue_sh, epilogue_trace. unfold post_result_event.
  rewrite Hhit, Htr. auto.
Qed.

(** The failing input: descriptor 7 of a 1234-byte file, file-I/O mode. *)
Lemma C2_flen_fileio_failing_input :
  let final := snd (semihosting_common host_ok world_flen_fileio) in
  is_fileio (sh world_flen_fileio) = true
  ∧ trace final = [EvPostResult; EvFstat 7]
  ∧ result (sh final) = 1234
  ∧ sys_errno (sh final) = EINVAL.
Proof.
  pose proof (C2_flen_fileio_still_calls_fstat host_ok world_flen_fileio 7
                eq_refl eq_refl eq_refl) as Hrun.
  split; [reflexivity|]. exact Hrun.
Defined.

(** ** The name of [SYS_OPEN] (C3) *)

Lemma cstr_idemp (l : list Z) : cstr (cstr l) = cstr l.
Proof.
  induction l as [|c l IH]; simpl; [reflexivity|].
  destruct (c =? 0) eqn:Hc; simpl; [reflexivity|].
  now rewrite Hc, IH.
Qed.

(** The prefix the code builds is the one the specification describes. *)
Lemma open_prefix_spec (dir : option (list Z)) :
  open_prefix dir = basedir_prefix dir.
Proof.
  unfold open_prefix, basedir_prefix.
  destruct (cstr (default [] dir)) as [|c l]; reflexivity.
Qed.

Lemma streq_cstr (l name : list Z) :
  cstr name = name → streq (cstr l) name = bool_decide (cstr l = name).
Proof.
  intros Hn. unfold streq, bytes_eqb. now rewrite cstr_idemp, Hn.
Qed.

(** [SYS_OPEN] up to the point where the name is in [fn]. *)
Lemma sys_open_named (H : host) (w : world) (addr modev len : Z) (name : list Z) :
  field w 3 0 = Some addr → field w 3 1 = Some modev → field w 3 2 = Some len →
  to_uint32 modev ≤ 11 →
  malloc_ok H (to_size_t (strlen (default [] (basedir (sh w))) + len + 2)) = true →
  buffer_at w addr len = Some name →
  sys_open H w
  = open_by_name H addr len (to_uint32 modev)
      (cstr (basedir_prefix (basedir (sh w)) ++ name)) w.
Proof.
  intros H0 H1 H2 Hmode Hmalloc Hname.
  destruct (three_fields w _ _ _ H0 H1 H2) as (fields & Hfs & <- & <- & <-).
  unfold sys_open. unfold bind at 1. rewrite read_fields_eq, Hfs.
  unfold bind, check, get_field, get, target_read_memory.
  unfold buffer_at in Hname.
  apply Z.ltb_ge in Hmode.
  cbn -[open_by_name to_uint32 to_size_t strlen Z.mul Z.add Z.ltb open_fn].
  rewrite Hmode, Hmalloc.
  cbn -[open_by_name to_uint32 to_size_t strlen Z.mul Z.add Z.ltb open_fn].
  rewrite Hname.
  cbn -[open_by_name to_uint32 to_size_t strlen Z.mul Z.add Z.ltb open_fn].
  unfold open_fn. now rewrite open_prefix_spec.
Qed.

(** A name with [basedir] in front of it has a ['/'] in it, which the
    special names have not. *)
Lemma cstr_nonzero (l : list Z) : Forall (λ c, c ≠ 0) (cstr l).
Proof.
  induction l as [|c l IH]; simpl; [constructor|].
  destruct (c =? 0) eqn:Hc; [constructor|].
  constructor; [now apply Z.eqb_neq | exact IH].
Qed.

Lemma cstr_after_nonzero (p l : list Z) :
  Forall (λ c, c ≠ 0) p → cstr (p ++ l) = p ++ cstr l.
Proof.
  induction 1 as [|c p Hc Hp IH]; simpl; [reflexivity|].
  apply Z.eqb_neq in Hc. now rewrite Hc, IH.
Qed.

Lemma basedir_prefix_nonzero (dir : option (list Z)) :
  Forall (λ c, c ≠ 0) (basedir_prefix dir).
Proof.
  unfold basedir_prefix. pose proof (cstr_nonzero (default [] dir)) as Hdir.
  destruct (cstr (default [] dir)) as [|c l]; [constructor|].
  case_bool_decide; [exact Hdir|].
  apply Forall_app. split; [exact Hdir|]. repeat constructor. discriminate.
Qed.

Lemma basedir_prefix_slash (dir : option (list Z)) :
  basedir_prefix dir ≠ [] → 47 ∈ basedir_prefix dir.
Proof.
  unfold basedir_prefix.
  destruct (cstr (default [] dir)) as [|c l]; [congruence|]. intros _.
  case_bool_decide as Hlast.
  - apply last_Some in Hlast as [l' ->]. apply elem_of_app. right. now left.
  - apply elem_of_app. right. now left.
Qed.

Lemma prefixed_name_is_not_special (dir : option (list Z)) (name special : list Z) :
  47 ∉ special → cstr name ≠ special →
  cstr (basedir_prefix dir ++ name) ≠ special.
Proof.
  intros Hslash Hne.
  rewrite (cstr_after_nonzero _ _ (basedir_prefix_nonzero dir)).
  destruct (basedir_prefix dir) as [|c p] eqn:Hp; [exact Hne|].
  intros Heq. apply Hslash. rewrite <- Heq, <- Hp.
  apply elem_of_app. left. apply basedir_prefix_slash. congruence.
Qed.

(** C3 (the name of [SYS_OPEN]), as the code has it.  A name read from
    the target that is not [:tt] is opened on the host with [basedir] in
    front of it whenever [basedir] is non-empty -- whether or not the
    name is absolute -- and with a ['/'] between the two when [basedir]
    does not end in one; in file-I/O mode the request is published for a
    name that is neither [:tt] nor [:semihosting-features].  When
    [basedir] is unset or empty, [:tt] and [:semihosting-features] are
    recognised: on the host [:tt] duplicates a standard stream and
    nothing is opened, in file-I/O mode neither name is sent to the
    frontend.  Nothing is said of a special name when [basedir] is
    set. *)
Theorem C3_open_name (H : host) (w : world) (addr modev len : Z) (name : list Z) :
  op (sh w) = SEMIHOSTING_SYS_OPEN →
  field w 3 0 = Some addr → field w 3 1 = Some modev → field w 3 2 = Some len →
  to_uint32 modev ≤ 11 →
  malloc_ok H (to_size_t (strlen (default [] (basedir (sh w))) + len + 2)) = true →
  buffer_at w addr len = Some name →
  let final := snd (semihosting_common H w) in
  let mode := to_uint32 modev in
  let fn := cstr (basedir_prefix (basedir (sh w)) ++ name) in
  (is_fileio (sh w) = false → cstr name ≠ tt_name →
   trace final
   = post_result_event w
     ++ EvOpen fn (modeflag open_host_modeflags mode) 420 :: trace w)
  ∧ (is_fileio (sh w) = true → cstr name ≠ tt_name → cstr name ≠ features_name →
     hit_fileio (sh final) = true
     ∧ fileio_info final
       = mk_fileio_info "open" addr len (modeflag open_gdb_modeflags mode) 420
     ∧ trace final = trace w)
  ∧ (basedir_prefix (basedir (sh w)) = [] → cstr name = tt_name →
     is_fileio (sh w) = false →
     trace final = post_result_event w ++ EvDup (tt_stream mode) :: trace w
     ∧ result (sh final) = fst (host_dup H (tt_stream mode)))
  ∧ (basedir_prefix (basedir (sh w)) = [] →
     cstr name = tt_name ∨ cstr name = features_name →
     is_fileio (sh w) = true →
     hit_fileio (sh final) = hit_fileio (sh w)
     ∧ fileio_info final = fileio_info w
     ∧ trace final = post_result_event w ++ trace w).
Proof.
  intros Hop H0 H1 H2 Hmode Hmalloc Hname final mode fn.
  assert (Hrun : final = snd ((open_by_name H addr len mode fn;; epilogue H)
                                (after_prologue w))).
  { subst final. rewrite semihosting_common_unfold, Hop.
    change (handler H SEMIHOSTING_SYS_OPEN) with (sys_open H).
    unfold bind.
    now rewrite (sys_open_named H (after_prologue w) addr modev len name). }
  assert (Htt : cstr tt_name = tt_name) by reflexivity.
  assert (Hfeat : cstr features_name = features_name) by reflexivity.
  assert (Hno_tt : 47 ∉ tt_name) by (vm_compute; set_unfold; lia).
  assert (Hno_feat : 47 ∉ features_name) by (vm_compute; set_unfold; lia).
  rewrite Hrun. unfold open_by_name, bind, get.
  cbn [after_prologue with_sh sh is_fileio set_is_resumable set_result].
  change (bytes_of_string ":tt") with tt_name.
  change (bytes_of_string ":semihosting-features") with features_name.
  subst fn.
  rewrite (streq_cstr _ tt_name Htt), (streq_cstr _ features_name Hfeat).
  unfold emit, modify, when_, skip, ret, set_fileio_info.
  split; [|split; [|split]].
  - (* host, ordinary name *)
    intros Hfio Hne.
    apply (prefixed_name_is_not_special (basedir (sh w))) in Hne; [|exact Hno_tt].
    rewrite Hfio, bool_decide_eq_false_2 by exact Hne.
    destruct (host_open H _ _ 420) as [r e].
    destruct (r =? -1); cbn -[epilogue post_result_event];
      rewrite epilogue_trace; reflexivity.
  - (* file-I/O, ordinary name *)
    intros Hfio Hne1 Hne2.
    apply (prefixed_name_is_not_special (basedir (sh w))) in Hne1; [|exact Hno_tt].
    apply (prefixed_name_is_not_special (basedir (sh w))) in Hne2;
      [|exact Hno_feat].
    rewrite Hfio, !bool_decide_eq_false_2 by assumption.
    cbn -[epilogue post_result_event]. rewrite epilogue_eq. repeat split.
  - (* host, :tt without basedir *)
    intros Hdir Hname_tt Hfio. rewrite Hfio, Hdir. change ([] ++ name) with name.
    rewrite bool_decide_eq_true_2 by assumption.
    unfold tt_stream.
    destruct (mode <? 4); [|destruct (mode <? 8)];
      destruct (host_dup H _) as [fd e]; cbn [fst snd];
      destruct (fd =? -1); cbn -[epilogue post_result_event];
      rewrite epilogue_trace, epilogue_sh; split; reflexivity.
  - (* file-I/O, special name without basedir *)
    intros Hdir Hspecial Hfio. rewrite Hfio, Hdir. change ([] ++ name) with name.
    assert (Hcases :
      ∀ k : M unit,
        (∀ w1, hit_fileio (sh (k w1).2) = hit_fileio (sh w1)
               ∧ fileio_info (k w1).2 = fileio_info w1
               ∧ trace (k w1).2 = trace w1
               ∧ ∃ u, (k w1).1 = Val u) →
        let out := (match k (after_prologue w) with
                    | (Val a, w') => epilogue H w'
                    | (Return r, w') => (Return r, w')
                    | (Stop r, w') => (Stop r, w')
                    end) in
        hit_fileio (sh out.2) = hit_fileio (sh w)
        ∧ fileio_info out.2 = fileio_info w
        ∧ trace out.2 = post_result_event w ++ trace w).
    { intros k Hk out. subst out. specialize (Hk (after_prologue w)).
      destruct (k (after_prologue w)) as [res w1]; simpl in Hk.
      destruct Hk as (Hh & Hi & Ht & [u ->]).
      rewrite epilogue_sh, epilogue_trace, epilogue_fileio_info.
      unfold post_result_event. rewrite Hh, Hi, Ht. repeat split. }
    apply Hcases. intros w1.
    destruct Hspecial as [Hn | Hn]; rewrite Hn.
    + rewrite bool_decide_eq_false_2 by discriminate.
      rewrite bool_decide_eq_true_2 by reflexivity.
      destruct (mode =? 0); [|destruct (mode =? 4); [|destruct (mode =? 8)]];
        cbn; eauto.
    + rewrite bool_decide_eq_true_2 by reflexivity. cbn; eauto.
Qed.

(** C3 as stated fails when [basedir] is set: with [basedir = "/tmp"]
    the absolute name ["/etc/motd"] still gets the prefix, and the
    host's [open] is called with ["/tmp//etc/motd"]. *)
Lemma C3_basedir_prefixes_every_name :
  let w := world_open "/etc/motd" (Some "/tmp") in
  let final := snd (semihosting_common host_ok w) in
  basedir (sh w) = Some (bytes_of_string "/tmp")
  ∧ trace final
    = [EvPostResult; EvOpen (bytes_of_string "/tmp//etc/motd") O_RDONLY 420].
Proof. vm_compute. split; reflexivity. Qed.

(** The comparisons with the special names are made on the name with
    [basedir] in front of it: with [basedir = "/tmp"], [:tt] is not
    recognised, the host's [open] is called with ["/tmp/:tt"] and no
    standard stream is duplicated. *)
Lemma open_tt_under_basedir :
  let w := world_open ":tt" (Some "/tmp") in
  let console := snd (semihosting_common host_ok w) in
  trace console
  = [EvPostResult; EvOpen (bytes_of_string "/tmp/:tt") O_RDONLY 420]
  ∧ stdin_fd (sh console) = stdin_fd (sh w).
Proof. vm_compute. split; reflexivity. Qed.

Lemma C3_open_name_witness :
  let final := snd (semihosting_common host_ok (world_open ":tt" None)) in
  trace final = [EvPostResult; EvDup STDIN_FILENO]
  ∧ result (sh final) = 10.
Proof.
  pose proof (C3_open_name host_ok (world_open ":tt" None) 0x2000 0 3
                (bytes_of_string ":tt")
                eq_refl eq_refl eq_refl eq_refl) as Hopen.
  destruct Hopen as (_ & _ & Htt & _).
  - vm_compute. discriminate.
  - reflexivity.
  - reflexivity.
  - apply Htt; reflexivity.
Defined.

(** ** The walks of [SYS_WRITE0] end within the fuel they are given *)

Lemma above_step (m : gmap Z Z) (addr c : Z) :
  m !! addr = Some c →
  (size (above m (addr + 1)) < size (above m addr))%nat.
Proof.
  intros Hc. unfold above. apply map_subset_size, map_subset_alt. split.
  - apply map_filter_subseteq_ext. intros i x _ Hi. simpl in *. lia.
  - exists addr. split.
    + apply map_lookup_filter_None. right. intros x _. simpl. lia.
    + exists c. apply map_lookup_filter_Some. split; [exact Hc | simpl; lia].
Qed.

Lemma above_size (m : gmap Z Z) (addr : Z) : (size (above m addr) ≤ size m)%nat.
Proof. apply map_subseteq_size, map_filter_subseteq. Qed.

Lemma read_one_byte (addr : Z) (w : world) :
  target_read_memory addr 1 1 w
  = (Val (match mem w !! addr with
          | Some c => (ERROR_OK, [c])
          | None => (ERROR_FAIL, [])
          end), w).
Proof.
  unfold target_read_memory, read_bytes, addrs.
  change (to_uint32 1 * to_uint32 1) with 1.
  change (Z.to_nat 1) with 1%nat. simpl.
  rewrite Z.add_0_r. destruct (mem w !! addr); reflexivity.
Qed.

Lemma putchar_runs (H : host) (fd c : Z) (w : world) :
  ∃ r w1, semihosting_putchar H fd c w = (Val r, w1) ∧ mem w1 = mem w.
Proof.
  unfold semihosting_putchar, semihosting_redirect_write, bind, get, emit, modify, ret.
  simpl. destruct (semihosting_is_redirected (sh w) fd); simpl; eauto.
  destruct (tcp_connection (sh w)); simpl; eauto.
Qed.

Lemma write0_count_total (fuel : nat) (addr count : Z) (w : world) :
  (size (above (mem w) addr) < fuel)%nat →
  fst (write0_count fuel addr count w) ≠ Stop OutOfFuel.
Proof.
  revert addr count. induction fuel as [|fuel IH]; intros addr count Hfuel; [lia|].
  simpl. unfold bind at 1. rewrite read_one_byte.
  destruct (mem w !! addr) as [c|] eqn:Hc; cbn -[write0_count]; [|discriminate].
  destruct (c =? 0); [discriminate|].
  apply IH. pose proof (above_step _ _ _ Hc). lia.
Qed.

Lemma write0_print_total (H : host) (fuel : nat) (addr : Z) (w : world) :
  (size (above (mem w) addr) < fuel)%nat →
  fst (write0_print H fuel addr w) ≠ Stop OutOfFuel.
Proof.
  revert addr w. induction fuel as [|fuel IH]; intros addr w Hfuel; [lia|].
  simpl. unfold bind at 1. rewrite read_one_byte.
  destruct (mem w !! addr) as [c|] eqn:Hc; cbn -[write0_print semihosting_putchar];
    [|discriminate].
  destruct (c =? 0); [discriminate|].
  unfold bind, get. cbn -[write0_print semihosting_putchar].
  destruct (putchar_runs H (stdout_fd (sh w)) c w) as (r & w1 & -> & Hmem).
  apply IH. rewrite Hmem. pose proof (above_step _ _ _ Hc). lia.
Qed.

(** [SYS_WRITE0] is never cut off by the fuel the dispatcher gives it. *)
Lemma sys_write0_total (H : host) (w : world) :
  fst (sys_write0 H w) ≠ Stop OutOfFuel.
Proof.
  pose proof (above_size (mem w) (param (sh w))) as Hsize.
  unfold sys_write0, bind, get, enough_fuel.
  cbn -[write0_count write0_print].
  destruct (is_fileio (sh w)).
  - pose proof (write0_count_total (S (size (mem w))) (param (sh w)) 0 w) as Ht.
    destruct (write0_count _ _ _ w) as [[c | r | r] w1];
      cbn -[write0_count] in *; try discriminate.
    intros [= ->]. apply Ht; [lia | reflexivity].
  - pose proof (write0_print_total H (S (size (mem w))) (param (sh w)) w) as Ht.
    destruct (write0_print _ _ _ w) as [[c | r | r] w1];
      cbn -[write0_print] in *; try discriminate.
    apply Ht. lia.
Qed.

Lemma C5_close_protects_stdio_witness :
  result (sh (snd (semihosting_common host_ok world_close_stdout))) = 0.
Proof.
  apply (C5_close_protects_stdio host_ok world_close_stdout 1).
  - reflexivity.
  - reflexivity.
  - right; left; reflexivity.
Defined.

End SemihostingProofs.

(** * Part V: properties of the TPIU/SWO controller *)

Module TpiuProofs.
Import Tpiu TpiuSpec.

(** ** Programs that leave a part of the state alone *)

Section Keeps.

Context {V : Type} (view : state → V).

Lemma keeps_ret {A} (a : A) : keeps view (ret a).
Proof. intros st. reflexivity. Qed.

Lemma keeps_return {A} (r : Z) : keeps view (@return_ state A r).
Proof. intros st. reflexivity. Qed.

Lemma keeps_stop {A} (r : stop) : keeps view (@stop_ state A r).
Proof. intros st. reflexivity. Qed.

Lemma keeps_skip : keeps view (@skip state).
Proof. intros st. reflexivity. Qed.

Lemma keeps_bind {A B} (m : M A) (f : A → M B) :
  keeps view m → (∀ a, keeps view (f a)) → keeps view (bind m f).
Proof.
  intros Hm Hf st. unfold bind. specialize (Hm st).
  destruct (m st) as [[a | r | r] st1]; simpl in *; [|assumption..].
  rewrite <- Hm. apply Hf.
Qed.

Lemma keeps_get {A} (f : arm_tpiu_swo_object → A) : keeps view (get f).
Proof. intros st. reflexivity. Qed.

Lemma keeps_modify (f : arm_tpiu_swo_object → arm_tpiu_swo_object) :
  (∀ st, view (mk_state (f (obj st)) (trace st)) = view st) →
  keeps view (modify f).
Proof. intros Hf st. apply Hf. Qed.

Lemma keeps_emit (e : event) :
  (∀ st, view (mk_state (obj st) (e :: trace st)) = view st) →
  keeps view (emit e).
Proof. intros He st. apply He. Qed.

Lemma keeps_when (b : bool) (m : M unit) : keeps view m → keeps view (when_ b m).
Proof. intros Hm. destruct b; [exact Hm | apply keeps_skip]. Qed.

Lemma keeps_check (r : Z) : keeps view (@check state r).
Proof.
  unfold check. destruct (r =? ERROR_OK); [apply keeps_skip | apply keeps_return].
Qed.

Lemma keeps_block (m : M unit) : keeps view m → keeps view (block m).
Proof.
  intros Hm st. unfold block. specialize (Hm st).
  destruct (m st) as [[a | r | r] st1]; exact Hm.
Qed.

Lemma keeps_run {A} (m : M A) (st st' : state) (r : res A) :
  keeps view m → m st = (r, st') → view st' = view st.
Proof. intros Hm Hrun. specialize (Hm st). now rewrite Hrun in Hm. Qed.

End Keeps.

(** One step of the structural proof that a program keeps a view; the
    leaves that change the state are checked by computation. *)
Ltac keeps_step :=
  match goal with
  | |- keeps _ (bind _ _) => apply keeps_bind; [| intros ?]
  | |- keeps _ (ret _) => apply keeps_ret
  | |- keeps _ (return_ _) => apply keeps_return
  | |- keeps _ (stop_ _) => apply keeps_stop
  | |- keeps _ skip => apply keeps_skip
  | |- keeps _ (get _) => apply keeps_get
  | |- keeps _ (modify _) => apply keeps_modify; intros [? ?]; reflexivity
  | |- keeps _ (emit _) => apply keeps_emit; intros [? ?]; reflexivity
  | |- keeps _ (command_print _) => apply keeps_emit; intros [? ?]; reflexivity
  | |- keeps _ (when_ _ _) => apply keeps_when
  | |- keeps _ (check _) => apply keeps_check
  | |- keeps _ (block _) => apply keeps_block
  | |- keeps _ (if ?b then _ else _) => destruct b
  | |- keeps _ (match ?x with _ => _ end) => destruct x
  | |- keeps _ (let '(_, _) := ?x in _) => destruct x
  end.

Ltac keeps_auto := repeat (keeps_step; simpl).

(** ** Event hooks *)

Lemma handle_event_chain_spec (E : env) (chain : list arm_tpiu_swo_event_action)
    (event : arm_tpiu_swo_event) (st : state) :
  handle_event_chain E chain event st
  = (Val (hook_retval E chain event),
     mk_state (obj st) (hook_events chain event ++ trace st)).
Proof.
  unfold hook_retval, hook_events.
  induction chain as [|ea next IH]; simpl.
  - destruct st; reflexivity.
  - destruct (bool_decide (ea_event ea ≠ event)); [exact IH|].
    unfold bind, emit. simpl.
    destruct (jim_eval E (ea_body ea)) as [retval returnCode].
    destruct (_ || _); reflexivity.
Qed.

Lemma handle_event_spec (E : env) (event : arm_tpiu_swo_event) (st : state) :
  arm_tpiu_swo_handle_event E event st
  = (Val (hook_retval E (event_action (obj st)) event),
     mk_state (obj st) (hook_events (event_action (obj st)) event ++ trace st)).
Proof.
  unfold arm_tpiu_swo_handle_event, bind, get. apply handle_event_chain_spec.
Qed.

Lemma hook_retval_cases (E : env) chain event :
  hook_retval E chain event = ERROR_OK ∨ hook_retval E chain event = ERROR_FAIL.
Proof.
  unfold hook_retval. destruct (hook_body chain event); [|now left].
  destruct (jim_eval E s) as [retval returnCode].
  destruct (_ || _); [now left | now right].
Qed.

Lemma tally_app (f : event → Z) (l1 l2 : list event) :
  tally f (l1 ++ l2) = tally f l1 + tally f l2.
Proof.
  induction l1 as [|e l1 IH]; simpl; [reflexivity|].
  rewrite IH. lia.
Qed.

Lemma tally_hook_events (f : event → Z) chain event :
  (∀ body, f (EvHook event body) = 0) →
  tally f (hook_events chain event) = 0.
Proof.
  intros Hf. unfold hook_events. destruct (hook_body chain event); simpl;
    [rewrite Hf|]; reflexivity.
Qed.

(** A hook is another hook's business: it opens, registers and releases
    nothing. *)
Lemma keeps_handle_event_resources (E : env) (event : arm_tpiu_swo_event) :
  keeps resources (arm_tpiu_swo_handle_event E event).
Proof.
  intros st. rewrite handle_event_spec. unfold resources, ledger_of; simpl.
  rewrite !tally_app, !tally_hook_events by reflexivity. reflexivity.
Qed.

Section Stages.

Variable E : env.

Lemma keeps_wrap_read_u32 {V} (view : state → V) address :
  (∀ st, view (mk_state (obj st) (EvReadU32 address :: trace st)) = view st) →
  keeps view (wrap_read_u32 E address).
Proof. intros Hv. unfold wrap_read_u32. keeps_auto. apply keeps_emit, Hv. Qed.

Lemma keeps_wrap_write_u32 {V} (view : state → V) address value :
  (∀ st, view (mk_state (obj st) (EvWriteU32 address (to_uint32 value) :: trace st))
         = view st) →
  keeps view (wrap_write_u32 E address value).
Proof. intros Hv. unfold wrap_write_u32. keeps_auto. apply keeps_emit, Hv. Qed.

Lemma enable_checks_resources argc cm : keeps resources (enable_checks E argc cm).
Proof. unfold enable_checks. keeps_auto. Qed.

Lemma recheck_ap_resources : keeps resources (recheck_ap E).
Proof. unfold recheck_ap. keeps_auto. Qed.

Lemma acquire_ap_resources : keeps resources (acquire_ap E).
Proof. unfold acquire_ap. keeps_auto. Qed.

Lemma check_protocol_support_resources : keeps resources (check_protocol_support E).
Proof.
  unfold check_protocol_support.
  repeat first
    [ apply keeps_wrap_read_u32; intros [? ?]; reflexivity
    | keeps_step; simpl ].
Qed.

Lemma enable_prepare_resources argc cm : keeps resources (enable_prepare E argc cm).
Proof.
  unfold enable_prepare.
  repeat first
    [ apply enable_checks_resources | apply recheck_ap_resources
    | apply acquire_ap_resources | apply keeps_handle_event_resources
    | apply check_protocol_support_resources | keeps_step; simpl ].
Qed.

Lemma program_tpiu_resources prescaler : keeps resources (program_tpiu E prescaler).
Proof.
  unfold program_tpiu.
  repeat first
    [ apply keeps_wrap_read_u32; intros [? ?]; reflexivity
    | apply keeps_wrap_write_u32; intros [? ?]; reflexivity
    | apply keeps_handle_event_resources
    | keeps_step; simpl ].
Qed.

End Stages.

(** ** Failure of [enable] (C4) *)

(** Symbolic execution of a program on a state: the first test that is
    not decided is split on, what is known about it is used. *)
Ltac crunch :=
  repeat (cbn -[is_async];
    match goal with
    | H : ?x = _ |- context [match ?x with _ => _ end] => rewrite H
    | |- context [match ?x with _ => _ end] =>
        lazymatch x with
        | context [match _ with _ => _ end] => fail
        | _ => destruct x eqn:?
        end
    end).

Ltac eqb_facts :=
  repeat match goal with
         | H : negb _ = true |- _ => apply negb_true_iff in H
         | H : negb _ = false |- _ => apply negb_false_iff in H
         | H : (_ && _) = true |- _ => apply andb_prop in H as [? ?]
         | H : (_ =? _) = true |- _ => apply Z.eqb_eq in H
         | H : (_ =? _) = false |- _ => apply Z.eqb_neq in H
         end.

Ltac leaf :=
  cbn -[is_async] in *; eqb_facts; subst;
  repeat match goal with
         | |- _ ∧ _ => split
         | |- _ → _ => intros ?
         end;
  try first
    [ exact I | reflexivity | assumption | lia | discriminate | congruence
    | left; lia
    | right; repeat split; first [assumption | lia | congruence] ].

Section EnableFailure.

Variable E : env.

Lemma enable_checks_enabled (argc : Z) (cm : bool) (st : state) :
  enabled (obj st) = true → argc = 0 →
  fst (enable_checks E argc cm st) = Return ERROR_OK.
Proof.
  intros Hen ->. unfold enable_checks, bind, get; simpl.
  destruct cm; simpl; [reflexivity|]. now rewrite Hen.
Qed.

Lemma enable_checks_val (argc : Z) (cm : bool) (st st1 : state) (ext : bool) :
  enable_checks E argc cm st = (Val ext, st1) →
  enabled (obj st) = false ∧ argc = 0 ∧ cm = false.
Proof.
  unfold enable_checks, bind, get; simpl.
  destruct (argc =? 0) eqn:Hargc; simpl; [|discriminate].
  destruct cm; simpl; [discriminate|].
  destruct (enabled (obj st)); simpl; [discriminate|].
  intros _. split; [reflexivity|]. split; [lia | reflexivity].
Qed.

Lemma enable_prepare_val (argc : Z) (cm : bool) (st st1 : state) (ext : bool) :
  enable_prepare E argc cm st = (Val ext, st1) → enabled (obj st) = false.
Proof.
  unfold enable_prepare. unfold bind at 1.
  destruct (enable_checks E argc cm st) as [[e | r | r] st0] eqn:Hc;
    [|discriminate..].
  intros _. now apply enable_checks_val in Hc.
Qed.

Lemma enable_prepare_enabled (argc : Z) (cm : bool) (st : state) :
  enabled (obj st) = true → argc = 0 →
  fst (enable_prepare E argc cm st) = Return ERROR_OK.
Proof.
  intros Hen Hargc. unfold enable_prepare. unfold bind at 1.
  pose proof (enable_checks_enabled argc cm st Hen Hargc) as Hc.
  destruct (enable_checks E argc cm st) as [res st0]; simpl in Hc.
  now subst res.
Qed.

(** The sink set-up, from an instance that is not capturing. *)
Lemma start_capture_cases (ext : bool) (o : arm_tpiu_swo_object) (tr : list event) :
  en_capture o = false → file o = None →
  let out := start_capture E ext (mk_state o tr) in
  let o' := obj (snd out) in
  let before := ledger_of tr in
  let after := ledger_of (trace (snd out)) in
  settings o' = settings o ∧ enabled o' = enabled o
  ∧ ap_released after = ap_released before ∧ stops after = stops before
  ∧ match fst out with
    | Stop _ => True
    | Return rv =>
        rv ≠ ERROR_OK ∧ en_capture o' = false ∧ file o' = None
        ∧ files after = files before ∧ services after = services before
        ∧ timers after = timers before
        ∧ (starts after = starts before
           ∨ starts after = starts before + 1
             ∧ is_async (pin_protocol o) = true
             ∧ (adapter_config_trace_start E (pin_protocol o) (port_width o)
                  (swo_pin_freq o) (traceclkin_freq o)).1.2 = 0)
    | Val _ =>
        timers after = timers before + (if en_capture o' then 1 else 0)
        ∧ starts after = starts before + (if en_capture o' then 1 else 0)
        ∧ files after = files before + (if file o' is Some _ then 1 else 0)
        ∧ services after
          = services before
            + (if en_capture o'
               then if tcp_port (out_filename o) is Some _ then 1 else 0
               else 0)
        ∧ (en_capture o' = false → file o' = None)
    end.
Proof.
  intros Hcap Hfile.
  unfold start_capture, arm_tpiu_swo_close_output, command_print,
    bind, get, modify, emit, ret, return_, stop_, skip.
  crunch; leaf.
Qed.

Lemma block_no_return (m : M unit) (st : state) (r : Z) (st' : state) :
  block m st ≠ (Return r, st').
Proof. unfold block. destruct (m st) as [[a | r' | r'] st1]; discriminate. Qed.

(** The exit through [error_exit]. *)
Lemma error_exit_cases (retval : Z) (o : arm_tpiu_swo_object) (tr : list event) :
  let out := error_exit E retval (mk_state o tr) in
  let o' := obj (snd out) in
  let before := ledger_of tr in
  let after := ledger_of (trace (snd out)) in
  fst out = Val retval
  ∧ enabled o' = enabled o ∧ en_capture o' = false
  ∧ file o' = (if en_capture o then None else file o)
  ∧ ap_released after = ap_released before
  ∧ starts after = starts before
  ∧ stops after = stops before + (if en_capture o then 1 else 0)
  ∧ timers after = timers before - (if en_capture o then 1 else 0)
  ∧ files after
    = files before
      - (if en_capture o then if file o is Some _ then 1 else 0 else 0)
  ∧ services after
    = services before
      - (if en_capture o
         then if tcp_port (out_filename o) is Some _ then 1 else 0
         else 0).
Proof.
  unfold error_exit, adapter_config_trace_off, arm_tpiu_swo_close_output,
    command_print, when_, bind, get, modify, emit, ret, return_, stop_, skip.
  crunch; leaf.
Qed.

(** The components of an equation between two [resources]. *)
Lemma resources_eq (st1 st : state) :
  resources st1 = resources st →
  enabled (obj st1) = enabled (obj st)
  ∧ en_capture (obj st1) = en_capture (obj st)
  ∧ file (obj st1) = file (obj st)
  ∧ swo_pin_freq (obj st1) = swo_pin_freq (obj st)
  ∧ pin_protocol (obj st1) = pin_protocol (obj st)
  ∧ port_width (obj st1) = port_width (obj st)
  ∧ traceclkin_freq (obj st1) = traceclkin_freq (obj st)
  ∧ out_filename (obj st1) = out_filename (obj st)
  ∧ event_action (obj st1) = event_action (obj st)
  ∧ ledger_of (trace st1) = ledger_of (trace st).
Proof.
  unfold resources, settings. intros Heq. simplify_eq.
  repeat split; try assumption. unfold ledger_of. congruence.
Qed.

Lemma failure_outcome_from (st st1 st' : state) :
  resources st1 = resources st →
  failure_outcome E st1 st' → failure_outcome E st st'.
Proof.
  intros Heq. apply resources_eq in Heq
    as (Hen & Hcap & Hfile & Hpin & Hproto & Hwidth & Hclk & Hout & Hchain & HL).
  unfold failure_outcome.
  now rewrite Hen, Hcap, Hfile, Hpin, Hproto, Hwidth, Hclk, HL.
Qed.

Lemma failure_outcome_kept (st st' : state) :
  resources st' = resources st → failure_outcome E st st'.
Proof.
  intros Heq. apply resources_eq in Heq
    as (Hen & Hcap & Hfile & Hpin & Hproto & Hwidth & Hclk & Hout & Hchain & HL).
  unfold failure_outcome. rewrite HL.
  repeat split; try assumption. left. split; reflexivity.
Qed.

(** The second stage, from an instance that is not capturing. *)
Lemma enable_commit_failure (ext : bool) (o : arm_tpiu_swo_object)
    (tr : list event) (rv : Z) :
  en_capture o = false → file o = None →
  let out := enable_commit E ext (mk_state o tr) in
  returned out = Some rv → rv ≠ ERROR_OK →
  failure_outcome E (mk_state o tr) (snd out) ∧ enabled (obj (snd out)) = enabled o.
Proof.
  intros Hcap Hfile out.
  assert (Hout : out = enable_commit E ext (mk_state o tr)) by reflexivity.
  clearbody out.
  pose proof (start_capture_cases ext o tr Hcap Hfile) as Hsc.
  unfold enable_commit in Hout. unfold bind at 1 in Hout.
  destruct (start_capture E ext (mk_state o tr)) as [[p | r | r] [o2 tr2]];
    cbn [fst snd obj trace] in Hsc.
  - (* the sinks are set up *)
    destruct Hsc as (Hset & Hen & Hap & Hstops & Htim & Hsta & Hfil & Hser & Hidle).
    pose proof (keeps_block resources _ (program_tpiu_resources E p)
                  (mk_state o2 tr2)) as Hprog.
    pose proof (block_no_return (program_tpiu E p) (mk_state o2 tr2)) as Hblock.
    unfold bind at 1 in Hout.
    destruct (block (program_tpiu E p) (mk_state o2 tr2)) as [[rt | r | r] [o3 tr3]];
      cbn [fst snd] in Hprog;
      [| now elim (Hblock r (mk_state o3 tr3)) | subst out; discriminate].
    destruct (rt =? ERROR_OK) eqn:Hrt.
    + subst out. cbn. intros [= <-] Hne. now elim Hne.
    + pose proof (error_exit_cases rt o3 tr3) as Hee.
      destruct (error_exit E rt (mk_state o3 tr3)) as [res [o4 tr4]].
      cbn [fst snd obj trace] in Hee.
      destruct Hee as (-> & Hen4 & Hcap4 & Hfile4 & Hap4 & Hsta4 & Hsto4 & Htim4
                       & Hfil4 & Hser4).
      subst out. intros _ _.
      apply resources_eq in Hprog
        as (Hen3 & Hcap3 & Hfile3 & Hpin3 & Hproto3 & Hwidth3 & Hclk3 & Hout3
            & Hchain3 & HL3).
      unfold settings in Hset. simplify_eq.
      unfold failure_outcome, ledger_of in *. simplify_eq.
      cbn [files services timers starts stops ap_released obj trace snd] in *.
      rewrite Hcap3, Hfile3, Hout3 in *.
      match goal with H : out_filename o2 = out_filename o |- _ => rewrite H in * end.
      destruct (en_capture o2) eqn:Hcap2.
      * destruct (file o2); destruct (tcp_port (out_filename o));
          (split; [|congruence]); repeat split; try congruence; try lia;
          right; left; lia.
      * rewrite (Hidle eq_refl) in *.
        (split; [|congruence]); repeat split; try congruence; try lia;
          left; lia.
  - (* the sink set-up failed *)
    destruct Hsc as (Hset & Hen & Hap & Hstops & Hne & Hcap2 & Hfile2 & Hfil & Hser
                     & Htim & Hsta).
    subst out. intros _ _. unfold failure_outcome, ledger_of in *.
    cbn [files services timers starts stops ap_released obj trace snd] in *.
    (split; [|congruence]); repeat split; try congruence; try lia.
    destruct Hsta as [Hsta | (Hsta & Hasync & Hpin)].
    + left; lia.
    + right; right. repeat split; try lia; assumption.
  - subst out. discriminate.
Qed.

End EnableFailure.

(** ** The access port over [enable] and the cleanup *)

Import TpiuViews.

Lemma acquired_app (l1 l2 : list event) :
  acquired (l1 ++ l2) = acquired l1 ++ acquired l2.
Proof.
  induction l1 as [|e l1 IH]; [reflexivity|].
  destruct e as [| ? ? [a|] | | | | | | | | | | | | | |]; cbn; now rewrite ?IH.
Qed.

Lemma acquired_hook_events chain event : acquired (hook_events chain event) = [].
Proof. unfold hook_events. now destruct (hook_body chain event). Qed.

Section AccessPort.

Variable E : env.

Lemma keeps_handle_event_ap_view (event : arm_tpiu_swo_event) :
  keeps ap_view (arm_tpiu_swo_handle_event E event).
Proof.
  intros st. rewrite handle_event_spec. unfold ap_view. cbn.
  now rewrite acquired_app, acquired_hook_events, tally_app, tally_hook_events.
Qed.

Lemma enable_checks_ap_view argc cm : keeps ap_view (enable_checks E argc cm).
Proof. unfold enable_checks. keeps_auto. Qed.

Lemma recheck_ap_ap_view : keeps ap_view (recheck_ap E).
Proof. unfold recheck_ap. keeps_auto. Qed.

Lemma check_protocol_support_ap_view : keeps ap_view (check_protocol_support E).
Proof.
  unfold check_protocol_support.
  repeat first
    [ apply keeps_wrap_read_u32; intros [? ?]; reflexivity
    | keeps_step; simpl ].
Qed.

Lemma start_capture_ap_view (ext : bool) : keeps ap_view (start_capture E ext).
Proof.
  unfold start_capture, arm_tpiu_swo_close_output, command_print.
  keeps_auto.
Qed.

Lemma program_tpiu_ap_view (prescaler : Z) : keeps ap_view (program_tpiu E prescaler).
Proof.
  unfold program_tpiu.
  repeat first
    [ apply keeps_wrap_read_u32; intros [? ?]; reflexivity
    | apply keeps_wrap_write_u32; intros [? ?]; reflexivity
    | apply keeps_handle_event_ap_view
    | keeps_step; simpl ].
Qed.

Lemma error_exit_ap_view (retval : Z) : keeps ap_view (error_exit E retval).
Proof.
  unfold error_exit, adapter_config_trace_off, arm_tpiu_swo_close_output,
    command_print.
  keeps_auto.
Qed.

(** [enable] is related to its initial state by every relation that
    holds between states with the same access port, composes, and holds
    over [acquire_ap]. *)
Section Follows.

Variable R : state → state → Prop.
Hypothesis R_view : ∀ st st', ap_view st' = ap_view st → R st st'.
Hypothesis R_trans : ∀ st1 st2 st3, R st1 st2 → R st2 st3 → R st1 st3.
Hypothesis R_acquire_ap : follows R (acquire_ap E).

Lemma follows_keeps {A} (m : M A) : keeps ap_view m → follows R m.
Proof. intros Hm st. apply R_view, Hm. Qed.

Lemma follows_bind {A B} (m : M A) (f : A → M B) :
  follows R m → (∀ a, follows R (f a)) → follows R (bind m f).
Proof.
  intros Hm Hf st. unfold bind. specialize (Hm st).
  destruct (m st) as [[a | r | r] st1]; cbn [snd] in *; [|assumption..].
  apply (R_trans _ st1); [exact Hm | apply Hf].
Qed.

Lemma enable_follows (argc : Z) (config_mode : bool) :
  follows R (handle_arm_tpiu_swo_enable E argc config_mode).
Proof.
  unfold handle_arm_tpiu_swo_enable. apply follows_bind.
  - unfold enable_prepare.
    apply follows_bind; [apply follows_keeps, enable_checks_ap_view | intros ext].
    apply follows_bind; [apply follows_keeps, recheck_ap_ap_view | intros _].
    apply follows_bind; [exact R_acquire_ap | intros _].
    apply follows_keeps.
    repeat first
      [ apply keeps_handle_event_ap_view | apply check_protocol_support_ap_view
      | keeps_step; simpl ].
  - intros ext. unfold enable_commit. apply follows_keeps.
    repeat first
      [ apply start_capture_ap_view | apply keeps_block, program_tpiu_ap_view
      | apply error_exit_ap_view
      | keeps_step; simpl ].
Qed.

End Follows.

Lemma ap_kept_view (st st' : state) : ap_view st' = ap_view st → ap_kept st st'.
Proof. unfold ap_view. intros [= Hap Hacq _]. left. auto. Qed.

Lemma ap_kept_trans (st1 st2 st3 : state) :
  ap_kept st1 st2 → ap_kept st2 st3 → ap_kept st1 st3.
Proof.
  unfold ap_kept.
  intros [[Hap Hacq] | (Hnone & a & Hap & Hacq)]
         [[Hap' Hacq'] | (Hnone' & a' & Hap' & Hacq')].
  - left. split; congruence.
  - right. split; [congruence|]. exists a'. split; congruence.
  - right. split; [exact Hnone|]. exists a. split; congruence.
  - congruence.
Qed.

Lemma acquire_ap_kept : follows ap_kept (acquire_ap E).
Proof.
  intros [o tr]. unfold ap_kept, acquire_ap, command_print, bind, get, modify,
    emit, return_, skip, ret. cbn.
  destruct (ap o) as [a|] eqn:Hap; cbn; [left; auto|].
  destruct (dap_get_ap E (spot_dap o) (spot_ap_num o)) as [a|]; cbn.
  - right. split; [reflexivity|]. exists a. auto.
  - left. auto.
Qed.

Lemma ap_reused_view (st st' : state) : ap_view st' = ap_view st → ap_reused st st'.
Proof. intros Heq _. exact Heq. Qed.

Lemma ap_reused_trans (st1 st2 st3 : state) :
  ap_reused st1 st2 → ap_reused st2 st3 → ap_reused st1 st3.
Proof.
  unfold ap_reused. intros H12 H23 Hheld.
  specialize (H12 Hheld). rewrite <- H12. apply H23.
  unfold ap_view in H12. injection H12 as Hap _ _. now rewrite Hap.
Qed.

Lemma acquire_ap_reused : follows ap_reused (acquire_ap E).
Proof.
  intros [o tr] [a Hheld]. cbn in Hheld.
  unfold acquire_ap, bind, get, skip, ret. cbn. now rewrite Hheld.
Qed.

(** Over [enable], however it ends, the access port is kept: the
    handle that the instance held is still in [ap], or none was held and
    the one that [dap_get_ap] gave, if it gave one, is in [ap]. *)
Lemma enable_keeps_ap (argc : Z) (config_mode : bool) (st : state) :
  ap_kept st (snd (handle_arm_tpiu_swo_enable E argc config_mode st)).
Proof.
  apply (enable_follows ap_kept ap_kept_view ap_kept_trans acquire_ap_kept).
Qed.

(** An [enable] on an instance that holds a handle does not ask for
    another. *)
Lemma enable_reuses_ap (argc : Z) (config_mode : bool) (st : state) :
  ap_reused st (snd (handle_arm_tpiu_swo_enable E argc config_mode st)).
Proof.
  apply (enable_follows ap_reused ap_reused_view ap_reused_trans acquire_ap_reused).
Qed.

(** The [while (ea)] loop drops one reference for each action. *)
Lemma release_event_actions_spec (chain : list arm_tpiu_swo_event_action)
    (st : state) :
  release_event_actions chain st
  = (Val tt,
     mk_state (obj st)
       (rev (map (λ ea, EvDecrRefCount (ea_body ea)) chain) ++ trace st)).
Proof.
  revert st. induction chain as [|ea next IH]; intros st; simpl.
  - destruct st; reflexivity.
  - unfold bind, emit. simpl. rewrite IH. cbn [obj trace].
    now rewrite <- app_assoc.
Qed.

Lemma tally_released (f : event → Z) (chain : list arm_tpiu_swo_event_action) :
  (∀ body, f (EvDecrRefCount body) = 0) →
  tally f (rev (map (λ ea, EvDecrRefCount (ea_body ea)) chain)) = 0.
Proof.
  intros Hf. induction chain as [|ea next IH]; simpl; [reflexivity|].
  rewrite tally_app, IH. simpl. rewrite Hf. reflexivity.
Qed.

(** What the body of the cleanup loop gives up for one instance. *)
Lemma cleanup_object_releases (o : arm_tpiu_swo_object) (tr : list event) :
  let out := cleanup_object E (mk_state o tr) in
  let before := ledger_of tr in
  let after := ledger_of (trace (snd out)) in
  fst out = Val tt
  ∧ starts after = starts before
  ∧ stops after = stops before + (if en_capture o then 1 else 0)
  ∧ timers after = timers before - (if en_capture o then 1 else 0)
  ∧ files after = files before - (if file o is Some _ then 1 else 0)
  ∧ services after
    = services before - (if tcp_port (out_filename o) is Some _ then 1 else 0)
  ∧ ap_released after = ap_released before + (if ap o is Some _ then 1 else 0).
Proof.
  unfold cleanup_object, adapter_config_trace_off, arm_tpiu_swo_close_output,
    when_, bind, get, modify, emit, ret, skip.
  repeat (cbn -[arm_tpiu_swo_handle_event release_event_actions];
    first
      [ rewrite handle_event_spec
      | rewrite release_event_actions_spec
      | match goal with
        | |- context [match ?x with _ => _ end] =>
            lazymatch x with
            | context [match _ with _ => _ end] => fail
            | _ => destruct x eqn:?
            end
        end ]);
    cbn;
    repeat (progress (rewrite ?tally_app, ?tally_hook_events, ?tally_released
                        by reflexivity; cbn));
    repeat split; try reflexivity; try lia.
Qed.

Lemma failure_outcome_trace_stopped (st st' : state) :
  failure_outcome E st st' → trace_stopped E st st'.
Proof.
  unfold failure_outcome, trace_stopped, ledger_of.
  cbn [files services timers starts stops ap_released].
  intros (_ & _ & _ & _ & _ & _ & _ & Hcases).
  destruct Hcases as [[Hsto Hsta] | [[Hsto Hsta] | (Hsto & Hsta & Hasync & Hpin)]].
  - repeat split; intros; lia.
  - repeat split; intros; lia.
  - split; [lia|]. split; [intros; lia|].
    intros Hreport. now elim (Hreport Hasync).
Qed.

End AccessPort.

(** C4 (failure of [enable]), as the code has it.  When [enable] fails on
    an instance that, unless it is enabled, is not capturing and has no
    file open: [enabled], [en_capture] and [file] are as they were (so an
    instance that was not enabled is left not enabled, not capturing and
    without a file), every file opened has been closed, every service
    added has been removed and every timer registered has been
    unregistered.  The access port is not put back but kept in the
    instance: a handle that was held is still in [ap], a handle that
    [dap_get_ap] gave on the way is in [ap], and no [dap_put_ap] is
    called; a later [enable] on the instance uses the handle in [ap]
    without calling [dap_get_ap]; and the cleanup puts it back, once.
    [adapter_config_trace(false, ...)] is called at most once and only
    after [adapter_config_trace(true, ...)] returned [ERROR_OK]; and it
    is called whenever [adapter_config_trace(true, ...)] returned
    [ERROR_OK], as long as the probe does not report a pin frequency of
    0 for an asynchronous protocol. *)
Theorem C4_enable_failure (E : env) (o : arm_tpiu_swo_object) (tr : list event)
    (argc : Z) (config_mode : bool) (rv : Z) :
  (enabled o = false → en_capture o = false ∧ file o = None) →
  let st := mk_state o tr in
  let out := handle_arm_tpiu_swo_enable E argc config_mode st in
  let st' := snd out in
  returned out = Some rv → rv ≠ ERROR_OK →
  failure_outcome E st st'
  ∧ (argc = 0 → enabled (obj st') = false)
  ∧ ap_kept st st'
  ∧ (∀ argc' config_mode',
       ap_reused st' (snd (handle_arm_tpiu_swo_enable E argc' config_mode' st')))
  ∧ tally puts_ap (trace (snd (cleanup_object E st')))
    = tally puts_ap (trace st') + (if ap (obj st') is Some _ then 1 else 0)
  ∧ trace_stopped E st st'.
Proof.
  intros Hidle st out st'.
  assert (Hmain : returned out = Some rv → rv ≠ ERROR_OK →
                  failure_outcome E st st'
                  ∧ (argc = 0 → enabled (obj st') = false)).
  { subst st' st.
    assert (Hout : out = handle_arm_tpiu_swo_enable E argc config_mode (mk_state o tr))
      by reflexivity.
    clearbody out.
    unfold handle_arm_tpiu_swo_enable in Hout. unfold bind at 1 in Hout.
    pose proof (enable_prepare_resources E argc config_mode (mk_state o tr)) as Hkeep.
    destruct (enable_prepare E argc config_mode (mk_state o tr))
      as [[ext | r | r] [o1 tr1]] eqn:Hprep; cbn [snd] in Hkeep.
    - (* the preparation succeeded *)
      pose proof (enable_prepare_val E _ _ _ _ _ Hprep) as Hen. cbn in Hen.
      destruct (Hidle Hen) as [Hcap Hfile].
      destruct (resources_eq _ _ Hkeep) as (Hen1 & Hcap1 & Hfile1 & _).
      cbn [obj] in *.
      subst out. intros Hret Hne.
      destruct (enable_commit_failure E ext o1 tr1 rv) as [Hout Hen'];
        [congruence | congruence | exact Hret | exact Hne |].
      split.
      + apply (failure_outcome_from E _ (mk_state o1 tr1)); assumption.
      + intros _. congruence.
    - (* the preparation failed *)
      subst out. cbn. intros [= <-] Hne. split.
      + now apply failure_outcome_kept.
      + intros Hargc.
        destruct (enabled o) eqn:Hen.
        * pose proof (enable_prepare_enabled E argc config_mode (mk_state o tr)
                        Hen Hargc) as Hok.
          rewrite Hprep in Hok. cbn in Hok. injection Hok as ->. now elim Hne.
        * destruct (resources_eq _ _ Hkeep) as (Hen1 & _). cbn in Hen1.
          congruence.
    - subst out. discriminate. }
  intros Hret Hne. destruct (Hmain Hret Hne) as [Hfail Hen].
  split; [exact Hfail|]. split; [exact Hen|].
  split; [apply enable_keeps_ap|].
  split; [intros argc' config_mode'; apply enable_reuses_ap|].
  split; [|now apply failure_outcome_trace_stopped].
  destruct st' as [o' tr'].
  destruct (cleanup_object_releases E o' tr') as (_ & _ & _ & _ & _ & _ & Hput).
  exact Hput.
Qed.

(** C4 as stated fails for the access port.  When the last register
    write fails, [enable] fails after [dap_get_ap] gave a handle: the
    sinks and the probe's trace are given up, but the handle is still
    held in [ap] and no [dap_put_ap] has been called. *)
Lemma C4_failure_keeps_access_port :
  let o := uart_instance "trace.bin" 168000000 2000000 [] in
  let out := handle_arm_tpiu_swo_enable env_ffcr_write_fails 0 false (mk_state o []) in
  let after := ledger_of (trace (snd out)) in
  returned out = Some ERROR_FAIL
  ∧ ap o = None ∧ acquired (trace (snd out)) = [100]
  ∧ ap (obj (snd out)) = Some 100 ∧ ap_released after = 0
  ∧ files after = 0 ∧ timers after = 0 ∧ starts after = 1 ∧ stops after = 1.
Proof. vm_compute. repeat split; reflexivity. Qed.

(** The one failure that leaves the probe's trace started: the probe
    starts the trace and reports a pin frequency of 0, and [enable] fails
    without calling [adapter_config_trace(false, ...)]. *)
Lemma pin_frequency_zero_leaves_trace_started :
  let o := uart_instance "-" 168000000 2000000 [] in
  let out := handle_arm_tpiu_swo_enable env_no_pin_freq 0 false (mk_state o []) in
  let after := ledger_of (trace (snd out)) in
  returned out = Some ERROR_FAIL ∧ starts after = 1 ∧ stops after = 0.
Proof. vm_compute. repeat split; reflexivity. Qed.

Lemma C4_enable_failure_witness :
  let o := uart_instance "trace.bin" 168000000 2000000 [] in
  let st := mk_state o [] in
  let out := handle_arm_tpiu_swo_enable env_ffcr_write_fails 0 false st in
  let st' := snd out in
  ap o = None ∧ ap (obj st') = Some 100 ∧ acquired (trace st') = [100]
  ∧ failure_outcome env_ffcr_write_fails st st'
  ∧ (0 = 0 → enabled (obj st') = false)
  ∧ ap_kept st st'
  ∧ (∀ argc' config_mode',
       ap_reused st'
         (snd (handle_arm_tpiu_swo_enable env_ffcr_write_fails argc' config_mode'
                 st')))
  ∧ tally puts_ap (trace (snd (cleanup_object env_ffcr_write_fails st')))
    = tally puts_ap (trace st') + 1
  ∧ trace_stopped env_ffcr_write_fails st st'.
Proof.
  do 3 (split; [reflexivity|]).
  apply (C4_enable_failure env_ffcr_write_fails
           (uart_instance "trace.bin" 168000000 2000000 []) [] 0 false ERROR_FAIL).
  - intros _. split; reflexivity.
  - reflexivity.
  - discriminate.
Defined.

(** ** The prescaler for external capture (C7) *)

Section Prescaler.

Variable E : env.

(** What the code computes: the 32-bit sum and quotient, stored in a
    16-bit variable, and only then compared with the maximum. *)
Lemma external_prescaler (o : arm_tpiu_swo_object) (tr : list event) :
  is_async (pin_protocol o) = true →
  swo_pin_freq o ≠ 0 →
  let stored :=
    to_uint16 (to_uint32 (traceclkin_freq o + swo_pin_freq o / 2) / swo_pin_freq o) in
  let prescaler :=
    if TPIU_ACPR_MAX_PRESCALER <? stored then TPIU_ACPR_MAX_PRESCALER else stored in
  prescaler ≠ 0 →
  start_capture E true (mk_state o tr)
  = (Val prescaler,
     mk_state (set_swo_pin_freq (traceclkin_freq o / prescaler) o) tr).
Proof.
  intros Hasync Hpin stored prescaler Hp.
  unfold start_capture, bind, get, modify, ret, stop_. cbn [obj trace negb].
  rewrite Hasync.
  apply Z.eqb_neq in Hpin, Hp. rewrite Hpin.
  fold stored. fold prescaler. now rewrite Hp.
Qed.

Lemma round_div_eq (a b : Z) : 0 ≤ a → 0 < b → (a + b / 2) / b = round_div a b.
Proof.
  intros Ha Hb. unfold round_div.
  pose proof (Z.div_mod b 2 ltac:(lia)) as Hb2.
  pose proof (Z.mod_pos_bound b 2 ltac:(lia)) as Hr2.
  pose proof (Z.div_mod (a + b / 2) b ltac:(lia)) as Hq.
  pose proof (Z.mod_pos_bound (a + b / 2) b ltac:(lia)) as Hr.
  apply (Z.div_unique_pos _ _ _ (2 * ((a + b / 2) mod b) + b mod 2)); lia.
Qed.

(** Within the range of the 16-bit variable the code computes what the
    specification says. *)
Lemma external_prescaler_in_range (clk pin : Z) :
  0 ≤ clk → 0 < pin → clk + pin / 2 < 2 ^ 32 → round_div clk pin < 2 ^ 16 →
  let stored := to_uint16 (to_uint32 (clk + pin / 2) / pin) in
  (if TPIU_ACPR_MAX_PRESCALER <? stored then TPIU_ACPR_MAX_PRESCALER else stored)
  = prescaler_spec clk pin.
Proof.
  intros Hclk Hpin Hsum Hq stored. subst stored.
  unfold prescaler_spec, to_uint16, to_uint32, wrap_unsigned.
  pose proof (Z.div_pos pin 2 ltac:(lia) ltac:(lia)).
  rewrite (Z.mod_small (clk + pin / 2)) by lia.
  rewrite round_div_eq by lia.
  assert (0 ≤ round_div clk pin)
    by (unfold round_div; apply Z.div_pos; lia).
  rewrite Z.mod_small by lia.
  destruct (TPIU_ACPR_MAX_PRESCALER <? round_div clk pin) eqn:Hmax.
  - apply Z.ltb_lt in Hmax. lia.
  - apply Z.ltb_ge in Hmax. lia.
Qed.

End Prescaler.

(** The instance of the specification: 168 MHz and 2 MHz give the
    prescaler 84, the rate 2 MHz, and 83 in [TPIU_ACPR]. *)
Lemma prescaler_168MHz_2MHz :
  let o := uart_instance "external" 168000000 2000000 [] in
  let out := handle_arm_tpiu_swo_enable env_ok 0 false (mk_state o []) in
  start_capture env_ok true (mk_state o []) = (Val 84, mk_state o [])
  ∧ prescaler_spec 168000000 2000000 = 84
  ∧ returned out = Some ERROR_OK
  ∧ swo_pin_freq (obj (snd out)) = 2000000
  ∧ EvWriteU32 (TPIU_SWO_DEFAULT_BASE + TPIU_ACPR_OFFSET) 83 ∈ trace (snd out).
Proof.
  repeat split; try (vm_compute; reflexivity).
  apply (bool_decide_unpack _). vm_compute. exact I.
Qed.

(** C7: what the code does where the claim fails.  With a trace clock of
    72 MHz and a pin frequency of 1 kHz the rounded quotient is 72000;
    stored in the 16-bit [prescaler] it becomes 72000 - 65536 = 6464, which
    is below the maximum, so the clamp to [0x1FFF] does not apply: the
    prescaler is 6464 instead of 8191, the rate 11138 Hz, and [TPIU_ACPR]
    is written with 6463. *)
Theorem C7_prescaler_truncated_before_clamp :
  let o := uart_instance "external" 72000000 1000 [] in
  let out := handle_arm_tpiu_swo_enable env_ok 0 false (mk_state o []) in
  round_div 72000000 1000 = 72000
  ∧ prescaler_spec 72000000 1000 = TPIU_ACPR_MAX_PRESCALER
  ∧ start_capture env_ok true (mk_state o [])
    = (Val 6464, mk_state (set_swo_pin_freq 11138 o) [])
  ∧ returned out = Some ERROR_OK
  ∧ swo_pin_freq (obj (snd out)) = 11138
  ∧ EvWriteU32 (TPIU_SWO_DEFAULT_BASE + TPIU_ACPR_OFFSET) 6463 ∈ trace (snd out).
Proof.
  repeat split; try (vm_compute; reflexivity).
  apply (bool_decide_unpack _). vm_compute. exact I.
Qed.

(** ** Hook failures (C8) *)

Lemma tally_runs_hook_same chain event :
  tally (runs_hook event) (hook_events chain event)
  = if hook_body chain event is Some _ then 1 else 0.
Proof.
  unfold hook_events. destruct (hook_body chain event); simpl; [|reflexivity].
  rewrite bool_decide_eq_true_2 by reflexivity. reflexivity.
Qed.

Lemma tally_runs_hook_other chain event event' :
  event' ≠ event → tally (runs_hook event) (hook_events chain event') = 0.
Proof.
  intros Hne. unfold hook_events. destruct (hook_body chain event'); simpl;
    [|reflexivity].
  rewrite bool_decide_eq_false_2 by exact Hne. reflexivity.
Qed.

Section Hooks.

Variable E : env.

Lemma enable_checks_untouched argc cm : keeps untouched (enable_checks E argc cm).
Proof. unfold enable_checks. keeps_auto. Qed.

Lemma recheck_ap_untouched : keeps untouched (recheck_ap E).
Proof. unfold recheck_ap. keeps_auto. Qed.

Lemma acquire_ap_untouched : keeps untouched (acquire_ap E).
Proof. unfold acquire_ap. keeps_auto. Qed.

(** The stages of the preparation fail with an error or go on. *)
Lemma enable_checks_return (st st1 : state) (r : Z) :
  enabled (obj st) = false →
  enable_checks E 0 false st = (Return r, st1) → r ≠ ERROR_OK.
Proof.
  intros Hen. unfold enable_checks, command_print, bind, get, emit, return_, skip, ret.
  cbn. rewrite Hen. crunch; intros [= <- <-]; discriminate.
Qed.

Lemma recheck_ap_return (st st1 : state) (r : Z) :
  recheck_ap E st = (Return r, st1) → r ≠ ERROR_OK.
Proof.
  unfold recheck_ap, bind, get, modify, return_, skip, ret.
  crunch; intros [= <- <-]; discriminate.
Qed.

Lemma acquire_ap_return (st st1 : state) (r : Z) :
  acquire_ap E st = (Return r, st1) → r ≠ ERROR_OK.
Proof.
  unfold acquire_ap, command_print, bind, get, modify, emit, return_, skip, ret.
  crunch; intros [= <- <-]; discriminate.
Qed.

Lemma check_protocol_support_return (st st1 : state) (r : Z) :
  check_protocol_support E st = (Return r, st1) → r ≠ ERROR_OK.
Proof.
  unfold check_protocol_support, wrap_read_u32, command_print, bind, get, modify,
    emit, return_, skip, ret.
  crunch; intros [= <- <-]; eqb_facts; (assumption || discriminate).
Qed.

Lemma no_stop_enable_checks argc cm st r : fst (enable_checks E argc cm st) ≠ Stop r.
Proof.
  unfold enable_checks, command_print, bind, get, modify, emit, return_, skip, ret.
  crunch; discriminate.
Qed.

Lemma no_stop_recheck_ap st r : fst (recheck_ap E st) ≠ Stop r.
Proof.
  unfold recheck_ap, bind, get, modify, return_, skip, ret.
  crunch; discriminate.
Qed.

Lemma no_stop_acquire_ap st r : fst (acquire_ap E st) ≠ Stop r.
Proof.
  unfold acquire_ap, command_print, bind, get, modify, emit, return_, skip, ret.
  crunch; discriminate.
Qed.

Lemma no_stop_check_protocol_support st r :
  fst (check_protocol_support E st) ≠ Stop r.
Proof.
  unfold check_protocol_support, wrap_read_u32, command_print, bind, get, modify,
    emit, return_, skip, ret.
  crunch; discriminate.
Qed.

(** Nothing before the sink set-up touches the capture: no file, no
    service, no timer and no call of the probe. *)
Lemma keeps_handle_event_capture (event : arm_tpiu_swo_event) :
  keeps capture_view (arm_tpiu_swo_handle_event E event).
Proof.
  intros st. rewrite handle_event_spec. unfold capture_view. cbn.
  now rewrite tally_app, tally_hook_events.
Qed.

Lemma enable_prepare_capture argc cm : keeps capture_view (enable_prepare E argc cm).
Proof.
  unfold enable_prepare, enable_checks, recheck_ap, acquire_ap,
    check_protocol_support, command_print.
  repeat first
    [ apply keeps_handle_event_capture
    | apply keeps_wrap_read_u32; intros [? ?]; reflexivity
    | keeps_step; simpl ].
Qed.

(** The preparation, stage by stage: either it leaves [enable] with an
    error at or before the pre-enable hook, nothing having touched the
    registers or the post-enable hook, or the hook succeeded. *)
Lemma enable_prepare_cases (o : arm_tpiu_swo_object) (tr : list event) :
  enabled o = false →
  let out := enable_prepare E 0 false (mk_state o tr) in
  (∃ r, fst out = Return r ∧ r ≠ ERROR_OK
        ∧ (hook_retval E (event_action o) TPIU_SWO_EVENT_PRE_ENABLE ≠ ERROR_OK →
           untouched (snd out) = untouched (mk_state o tr)))
  ∨ (∃ ext, fst out = Val ext
            ∧ hook_retval E (event_action o) TPIU_SWO_EVENT_PRE_ENABLE = ERROR_OK).
Proof.
  intros Hen out.
  assert (Hout : out = enable_prepare E 0 false (mk_state o tr)) by reflexivity.
  clearbody out. unfold enable_prepare in Hout.
  (* the tests *)
  unfold bind at 1 in Hout.
  pose proof (enable_checks_untouched 0 false (mk_state o tr)) as H1.
  pose proof (enable_checks_return (mk_state o tr)) as R1.
  pose proof (no_stop_enable_checks 0 false (mk_state o tr)) as S1.
  destruct (enable_checks E 0 false (mk_state o tr)) as [[ext | r | r] st1];
    cbn [fst snd] in *;
    [| subst out; left; exists r; eauto | now elim (S1 r)].
  (* the deprecated re-check of the AP *)
  unfold bind at 1 in Hout.
  pose proof (recheck_ap_untouched st1) as H2.
  pose proof (recheck_ap_return st1) as R2.
  pose proof (no_stop_recheck_ap st1) as S2.
  destruct (recheck_ap E st1) as [[[] | r | r] st2]; cbn [fst snd] in *;
    [| subst out; left; exists r; split; [reflexivity|]; split; [eauto|];
       intros _; cbn [snd]; congruence
     | now elim (S2 r)].
  (* the access port *)
  unfold bind at 1 in Hout.
  pose proof (acquire_ap_untouched st2) as H3.
  pose proof (acquire_ap_return st2) as R3.
  pose proof (no_stop_acquire_ap st2) as S3.
  destruct (acquire_ap E st2) as [[[] | r | r] st3]; cbn [fst snd] in *;
    [| subst out; left; exists r; split; [reflexivity|]; split; [eauto|];
       intros _; cbn [snd]; congruence
     | now elim (S3 r)].
  (* the pre-enable hook *)
  assert (Hchain : event_action (obj st3) = event_action o).
  { assert (Hu : untouched st3 = untouched (mk_state o tr)) by congruence.
    unfold untouched in Hu. now simplify_eq. }
  unfold bind at 1 in Hout. rewrite handle_event_spec, Hchain in Hout.
  destruct (hook_retval_cases E (event_action o) TPIU_SWO_EVENT_PRE_ENABLE)
    as [Hok | Hfail].
  - (* it succeeded: the register checks *)
    rewrite Hok in Hout. unfold bind at 1 in Hout. cbn [check Z.eqb ERROR_OK] in Hout.
    change (check 0) with (@skip state) in Hout. cbn [skip ret] in Hout.
    unfold bind at 1 in Hout.
    match type of Hout with
    | context [check_protocol_support E ?st] =>
        pose proof (check_protocol_support_return st) as R4;
        pose proof (no_stop_check_protocol_support st) as S4;
        destruct (check_protocol_support E st) as [[[] | r | r] st4]
    end; cbn [fst snd] in *.
    + subst out. right. exists ext. split; [reflexivity | exact Hok].
    + subst out. left. exists r. repeat split; eauto. intros Hc. now elim Hc.
    + now elim (S4 r).
  - (* it failed *)
    rewrite Hfail in Hout.
    change (check ERROR_FAIL) with (@return_ state unit ERROR_FAIL) in Hout.
    unfold bind at 1, return_ in Hout.
    subst out. left. exists ERROR_FAIL.
    repeat split; [discriminate|]. intros _. cbn [snd].
    unfold untouched; cbn [obj trace].
    rewrite !tally_app, !tally_hook_events by reflexivity.
    assert (Hu : untouched st3 = untouched (mk_state o tr)) by congruence.
    unfold untouched in Hu. cbn [obj trace] in Hu. simplify_eq.
    rewrite !Z.add_0_l. congruence.
Qed.

(** The sink set-up leaves the flags and the hooks alone and fails with
    an error. *)
Lemma start_capture_light (ext : bool) (st : state) :
  let out := start_capture E ext st in
  enabled (obj (snd out)) = enabled (obj st)
  ∧ event_action (obj (snd out)) = event_action (obj st)
  ∧ ∀ r, fst out = Return r → r ≠ ERROR_OK.
Proof.
  destruct st as [o tr].
  unfold start_capture, arm_tpiu_swo_close_output, command_print,
    bind, get, modify, emit, ret, return_, stop_, skip.
  crunch; cbn -[is_async]; repeat split; try reflexivity;
    intros r [= <-]; eqb_facts; (assumption || discriminate).
Qed.

(** With a failing post-enable hook the register block always jumps to
    [error_exit]. *)
Lemma program_tpiu_post_hook (prescaler : Z) (st : state) :
  hook_retval E (event_action (obj st)) TPIU_SWO_EVENT_POST_ENABLE ≠ ERROR_OK →
  let out := block (program_tpiu E prescaler) st in
  enabled (obj (snd out)) = enabled (obj st)
  ∧ ∀ rt, fst out = Val rt → rt ≠ ERROR_OK.
Proof.
  intros Hfail. destruct st as [o tr]. cbn [obj] in Hfail.
  destruct (hook_retval_cases E (event_action o) TPIU_SWO_EVENT_POST_ENABLE)
    as [Hok | Hret]; [now elim Hfail|].
  unfold block, program_tpiu, wrap_write_u32, wrap_read_u32, check,
    bind, get, modify, emit, ret, return_, skip.
  repeat (cbn -[arm_tpiu_swo_handle_event];
    first
      [ rewrite handle_event_spec; cbn [obj]; rewrite Hret
      | match goal with
        | |- context [match ?x with _ => _ end] =>
            lazymatch x with
            | context [match _ with _ => _ end] => fail
            | _ => destruct x eqn:?
            end
        end ]);
    cbn; (split; [reflexivity|]); intros rt [= <-]; eqb_facts;
    (assumption || discriminate).
Qed.

End Hooks.

(** C8 (hook failures), as the code has it.  In [enable] a failing hook
    is fatal: when the pre-enable hook fails, [enable] returns an error
    with the instance not enabled, the post-enable hook not run, no
    register accessed and no capture set up (no file opened, no service
    added, no timer registered, the probe's trace not started,
    [en_capture], [file] and the pin frequency as they were); when the
    post-enable hook fails, [enable] does not return [ERROR_OK] and the
    instance is not enabled.  In [disable] the
    results of the hooks are not looked at: the instance is marked
    disabled, and the post-disable hook, if there is one, runs exactly
    once whatever the pre-disable hook returned -- unless stopping the
    probe's trace fails, which makes [disable] return that error before
    the post-disable hook. *)
Theorem C8_hook_failure (E : env) (o : arm_tpiu_swo_object) (tr : list event) :
  let chain := event_action o in
  (enabled o = false →
   let out := handle_arm_tpiu_swo_enable E 0 false (mk_state o tr) in
   (hook_retval E chain TPIU_SWO_EVENT_PRE_ENABLE ≠ ERROR_OK →
    (∃ r, fst out = Return r ∧ r ≠ ERROR_OK)
    ∧ untouched (snd out) = untouched (mk_state o tr)
    ∧ capture_view (snd out) = capture_view (mk_state o tr)
    ∧ resources (snd out) = resources (mk_state o tr))
   ∧ (hook_retval E chain TPIU_SWO_EVENT_POST_ENABLE ≠ ERROR_OK →
      returned out ≠ Some ERROR_OK ∧ enabled (obj (snd out)) = false))
  ∧ (enabled o = true →
     let out := handle_arm_tpiu_swo_disable E 0 (mk_state o tr) in
     let post_runs :=
       tally (runs_hook TPIU_SWO_EVENT_POST_DISABLE) (trace (snd out))
       - tally (runs_hook TPIU_SWO_EVENT_POST_DISABLE) tr in
     enabled (obj (snd out)) = false
     ∧ if en_capture o && negb (adapter_config_trace_stop E =? ERROR_OK)
       then fst out = Return (adapter_config_trace_stop E) ∧ post_runs = 0
       else fst out = Val ERROR_OK
            ∧ post_runs
              = (if hook_body chain TPIU_SWO_EVENT_POST_DISABLE is Some _
                 then 1 else 0)).
Proof.
  intros chain. subst chain. split.
  - (* enable *)
    intros Hen out.
    assert (Hout : out = handle_arm_tpiu_swo_enable E 0 false (mk_state o tr))
      by reflexivity.
    clearbody out.
    unfold handle_arm_tpiu_swo_enable in Hout. unfold bind at 1 in Hout.
    pose proof (enable_prepare_cases E o tr Hen) as Hprep.
    pose proof (enable_prepare_resources E 0 false (mk_state o tr)) as Hres.
    pose proof (enable_prepare_capture E 0 false (mk_state o tr)) as Hcapture.
    pose proof Hres as Hresources.
    destruct (enable_prepare E 0 false (mk_state o tr)) as [res [o1 tr1]].
    cbn [fst snd] in *.
    apply resources_eq in Hres
      as (Hen1 & _ & _ & _ & _ & _ & _ & _ & Hchain1 & _).
    cbn [obj] in *.
    destruct Hprep as [(r & -> & Hr & Hun) | (ext & -> & Hpre)].
    + (* the preparation failed *)
      subst out. cbn. split.
      * intros Hfail. split; [eauto|]. split; [auto|].
        split; [exact Hcapture | exact Hresources].
      * intros _. split; [congruence | congruence].
    + (* the preparation succeeded *)
      split; [intros Hfail; now elim Hfail|].
      intros Hfail. unfold enable_commit in Hout. unfold bind at 1 in Hout.
      pose proof (start_capture_light E ext (mk_state o1 tr1)) as (Hen2 & Hchain2 & Hr2).
      destruct (start_capture E ext (mk_state o1 tr1)) as [[p | r | r] st2];
        cbn [fst snd obj] in *.
      * unfold bind at 1 in Hout.
        pose proof (program_tpiu_post_hook E p st2) as Hprog.
        pose proof (block_no_return (program_tpiu E p) st2) as Hblock.
        destruct (block (program_tpiu E p) st2) as [[rt | r | r] st3];
          cbn [fst snd] in *.
        -- destruct Hprog as [Hen3 Hrt]; [congruence|].
           specialize (Hrt rt eq_refl). apply Z.eqb_neq in Hrt.
           rewrite Hrt in Hout.
           destruct st3 as [o3 tr3].
           pose proof (error_exit_cases E rt o3 tr3) as Hee.
           destruct (error_exit E rt (mk_state o3 tr3)) as [res4 st4].
           cbn [fst snd obj] in *.
           destruct Hee as (-> & Hen4 & _).
           subst out. cbn. apply Z.eqb_neq in Hrt.
           split; [congruence | congruence].
        -- now elim (Hblock r st3).
        -- destruct Hprog as [Hen3 _]; [congruence|].
           subst out. cbn. split; [discriminate | congruence].
      * subst out. cbn. split; [|congruence].
        intros [= Heq]. now apply (Hr2 r).
      * subst out. cbn. split; [discriminate | congruence].
  - (* disable *)
    intros Hen.
    unfold handle_arm_tpiu_swo_disable, adapter_config_trace_off,
      arm_tpiu_swo_close_output, command_print, when_,
      bind, get, modify, emit, ret, return_, skip.
    cbn -[arm_tpiu_swo_handle_event]. rewrite Hen.
    repeat (cbn -[arm_tpiu_swo_handle_event];
      first
        [ rewrite handle_event_spec
        | match goal with
          | |- context [match ?x with _ => _ end] =>
              lazymatch x with
              | context [match _ with _ => _ end] => fail
              | _ => destruct x eqn:?
              end
          end ]);
      cbn;
      repeat (progress (rewrite ?tally_app, ?tally_runs_hook_same,
                          ?tally_runs_hook_other by discriminate; cbn));
      repeat match goal with
             | H : hook_body _ _ = _ |- _ => rewrite H
             end;
      (split; [reflexivity|]); split; (reflexivity || lia).
Qed.

(** C8 as stated fails for [disable]: with every script failing, the
    pre-disable hook fails, and [disable] still tears the capture down,
    runs the post-disable hook and returns [ERROR_OK]. *)
Lemma C8_post_disable_runs_after_failed_pre_disable :
  let o := enabled_instance both_disable_hooks in
  let out := handle_arm_tpiu_swo_disable env_hooks_fail 0 (mk_state o []) in
  hook_retval env_hooks_fail (event_action o) TPIU_SWO_EVENT_PRE_DISABLE = ERROR_FAIL
  ∧ fst out = Val ERROR_OK
  ∧ trace (snd out)
    = [ EvTraceConfigEvent; EvHook TPIU_SWO_EVENT_POST_DISABLE "post";
        EvConfigTrace false ERROR_OK; EvUnregisterTimer; EvFclose 200;
        EvHook TPIU_SWO_EVENT_PRE_DISABLE "pre" ]
  ∧ tally (runs_hook TPIU_SWO_EVENT_POST_DISABLE) (trace (snd out)) = 1.
Proof. vm_compute. repeat split. Qed.

Lemma C8_hook_failure_witness :
  let o := uart_instance "external" 168000000 2000000 both_enable_hooks in
  let out := handle_arm_tpiu_swo_enable env_hooks_fail 0 false (mk_state o []) in
  (∃ r, fst out = Return r ∧ r ≠ ERROR_OK)
  ∧ untouched (snd out) = untouched (mk_state o [])
  ∧ capture_view (snd out) = capture_view (mk_state o [])
  ∧ resources (snd out) = resources (mk_state o []).
Proof.
  destruct (C8_hook_failure env_hooks_fail
              (uart_instance "external" 168000000 2000000 both_enable_hooks) [])
    as [Henable _].
  destruct (Henable eq_refl) as [Hpre _].
  apply Hpre. vm_compute. discriminate.
Defined.

(** ** The global cleanup (C9) *)

Section Cleanup.

Variable E : env.

Lemma release_event_actions_runs (chain : list arm_tpiu_swo_event_action)
    (st : state) :
  ∃ tr', release_event_actions chain st = (Val tt, mk_state (obj st) tr').
Proof.
  revert st. induction chain as [|ea next IH]; intros st; simpl.
  - exists (trace st). destruct st; reflexivity.
  - unfold bind, emit. simpl.
    destruct (IH (mk_state (obj st) (EvDecrRefCount (ea_body ea) :: trace st)))
      as [tr' ->].
    eauto.
Qed.

(** The body of the loop runs to its end on a live instance. *)
Lemma cleanup_object_runs (st : state) :
  ∃ st', cleanup_object E st = (Val tt, st').
Proof.
  unfold cleanup_object, adapter_config_trace_off, arm_tpiu_swo_close_output,
    when_, bind, get, modify, emit, ret, skip.
  repeat (cbn -[arm_tpiu_swo_handle_event release_event_actions];
    first
      [ rewrite handle_event_spec
      | match goal with
        | |- context [release_event_actions ?c ?s] =>
            let tr' := fresh "tr" in
            destruct (release_event_actions_runs c s) as [tr' ->]
        | |- context [match ?x with _ => _ end] =>
            lazymatch x with
            | context [match _ with _ => _ end] => fail
            | _ => destruct x eqn:?
            end
        end ]);
    eauto.
Qed.

Lemma cleanup_step (p : Z) (r : registry) (o : arm_tpiu_swo_object) :
  heap r !! p = Some o →
  ∃ tr', (on_object p (cleanup_object E);; free_object p) r
         = (Val tt, mk_registry (all_tpiu_swo r) (delete p (heap r)) tr').
Proof.
  intros Hp. unfold bind, on_object, free_object. rewrite Hp.
  destruct (cleanup_object_runs (mk_state o (calls r))) as [st' ->].
  cbn [all_tpiu_swo heap calls]. rewrite lookup_insert_eq.
  rewrite delete_insert_eq. eauto.
Qed.

Lemma cleanup_each_live (l : list Z) (r : registry) :
  NoDup l →
  (∀ p, p ∈ l → is_Some (heap r !! p)) →
  ∃ r', cleanup_each E l r = (Val tt, r')
        ∧ all_tpiu_swo r' = all_tpiu_swo r
        ∧ ∀ q, heap r' !! q = if bool_decide (q ∈ l) then None else heap r !! q.
Proof.
  revert r. induction l as [|p l IH]; intros r Hnd Hlive.
  - exists r. repeat split. 
  - apply NoDup_cons in Hnd as [Hp Hnd].
    destruct (Hlive p) as [o Ho]; [left|].
    destruct (cleanup_step p r o Ho) as [tr' Hstep].
    cbn [cleanup_each].
    change (on_object p (cleanup_object E);; free_object p;; cleanup_each E l)
      with (on_object p (cleanup_object E);; (free_object p;; cleanup_each E l)).
    assert (Hrun : (on_object p (cleanup_object E);; free_object p;;
                    cleanup_each E l) r
                   = cleanup_each E l
                       (mk_registry (all_tpiu_swo r) (delete p (heap r)) tr')).
    { unfold bind in Hstep |- *.
      destruct (on_object p (cleanup_object E) r) as [[[] | x | x] r1];
        [|discriminate..].
      destruct (free_object p r1) as [[[] | x | x] r2]; [|discriminate..].
      now injection Hstep as ->. }
    rewrite Hrun.
    destruct (IH (mk_registry (all_tpiu_swo r) (delete p (heap r)) tr') Hnd)
      as (r' & Hr' & Hall & Hheap).
    { intros q Hq. cbn [heap]. rewrite lookup_delete_ne by (intros ->; contradiction).
      apply Hlive. now right. }
    exists r'. split; [exact Hr'|]. split; [exact Hall|].
    intros q. rewrite Hheap. cbn [heap].
    destruct (decide (q = p)) as [-> | Hne].
    + rewrite bool_decide_eq_false_2 by exact Hp.
      rewrite bool_decide_eq_true_2 by left.
      apply lookup_delete_eq.
    + rewrite lookup_delete_ne by congruence.
      destruct (bool_decide (q ∈ l)) eqn:Hq.
      * apply bool_decide_eq_true_1 in Hq.
        rewrite bool_decide_eq_true_2 by (now right). reflexivity.
      * apply bool_decide_eq_false_1 in Hq.
        rewrite bool_decide_eq_false_2; [reflexivity|].
        intros Hin. apply elem_of_cons in Hin as [? | ?]; contradiction.
Qed.

End Cleanup.

(** C9 (global cleanup), as the code has it.  On a registry whose
    instances are all live, one cleanup returns [ERROR_OK] with every
    instance freed -- and still in the list, which cleanup does not
    touch.  So a second cleanup is the same as the first only for an
    empty registry; for any other it reads an instance that has been
    freed, which is undefined. *)
Theorem C9_cleanup_is_one_shot (E : env) (r : registry) :
  NoDup (all_tpiu_swo r) →
  (∀ p, p ∈ all_tpiu_swo r → is_Some (heap r !! p)) →
  let once := arm_tpiu_swo_cleanup_all E r in
  let twice := arm_tpiu_swo_cleanup_all E (snd once) in
  fst once = Val ERROR_OK
  ∧ all_tpiu_swo (snd once) = all_tpiu_swo r
  ∧ (∀ p, p ∈ all_tpiu_swo r → heap (snd once) !! p = None)
  ∧ (all_tpiu_swo r = [] → twice = once)
  ∧ (all_tpiu_swo r ≠ [] → fst twice = Stop Undefined).
Proof.
  intros Hnd Hlive once twice.
  destruct (cleanup_each_live E (all_tpiu_swo r) r Hnd Hlive)
    as (r' & Hrun & Hall & Hheap).
  assert (Honce : once = (Val ERROR_OK, r')).
  { subst once. unfold arm_tpiu_swo_cleanup_all, bind. now rewrite Hrun. }
  subst twice. rewrite Honce. cbn [fst snd].
  split; [reflexivity|]. split; [exact Hall|]. split; [|split].
  - intros p Hp. rewrite Hheap. now rewrite bool_decide_eq_true_2.
  - intros Hnil. unfold arm_tpiu_swo_cleanup_all. rewrite Hall, Hnil. reflexivity.
  - intros Hne. unfold arm_tpiu_swo_cleanup_all. rewrite Hall.
    destruct (all_tpiu_swo r) as [|p l]; [now elim Hne|].
    cbn [cleanup_each]. unfold bind, on_object.
    rewrite Hheap, bool_decide_eq_true_2 by left. reflexivity.
Qed.

Lemma C9_cleanup_is_one_shot_witness :
  let once := arm_tpiu_swo_cleanup_all env_ok one_instance in
  fst once = Val ERROR_OK
  ∧ fst (arm_tpiu_swo_cleanup_all env_ok (snd once)) = Stop Undefined.
Proof.
  assert (Hnd : NoDup (all_tpiu_swo one_instance)).
  { apply NoDup_cons. split; [apply not_elem_of_nil | apply NoDup_nil; exact I]. }
  assert (Hlive : ∀ p, p ∈ all_tpiu_swo one_instance
                       → is_Some (heap one_instance !! p)).
  { intros p Hp. apply elem_of_cons in Hp as [-> | Hp].
    - eexists. reflexivity.
    - now apply elem_of_nil in Hp. }
  destruct (C9_cleanup_is_one_shot env_ok one_instance Hnd Hlive)
    as (Hok & _ & _ & _ & Hundef).
  split; [exact Hok|]. apply Hundef. discriminate.
Defined.

(** C9 as stated fails for a registry with an instance: the second
    cleanup does not end in the state of the first, it is undefined. *)
Lemma C9_second_cleanup_reads_freed_instance :
  let once := arm_tpiu_swo_cleanup_all env_ok one_instance in
  let twice := arm_tpiu_swo_cleanup_all env_ok (snd once) in
  fst once = Val ERROR_OK
  ∧ heap (snd once) !! 1 = None
  ∧ all_tpiu_swo (snd once) = [1]
  ∧ fst twice = Stop Undefined
  ∧ twice ≠ once.
Proof.
  vm_compute. repeat split. discriminate.
Qed.

End TpiuProofs.

(** * Part VI: further properties of the semihosting dispatcher *)

Module SemihostingInvariants.
Import Semihosting SemihostingSpec SemihostingViews.

(** ** What the dispatcher leaves alone

    The handlers are built from a few primitives.  A view of the world
    that the primitives leave alone is left alone by every handler built
    from them; the lemmas below go through the handlers once, for any
    such view. *)

Section Preserves.

Context {V : Type} (view : world → V).

Lemma preserves_ret {A} (a : A) : preserves view (ret a).
Proof. intros w. reflexivity. Qed.

Lemma preserves_return {A} (r : Z) : preserves view (@return_ world A r).
Proof. intros w. reflexivity. Qed.

Lemma preserves_stop {A} (r : stop) : preserves view (@stop_ world A r).
Proof. intros w. reflexivity. Qed.

Lemma preserves_skip : preserves view (@skip world).
Proof. intros w. reflexivity. Qed.

Lemma preserves_bind {A B} (m : M A) (f : A → M B) :
  preserves view m → (∀ a, preserves view (f a)) → preserves view (bind m f).
Proof.
  intros Hm Hf w. unfold bind. specialize (Hm w).
  destruct (m w) as [[a | r | r] w1]; simpl in *; [|assumption..].
  rewrite <- Hm. apply Hf.
Qed.

Lemma preserves_get {A} (f : semihosting → A) : preserves view (get f).
Proof. intros w. reflexivity. Qed.

Lemma preserves_when (b : bool) (m : M unit) :
  preserves view m → preserves view (when_ b m).
Proof. intros Hm. destruct b; [exact Hm | apply preserves_skip]. Qed.

Lemma preserves_check (r : Z) : preserves view (@check world r).
Proof.
  unfold check. destruct (r =? ERROR_OK);
    [apply preserves_skip | apply preserves_return].
Qed.

Lemma preserves_get_field index fields : preserves view (get_field index fields).
Proof. intros w. reflexivity. Qed.

Lemma preserves_enough_fuel : preserves view enough_fuel.
Proof. intros w. reflexivity. Qed.

Lemma preserves_target_read_memory addr size count :
  preserves view (target_read_memory addr size count).
Proof.
  intros w. unfold target_read_memory. destruct (read_bytes _ _ _); reflexivity.
Qed.

Lemma preserves_read_fields number : preserves view (semihosting_read_fields number).
Proof.
  unfold semihosting_read_fields. apply preserves_bind; [apply preserves_get|].
  intros s. apply preserves_target_read_memory.
Qed.

(** The view is not concerned by the calls the dispatcher makes, by the
    request it publishes, nor by the fields it uses for its results. *)
Hypothesis view_event : ∀ e w, view (with_event e w) = view w.
Hypothesis view_fileio_info : ∀ i w, view (with_fileio_info i w) = view w.
Hypothesis view_result : ∀ v w, view (with_sh (set_result v) w) = view w.
Hypothesis view_sys_errno : ∀ v w, view (with_sh (set_sys_errno v) w) = view w.
Hypothesis view_hit_fileio : ∀ v w, view (with_sh (set_hit_fileio v) w) = view w.
Hypothesis view_is_resumable : ∀ v w, view (with_sh (set_is_resumable v) w) = view w.

Lemma preserves_emit (e : event) : preserves view (emit e).
Proof. intros w. apply view_event. Qed.

Lemma preserves_set_fileio_info id p1 p2 p3 p4 :
  preserves view (set_fileio_info id p1 p2 p3 p4).
Proof. intros w. apply view_fileio_info. Qed.

Lemma preserves_set_result v : preserves view (modify (set_result v)).
Proof. intros w. apply view_result. Qed.

Lemma preserves_set_sys_errno v : preserves view (modify (set_sys_errno v)).
Proof. intros w. apply view_sys_errno. Qed.

Lemma preserves_set_hit_fileio v : preserves view (modify (set_hit_fileio v)).
Proof. intros w. apply view_hit_fileio. Qed.

Lemma preserves_set_is_resumable v : preserves view (modify (set_is_resumable v)).
Proof. intros w. apply view_is_resumable. Qed.

End Preserves.

(** One step of the walk through a handler. *)
Ltac preserves_step :=
  match goal with
  | |- preserves _ (bind _ _) => apply preserves_bind; [| intros ?]
  | |- preserves _ (ret _) => apply preserves_ret
  | |- preserves _ (return_ _) => apply preserves_return
  | |- preserves _ (stop_ _) => apply preserves_stop
  | |- preserves _ skip => apply preserves_skip
  | |- preserves _ (get _) => apply preserves_get
  | |- preserves _ (when_ _ _) => apply preserves_when
  | |- preserves _ (check _) => apply preserves_check
  | |- preserves _ (get_field _ _) => apply preserves_get_field
  | |- preserves _ enough_fuel => apply preserves_enough_fuel
  | |- preserves _ (target_read_memory _ _ _) => apply preserves_target_read_memory
  | |- preserves _ (target_read_buffer _ _) => apply preserves_target_read_memory
  | |- preserves _ (semihosting_read_fields _) => apply preserves_read_fields
  | |- preserves _ (emit _) => apply preserves_emit; assumption
  | |- preserves _ (set_fileio_info _ _ _ _ _) =>
      apply preserves_set_fileio_info; assumption
  | |- preserves _ (modify (set_result _)) => apply preserves_set_result; assumption
  | |- preserves _ (modify (set_sys_errno _)) =>
      apply preserves_set_sys_errno; assumption
  | |- preserves _ (modify (set_hit_fileio _)) =>
      apply preserves_set_hit_fileio; assumption
  | |- preserves _ (modify (set_is_resumable _)) =>
      apply preserves_set_is_resumable; assumption
  | |- preserves _ (if ?b then _ else _) => destruct b
  | |- preserves _ (match ?x with _ => _ end) => destruct x
  | |- preserves _ (let '(_, _) := ?x in _) => destruct x
  | |- preserves _ (λ w, (Val _, w)) => intros ?; reflexivity
  | H : preserves ?v ?m |- preserves ?v ?m => exact H
  end.

Ltac preserves_auto := repeat (preserves_step; simpl).

Section Handlers.

Context {V : Type} (view : world → V).
Variable H : host.

Hypothesis view_event : ∀ e w, view (with_event e w) = view w.
Hypothesis view_fileio_info : ∀ i w, view (with_fileio_info i w) = view w.
Hypothesis view_result : ∀ v w, view (with_sh (set_result v) w) = view w.
Hypothesis view_sys_errno : ∀ v w, view (with_sh (set_sys_errno v) w) = view w.
Hypothesis view_hit_fileio : ∀ v w, view (with_sh (set_hit_fileio v) w) = view w.
Hypothesis view_is_resumable : ∀ v w, view (with_sh (set_is_resumable v) w) = view w.

Lemma preserves_redirect_write buf size :
  preserves view (semihosting_redirect_write H buf size).
Proof. unfold semihosting_redirect_write. preserves_auto. Qed.

Lemma preserves_redirect_read size :
  preserves view (semihosting_redirect_read H size).
Proof. unfold semihosting_redirect_read. preserves_auto. Qed.

Lemma preserves_write fd buf size : preserves view (semihosting_write H fd buf size).
Proof.
  unfold semihosting_write. preserves_auto. apply preserves_redirect_write.
Qed.

Lemma preserves_read fd size : preserves view (semihosting_read H fd size).
Proof.
  unfold semihosting_read. preserves_auto. apply preserves_redirect_read.
Qed.

Lemma preserves_putchar fd c : preserves view (semihosting_putchar H fd c).
Proof.
  unfold semihosting_putchar. preserves_auto. apply preserves_redirect_write.
Qed.

Lemma preserves_getchar fd : preserves view (semihosting_getchar H fd).
Proof.
  unfold semihosting_getchar. preserves_auto. apply preserves_redirect_read.
Qed.

Lemma preserves_exit_or_report code msg : preserves view (exit_or_report H code msg).
Proof. unfold exit_or_report. preserves_auto. Qed.

Lemma preserves_halt_unless_resumable : preserves view (halt_unless_resumable H).
Proof. unfold halt_unless_resumable. preserves_auto. Qed.

Lemma preserves_write0_count fuel addr count :
  preserves view (write0_count fuel addr count).
Proof.
  revert addr count. induction fuel as [|fuel IH]; intros addr count; simpl.
  - apply preserves_stop.
  - preserves_auto. apply IH.
Qed.

Lemma preserves_write0_print fuel addr : preserves view (write0_print H fuel addr).
Proof.
  revert addr. induction fuel as [|fuel IH]; intros addr; simpl.
  - apply preserves_stop.
  - preserves_auto; [apply preserves_putchar | apply IH].
Qed.

Lemma preserves_sys_clock : preserves view (sys_clock H).
Proof. unfold sys_clock. preserves_auto. Qed.

Lemma preserves_sys_close : preserves view (sys_close H).
Proof. unfold sys_close. preserves_auto. Qed.

Lemma preserves_sys_errno : preserves view sys_errno_.
Proof. unfold sys_errno_. preserves_auto. Qed.

Lemma preserves_sys_exit : preserves view (sys_exit H).
Proof.
  unfold sys_exit. preserves_auto;
    first [apply preserves_exit_or_report | apply preserves_halt_unless_resumable].
Qed.

Lemma preserves_sys_exit_extended : preserves view (sys_exit_extended H).
Proof.
  unfold sys_exit_extended. preserves_auto;
    first [apply preserves_exit_or_report | apply preserves_halt_unless_resumable].
Qed.

Lemma preserves_sys_flen : preserves view (sys_flen H).
Proof. unfold sys_flen. preserves_auto. Qed.

Lemma preserves_sys_iserror : preserves view sys_iserror.
Proof. unfold sys_iserror. preserves_auto. Qed.

Lemma preserves_sys_istty : preserves view (sys_istty H).
Proof. unfold sys_istty. preserves_auto. Qed.

Lemma preserves_sys_readc : preserves view (sys_readc H).
Proof. unfold sys_readc. preserves_auto. apply preserves_getchar. Qed.

Lemma preserves_sys_remove : preserves view (sys_remove H).
Proof. unfold sys_remove. preserves_auto. Qed.

Lemma preserves_sys_rename : preserves view (sys_rename H).
Proof. unfold sys_rename. preserves_auto. Qed.

Lemma preserves_sys_seek : preserves view (sys_seek H).
Proof. unfold sys_seek. preserves_auto. Qed.

Lemma preserves_sys_system : preserves view (sys_system H).
Proof. unfold sys_system. preserves_auto. Qed.

Lemma preserves_sys_time : preserves view (sys_time H).
Proof. unfold sys_time. preserves_auto. Qed.

Lemma preserves_sys_write : preserves view (sys_write H).
Proof. unfold sys_write. preserves_auto. apply preserves_write. Qed.

Lemma preserves_sys_writec : preserves view (sys_writec H).
Proof. unfold sys_writec. preserves_auto. apply preserves_putchar. Qed.

Lemma preserves_sys_write0 : preserves view (sys_write0 H).
Proof.
  unfold sys_write0. preserves_auto;
    first [apply preserves_write0_count | apply preserves_write0_print].
Qed.

Lemma preserves_sys_unsupported : preserves view sys_unsupported.
Proof. unfold sys_unsupported. preserves_auto. Qed.

(** [SYS_OPEN] may also replace one of the three console descriptors. *)
Lemma preserves_sys_open :
  (∀ v w, view (with_sh (set_stdin_fd v) w) = view w) →
  (∀ v w, view (with_sh (set_stdout_fd v) w) = view w) →
  (∀ v w, view (with_sh (set_stderr_fd v) w) = view w) →
  preserves view (sys_open H).
Proof.
  intros Hin Hout Herr. unfold sys_open, open_by_name. preserves_auto.
  all: intros w; first [apply Hin | apply Hout | apply Herr].
Qed.

(** The three operations that store data in the target's memory. *)
Section Memory.

Hypothesis view_mem : ∀ m w, view (with_mem m w) = view w.

Lemma preserves_target_write_memory addr size count buf :
  preserves view (target_write_memory addr size count buf).
Proof.
  intros w. unfold target_write_memory.
  destruct (write_bytes _ _ _); [apply view_mem | reflexivity].
Qed.

Lemma preserves_sys_read : preserves view (sys_read H).
Proof.
  unfold sys_read. preserves_auto;
    first [apply preserves_read | apply preserves_target_write_memory].
Qed.

Lemma preserves_sys_get_cmdline : preserves view sys_get_cmdline.
Proof.
  unfold sys_get_cmdline, semihosting_write_fields. preserves_auto;
    apply preserves_target_write_memory.
Qed.

Lemma preserves_sys_heapinfo : preserves view sys_heapinfo.
Proof. unfold sys_heapinfo. preserves_auto. apply preserves_target_write_memory. Qed.

End Memory.

(** The prologue and the epilogue of [semihosting_common]. *)
Lemma preserves_prologue : preserves view prologue.
Proof. unfold prologue. preserves_auto. Qed.

Lemma preserves_epilogue : preserves view (epilogue H).
Proof. unfold epilogue. preserves_auto. Qed.

(** The [switch]: every case at once.  The three cases that store into
    the target need a view that the target's memory does not concern,
    [SYS_OPEN] one that the console descriptors do not concern, and the
    user commands are left to the caller. *)
Lemma preserves_handler (opc : Z) :
  (opc = SEMIHOSTING_SYS_OPEN → preserves view (sys_open H)) →
  (writes_memory opc = true → ∀ m w, view (with_mem m w) = view w) →
  (is_user_cmd opc = true → preserves view (sys_user_cmd H)) →
  preserves view (handler H opc).
Proof.
  intros Hopen Hmem Huser. unfold handler, writes_memory, is_user_cmd in *.
  repeat match goal with
         | |- preserves _ (if ?b then _ else _) => destruct b eqn:?
         end;
    lazymatch goal with
    | |- preserves _ (sys_clock _) => apply preserves_sys_clock
    | |- preserves _ (sys_close _) => apply preserves_sys_close
    | |- preserves _ sys_errno_ => apply preserves_sys_errno
    | |- preserves _ (sys_exit _) => apply preserves_sys_exit
    | |- preserves _ (sys_exit_extended _) => apply preserves_sys_exit_extended
    | |- preserves _ (sys_flen _) => apply preserves_sys_flen
    | |- preserves _ sys_get_cmdline =>
        apply preserves_sys_get_cmdline, Hmem; now rewrite ?orb_true_r
    | |- preserves _ sys_heapinfo =>
        apply preserves_sys_heapinfo, Hmem; now rewrite ?orb_true_r
    | |- preserves _ sys_iserror => apply preserves_sys_iserror
    | |- preserves _ (sys_istty _) => apply preserves_sys_istty
    | |- preserves _ (sys_open _) => apply Hopen; apply Z.eqb_eq; assumption
    | |- preserves _ (sys_read _) =>
        apply preserves_sys_read, Hmem; now rewrite ?orb_true_r
    | |- preserves _ (sys_readc _) => apply preserves_sys_readc
    | |- preserves _ (sys_remove _) => apply preserves_sys_remove
    | |- preserves _ (sys_rename _) => apply preserves_sys_rename
    | |- preserves _ (sys_seek _) => apply preserves_sys_seek
    | |- preserves _ (sys_system _) => apply preserves_sys_system
    | |- preserves _ (sys_time _) => apply preserves_sys_time
    | |- preserves _ (sys_write _) => apply preserves_sys_write
    | |- preserves _ (sys_writec _) => apply preserves_sys_writec
    | |- preserves _ (sys_write0 _) => apply preserves_sys_write0
    | |- preserves _ (sys_user_cmd _) => apply Huser; reflexivity
    | |- preserves _ sys_unsupported => apply preserves_sys_unsupported
    end.
Qed.

End Handlers.

(** From the [switch] to the whole of [semihosting_common]. *)
Lemma dispatcher_preserves {V} (view : world → V) (H : host) (w : world) :
  view (after_prologue w) = view w →
  preserves view (handler H (op (sh w))) →
  preserves view (epilogue H) →
  view (snd (semihosting_common H w)) = view w.
Proof.
  intros Hpro Hh Hepi.
  rewrite SemihostingProofs.semihosting_common_unfold, <- Hpro.
  exact (preserves_bind view _ _ Hh (λ _, Hepi) (after_prologue w)).
Qed.

(** The parameter string of a user command exists only while the
    operation's event runs. *)
Lemma sys_user_cmd_user_op_params (H : host) :
  preserves semihosting_user_op_params (sys_user_cmd H).
Proof.
  intros w.
  unfold sys_user_cmd, semihosting_read_fields, target_read_buffer,
    target_read_memory, set_user_op_params, bind, get, get_field, modify, emit,
    check, ret, skip, return_, stop_.
  repeat (cbn -[read_bytes to_uint32 Z.mul Z.div Z.ltb to_size_t];
    match goal with
    | |- context [match ?x with _ => _ end] =>
        lazymatch x with
        | context [match _ with _ => _ end] => fail
        | _ => destruct x eqn:?
        end
    end);
    cbn in *; congruence.
Qed.

Ltac trivial_view := intros; reflexivity.

(** X1.  The dispatcher stores into the target's memory for [SYS_READ],
    [SYS_GET_CMDLINE] and [SYS_HEAPINFO] only: any other operation of
    the standard set leaves every byte of the target as it was, whatever
    the host answers and however the operation ends. *)
Theorem X1_memory_written_by_three_operations (H : host) (w : world) :
  writes_memory (op (sh w)) = false →
  is_user_cmd (op (sh w)) = false →
  mem (snd (semihosting_common H w)) = mem w.
Proof.
  intros Hmem Huser.
  assert (Hh : preserves mem (handler H (op (sh w)))).
  { apply preserves_handler; try trivial_view.
    - intros _. apply preserves_sys_open; trivial_view.
    - congruence.
    - congruence. }
  rewrite SemihostingProofs.semihosting_common_unfold.
  apply dispatcher_preserves;
    [reflexivity | exact Hh | apply preserves_epilogue; trivial_view].
Qed.

Lemma X1_memory_written_by_three_operations_witness :
  mem (snd (semihosting_common host_ok world_close_stdout))
  = mem world_close_stdout.
Proof.
  apply X1_memory_written_by_three_operations; reflexivity.
Defined.

(** X2.  The dispatcher of a standard operation changes nothing of what
    the commands configure and the stop hands over ([is_active],
    [redirect_cfg], [tcp_connection], [is_fileio], [has_resumable_exit],
    [word_size_bytes], [op], [param], [cmdline], [basedir], [setup_time],
    [user_command_extension]); and only [SYS_OPEN] can change one of the
    three console descriptors. *)
Theorem X2_configuration_is_not_changed (H : host) (w : world) :
  is_user_cmd (op (sh w)) = false →
  let final := sh (snd (semihosting_common H w)) in
  configuration final = configuration (sh w)
  ∧ (op (sh w) ≠ SEMIHOSTING_SYS_OPEN → streams final = streams (sh w)).
Proof.
  intros Huser final. subst final. split.
  - apply (dispatcher_preserves (λ w, configuration (sh w)));
      [reflexivity | | apply preserves_epilogue; trivial_view].
    apply preserves_handler; try trivial_view.
    + intros _. apply preserves_sys_open; trivial_view.
    + congruence.
  - intros Hop.
    apply (dispatcher_preserves (λ w, streams (sh w)));
      [reflexivity | | apply preserves_epilogue; trivial_view].
    apply preserves_handler; try trivial_view; congruence.
Qed.

Lemma X2_configuration_is_not_changed_witness :
  let final := sh (snd (semihosting_common host_ok world_read)) in
  configuration final = configuration (sh world_read)
  ∧ (op (sh world_read) ≠ SEMIHOSTING_SYS_OPEN
     → streams final = streams (sh world_read)).
Proof.
  apply (X2_configuration_is_not_changed host_ok world_read). reflexivity.
Defined.

(** X3.  [semihosting_user_op_params], the parameter string of a user
    command, is the same after any dispatch as before it: the string that
    a user command reads from the target is released before the
    dispatcher returns, on every path. *)
Theorem X3_user_op_params_do_not_outlive_dispatch (H : host) (w : world) :
  semihosting_user_op_params (snd (semihosting_common H w))
  = semihosting_user_op_params w.
Proof.
  apply dispatcher_preserves;
    [reflexivity | | apply preserves_epilogue; trivial_view].
  apply preserves_handler; try trivial_view.
  - intros _. apply preserves_sys_open; trivial_view.
  - intros _. apply sys_user_cmd_user_op_params.
Qed.

End SemihostingInvariants.

(** ** What single operations do *)

Module SemihostingOperations.
Import Semihosting SemihostingSpec SemihostingViews.

(** The dispatcher when the handler runs to its end. *)
Lemma dispatch_to_end (H : host) (w w1 : world) :
  handler H (op (sh w)) (after_prologue w) = (Val tt, w1) →
  semihosting_common H w = epilogue H w1.
Proof.
  intros Hh. rewrite SemihostingProofs.semihosting_common_unfold.
  unfold bind at 1. now rewrite Hh.
Qed.

(** The dispatcher when the handler leaves by a [return] of its own. *)
Lemma dispatch_returns (H : host) (w w1 : world) (r : Z) :
  handler H (op (sh w)) (after_prologue w) = (Return r, w1) →
  semihosting_common H w = (Return r, w1).
Proof.
  intros Hh. rewrite SemihostingProofs.semihosting_common_unfold.
  unfold bind at 1. now rewrite Hh.
Qed.

Lemma dispatch_stops (H : host) (w w1 : world) (r : stop) :
  handler H (op (sh w)) (after_prologue w) = (Stop r, w1) →
  semihosting_common H w = (Stop r, w1).
Proof.
  intros Hh. rewrite SemihostingProofs.semihosting_common_unfold.
  unfold bind at 1. now rewrite Hh.
Qed.

(** An operation without code of its own reaches [default:]. *)
Lemma handler_default (H : host) (opc : Z) :
  has_case opc = false → handler H opc = sys_unsupported.
Proof.
  intros Hcase. unfold has_case in Hcase.
  apply orb_false_iff in Hcase as [Hstd Huser].
  apply bool_decide_eq_false_1 in Hstd.
  unfold handler. unfold is_user_cmd in Huser. rewrite Huser.
  repeat match goal with
         | |- (if ?opc =? ?c then _ else _) = _ =>
             destruct (Z.eqb_spec opc c) as [-> | _];
             [exfalso; apply Hstd; apply (bool_decide_unpack _); vm_compute; exact I |]
         end.
  reflexivity.
Qed.

(** X4.  An operation that the [switch] leaves to [default:] --
    [SYS_ELAPSED], [SYS_TICKFREQ] and [SYS_TMPNAM], whose labels fall
    through to it, and every number without a label -- is answered with
    [result = -1] and [sys_errno = ENOTSUP]: the dispatcher prints one
    diagnostic, makes no other call before it posts the result, and
    returns what the epilogue returns. *)
Theorem X4_unsupported_operation (H : host) (w : world) :
  has_case (op (sh w)) = false →
  let out := semihosting_common H w in
  result (sh (snd out)) = -1
  ∧ sys_errno (sh (snd out)) = ENOTSUP
  ∧ trace (snd out)
    = post_result_event w
      ++ EvStderr "semihosting: unsupported call %#x" :: trace w
  ∧ mem (snd out) = mem w
  ∧ fileio_info (snd out) = fileio_info w
  ∧ hit_fileio (sh (snd out)) = hit_fileio (sh w).
Proof.
  intros Hcase out. subst out.
  rewrite (dispatch_to_end H w
             (with_sh (set_sys_errno ENOTSUP)
                (with_sh (set_result (-1))
                   (with_event (EvStderr "semihosting: unsupported call %#x")
                      (after_prologue w))))).
  - rewrite SemihostingProofs.epilogue_eq. cbn.
    unfold post_result_event.
    destruct (hit_fileio (sh w)) eqn:Hhit; cbn; rewrite ?Hhit; repeat split.
  - now rewrite handler_default.
Qed.

Lemma X4_unsupported_operation_witness :
  let w := world_of (state_of SEMIHOSTING_SYS_ELAPSED false
                       SEMIHOSTING_REDIRECT_CFG_NONE None) ∅ in
  let out := semihosting_common host_ok w in
  result (sh (snd out)) = -1
  ∧ sys_errno (sh (snd out)) = ENOTSUP
  ∧ trace (snd out)
    = [EvPostResult; EvStderr "semihosting: unsupported call %#x"]
  ∧ mem (snd out) = ∅
  ∧ fileio_info (snd out) = mk_fileio_info "" 0 0 0 0
  ∧ hit_fileio (sh (snd out)) = false.
Proof.
  apply (X4_unsupported_operation host_ok
           (world_of (state_of SEMIHOSTING_SYS_ELAPSED false
                        SEMIHOSTING_REDIRECT_CFG_NONE None) ∅)).
  reflexivity.
Defined.

(** ** Redirection of the console *)

(** X5.  [semihosting_is_redirected] says yes in exactly four cases: a
    [SYS_READC] on [stdin_fd] or a [SYS_WRITEC] or [SYS_WRITE0] on
    [stdout_fd] or [stderr_fd] when the configuration is [DEBUG] or
    [ALL]; a [SYS_READ] on [stdin_fd] or a [SYS_WRITE] on [stdout_fd] or
    [stderr_fd] when it is [STDIO] or [ALL].  No other operation and no
    other descriptor is ever redirected. *)
Theorem X5_is_redirected_cases (s : semihosting) (fd : Z) :
  semihosting_is_redirected s fd = true
  ↔ (debug_redirected s = true
     ∧ (op s = SEMIHOSTING_SYS_READC ∧ fd = stdin_fd s
        ∨ (op s = SEMIHOSTING_SYS_WRITEC ∨ op s = SEMIHOSTING_SYS_WRITE0)
          ∧ (fd = stdout_fd s ∨ fd = stderr_fd s)))
    ∨ (stdio_redirected s = true
       ∧ (op s = SEMIHOSTING_SYS_READ ∧ fd = stdin_fd s
          ∨ op s = SEMIHOSTING_SYS_WRITE
            ∧ (fd = stdout_fd s ∨ fd = stderr_fd s))).
Proof.
  unfold semihosting_is_redirected, debug_redirected, stdio_redirected.
  destruct (redirect_cfg s) eqn:Hcfg; cbn;
    repeat match goal with
           | |- context [op s =? ?c] =>
               let Hop := fresh "Hop" in
               destruct (Z.eqb_spec (op s) c) as [Hop | Hop];
               [rewrite Hop in * |]; cbn
           end;
    repeat case_bool_decide; try congruence; cbn;
    rewrite ?orb_true_iff, ?Z.eqb_eq;
    unfold SEMIHOSTING_SYS_READC, SEMIHOSTING_SYS_WRITEC, SEMIHOSTING_SYS_WRITE0,
      SEMIHOSTING_SYS_READ, SEMIHOSTING_SYS_WRITE in *;
    intuition (first [congruence | lia | discriminate]).
Qed.

(** The console operations use [stdin_fd] and [stdout_fd] themselves, so
    for them the configuration alone decides. *)
Lemma debug_output_redirected (s : semihosting) :
  op s = SEMIHOSTING_SYS_WRITEC ∨ op s = SEMIHOSTING_SYS_WRITE0 →
  semihosting_is_redirected s (stdout_fd s) = debug_redirected s.
Proof.
  intros Hop. unfold semihosting_is_redirected, debug_redirected.
  destruct Hop as [Hop | Hop]; rewrite Hop; destruct (redirect_cfg s); cbn;
    rewrite ?Z.eqb_refl; reflexivity.
Qed.

Lemma debug_input_redirected (s : semihosting) :
  op s = SEMIHOSTING_SYS_READC →
  semihosting_is_redirected s (stdin_fd s) = debug_redirected s.
Proof.
  intros Hop. unfold semihosting_is_redirected, debug_redirected.
  rewrite Hop. destruct (redirect_cfg s); cbn; rewrite ?Z.eqb_refl; reflexivity.
Qed.

Lemma putchar_eq (H : host) (fd c : Z) (w : world) :
  semihosting_putchar H fd c w
  = if semihosting_is_redirected (sh w) fd then
      match tcp_connection (sh w) with
      | None => (Val (-1), with_sh (set_sys_errno EBADF) w)
      | Some _ => (Val (connection_write H [c mod 256] 1),
                   with_event (EvConnectionWrite [c mod 256] 1) w)
      end
    else (Val (host_putchar H c), with_event (EvPutchar c) w).
Proof.
  unfold semihosting_putchar, semihosting_redirect_write, bind, get, emit,
    modify, ret.
  cbn. destruct (semihosting_is_redirected (sh w) fd); [|reflexivity].
  cbn. destruct (tcp_connection (sh w)); reflexivity.
Qed.

(** Where a character goes when the console is not redirected, or is
    redirected and a client is attached. *)
Lemma putchar_delivered (H : host) (c : Z) (w : world) :
  op (sh w) = SEMIHOSTING_SYS_WRITEC ∨ op (sh w) = SEMIHOSTING_SYS_WRITE0 →
  (debug_redirected (sh w) = true → is_Some (tcp_connection (sh w))) →
  ∃ r, semihosting_putchar H (stdout_fd (sh w)) c w
       = (Val r, with_event (char_event (debug_redirected (sh w)) c) w).
Proof.
  intros Hop Hclient. rewrite putchar_eq, (debug_output_redirected _ Hop).
  unfold char_event. destruct (debug_redirected (sh w)); [|eauto].
  destruct (Hclient eq_refl) as [conn ->]. eauto.
Qed.

(** Where it goes when the console is redirected and nobody listens. *)
Lemma putchar_lost (H : host) (c : Z) (w : world) :
  op (sh w) = SEMIHOSTING_SYS_WRITEC ∨ op (sh w) = SEMIHOSTING_SYS_WRITE0 →
  debug_redirected (sh w) = true → tcp_connection (sh w) = None →
  semihosting_putchar H (stdout_fd (sh w)) c w
  = (Val (-1), with_sh (set_sys_errno EBADF) w).
Proof.
  intros Hop Hred Hnone.
  now rewrite putchar_eq, (debug_output_redirected _ Hop), Hred, Hnone.
Qed.

(** X6.  [SYS_WRITEC] on the host sends the byte at [param] and reports
    success in every case: to the host's [putchar] when the debug
    console is not redirected, as one byte to the client when it is and
    a client is attached; when it is redirected and no client is
    attached the byte is dropped, [sys_errno] becomes [EBADF], and the
    result is still 0. *)
Theorem X6_writec_always_succeeds (H : host) (w : world) (c : Z) :
  op (sh w) = SEMIHOSTING_SYS_WRITEC →
  is_fileio (sh w) = false →
  mem w !! param (sh w) = Some c →
  let final := snd (semihosting_common H w) in
  result (sh final) = 0
  ∧ (debug_redirected (sh w) = false →
     trace final = post_result_event w ++ EvPutchar c :: trace w
     ∧ sys_errno (sh final) = sys_errno (sh w))
  ∧ (debug_redirected (sh w) = true → is_Some (tcp_connection (sh w)) →
     trace final
     = post_result_event w ++ EvConnectionWrite [c mod 256] 1 :: trace w
     ∧ sys_errno (sh final) = sys_errno (sh w))
  ∧ (debug_redirected (sh w) = true → tcp_connection (sh w) = None →
     trace final = post_result_event w ++ trace w
     ∧ sys_errno (sh final) = EBADF).
Proof.
  intros Hop Hfio Hc final.
  assert (Hh : ∃ r w1,
             semihosting_putchar H (stdout_fd (sh w)) c (after_prologue w)
             = (Val r, w1)
             ∧ handler H (op (sh w)) (after_prologue w)
               = (Val tt, with_sh (set_result 0) w1)).
  { rewrite Hop. change (handler H SEMIHOSTING_SYS_WRITEC) with (sys_writec H).
    unfold sys_writec. unfold bind at 1. unfold get at 1.
    cbn [after_prologue with_sh sh is_fileio set_is_resumable set_result fst snd].
    rewrite Hfio.
    unfold bind at 1. unfold get at 1.
    unfold bind at 1.
    rewrite SemihostingProofs.read_one_byte.
    cbn [after_prologue with_sh sh param set_is_resumable set_result mem].
    rewrite Hc.
    unfold bind at 1. unfold check at 1. cbn [fst snd Z.eqb ERROR_OK skip ret].
    unfold bind at 1. unfold get at 1.
    cbn [after_prologue with_sh sh stdout_fd set_is_resumable set_result
         default head].
    unfold bind at 1. change (id c) with c.
    destruct (semihosting_putchar H (stdout_fd (sh w)) c _) as [[r | r | r] w1]
      eqn:Hput.
    - exists r, w1. split; [reflexivity|]. reflexivity.
    - rewrite putchar_eq in Hput.
      repeat match type of Hput with
             | context [if ?b then _ else _] => destruct b
             | context [match ?x with _ => _ end] => destruct x
             end; discriminate.
    - rewrite putchar_eq in Hput.
      repeat match type of Hput with
             | context [if ?b then _ else _] => destruct b
             | context [match ?x with _ => _ end] => destruct x
             end; discriminate. }
  destruct Hh as (r & w1 & Hput & Hh).
  subst final. rewrite (dispatch_to_end H w _ Hh).
  rewrite SemihostingProofs.epilogue_sh, SemihostingProofs.epilogue_trace.
  assert (Hopp : op (sh (after_prologue w)) = SEMIHOSTING_SYS_WRITEC
                 ∨ op (sh (after_prologue w)) = SEMIHOSTING_SYS_WRITE0)
    by (left; exact Hop).
  split; [reflexivity|]. split; [|split].
  - intros Hred.
    destruct (putchar_delivered H c (after_prologue w) Hopp) as [r' Hput'].
    { intros Hr. change (debug_redirected (sh w) = true) in Hr. congruence. }
    change (debug_redirected (sh (after_prologue w)))
      with (debug_redirected (sh w)) in Hput'.
    rewrite Hred in Hput'.
    change (stdout_fd (sh (after_prologue w))) with (stdout_fd (sh w)) in Hput'.
    rewrite Hput in Hput'. injection Hput' as _ ->. split; reflexivity.
  - intros Hred Hclient.
    destruct (putchar_delivered H c (after_prologue w) Hopp) as [r' Hput'].
    { intros _. exact Hclient. }
    change (debug_redirected (sh (after_prologue w)))
      with (debug_redirected (sh w)) in Hput'.
    rewrite Hred in Hput'.
    change (stdout_fd (sh (after_prologue w))) with (stdout_fd (sh w)) in Hput'.
    rewrite Hput in Hput'. injection Hput' as _ ->. split; reflexivity.
  - intros Hred Hnone.
    pose proof (putchar_lost H c (after_prologue w) Hopp Hred Hnone) as Hput'.
    change (stdout_fd (sh (after_prologue w))) with (stdout_fd (sh w)) in Hput'.
    rewrite Hput in Hput'. injection Hput' as _ ->. split; reflexivity.
Qed.

Lemma X6_writec_always_succeeds_witness :
  let w := world_of (state_of SEMIHOSTING_SYS_WRITEC false
                       SEMIHOSTING_REDIRECT_CFG_ALL None)
             (bytes_at 0x1000 [65]) in
  let final := snd (semihosting_common host_ok w) in
  result (sh final) = 0
  ∧ trace final = [EvPostResult]
  ∧ sys_errno (sh final) = EBADF.
Proof.
  destruct (X6_writec_always_succeeds host_ok
              (world_of (state_of SEMIHOSTING_SYS_WRITEC false
                           SEMIHOSTING_REDIRECT_CFG_ALL None)
                 (bytes_at 0x1000 [65])) 65 eq_refl eq_refl eq_refl)
    as (Hres & _ & _ & Hlost).
  split; [exact Hres|]. apply Hlost; reflexivity.
Defined.

(** ** [SYS_WRITE0] *)

(** A string in memory occupies as many accessible bytes as it has
    characters, and one more. *)
Lemma string_at_size (m : gmap Z Z) (s : list Z) (addr : Z) :
  string_at m addr s → (length s < size (above m addr))%nat.
Proof.
  revert addr. induction s as [|c rest IH]; intros addr; simpl.
  - intros Hz. pose proof (SemihostingProofs.above_step _ _ _ Hz). lia.
  - intros (Hc & _ & Hrest). specialize (IH _ Hrest).
    pose proof (SemihostingProofs.above_step _ _ _ Hc). lia.
Qed.

Lemma with_events_snoc (l : list event) (e : event) (w : world) :
  with_events (l ++ [e]) w = with_events l (with_event e w).
Proof. unfold with_events. now rewrite foldr_app. Qed.

Lemma with_events_sh (l : list event) (w : world) : sh (with_events l w) = sh w.
Proof. induction l as [|e l IH]; [reflexivity | exact IH]. Qed.

Lemma with_events_mem (l : list event) (w : world) : mem (with_events l w) = mem w.
Proof. induction l as [|e l IH]; [reflexivity | exact IH]. Qed.

Lemma with_events_trace (l : list event) (w : world) :
  trace (with_events l w) = l ++ trace w.
Proof. induction l as [|e l IH]; [reflexivity | simpl; now rewrite IH]. Qed.

Lemma with_events_fileio_info (l : list event) (w : world) :
  fileio_info (with_events l w) = fileio_info w.
Proof. induction l as [|e l IH]; [reflexivity | exact IH]. Qed.

(** The printing loop on a string that is delivered ... *)
Lemma write0_print_delivered (H : host) (s : list Z) :
  ∀ (fuel : nat) (addr : Z) (w : world),
    op (sh w) = SEMIHOSTING_SYS_WRITEC ∨ op (sh w) = SEMIHOSTING_SYS_WRITE0 →
    (debug_redirected (sh w) = true → is_Some (tcp_connection (sh w))) →
    string_at (mem w) addr s →
    (length s < fuel)%nat →
    write0_print H fuel addr w
    = (Val tt, with_events (chars_events (debug_redirected (sh w)) s) w).
Proof.
  induction s as [|c rest IH]; intros fuel addr w Hop Hclient Hs Hfuel;
    (destruct fuel as [|fuel]; [simpl in Hfuel; lia|]); simpl in Hs.
  - simpl. unfold bind at 1. rewrite SemihostingProofs.read_one_byte, Hs.
    reflexivity.
  - destruct Hs as (Hc & Hnz & Hrest).
    simpl. unfold bind at 1. rewrite SemihostingProofs.read_one_byte, Hc.
    cbn -[write0_print semihosting_putchar].
    apply Z.eqb_neq in Hnz. rewrite Hnz.
    unfold bind at 1. unfold get at 1. cbn -[write0_print semihosting_putchar].
    unfold bind at 1.
    destruct (putchar_delivered H c w Hop Hclient) as [r ->].
    rewrite (IH fuel (addr + 1) (with_event _ w)); try assumption.
    + cbn [with_event sh]. unfold chars_events. cbn [map rev].
      f_equal. symmetry. apply with_events_snoc.
    + simpl in Hfuel. lia.
Qed.

(** ... and on one that is dropped for want of a client. *)
Lemma write0_print_lost (H : host) (s : list Z) :
  ∀ (fuel : nat) (addr : Z) (w : world),
    op (sh w) = SEMIHOSTING_SYS_WRITEC ∨ op (sh w) = SEMIHOSTING_SYS_WRITE0 →
    debug_redirected (sh w) = true → tcp_connection (sh w) = None →
    string_at (mem w) addr s →
    (length s < fuel)%nat →
    write0_print H fuel addr w
    = (Val tt, if s is [] then w else with_sh (set_sys_errno EBADF) w).
Proof.
  induction s as [|c rest IH]; intros fuel addr w Hop Hred Hnone Hs Hfuel;
    (destruct fuel as [|fuel]; [simpl in Hfuel; lia|]); simpl in Hs.
  - simpl. unfold bind at 1. rewrite SemihostingProofs.read_one_byte, Hs.
    reflexivity.
  - destruct Hs as (Hc & Hnz & Hrest).
    simpl. unfold bind at 1. rewrite SemihostingProofs.read_one_byte, Hc.
    cbn -[write0_print semihosting_putchar].
    apply Z.eqb_neq in Hnz. rewrite Hnz.
    unfold bind at 1. unfold get at 1. cbn -[write0_print semihosting_putchar].
    unfold bind at 1.
    rewrite (putchar_lost H c w Hop Hred Hnone).
    rewrite (IH fuel (addr + 1) (with_sh (set_sys_errno EBADF) w));
      try assumption.
    + destruct rest; reflexivity.
    + simpl in Hfuel. lia.
Qed.

(** The counting loop of the file-I/O mode. *)
Lemma write0_count_string (s : list Z) :
  ∀ (fuel : nat) (addr count : Z) (w : world),
    string_at (mem w) addr s →
    (length s < fuel)%nat →
    write0_count fuel addr count w = (Val (count + Z.of_nat (length s)), w).
Proof.
  induction s as [|c rest IH]; intros fuel addr count w Hs Hfuel;
    (destruct fuel as [|fuel]; [simpl in Hfuel; lia|]); simpl in Hs.
  - simpl. unfold bind at 1. rewrite SemihostingProofs.read_one_byte, Hs.
    cbn. now rewrite Z.add_0_r.
  - destruct Hs as (Hc & Hnz & Hrest).
    simpl length. cbn [write0_count].
    unfold bind at 1. rewrite SemihostingProofs.read_one_byte, Hc.
    cbn -[write0_count Z.of_nat].
    apply Z.eqb_neq in Hnz. rewrite Hnz.
    rewrite (IH fuel (addr + 1) (count + 1) w Hrest) by (simpl in Hfuel; lia).
    do 2 f_equal. lia.
Qed.

Lemma sys_write0_host (H : host) (w : world) :
  is_fileio (sh w) = false →
  sys_write0 H w
  = (write0_print H (S (size (mem w))) (param (sh w));;
     modify (set_result 0)) w.
Proof.
  intros Hfio. unfold sys_write0. unfold bind at 1. unfold get at 1.
  cbn [fst snd]. unfold bind at 1. unfold enough_fuel at 1. cbn [fst snd].
  rewrite Hfio. unfold bind at 1. unfold get at 1. reflexivity.
Qed.

Lemma string_fits (w : world) (addr : Z) (s : list Z) :
  string_at (mem w) addr s → (length s < S (size (mem w)))%nat.
Proof.
  intros Hs. apply string_at_size in Hs.
  pose proof (SemihostingProofs.above_size (mem w) addr). lia.
Qed.

(** X7.  [SYS_WRITE0] on the host sends the characters of the
    NUL-terminated string at [param], all of them and in their order, one
    call each: to the host's [putchar], or to the client when the debug
    console is redirected and a client is attached; the terminating zero
    is not sent, and the result is 0.  When the console is redirected and
    no client is attached nothing is sent, the result is still 0 and
    [sys_errno] is [EBADF] unless the string is empty. *)
Theorem X7_write0_sends_the_string (H : host) (w : world) (s : list Z) :
  op (sh w) = SEMIHOSTING_SYS_WRITE0 →
  is_fileio (sh w) = false →
  string_at (mem w) (param (sh w)) s →
  let final := snd (semihosting_common H w) in
  result (sh final) = 0
  ∧ ((debug_redirected (sh w) = true → is_Some (tcp_connection (sh w))) →
     trace final
     = post_result_event w ++ chars_events (debug_redirected (sh w)) s ++ trace w
     ∧ sys_errno (sh final) = sys_errno (sh w))
  ∧ (debug_redirected (sh w) = true → tcp_connection (sh w) = None →
     trace final = post_result_event w ++ trace w
     ∧ sys_errno (sh final) = if s is [] then sys_errno (sh w) else EBADF).
Proof.
  intros Hop Hfio Hs final.
  pose proof (string_fits (after_prologue w) _ _ Hs) as Hfuel.
  assert (Hopp : op (sh (after_prologue w)) = SEMIHOSTING_SYS_WRITEC
                 ∨ op (sh (after_prologue w)) = SEMIHOSTING_SYS_WRITE0)
    by (right; exact Hop).
  assert (Hrun : ∀ w1,
             write0_print H (S (size (mem w))) (param (sh w)) (after_prologue w)
             = (Val tt, w1) →
             snd (semihosting_common H w)
             = snd (epilogue H (with_sh (set_result 0) w1))).
  { intros w1 Hprint. f_equal. apply dispatch_to_end.
    rewrite Hop. change (handler H SEMIHOSTING_SYS_WRITE0) with (sys_write0 H).
    rewrite sys_write0_host by exact Hfio.
    unfold bind.
    change (mem (after_prologue w)) with (mem w).
    change (param (sh (after_prologue w))) with (param (sh w)).
    now rewrite Hprint. }
  subst final.
  destruct (debug_redirected (sh w)) eqn:Hred;
    [destruct (tcp_connection (sh w)) as [conn|] eqn:Hconn|].
  - (* redirected, a client attached *)
    rewrite (Hrun _ (write0_print_delivered H s _ _ (after_prologue w) Hopp
                       (λ _, ex_intro _ conn Hconn) Hs Hfuel)).
    rewrite SemihostingProofs.epilogue_sh, SemihostingProofs.epilogue_trace.
    cbn [with_sh sh trace]. rewrite with_events_sh, with_events_trace.
    split; [reflexivity|]. split; [|intros _ [=]].
    intros _.
    change (debug_redirected (sh (after_prologue w)))
      with (debug_redirected (sh w)).
    rewrite Hred. unfold post_result_event. cbn. rewrite with_events_sh.
    split; reflexivity.
  - (* redirected, no client *)
    rewrite (Hrun _ (write0_print_lost H s _ _ (after_prologue w) Hopp
                       Hred Hconn Hs Hfuel)).
    rewrite SemihostingProofs.epilogue_sh, SemihostingProofs.epilogue_trace.
    split; [destruct s; reflexivity|]. split.
    + intros Hc. destruct (Hc eq_refl) as [? [=]].
    + intros _ _. destruct s; split; reflexivity.
  - (* not redirected *)
    assert (Hnever : debug_redirected (sh (after_prologue w)) = true
                     → is_Some (tcp_connection (sh (after_prologue w)))).
    { intros Hr. change (debug_redirected (sh w) = true) in Hr. congruence. }
    rewrite (Hrun _ (write0_print_delivered H s _ _ (after_prologue w) Hopp
                       Hnever Hs Hfuel)).
    rewrite SemihostingProofs.epilogue_sh, SemihostingProofs.epilogue_trace.
    cbn [with_sh sh trace]. rewrite with_events_sh, with_events_trace.
    split; [reflexivity|]. split; [|intros [=]].
    intros _.
    change (debug_redirected (sh (after_prologue w)))
      with (debug_redirected (sh w)).
    rewrite Hred. unfold post_result_event. cbn. rewrite with_events_sh.
    split; reflexivity.
Qed.

Lemma X7_write0_sends_the_string_witness :
  let w := world_of (state_of SEMIHOSTING_SYS_WRITE0 false
                       SEMIHOSTING_REDIRECT_CFG_NONE None)
             (bytes_at 0x1000 [72; 105; 0]) in
  let final := snd (semihosting_common host_ok w) in
  result (sh final) = 0
  ∧ trace final = [EvPostResult; EvPutchar 105; EvPutchar 72].
Proof.
  destruct (X7_write0_sends_the_string host_ok
              (world_of (state_of SEMIHOSTING_SYS_WRITE0 false
                           SEMIHOSTING_REDIRECT_CFG_NONE None)
                 (bytes_at 0x1000 [72; 105; 0])) [72; 105] eq_refl eq_refl)
    as (Hres & Hsent & _).
  - repeat split; discriminate.
  - split; [exact Hres|]. apply Hsent. discriminate.
Defined.

(** X8.  [SYS_WRITE0] in file-I/O mode sends nothing itself: it measures
    the string and publishes a ["write"] request for descriptor 1 with
    the address of the string and its length without the terminating
    zero; [post_result] is not called and [result] is still the -1 of the
    prologue when the dispatcher returns [ERROR_OK]. *)
Theorem X8_write0_fileio_request (H : host) (w : world) (s : list Z) :
  op (sh w) = SEMIHOSTING_SYS_WRITE0 →
  is_fileio (sh w) = true →
  string_at (mem w) (param (sh w)) s →
  let out := semihosting_common H w in
  fst out = Val ERROR_OK
  ∧ hit_fileio (sh (snd out)) = true
  ∧ fileio_info (snd out)
    = mk_fileio_info "write" 1 (param (sh w)) (Z.of_nat (length s))
        (param_4 (fileio_info w))
  ∧ trace (snd out) = trace w
  ∧ result (sh (snd out)) = -1.
Proof.
  intros Hop Hfio Hs out.
  pose proof (string_fits (after_prologue w) _ _ Hs) as Hfuel.
  pose proof (write0_count_string s _ _ 0 (after_prologue w) Hs Hfuel) as Hcount.
  assert (Hh : handler H (op (sh w)) (after_prologue w)
               = (Val tt,
                  with_fileio_info
                    (mk_fileio_info "write" 1 (param (sh w))
                       (Z.of_nat (length s)) (param_4 (fileio_info w)))
                    (with_sh (set_hit_fileio true) (after_prologue w)))).
  { rewrite Hop. change (handler H SEMIHOSTING_SYS_WRITE0) with (sys_write0 H).
    unfold sys_write0. unfold bind at 1. unfold get at 1.
    cbn [fst snd]. unfold bind at 1. unfold enough_fuel at 1. cbn [fst snd].
    change (is_fileio (sh (after_prologue w))) with (is_fileio (sh w)).
    rewrite Hfio. unfold bind at 1. unfold get at 1. cbn [fst snd].
    unfold bind at 1.
    change (param (sh (after_prologue w))) with (param (sh w)) in *.
    rewrite Hcount. reflexivity. }
  subst out. rewrite (dispatch_to_end H w _ Hh).
  rewrite SemihostingProofs.epilogue_eq. cbn. repeat split.
Qed.

Lemma X8_write0_fileio_request_witness :
  let w := world_of (state_of SEMIHOSTING_SYS_WRITE0 true
                       SEMIHOSTING_REDIRECT_CFG_NONE None)
             (bytes_at 0x1000 [72; 105; 0]) in
  let out := semihosting_common host_ok w in
  fst out = Val ERROR_OK
  ∧ hit_fileio (sh (snd out)) = true
  ∧ fileio_info (snd out) = mk_fileio_info "write" 1 0x1000 2 0
  ∧ trace (snd out) = []
  ∧ result (sh (snd out)) = -1.
Proof.
  apply (X8_write0_fileio_request host_ok
           (world_of (state_of SEMIHOSTING_SYS_WRITE0 true
                        SEMIHOSTING_REDIRECT_CFG_NONE None)
              (bytes_at 0x1000 [72; 105; 0])) [72; 105] eq_refl eq_refl).
  repeat split; discriminate.
Defined.

(** ** [SYS_READC] *)

(** X9.  [SYS_READC] on the host reads [stdin_fd]: with the debug console
    not redirected the result is what the host's [getchar] returns; with
    it redirected and a client attached one byte is asked of the client,
    and the result is that byte, or [EOF] when the client gave none;
    with it redirected and no client attached the result is [EOF] and
    [sys_errno] is [EBADF]. *)
Theorem X9_readc_source (H : host) (w : world) :
  op (sh w) = SEMIHOSTING_SYS_READC →
  is_fileio (sh w) = false →
  let final := snd (semihosting_common H w) in
  (debug_redirected (sh w) = false →
   result (sh final) = host_getchar H
   ∧ trace final = post_result_event w ++ EvGetchar :: trace w)
  ∧ (debug_redirected (sh w) = true → is_Some (tcp_connection (sh w)) →
     result (sh final)
     = (let '(r, data) := connection_read H 1 in
        if 0 <? r then default 0 (head data) mod 256 else EOF)
     ∧ trace final = post_result_event w ++ EvConnectionRead 1 :: trace w)
  ∧ (debug_redirected (sh w) = true → tcp_connection (sh w) = None →
     result (sh final) = EOF
     ∧ sys_errno (sh final) = EBADF
     ∧ trace final = post_result_event w ++ trace w).
Proof.
  intros Hop Hfio final.
  pose proof (debug_input_redirected (sh (after_prologue w)) Hop) as Hred.
  change (debug_redirected (sh (after_prologue w)))
    with (debug_redirected (sh w)) in Hred.
  change (stdin_fd (sh (after_prologue w))) with (stdin_fd (sh w)) in Hred.
  assert (Hh : ∃ w1, handler H (op (sh w)) (after_prologue w) = (Val tt, w1)
             ∧ (debug_redirected (sh w) = false →
                w1 = with_sh (set_result (host_getchar H))
                       (with_event EvGetchar (after_prologue w)))
             ∧ (debug_redirected (sh w) = true → is_Some (tcp_connection (sh w)) →
                w1 = with_sh (set_result
                                (let '(r, data) := connection_read H 1 in
                                 if 0 <? r then default 0 (head data) mod 256
                                 else EOF))
                       (with_event (EvConnectionRead 1) (after_prologue w)))
             ∧ (debug_redirected (sh w) = true → tcp_connection (sh w) = None →
                w1 = with_sh (set_result EOF)
                       (with_sh (set_sys_errno EBADF) (after_prologue w)))).
  { rewrite Hop. change (handler H SEMIHOSTING_SYS_READC) with (sys_readc H).
    unfold sys_readc, semihosting_getchar, semihosting_redirect_read, bind, get,
      emit, modify, ret.
    cbn -[semihosting_is_redirected Z.ltb Z.modulo].
    rewrite Hfio. cbn -[semihosting_is_redirected Z.ltb Z.modulo].
    change (semihosting_is_redirected _ (stdin_fd (sh w)))
      with (semihosting_is_redirected (sh (after_prologue w)) (stdin_fd (sh w))).
    rewrite Hred.
    destruct (debug_redirected (sh w)); cbn -[Z.ltb Z.modulo].
    - destruct (tcp_connection (sh w)) as [conn|]; cbn -[Z.ltb Z.modulo].
      + destruct (connection_read H 1) as [r data]; cbn -[Z.ltb Z.modulo].
        destruct (0 <? r); cbn -[Z.ltb Z.modulo];
          eexists; (split; [reflexivity|]);
          (split; [intros [=]|]); (split; [reflexivity | intros _ [=]]).
      + eexists; (split; [reflexivity|]);
          (split; [intros [=]|]); (split; [intros _ [? [=]] | reflexivity]).
    - eexists; (split; [reflexivity|]).
      split; [reflexivity|]. split; intros [=]. }
  destruct Hh as (w1 & Hh & Hhost & Hclient & Hnone).
  subst final. rewrite (dispatch_to_end H w _ Hh).
  rewrite SemihostingProofs.epilogue_sh, SemihostingProofs.epilogue_trace.
  split; [|split].
  - intros Hr. rewrite (Hhost Hr). split; reflexivity.
  - intros Hr Hc. rewrite (Hclient Hr Hc). split; reflexivity.
  - intros Hr Hc. rewrite (Hnone Hr Hc). repeat split.
Qed.

Lemma X9_readc_source_witness :
  let w := world_of (state_of SEMIHOSTING_SYS_READC false
                       SEMIHOSTING_REDIRECT_CFG_STDIO None) ∅ in
  let final := snd (semihosting_common host_ok w) in
  result (sh final) = 65 ∧ trace final = [EvPostResult; EvGetchar].
Proof.
  destruct (X9_readc_source host_ok
              (world_of (state_of SEMIHOSTING_SYS_READC false
                           SEMIHOSTING_REDIRECT_CFG_STDIO None) ∅)
              eq_refl eq_refl) as (Hhost & _).
  apply Hhost. reflexivity.
Defined.
End SemihostingOperations.

(** ** Exit, open, seek and the completion of a file-I/O request *)

Module SemihostingResults.
Import Semihosting SemihostingSpec SemihostingViews SemihostingOperations.

(** Symbolic execution of a handler: the first test that is not decided
    is split on, what is known about it is used. *)
Ltac step_handler :=
  repeat (cbn -[to_int to_int64 to_uint32 to_uint64 to_size_t Z.mul Z.div
                Z.ltb Z.leb Z.eqb Z.quot read_bytes write_bytes
                semihosting_get_field semihosting_set_field
                semihosting_is_redirected];
    match goal with
    | H : ?x = _ |- context [match ?x with _ => _ end] => rewrite H
    | H : ?x = _ |- context [if ?x then _ else _] => rewrite H
    | |- context [match ?x with _ => _ end] =>
        lazymatch x with
        | context [match _ with _ => _ end] => fail
        | context [if _ then _ else _] => fail
        | _ => destruct x eqn:?
        end
    end).

Ltac unfold_monad :=
  unfold semihosting_read_fields, semihosting_write_fields, target_read_buffer,
    target_write_buffer, target_read_memory, target_write_memory,
    exit_or_report, halt_unless_resumable, set_fileio_info, set_user_op_params,
    bind, get, get_field, modify, emit, check, when_, ret, skip, return_, stop_.

Lemma sys_exit_32 (H : host) (w : world) :
  word_size_bytes (sh w) ≠ 8 →
  sys_exit H w
  = (exit_or_report H
       (if param (sh w) =? ADP_STOPPED_APPLICATION_EXIT then 0 else 1)
       (if param (sh w) =? ADP_STOPPED_APPLICATION_EXIT
        then "semihosting: *** application exited normally ***"
        else if param (sh w) =? ADP_STOPPED_RUN_TIME_ERROR
        then "semihosting: *** application exited with error ***"
        else "semihosting: application exception %#x");;
     halt_unless_resumable H) w.
Proof.
  intros Hws. apply Z.eqb_neq in Hws.
  unfold sys_exit. unfold bind at 1. unfold get at 1. cbn [fst snd].
  rewrite Hws. unfold bind at 1. unfold bind at 1. unfold get at 1.
  cbn [fst snd]. unfold bind at 1.
  destruct (param (sh w) =? ADP_STOPPED_APPLICATION_EXIT);
    [|destruct (param (sh w) =? ADP_STOPPED_RUN_TIME_ERROR)]; reflexivity.
Qed.

Lemma sys_exit_64 (H : host) (w : world) (fields : list Z) :
  word_size_bytes (sh w) = 8 →
  fields_at w 2 = Some fields →
  sys_exit H w
  = ((if to_int (semihosting_get_field w 0 fields) =? ADP_STOPPED_APPLICATION_EXIT
      then exit_or_report H (to_int (semihosting_get_field w 1 fields))
             "semihosting: *** application exited with %d ***"
      else emit (EvStderr "semihosting: application exception %#x"));;
     halt_unless_resumable H) w.
Proof.
  intros Hws Hfields.
  unfold sys_exit. unfold bind at 1. unfold get at 1. cbn [fst snd].
  rewrite Hws. cbn [Z.eqb Pos.eqb].
  unfold bind at 1. unfold bind at 1.
  rewrite SemihostingProofs.read_fields_eq, Hfields.
  unfold bind at 3. reflexivity.
Qed.

Lemma exit_or_report_exits (H : host) (code : Z) (msg : string) (w : world) :
  gdb_get_actual_connections H = 0 →
  exit_or_report H code msg w = (Stop (ProcessExit code), w).
Proof. intros Hconn. unfold exit_or_report. now rewrite Hconn. Qed.

Lemma halt_unless_resumable_cases (H : host) (w : world) :
  halt_unless_resumable H w
  = if has_resumable_exit (sh w) then (Val tt, w)
    else (Return (target_call_event_callbacks H TARGET_EVENT_HALTED),
          with_event (EvTargetCallEventCallbacks TARGET_EVENT_HALTED)
            (with_sh (set_is_resumable false) w)).
Proof.
  unfold halt_unless_resumable, bind, get, modify, emit, return_, skip, ret.
  cbn. destruct (has_resumable_exit (sh w)); reflexivity.
Qed.

(** X10.  [SYS_EXIT] with no debugger attached ends the process, except
    for one case.  A 32-bit target exits with status 0 when [param] is
    [ADP_Stopped_ApplicationExit] and with status 1 for any other reason.
    A 64-bit target that reports [ADP_Stopped_ApplicationExit] exits with
    the status in the second field of its parameter block; a 64-bit
    target that reports any other reason does not end the process. *)
Theorem X10_exit_status_without_debugger (H : host) (w : world) :
  op (sh w) = SEMIHOSTING_SYS_EXIT →
  gdb_get_actual_connections H = 0 →
  let out := semihosting_common H w in
  (word_size_bytes (sh w) ≠ 8 →
   fst out = Stop (ProcessExit
                     (if param (sh w) =? ADP_STOPPED_APPLICATION_EXIT
                      then 0 else 1))
   ∧ trace (snd out) = trace w)
  ∧ (word_size_bytes (sh w) = 8 →
     ∀ type code,
       field w 2 0 = Some type → field w 2 1 = Some code →
       (to_int type = ADP_STOPPED_APPLICATION_EXIT →
        fst out = Stop (ProcessExit (to_int code))
        ∧ trace (snd out) = trace w)
       ∧ (to_int type ≠ ADP_STOPPED_APPLICATION_EXIT →
          ∀ status, fst out ≠ Stop (ProcessExit status))).
Proof.
  intros Hop Hconn out. split.
  - intros Hws.
    assert (Hrun : out
              = (Stop (ProcessExit
                         (if param (sh w) =? ADP_STOPPED_APPLICATION_EXIT
                          then 0 else 1)), after_prologue w)).
    { apply dispatch_stops. rewrite Hop.
      change (handler H SEMIHOSTING_SYS_EXIT) with (sys_exit H).
      rewrite sys_exit_32 by exact Hws. unfold bind.
      now rewrite exit_or_report_exits. }
    rewrite Hrun. split; reflexivity.
  - intros Hws type code H0 H1.
    unfold field in H0, H1.
    destruct (fields_at w 2) as [fields|] eqn:Hfields; [|discriminate].
    injection H0 as H0. injection H1 as H1.
    assert (Hh : handler H (op (sh w)) (after_prologue w)
              = ((if to_int type =? ADP_STOPPED_APPLICATION_EXIT
                  then exit_or_report H (to_int code)
                         "semihosting: *** application exited with %d ***"
                  else emit (EvStderr "semihosting: application exception %#x"));;
                 halt_unless_resumable H) (after_prologue w)).
    { rewrite Hop. change (handler H SEMIHOSTING_SYS_EXIT) with (sys_exit H).
      rewrite (sys_exit_64 H (after_prologue w) fields Hws Hfields).
      change (semihosting_get_field (after_prologue w))
        with (semihosting_get_field w).
      now rewrite H0, H1. }
    split.
    + intros Happ. rewrite Happ, Z.eqb_refl in Hh.
      unfold bind in Hh. rewrite exit_or_report_exits in Hh by exact Hconn.
      subst out. rewrite (dispatch_stops H w _ _ Hh). split; reflexivity.
    + intros Happ status. apply Z.eqb_neq in Happ. rewrite Happ in Hh.
      unfold bind in Hh. unfold emit at 1 in Hh.
      rewrite halt_unless_resumable_cases in Hh.
      cbn [with_event sh has_resumable_exit after_prologue with_sh
           set_is_resumable set_result] in Hh.
      subst out. destruct (has_resumable_exit (sh w)).
      * rewrite (dispatch_to_end H w _ Hh), SemihostingProofs.epilogue_eq.
        cbn. destruct (hit_fileio (sh w)); [discriminate|].
        destruct (post_result H =? ERROR_OK); discriminate.
      * rewrite (dispatch_returns H w _ _ Hh). discriminate.
Qed.

Lemma X10_exit_status_without_debugger_witness :
  fst (semihosting_common host_detached world_exit) = Stop (ProcessExit 0).
Proof.
  destruct (X10_exit_status_without_debugger host_detached world_exit
              eq_refl eq_refl) as (H32 & _).
  apply H32. discriminate.
Defined.

Lemma exit_or_report_reports (H : host) (code : Z) (msg : string) (w : world) :
  gdb_get_actual_connections H ≠ 0 →
  exit_or_report H code msg w = (Val tt, with_event (EvStderr msg) w).
Proof.
  intros Hconn. apply Z.eqb_neq in Hconn. unfold exit_or_report.
  now rewrite Hconn.
Qed.

(** X11.  [SYS_EXIT] with a debugger attached never ends the process: it
    prints one diagnostic.  Unless the resumable exit was configured the
    target is then declared not resumable, the halt is reported through
    the target's event callbacks, whose value the dispatcher returns, and
    no result is posted; with the resumable exit the operation ends like
    any other, with the [result = -1] of the prologue posted. *)
Theorem X11_exit_with_debugger (H : host) (w : world) :
  op (sh w) = SEMIHOSTING_SYS_EXIT →
  gdb_get_actual_connections H ≠ 0 →
  (word_size_bytes (sh w) = 8 → is_Some (fields_at w 2)) →
  let out := semihosting_common H w in
  let final := snd out in
  ∃ msg,
    result (sh final) = -1
    ∧ if has_resumable_exit (sh w)
      then is_resumable (sh final) = true
           ∧ trace final = post_result_event w ++ EvStderr msg :: trace w
      else is_resumable (sh final) = false
           ∧ fst out = Return (target_call_event_callbacks H TARGET_EVENT_HALTED)
           ∧ trace final
             = EvTargetCallEventCallbacks TARGET_EVENT_HALTED
               :: EvStderr msg :: trace w.
Proof.
  intros Hop Hconn Hfields out final.
  assert (Hh : ∃ msg, handler H (op (sh w)) (after_prologue w)
                      = halt_unless_resumable H
                          (with_event (EvStderr msg) (after_prologue w))).
  { rewrite Hop. change (handler H SEMIHOSTING_SYS_EXIT) with (sys_exit H).
    destruct (Z.eq_dec (word_size_bytes (sh w)) 8) as [Hws | Hws].
    - destruct (Hfields Hws) as [fields Hf].
      rewrite (sys_exit_64 H (after_prologue w) fields Hws Hf).
      unfold bind.
      destruct (to_int _ =? ADP_STOPPED_APPLICATION_EXIT).
      + rewrite exit_or_report_reports by exact Hconn. eauto.
      + unfold emit at 1. eauto.
    - rewrite sys_exit_32 by exact Hws. unfold bind.
      rewrite exit_or_report_reports by exact Hconn. eauto. }
  destruct Hh as [msg Hh]. exists msg.
  rewrite halt_unless_resumable_cases in Hh.
  cbn [with_event sh has_resumable_exit after_prologue with_sh
       set_is_resumable set_result] in Hh.
  subst final out. destruct (has_resumable_exit (sh w)).
  - rewrite (dispatch_to_end H w _ Hh).
    rewrite SemihostingProofs.epilogue_sh, SemihostingProofs.epilogue_trace.
    repeat split.
  - rewrite (dispatch_returns H w _ _ Hh). repeat split.
Qed.

Lemma X11_exit_with_debugger_witness :
  let out := semihosting_common host_ok world_exit in
  ∃ msg,
    result (sh (snd out)) = -1
    ∧ is_resumable (sh (snd out)) = false
    ∧ fst out = Return 0
    ∧ trace (snd out)
      = [EvTargetCallEventCallbacks TARGET_EVENT_HALTED; EvStderr msg].
Proof.
  destruct (X11_exit_with_debugger host_ok world_exit eq_refl) as [msg Hexit].
  - discriminate.
  - intros Hws. discriminate Hws.
  - exists msg. exact Hexit.
Defined.

(** ** [SYS_OPEN] with a mode out of range *)

(** X12.  [SYS_OPEN] with a mode above 11 is refused before anything else
    is done: the name is not read from the target, nothing is opened or
    duplicated and no request is published, on the host and in file-I/O
    mode alike; [result] is -1 and [sys_errno] is [EINVAL]. *)
Theorem X12_open_rejects_mode_above_11 (H : host) (w : world)
    (addr modev len : Z) :
  op (sh w) = SEMIHOSTING_SYS_OPEN →
  field w 3 0 = Some addr → field w 3 1 = Some modev → field w 3 2 = Some len →
  11 < to_uint32 modev →
  let final := snd (semihosting_common H w) in
  result (sh final) = -1
  ∧ sys_errno (sh final) = EINVAL
  ∧ trace final = post_result_event w ++ trace w
  ∧ hit_fileio (sh final) = hit_fileio (sh w)
  ∧ fileio_info final = fileio_info w
  ∧ streams (sh final) = streams (sh w).
Proof.
  intros Hop H0 H1 H2 Hmode final.
  destruct (SemihostingProofs.three_fields w _ _ _ H0 H1 H2)
    as (fields & Hfs & <- & <- & <-).
  assert (Hh : handler H (op (sh w)) (after_prologue w)
               = (Val tt, with_sh (set_sys_errno EINVAL)
                            (with_sh (set_result (-1)) (after_prologue w)))).
  { rewrite Hop. change (handler H SEMIHOSTING_SYS_OPEN) with (sys_open H).
    unfold sys_open. unfold bind at 1.
    rewrite SemihostingProofs.read_fields_eq.
    change (fields_at (after_prologue w) 3) with (fields_at w 3). rewrite Hfs.
    unfold bind, check, get_field, get, modify.
    cbn -[to_uint32 semihosting_get_field Z.ltb].
    change (semihosting_get_field _ 1 fields)
      with (semihosting_get_field w 1 fields).
    apply Z.ltb_lt in Hmode. rewrite Hmode. reflexivity. }
  subst final. rewrite (dispatch_to_end H w _ Hh).
  rewrite SemihostingProofs.epilogue_sh, SemihostingProofs.epilogue_trace,
    SemihostingProofs.epilogue_fileio_info.
  repeat split.
Qed.

Lemma X12_open_rejects_mode_above_11_witness :
  let w := world_of (state_of SEMIHOSTING_SYS_OPEN false
                       SEMIHOSTING_REDIRECT_CFG_NONE None)
             (bytes_at 0x1000 (words [0x2000; 12; 3])) in
  let final := snd (semihosting_common host_ok w) in
  result (sh final) = -1
  ∧ sys_errno (sh final) = EINVAL
  ∧ trace final = [EvPostResult].
Proof.
  destruct (X12_open_rejects_mode_above_11 host_ok
              (world_of (state_of SEMIHOSTING_SYS_OPEN false
                           SEMIHOSTING_REDIRECT_CFG_NONE None)
                 (bytes_at 0x1000 (words [0x2000; 12; 3])))
              0x2000 12 3 eq_refl eq_refl eq_refl eq_refl)
    as (Hres & Herr & Htrace & _).
  - reflexivity.
  - auto.
Defined.

(** ** [SYS_SEEK] *)

Lemma two_fields (w : world) (a b : Z) :
  field w 2 0 = Some a → field w 2 1 = Some b →
  ∃ fields, fields_at w 2 = Some fields
            ∧ semihosting_get_field w 0 fields = a
            ∧ semihosting_get_field w 1 fields = b.
Proof.
  unfold field. destruct (fields_at w 2) as [fields|]; [|discriminate].
  intros [= <-] [= <-]. eauto.
Qed.

(** X13.  What [SYS_SEEK] reports.  On the host it calls [lseek] with
    the position taken as a signed 64-bit offset, and the result is 0
    exactly when [lseek] returns the requested position, otherwise what
    [lseek] returned; [sys_errno] is taken from the host when [lseek]
    returned -1.  In file-I/O mode the request ["lseek"] is published
    with [SEEK_SET], and at its completion any position above zero is
    reported as 0, without comparing it with the requested one. *)
Theorem X13_seek_result (H : host) (w : world) (fdv posv : Z) :
  op (sh w) = SEMIHOSTING_SYS_SEEK →
  field w 2 0 = Some fdv → field w 2 1 = Some posv →
  let fd := to_int fdv in
  let pos := to_int64 posv in
  let final := snd (semihosting_common H w) in
  (is_fileio (sh w) = false →
   let '(r, e) := host_lseek H fd pos in
   trace final = post_result_event w ++ EvLseek fd pos :: trace w
   ∧ result (sh final) = (if r =? pos then 0 else r)
   ∧ sys_errno (sh final) = (if r =? -1 then e else sys_errno (sh w)))
  ∧ (is_fileio (sh w) = true →
     hit_fileio (sh final) = true
     ∧ fileio_info final
       = mk_fileio_info "lseek" (to_uint64 fd) (to_uint64 pos) SEEK_SET
           (param_4 (fileio_info w))
     ∧ trace final = trace w
     ∧ ∀ r errno ctrl_c,
         result (sh (snd (semihosting_common_fileio_end H r errno ctrl_c final)))
         = if 0 <? r then 0 else r).
Proof.
  intros Hop H0 H1 fd pos final.
  destruct (two_fields w _ _ H0 H1) as (fields & Hfs & Hf0 & Hf1).
  assert (Hh : handler H (op (sh w)) (after_prologue w)
               = if is_fileio (sh w)
                 then (Val tt,
                       with_fileio_info
                         (mk_fileio_info "lseek" (to_uint64 fd) (to_uint64 pos)
                            SEEK_SET (param_4 (fileio_info w)))
                         (with_sh (set_hit_fileio true) (after_prologue w)))
                 else
                   let '(r, e) := host_lseek H fd pos in
                   (Val tt,
                    with_sh (λ s, if r =? pos then set_result 0 s else s)
                      (with_sh (λ s, if r =? -1 then set_sys_errno e s else s)
                         (with_sh (set_result r)
                            (with_event (EvLseek fd pos) (after_prologue w)))))).
  { rewrite Hop. change (handler H SEMIHOSTING_SYS_SEEK) with (sys_seek H).
    unfold sys_seek. unfold bind at 1.
    rewrite SemihostingProofs.read_fields_eq.
    change (fields_at (after_prologue w) 2) with (fields_at w 2). rewrite Hfs.
    unfold bind, check, get_field, get, modify, emit, when_, skip, ret,
      set_fileio_info.
    change (ERROR_OK =? ERROR_OK) with true.
    cbn -[to_int to_int64 to_uint64 semihosting_get_field Z.eqb].
    change (semihosting_get_field _ 0 fields)
      with (semihosting_get_field w 0 fields).
    change (semihosting_get_field _ 1 fields)
      with (semihosting_get_field w 1 fields).
    rewrite Hf0, Hf1. fold fd pos.
    destruct (is_fileio (sh w)); [reflexivity|].
    destruct (host_lseek H fd pos) as [r e].
    cbn -[to_int to_int64 to_uint64 Z.eqb].
    destruct (r =? -1); cbn -[to_int to_int64 to_uint64 Z.eqb];
      destruct (r =? pos); reflexivity. }
  subst final. split.
  - intros Hfio. rewrite Hfio in Hh.
    destruct (host_lseek H fd pos) as [r e].
    rewrite (dispatch_to_end H w _ Hh).
    rewrite SemihostingProofs.epilogue_sh, SemihostingProofs.epilogue_trace.
    destruct (r =? pos), (r =? -1); repeat split.
  - intros Hfio. rewrite Hfio in Hh.
    rewrite (dispatch_to_end H w _ Hh).
    rewrite SemihostingProofs.epilogue_eq.
    cbn -[semihosting_common_fileio_end Z.ltb].
    repeat split.
    intros r errno ctrl_c.
    unfold semihosting_common_fileio_end, bind, get, modify, emit, when_, skip,
      ret.
    cbn -[Z.ltb]. rewrite Hop. cbn -[Z.ltb].
    destruct (0 <? r); cbn;
      repeat match goal with
             | |- context [if ?b then _ else _] => destruct b; cbn
             end; reflexivity.
Qed.

Lemma X13_seek_result_witness :
  let w := world_of (state_of SEMIHOSTING_SYS_SEEK false
                       SEMIHOSTING_REDIRECT_CFG_NONE None)
             (bytes_at 0x1000 (words [7; 100])) in
  let final := snd (semihosting_common host_ok w) in
  trace final = [EvPostResult; EvLseek 7 100]
  ∧ result (sh final) = 0
  ∧ sys_errno (sh final) = 0.
Proof.
  destruct (X13_seek_result host_ok
              (world_of (state_of SEMIHOSTING_SYS_SEEK false
                           SEMIHOSTING_REDIRECT_CFG_NONE None)
                 (bytes_at 0x1000 (words [7; 100])))
              7 100 eq_refl eq_refl eq_refl) as (Hhost & _).
  exact (Hhost eq_refl).
Defined.

(** ** The completion of a file-I/O request *)

(** X14.  [semihosting_common_fileio_end] always clears [hit_fileio],
    calls [post_result] once and returns its value, so that right after
    it [semihosting_common_fileio_info] reports that no request is
    pending.  The frontend's [errno] is stored only when the final result
    says failure: a result of 0 for [SYS_ISTTY], a result other than 0
    for [SYS_RENAME], and a result of -1 for every other operation. *)
Theorem X14_fileio_end (H : host) (w : world) (r fileio_errno : Z) (ctrl_c : bool) :
  let out := semihosting_common_fileio_end H r fileio_errno ctrl_c w in
  let final := snd out in
  let failed :=
    if op (sh w) =? SEMIHOSTING_SYS_ISTTY then result (sh final) =? 0
    else if op (sh w) =? SEMIHOSTING_SYS_RENAME then negb (result (sh final) =? 0)
    else result (sh final) =? -1 in
  fst out = Val (post_result H)
  ∧ hit_fileio (sh final) = false
  ∧ semihosting_common_fileio_info (sh final) = ERROR_FAIL
  ∧ trace final = EvPostResult :: trace w
  ∧ sys_errno (sh final) = (if failed then fileio_errno else sys_errno (sh w))
  ∧ fileio_info final = fileio_info w
  ∧ mem final = mem w.
Proof.
  unfold semihosting_common_fileio_end, semihosting_common_fileio_info,
    bind, get, modify, emit, when_, skip, ret.
  cbn -[Z.ltb Z.eqb to_int64 Z.sub].
  repeat match goal with
         | |- context [if ?b then _ else _] =>
             lazymatch b with
             | context [if _ then _ else _] => fail
             | _ => destruct b eqn:?
             end; cbn -[Z.ltb Z.eqb to_int64 Z.sub]
         end;
    rewrite ?orb_true_r; repeat split; try reflexivity; try congruence;
    match goal with
    | Hc : _ || true = false |- _ => rewrite orb_true_r in Hc; discriminate
    end.
Qed.
(** ** [SYS_READ] and [SYS_WRITE] with the stdio redirected *)

Lemma stdio_write_redirected (s : semihosting) (fd : Z) :
  op s = SEMIHOSTING_SYS_WRITE →
  stdio_redirected s = true →
  fd = stdout_fd s ∨ fd = stderr_fd s →
  semihosting_is_redirected s fd = true.
Proof.
  intros Hop Hred Hfd. unfold semihosting_is_redirected, stdio_redirected in *.
  rewrite Hop. apply bool_decide_eq_true_1 in Hred.
  destruct Hred as [-> | ->]; cbn; apply orb_true_iff;
    destruct Hfd as [-> | ->]; [left | right | left | right]; apply Z.eqb_refl.
Qed.

Lemma stdio_read_redirected (s : semihosting) (fd : Z) :
  op s = SEMIHOSTING_SYS_READ →
  stdio_redirected s = true →
  fd = stdin_fd s →
  semihosting_is_redirected s fd = true.
Proof.
  intros Hop Hred ->. unfold semihosting_is_redirected, stdio_redirected in *.
  rewrite Hop. apply bool_decide_eq_true_1 in Hred.
  destruct Hred as [-> | ->]; cbn; apply Z.eqb_refl.
Qed.

(** X15.  With the stdio redirected ([STDIO] or [ALL]) and a client
    attached, a [SYS_WRITE] on [stdout_fd] or [stderr_fd] hands the bytes
    read from the target to the client in one [connection_write], and a
    [SYS_READ] on [stdin_fd] asks the client for the bytes in one
    [connection_read]: the host's [write] and [read] are not called.
    The result of the write is the number of bytes the client did not
    take, or the negative value of the failed transfer. *)
Theorem X15_stdio_goes_to_the_client (H : host) (w : world)
    (fdv addr len conn : Z) :
  is_fileio (sh w) = false →
  stdio_redirected (sh w) = true →
  tcp_connection (sh w) = Some conn →
  field w 3 0 = Some fdv → field w 3 1 = Some addr → field w 3 2 = Some len →
  malloc_ok H len = true →
  let final := snd (semihosting_common H w) in
  (op (sh w) = SEMIHOSTING_SYS_WRITE →
   to_int fdv = stdout_fd (sh w) ∨ to_int fdv = stderr_fd (sh w) →
   ∀ buf, buffer_at w addr len = Some buf →
     let r := connection_write H buf (to_int len) in
     trace final
     = post_result_event w ++ EvConnectionWrite buf (to_int len) :: trace w
     ∧ result (sh final) = (if 0 <=? r then to_int64 (len - r) else r))
  ∧ (op (sh w) = SEMIHOSTING_SYS_READ →
     to_int fdv = stdin_fd (sh w) →
     ∃ posted, trace final = posted ++ EvConnectionRead (to_int len) :: trace w
               ∧ (posted = [] ∨ posted = post_result_event w)).
Proof.
  intros Hfio Hred Hconn H0 H1 H2 Hmalloc final. split.
  - intros Hop Hfd buf Hbuf r.
    assert (Hh : handler H (op (sh w)) (after_prologue w)
                 = (Val tt,
                    with_sh (λ s, if 0 <=? r then set_result (to_int64 (len - r)) s
                                  else s)
                      (with_sh (set_result r)
                         (with_event (EvConnectionWrite buf (to_int len))
                            (after_prologue w))))).
    { rewrite Hop. change (handler H SEMIHOSTING_SYS_WRITE) with (sys_write H).
      rewrite (SemihostingProofs.sys_write_host H (after_prologue w) fdv addr len
                 buf H0 H1 H2 Hfio Hmalloc Hbuf).
      unfold bind at 1. unfold semihosting_write. unfold bind at 1.
      unfold get at 1. cbn [fst snd]. unfold id.
      rewrite (stdio_write_redirected (sh (after_prologue w)) (to_int fdv) Hop
                 Hred Hfd).
      unfold semihosting_redirect_write, bind, get, emit, modify, ret, when_, skip.
      cbn -[to_int to_int64 Z.leb Z.sub]. rewrite Hconn.
      cbn -[to_int to_int64 Z.leb Z.sub]. fold r.
      destruct (0 <=? r); reflexivity. }
    subst final. rewrite (dispatch_to_end H w _ Hh).
    rewrite SemihostingProofs.epilogue_sh, SemihostingProofs.epilogue_trace.
    destruct (0 <=? r); split; reflexivity.
  - intros Hop Hfd.
    pose proof (SemihostingProofs.sys_read_host H (after_prologue w) fdv addr len
                  H0 H1 H2 Hfio Hmalloc) as Hread.
    assert (Hhand : handler H (op (sh w)) (after_prologue w)
                    = sys_read H (after_prologue w))
      by (rewrite Hop; reflexivity).
    rewrite <- Hhand in Hread. clear Hhand.
    unfold bind at 1 in Hread. unfold semihosting_read in Hread.
    unfold bind at 1 in Hread. unfold get at 1 in Hread. cbn [fst snd] in Hread.
    unfold id in Hread.
    rewrite (stdio_read_redirected (sh (after_prologue w)) (to_int fdv) Hop
               Hred Hfd) in Hread.
    unfold semihosting_redirect_read, bind, get, emit, modify, ret, when_, skip,
      check, target_write_buffer, target_write_memory in Hread.
    cbn -[to_int to_int64 Z.leb Z.sub write_bytes to_uint32 Z.mul] in Hread.
    rewrite Hconn in Hread.
    cbn -[to_int to_int64 Z.leb Z.sub write_bytes to_uint32 Z.mul] in Hread.
    destruct (connection_read H (to_int len)) as [r data].
    cbn -[to_int to_int64 Z.leb Z.sub write_bytes to_uint32 Z.mul] in Hread.
    subst final.
    destruct (0 <=? r);
      cbn -[to_int to_int64 Z.leb Z.sub write_bytes to_uint32 Z.mul] in Hread;
      [destruct (write_bytes _ _ _);
       cbn -[to_int to_int64 Z.leb Z.sub write_bytes to_uint32 Z.mul] in Hread|].
    + rewrite (dispatch_to_end H w _ Hread).
      rewrite SemihostingProofs.epilogue_trace. eauto.
    + rewrite (dispatch_returns H w _ _ Hread). exists []. eauto.
    + rewrite (dispatch_to_end H w _ Hread).
      rewrite SemihostingProofs.epilogue_trace. eauto.
Qed.

Lemma X15_stdio_goes_to_the_client_witness :
  let final := snd (semihosting_common host_ok world_write_client) in
  trace final = [EvPostResult; EvConnectionWrite (repeat 7 16%nat) 16]
  ∧ result (sh final) = 0.
Proof.
  destruct (X15_stdio_goes_to_the_client host_ok world_write_client
              4 0x2000 16 9 eq_refl eq_refl eq_refl eq_refl eq_refl eq_refl
              eq_refl) as (Hwrite & _).
  apply (Hwrite eq_refl (or_introl eq_refl) (repeat 7 16%nat) eq_refl).
Defined.
(** ** The fields of a parameter block *)

Lemma le_decode_encode (n : nat) (v : Z) :
  le_decode (le_encode n v) = v mod 256 ^ Z.of_nat n.
Proof.
  revert v. induction n as [|n IH]; intros v.
  - simpl. now rewrite Z.mod_1_r.
  - cbn [le_encode le_decode]. rewrite IH.
    rewrite Nat2Z.inj_succ, Z.pow_succ_r by lia.
    rewrite Z.rem_mul_r by lia. reflexivity.
Qed.

Lemma le_encode_length (n : nat) (v : Z) : length (le_encode n v) = n.
Proof. revert v. induction n as [|n IH]; intros v; simpl; [|rewrite IH]; reflexivity. Qed.

Lemma target_buffer_set_length (little : bool) (n : nat) (v : Z) :
  length (target_buffer_set little n v) = n.
Proof.
  unfold target_buffer_set. destruct little;
    rewrite ?length_rev; apply le_encode_length.
Qed.

(** What is stored in a buffer is read back, cut to the width. *)
Lemma target_buffer_get_set (little : bool) (n : nat) (v : Z) (rest : list Z) :
  target_buffer_get little n (target_buffer_set little n v ++ rest)
  = v mod 2 ^ (8 * Z.of_nat n).
Proof.
  unfold target_buffer_get.
  rewrite resize_app by (now rewrite target_buffer_set_length).
  unfold target_buffer_set, wrap_unsigned.
  assert (Hpow : 256 ^ Z.of_nat n = 2 ^ (8 * Z.of_nat n)).
  { change 256 with (2 ^ 8). rewrite <- Z.pow_mul_r by lia. reflexivity. }
  destruct little; rewrite ?rev_involutive, le_decode_encode, Hpow;
    apply Z.mod_mod; apply Z.pow_nonzero; lia.
Qed.

Lemma splice_length (pos : nat) (new old : list Z) :
  (pos + length new ≤ length old)%nat →
  length (splice pos new old) = length old.
Proof.
  intros Hfit. unfold splice.
  rewrite !length_app, length_take, length_drop. lia.
Qed.

Lemma splice_drop (pos : nat) (new old : list Z) :
  (pos ≤ length old)%nat →
  drop pos (splice pos new old) = new ++ drop (pos + length new) old.
Proof.
  intros Hfit. unfold splice.
  rewrite drop_app_length'; [reflexivity|]. rewrite length_take. lia.
Qed.

Lemma splice_lookup_other (pos : nat) (new old : list Z) (k : nat) :
  (pos + length new ≤ length old)%nat →
  (k < pos ∨ pos + length new ≤ k)%nat →
  splice pos new old !! k = old !! k.
Proof.
  intros Hfit Hk. unfold splice. destruct Hk as [Hk | Hk].
  - rewrite lookup_app_l by (rewrite length_take; lia).
    now apply lookup_take_lt.
  - rewrite lookup_app_r by (rewrite length_take; lia).
    rewrite length_take, Nat.min_l by lia.
    rewrite lookup_app_r by lia.
    rewrite lookup_drop. f_equal. lia.
Qed.

Lemma resize_drop_ext (n pos : nat) (a b : list Z) :
  length a = length b →
  (∀ k, (pos ≤ k < pos + n)%nat → a !! k = b !! k) →
  resize n 0 (drop pos a) = resize n 0 (drop pos b).
Proof.
  intros Hlen Hsame. rewrite !resize_spec, !length_drop, Hlen. f_equal.
  apply list_eq. intros i. rewrite !lookup_take.
  case_decide; [|reflexivity].
  rewrite !lookup_drop. apply Hsame. lia.
Qed.

Lemma set_field_length (w : world) (v : Z) (i : nat) (fields : list Z) :
  ((i + 1) * field_width w ≤ length fields)%nat →
  length (semihosting_set_field w v i fields) = length fields.
Proof.
  unfold field_width, semihosting_set_field.
  destruct (word_size_bytes (sh w) =? 8); intros Hfit;
    apply splice_length; rewrite target_buffer_set_length; lia.
Qed.

Lemma get_field_set_field (w : world) (v : Z) (i : nat) (fields : list Z) :
  ((i + 1) * field_width w ≤ length fields)%nat →
  semihosting_get_field w i (semihosting_set_field w v i fields)
  = v mod 2 ^ (8 * Z.of_nat (field_width w)).
Proof.
  unfold field_width, semihosting_set_field, semihosting_get_field.
  destruct (word_size_bytes (sh w) =? 8); intros Hfit;
    rewrite splice_drop by lia; rewrite target_buffer_get_set;
    [unfold to_uint64 | unfold to_uint32]; unfold wrap_unsigned;
    apply Z.mod_mod; lia.
Qed.

Lemma get_field_set_other (w : world) (v : Z) (i j : nat) (fields : list Z) :
  ((i + 1) * field_width w ≤ length fields)%nat →
  j ≠ i →
  semihosting_get_field w j (semihosting_set_field w v i fields)
  = semihosting_get_field w j fields.
Proof.
  unfold field_width, semihosting_set_field, semihosting_get_field.
  destruct (word_size_bytes (sh w) =? 8); intros Hfit Hj;
    unfold target_buffer_get;
    (rewrite (resize_drop_ext _ _ (splice _ _ _) fields); [reflexivity | |]);
    [ apply splice_length; rewrite target_buffer_set_length; lia
    | intros k Hk; apply splice_lookup_other;
      rewrite target_buffer_set_length; lia
    | apply splice_length; rewrite target_buffer_set_length; lia
    | intros k Hk; apply splice_lookup_other;
      rewrite target_buffer_set_length; lia ].
Qed.

(** X16.  [semihosting_set_field] and [semihosting_get_field] agree on
    where a field lies and how it is laid out: a value stored in field
    [i] of a block that is long enough is read back from field [i], cut
    to the width of a field (32 bits, or 64 when [word_size_bytes] is 8),
    in either byte order; the other fields, and the length of the block,
    are as before. *)
Theorem X16_field_stored_is_read_back (w : world) (v : Z) (i j : nat)
    (fields : list Z) :
  let width := field_width w in
  ((i + 1) * width ≤ length fields)%nat →
  let fields' := semihosting_set_field w v i fields in
  length fields' = length fields
  ∧ semihosting_get_field w i fields' = v mod 2 ^ (8 * Z.of_nat width)
  ∧ (j ≠ i →
     semihosting_get_field w j fields' = semihosting_get_field w j fields).
Proof.
  intros width Hfit fields'. subst width fields'. split; [|split].
  - now apply set_field_length.
  - now apply get_field_set_field.
  - intros Hj. now apply get_field_set_other.
Qed.

Lemma X16_field_stored_is_read_back_witness :
  let w := world_read in
  let fields' := semihosting_set_field w 0x12345678 1 (words [3; 0x2000; 16]) in
  length fields' = 12%nat
  ∧ semihosting_get_field w 1 fields' = 0x12345678
  ∧ semihosting_get_field w 2 fields' = 16.
Proof.
  destruct (X16_field_stored_is_read_back world_read 0x12345678 1 2
              (words [3; 0x2000; 16])) as (Hlen & Hget & Hother).
  - simpl. lia.
  - split; [exact Hlen|]. split; [exact Hget|].
    rewrite Hother by discriminate. reflexivity.
Defined.
End SemihostingResults.

(** ** The commands *)

Module SemihostingCommandProofs.
Import Semihosting SemihostingSpec SemihostingViews.
Import SemihostingCommands SemihostingCommandViews.

Section Gate.

Variable E : command_env.

Lemma require_semihosting_passes (st : command_state) (s : semihosting) :
  current_target st = true → target_semihosting st = Some s →
  require_semihosting st = (Val tt, st).
Proof.
  intros Ht Hs. unfold require_semihosting. now rewrite Ht, Hs.
Qed.

Lemma require_active_refuses (st : command_state) (s : semihosting) :
  target_semihosting st = Some s → is_active s = false →
  require_active st = (Return ERROR_FAIL, snd (refused st)).
Proof.
  intros Hs Hact. unfold require_active, the_semihosting, bind.
  rewrite Hs, Hact. reflexivity.
Qed.

Lemma require_active_passes (st : command_state) (s : semihosting) :
  target_semihosting st = Some s → is_active s = true →
  require_active st = (Val tt, st).
Proof.
  intros Hs Hact. unfold require_active, the_semihosting, bind.
  rewrite Hs, Hact. reflexivity.
Qed.

End Gate.

(** X17.  Until semihosting has been enabled for the target, the
    commands that configure it -- [semihosting_redirect],
    [semihosting_fileio], [semihosting_resexit] and, given at most one
    argument, [semihosting_basedir] -- do nothing but say so: they return
    [ERROR_FAIL] whatever their arguments are, and the semihosting state
    is as before. *)
Theorem X17_commands_refused_until_enabled (E : command_env)
    (argv : list (list Z)) (st : command_state) (s : semihosting) :
  current_target st = true →
  target_semihosting st = Some s →
  is_active s = false →
  handle_common_semihosting_redirect_command E argv st = refused st
  ∧ handle_common_semihosting_fileio_command E argv st = refused st
  ∧ handle_common_semihosting_resumable_exit_command E argv st = refused st
  ∧ (CMD_ARGC argv ≤ 1 →
     handle_common_semihosting_basedir_command E argv st = refused st)
  ∧ target_semihosting (snd (refused st)) = Some s.
Proof.
  intros Ht Hs Hact.
  pose proof (require_semihosting_passes st s Ht Hs) as Hreq.
  pose proof (require_active_refuses st s Hs Hact) as Hgate.
  repeat split.
  - unfold handle_common_semihosting_redirect_command.
    unfold bind at 1. rewrite Hreq. unfold bind at 1. now rewrite Hgate.
  - unfold handle_common_semihosting_fileio_command.
    unfold bind at 1. rewrite Hreq. unfold bind at 1. now rewrite Hgate.
  - unfold handle_common_semihosting_resumable_exit_command.
    unfold bind at 1. rewrite Hreq. unfold bind at 1. now rewrite Hgate.
  - intros Hargc. unfold handle_common_semihosting_basedir_command.
    apply Z.ltb_ge in Hargc. rewrite Hargc.
    unfold bind at 1. rewrite Hreq. unfold bind at 1. now rewrite Hgate.
  - exact Hs.
Qed.

(** A target fresh from [semihosting_common_init] is in that state. *)
Lemma X17_commands_refused_until_enabled_witness :
  semihosting_common_init true true 0
  = (ERROR_OK, Some (mk_fileio_info "" 0 0 0 0), Some (initial_semihosting 0))
  ∧ let st := command_state_of (initial_semihosting 0) in
    handle_common_semihosting_redirect_command commands_ok
      [bytes_of_string "tcp"; bytes_of_string "4444"] st
    = refused st.
Proof.
  split; [reflexivity|].
  destruct (X17_commands_refused_until_enabled commands_ok
              [bytes_of_string "tcp"; bytes_of_string "4444"]
              (command_state_of (initial_semihosting 0))
              (initial_semihosting 0) eq_refl eq_refl eq_refl) as (Hredirect & _).
  exact Hredirect.
Defined.

(** The parsing of the arguments touches nothing and can only end in a
    syntax error. *)
Lemma redirect_arguments_pure (argv : list (list Z)) (st : command_state) :
  redirect_arguments argv st = (Return ERROR_COMMAND_SYNTAX_ERROR, st)
  ∨ ∃ cfg port, redirect_arguments argv st = (Val (cfg, port), st).
Proof.
  unfold redirect_arguments, return_, ret.
  repeat match goal with
         | |- context [if ?b then _ else _] =>
             lazymatch b with
             | context [if _ then _ else _] => fail
             | _ => destruct b
             end
         end; eauto.
Qed.

(** X18.  [semihosting_redirect] on an enabled target.  Arguments that
    do not parse leave everything as it was.  Otherwise the client, if
    one is attached, is dropped and its service removed -- the service
    of an earlier redirection is removed only in that case --, and the
    configuration becomes the one asked for when the new service could
    be set up (or none was needed); when it could not, the command
    returns [ERROR_FAIL] and the redirection is left switched off. *)
Theorem X18_redirect_command (E : command_env) (argv : list (list Z))
    (st : command_state) (s : semihosting) :
  current_target st = true →
  target_semihosting st = Some s →
  is_active s = true →
  let out := handle_common_semihosting_redirect_command E argv st in
  match redirect_arguments argv st with
  | (Val (cfg, port), _) =>
      let ok := service_added E cfg port in
      fst out = (if ok then Val ERROR_OK else Return ERROR_FAIL)
      ∧ semihosting_after out
        = Some (set_redirect_cfg
                  (if ok then cfg else SEMIHOSTING_REDIRECT_CFG_NONE)
                  (set_tcp_connection None s))
      ∧ service_removals (output (snd out))
        = (service_removals (output st)
           + if tcp_connection s is Some _ then 1 else 0)%nat
  | _ => out = (Return ERROR_COMMAND_SYNTAX_ERROR, st)
  end.
Proof.
  intros Ht Hs Hact out.
  assert (Hout : out = handle_common_semihosting_redirect_command E argv st)
    by reflexivity.
  clearbody out.
  unfold handle_common_semihosting_redirect_command in Hout.
  unfold bind at 1 in Hout.
  rewrite (require_semihosting_passes st s Ht Hs) in Hout.
  unfold bind at 1 in Hout.
  rewrite (require_active_passes st s Hs Hact) in Hout.
  unfold bind at 1 in Hout.
  destruct (redirect_arguments_pure argv st) as [Hparse | (cfg & port & Hparse)];
    rewrite Hparse in *; [exact Hout|].
  clear Hparse. unfold service_added, semihosting_after.
  unfold semihosting_tcp_close_cnx, the_semihosting, update, say, LOG_ERROR,
    bind, ret, return_, skip in Hout.
  destruct (bool_decide (cfg = SEMIHOSTING_REDIRECT_CFG_NONE)),
    (calloc_service_ok E),
    (alloc_printf_ok E (bytes_of_string "%s semihosting service")),
    (add_service E port =? ERROR_OK);
    destruct st as [target sem params events]; cbn in Hs, Ht; subst sem target;
    destruct s as [act rcfg conn fin fout ferr fio hit res rex ws opc par rslt err
                   cmd dir tm ext];
    destruct conn as [c|]; cbn in Hout |- *;
    subst out; cbn; unfold service_removals; cbn;
    repeat first [ rewrite filter_cons_True by reflexivity
                 | rewrite filter_cons_False by discriminate ]; cbn;
    repeat split; try first [reflexivity | lia];
    repeat case_decide; try congruence; cbn;
    first [ lia | rewrite Nat.add_1_r; reflexivity
          | rewrite Nat.add_0_r; reflexivity ].
Qed.

Lemma X18_redirect_command_witness :
  let s := sh world_write_client in
  let out := handle_common_semihosting_redirect_command commands_no_service
               [bytes_of_string "tcp"; bytes_of_string "4444";
                bytes_of_string "stdio"]
               (command_state_of s) in
  fst out = Return ERROR_FAIL
  ∧ semihosting_after out
    = Some (set_redirect_cfg SEMIHOSTING_REDIRECT_CFG_NONE
              (set_tcp_connection None s))
  ∧ service_removals (output (snd out)) = 1%nat.
Proof.
  exact (X18_redirect_command commands_no_service
           [bytes_of_string "tcp"; bytes_of_string "4444";
            bytes_of_string "stdio"]
           (command_state_of (sh world_write_client))
           (sh world_write_client) eq_refl eq_refl eq_refl).
Defined.

(** ** [semihosting_cmdline] *)

Lemma cstr_app_cstr (a b : list Z) : cstr (cstr a ++ b) = cstr a ++ cstr b.
Proof.
  induction a as [|c a IH]; simpl; [reflexivity|].
  destruct (c =? 0) eqn:Hc; simpl; [reflexivity|].
  now rewrite Hc, IH.
Qed.

Lemma cstr_space_cstr (a b : list Z) :
  cstr (cstr a ++ bytes_of_string " " ++ cstr b)
  = cstr a ++ bytes_of_string " " ++ cstr b.
Proof.
  rewrite cstr_app_cstr. f_equal.
  change (bytes_of_string " " ++ cstr b) with (32 :: cstr b).
  cbn [cstr Z.eqb]. f_equal. apply SemihostingProofs.cstr_idemp.
Qed.

Section Cmdline.

Variable E : command_env.
Hypothesis strdup_never_fails : ∀ x, strdup_ok E x = true.
Hypothesis alloc_printf_never_fails : ∀ x, alloc_printf_ok E x = true.

Lemma cmdline_append_joins (args : list (list Z)) :
  ∀ (st : command_state) (s : semihosting) (line : list Z),
    target_semihosting st = Some s →
    cmdline s = Some line →
    cstr line = line →
    cmdline_append E args st
    = (Val tt,
       mk_command_state (current_target st)
         (Some (set_cmdline
                  (Some (foldl (λ line arg, line ++ bytes_of_string " " ++ cstr arg)
                           line args)) s))
         (user_op_params st) (output st)).
Proof.
  induction args as [|arg rest IH]; intros st s line Hs Hline Hclean.
  - cbn. destruct st as [t sem p o]. cbn in *. subst sem.
    destruct s. cbn in *. now subst.
  - cbn [cmdline_append foldl].
    unfold bind at 1. unfold the_semihosting at 1. rewrite Hs, Hline.
    rewrite alloc_printf_never_fails. cbn [negb].
    unfold bind at 1. unfold update at 1. rewrite Hs.
    rewrite Hclean.
    rewrite (IH _ (set_cmdline (Some (line ++ bytes_of_string " " ++ cstr arg)) s)
               (line ++ bytes_of_string " " ++ cstr arg));
      [reflexivity | reflexivity | reflexivity |].
    rewrite <- Hclean. apply cstr_space_cstr.
Qed.

End Cmdline.

(** X19.  [semihosting_cmdline] makes of its arguments one line, the
    arguments joined by single spaces, and stores it as the command line
    of the target ([NULL] when there are no arguments); it prints the
    line and returns [ERROR_OK].  It does not ask whether semihosting is
    enabled.  (Stated for allocations that succeed.) *)
Theorem X19_cmdline_joins_the_arguments (E : command_env)
    (argv : list (list Z)) (st : command_state) (s : semihosting) :
  current_target st = true →
  target_semihosting st = Some s →
  (∀ x, strdup_ok E x = true) →
  (∀ x, alloc_printf_ok E x = true) →
  let out := handle_common_semihosting_cmdline E argv st in
  fst out = Val ERROR_OK
  ∧ semihosting_after out = Some (set_cmdline (joined argv) s)
  ∧ output (snd out)
    = EvCommandPrint "semihosting command line is [%s]" (joined argv)
      :: output st
  ∧ user_op_params (snd out) = user_op_params st.
Proof.
  intros Ht Hs Hdup Halloc out.
  assert (Hout : out = handle_common_semihosting_cmdline E argv st)
    by reflexivity.
  clearbody out.
  unfold handle_common_semihosting_cmdline in Hout.
  unfold bind at 1 in Hout.
  rewrite (require_semihosting_passes st s Ht Hs) in Hout.
  unfold bind at 1 in Hout. unfold update at 1 in Hout. rewrite Hs in Hout.
  unfold bind at 1 in Hout.
  destruct argv as [|arg0 rest].
  - cbn in Hout. subst out. cbn. unfold semihosting_after. cbn. repeat split.
  - unfold strdup in Hout. rewrite Hdup in Hout. cbn [tail] in Hout.
    rewrite (cmdline_append_joins E Halloc rest _
               (set_cmdline (Some (cstr arg0)) s) (cstr arg0)) in Hout;
      [| reflexivity | reflexivity | apply SemihostingProofs.cstr_idemp].
    cbn in Hout. subst out. unfold semihosting_after. cbn. repeat split.
Qed.

Lemma X19_cmdline_joins_the_arguments_witness :
  let out := handle_common_semihosting_cmdline commands_ok
               [bytes_of_string "prog"; bytes_of_string "-v"; bytes_of_string "x"]
               (command_state_of (initial_semihosting 0)) in
  fst out = Val ERROR_OK
  ∧ semihosting_after out
    = Some (set_cmdline (Some (bytes_of_string "prog -v x"))
              (initial_semihosting 0)).
Proof.
  destruct (X19_cmdline_joins_the_arguments commands_ok
              [bytes_of_string "prog"; bytes_of_string "-v"; bytes_of_string "x"]
              (command_state_of (initial_semihosting 0))
              (initial_semihosting 0) eq_refl eq_refl
              (λ _, eq_refl) (λ _, eq_refl)) as (Hret & Hline & _).
  split; [exact Hret | exact Hline].
Defined.
End SemihostingCommandProofs.

(** ** The command line in the target's memory *)

Module SemihostingMemory.
Import Semihosting SemihostingSpec SemihostingViews SemihostingOperations.
Import SemihostingResults.

Lemma addrs_length (a n : Z) : length (addrs a n) = Z.to_nat n.
Proof. unfold addrs. now rewrite length_map, length_seq. Qed.

Lemma addrs_lookup (a n : Z) (i : nat) :
  (i < Z.to_nat n)%nat → addrs a n !! i = Some (a + Z.of_nat i).
Proof.
  intros Hi. unfold addrs.
  change (map ?f ?l) with (f <$> l).
  rewrite list_lookup_fmap, lookup_seq_lt by exact Hi. reflexivity.
Qed.

Lemma addrs_succ (a : Z) (k : nat) :
  addrs a (Z.of_nat (S k)) = a :: addrs (a + 1) (Z.of_nat k).
Proof.
  unfold addrs. rewrite !Nat2Z.id. cbn [seq map]. f_equal; [lia|].
  rewrite <- fmap_S_seq. change (map ?f ?l) with (f <$> l).
  rewrite <- list_fmap_compose. apply list_fmap_ext. intros _ i _. cbn. lia.
Qed.

(** The bytes of a range, one by one. *)
Lemma read_bytes_Some (m : gmap Z Z) (a n : Z) (bs : list Z) :
  read_bytes m a n = Some bs
  ↔ length bs = Z.to_nat n
    ∧ ∀ i, (i < Z.to_nat n)%nat → m !! (a + Z.of_nat i) = bs !! i.
Proof.
  unfold read_bytes. rewrite mapM_Some, Forall2_same_length_lookup, addrs_length.
  split.
  - intros [Hlen Hall]. split; [congruence|]. intros i Hi.
    destruct (lookup_lt_is_Some_2 bs i) as [b Hb]; [lia|].
    rewrite Hb. apply (Hall i); [now apply addrs_lookup | exact Hb].
  - intros [Hlen Hall]. split; [congruence|]. intros i x y Hx Hy.
    assert (Hi : (i < Z.to_nat n)%nat).
    { apply lookup_lt_Some in Hx. now rewrite addrs_length in Hx. }
    rewrite addrs_lookup in Hx by exact Hi. injection Hx as <-.
    now rewrite Hall.
Qed.

Lemma read_bytes_is_Some (m : gmap Z Z) (a n : Z) :
  is_Some (read_bytes m a n)
  ↔ ∀ i, (i < Z.to_nat n)%nat → is_Some (m !! (a + Z.of_nat i)).
Proof.
  unfold read_bytes. rewrite mapM_is_Some, Forall_lookup. split.
  - intros Hall i Hi. apply (Hall i). now apply addrs_lookup.
  - intros Hall i x Hx.
    assert (Hi : (i < Z.to_nat n)%nat).
    { apply lookup_lt_Some in Hx. now rewrite addrs_length in Hx. }
    rewrite addrs_lookup in Hx by exact Hi. injection Hx as <-. now apply Hall.
Qed.

(** The bytes stored by a write. *)
Lemma stored_lookup (bs : list Z) :
  ∀ (a k : Z),
    (list_to_map (zip (addrs a (Z.of_nat (length bs))) bs) : gmap Z Z) !! k
    = if decide (a ≤ k < a + Z.of_nat (length bs))
      then bs !! Z.to_nat (k - a) else None.
Proof.
  induction bs as [|b bs IH]; intros a k.
  - cbn. case_decide; [lia | reflexivity].
  - cbn [length]. rewrite addrs_succ. cbn [zip zip_with list_to_map foldr].
    change (foldr _ _ ?l) with (list_to_map l : gmap Z Z).
    destruct (decide (k = a)) as [-> | Hne].
    + rewrite lookup_insert_eq. case_decide; [|lia].
      now replace (a - a) with 0 by lia.
    + rewrite lookup_insert_ne by (cbn; lia). rewrite IH.
      repeat case_decide; try lia; [|reflexivity].
      replace (Z.to_nat (k - a)) with (S (Z.to_nat (k - (a + 1)))) by lia.
      reflexivity.
Qed.

Lemma write_bytes_lookup (m m' : gmap Z Z) (a : Z) (bs : list Z) (k : Z) :
  write_bytes m a bs = Some m' →
  m' !! k = if decide (a ≤ k < a + Z.of_nat (length bs))
            then bs !! Z.to_nat (k - a) else m !! k.
Proof.
  unfold write_bytes.
  destruct (read_bytes m a (Z.of_nat (length bs))) as [old|] eqn:Hold;
    [|discriminate].
  intros [= <-]. rewrite lookup_union, stored_lookup.
  case_decide as Hk; [|now rewrite (left_id None _)].
  destruct (lookup_lt_is_Some_2 bs (Z.to_nat (k - a))) as [b Hb]; [lia|].
  rewrite Hb. apply read_bytes_Some in Hold as [_ Hold].
  specialize (Hold (Z.to_nat (k - a))). rewrite Nat2Z.id in Hold.
  destruct (m !! k); reflexivity.
Qed.

(** What was written is read back ... *)
Lemma read_written (m m' : gmap Z Z) (a : Z) (bs : list Z) :
  write_bytes m a bs = Some m' →
  read_bytes m' a (Z.of_nat (length bs)) = Some bs.
Proof.
  intros Hw. apply read_bytes_Some. rewrite Nat2Z.id. split; [reflexivity|].
  intros i Hi. rewrite (write_bytes_lookup _ _ _ _ _ Hw).
  case_decide; [|lia]. f_equal. lia.
Qed.

(** ... a range apart from it is as before ... *)
Lemma read_apart (m m' : gmap Z Z) (a b n : Z) (bs : list Z) :
  write_bytes m a bs = Some m' →
  b + n ≤ a ∨ a + Z.of_nat (length bs) ≤ b →
  read_bytes m' b n = read_bytes m b n.
Proof.
  intros Hw Hapart. unfold read_bytes. apply Forall_mapM_ext, Forall_lookup.
  intros i x Hx.
  assert (Hi : (i < Z.to_nat n)%nat).
  { apply lookup_lt_Some in Hx. now rewrite addrs_length in Hx. }
  rewrite addrs_lookup in Hx by exact Hi. injection Hx as <-.
  rewrite (write_bytes_lookup _ _ _ _ _ Hw). case_decide; [lia | reflexivity].
Qed.

(** ... and what was accessible stays accessible. *)
Lemma accessible_after_write (m m' : gmap Z Z) (a b n : Z) (bs : list Z) :
  write_bytes m a bs = Some m' →
  is_Some (read_bytes m b n) → is_Some (read_bytes m' b n).
Proof.
  intros Hw. rewrite !read_bytes_is_Some. intros Hacc i Hi.
  rewrite (write_bytes_lookup _ _ _ _ _ Hw). case_decide; [|now apply Hacc].
  apply lookup_lt_is_Some_2. lia.
Qed.

Lemma write_bytes_succeeds (m : gmap Z Z) (a : Z) (bs : list Z) :
  is_Some (read_bytes m a (Z.of_nat (length bs))) →
  ∃ m', write_bytes m a bs = Some m'.
Proof.
  intros [old Hold]. unfold write_bytes. rewrite Hold. eauto.
Qed.

Lemma to_uint32_small (v : Z) : 0 ≤ v < 2 ^ 32 → to_uint32 v = v.
Proof. intros Hv. unfold to_uint32, wrap_unsigned. now apply Z.mod_small. Qed.

(** The command line as [SYS_GET_CMDLINE] sends it: the string and its
    terminating zero. *)
Lemma cmdline_bytes_length (cmd : option (list Z)) :
  strlen (cstr (default [] cmd)) + 1
  = Z.of_nat (length (cstr (default [] cmd) ++ [0])).
Proof.
  unfold strlen. rewrite SemihostingProofs.cstr_idemp, length_app. cbn. lia.
Qed.

(** [SYS_GET_CMDLINE] when the buffer is large enough and both stores
    succeed. *)
Lemma sys_get_cmdline_stores (w : world) (fields : list Z) (m1 m2 : gmap Z Z) :
  let arg := cstr (default [] (cmdline (sh w))) in
  let len := strlen arg + 1 in
  let fields' := semihosting_set_field w len 1 fields in
  fields_at w 2 = Some fields →
  len < 2 ^ 32 →
  len ≤ semihosting_get_field w 1 fields →
  write_bytes (mem w) (semihosting_get_field w 0 fields) (arg ++ [0]) = Some m1 →
  write_bytes m1 (param (sh w)) fields' = Some m2 →
  length fields'
  = Z.to_nat (to_uint32 4 * to_uint32 (2 * (word_size_bytes (sh w) / 4))) →
  sys_get_cmdline w = (Val tt, with_mem m2 (with_sh (set_result 0) (with_mem m1 w))).
Proof.
  intros arg len fields' Hfields Hlen Hsize Hw1 Hw2 Hflen.
  assert (Hlen0 : 0 ≤ len < 2 ^ 32) by (unfold len, strlen in *; lia).
  unfold sys_get_cmdline. unfold bind at 1.
  rewrite SemihostingProofs.read_fields_eq, Hfields.
  unfold bind at 1. unfold check at 1. cbn [fst snd Z.eqb ERROR_OK skip ret].
  unfold bind at 1. unfold get_field at 1.
  unfold bind at 1. unfold get_field at 1.
  unfold bind at 1. unfold get at 1. cbn [fst snd].
  fold arg. fold len. rewrite (to_uint32_small len Hlen0).
  apply Z.ltb_ge in Hsize. rewrite Hsize.
  unfold bind at 1. cbn [fst snd]. fold fields'.
  unfold bind at 1. unfold target_write_buffer, target_write_memory.
  change (to_uint32 1) with 1. rewrite Z.mul_1_l, (to_uint32_small len Hlen0).
  assert (Hbytes : Z.to_nat len = length (arg ++ [0])).
  { unfold len, arg. rewrite cmdline_bytes_length. now rewrite Nat2Z.id. }
  rewrite resize_all_alt by exact Hbytes. rewrite Hw1.
  unfold bind at 1. unfold check at 1. cbn [fst snd Z.eqb ERROR_OK skip ret].
  unfold bind at 1. unfold modify at 1. cbn [fst snd].
  unfold semihosting_write_fields. unfold bind at 2. unfold get at 1.
  cbn [fst snd with_sh with_mem sh mem set_result param word_size_bytes id].
  unfold target_write_memory.
  cbn [with_sh with_mem sh mem set_result param word_size_bytes].
  unfold bind at 1. cbn beta.
  cbn [with_sh with_mem sh mem set_result param word_size_bytes].
  rewrite resize_all_alt by (symmetry; exact Hflen). rewrite Hw2.
  reflexivity.
Qed.

(** X20.  [SYS_GET_CMDLINE] hands the command line to the target.  Let
    the line with its terminating zero be [len] bytes long.  When the
    size in the second field is less than [len], the result is -1 and
    the target's memory is untouched.  Otherwise, the buffer being
    accessible and apart from the parameter block, the result is 0, the
    buffer holds the line and its terminating zero, the second field of
    the parameter block holds [len], and the first field still holds the
    address of the buffer. *)
Theorem X20_get_cmdline (H : host) (w : world) (addr size : Z) :
  op (sh w) = SEMIHOSTING_SYS_GET_CMDLINE →
  word_size_bytes (sh w) = 4 ∨ word_size_bytes (sh w) = 8 →
  field w 2 0 = Some addr → field w 2 1 = Some size →
  let arg := cstr (default [] (cmdline (sh w))) in
  let len := strlen arg + 1 in
  len < 2 ^ 32 →
  let final := snd (semihosting_common H w) in
  (size < len →
   result (sh final) = -1
   ∧ mem final = mem w
   ∧ trace final = post_result_event w ++ trace w)
  ∧ (len ≤ size →
     is_Some (buffer_at w addr len) →
     addr + len ≤ param (sh w)
     ∨ param (sh w) + 2 * word_size_bytes (sh w) ≤ addr →
     result (sh final) = 0
     ∧ buffer_at final addr len = Some (arg ++ [0])
     ∧ field final 2 0 = Some addr
     ∧ field final 2 1 = Some len
     ∧ trace final = post_result_event w ++ trace w).
Proof.
  intros Hop Hws H0 H1 arg len Hlen final.
  destruct (two_fields w _ _ H0 H1) as (fields & Hfs & Hf0 & Hf1).
  assert (Hlen0 : 0 ≤ len < 2 ^ 32) by (unfold len, strlen in *; lia).
  split.
  - (* the buffer is too small *)
    intros Hsmall.
    assert (Hh : handler H (op (sh w)) (after_prologue w)
                 = (Val tt, with_sh (set_result (-1)) (after_prologue w))).
    { rewrite Hop.
      change (handler H SEMIHOSTING_SYS_GET_CMDLINE) with sys_get_cmdline.
      unfold sys_get_cmdline. unfold bind at 1.
      rewrite SemihostingProofs.read_fields_eq.
      change (fields_at (after_prologue w) 2) with (fields_at w 2). rewrite Hfs.
      unfold bind at 1. unfold check at 1. cbn [fst snd Z.eqb ERROR_OK skip ret].
      unfold bind at 1. unfold get_field at 1.
      unfold bind at 1. unfold get_field at 1.
      unfold bind at 1. unfold get at 1. cbn [fst snd].
      change (semihosting_get_field (after_prologue w) 1 fields)
        with (semihosting_get_field w 1 fields).
      rewrite Hf1.
      change (cmdline (sh (after_prologue w))) with (cmdline (sh w)).
      fold arg. fold len. rewrite (to_uint32_small len Hlen0).
      apply Z.ltb_lt in Hsmall. rewrite Hsmall. reflexivity. }
    subst final. rewrite (dispatch_to_end H w _ Hh).
    rewrite SemihostingProofs.epilogue_sh, SemihostingProofs.epilogue_trace.
    rewrite SemihostingProofs.epilogue_eq.
    destruct (hit_fileio _); repeat split.
  - (* the line is stored *)
    intros Hfits Hbuf Hapart.
    pose proof Hfs as Hread. unfold fields_at in Hread.
    set (N := to_uint32 4 * to_uint32 (2 * (word_size_bytes (sh w) / 4))) in *.
    assert (HN : N = 2 * word_size_bytes (sh w)).
    { subst N. destruct Hws as [-> | ->]; reflexivity. }
    apply read_bytes_Some in Hread as Hflen. destruct Hflen as [Hflen _].
    assert (Hwidth : Z.of_nat (field_width w) = word_size_bytes (sh w)).
    { unfold field_width. destruct Hws as [-> | ->]; reflexivity. }
    assert (Hroom : ((1 + 1) * field_width w ≤ length fields)%nat) by lia.
    pose proof (set_field_length w len 1 fields Hroom) as Hflen'.
    set (fields' := semihosting_set_field w len 1 fields) in *.
    assert (Hbytes : len = Z.of_nat (length (arg ++ [0])))
      by apply cmdline_bytes_length.
    unfold buffer_at in Hbuf.
    change (to_uint32 1) with 1 in Hbuf.
    rewrite Z.mul_1_l, (to_uint32_small len Hlen0), Hbytes in Hbuf.
    destruct (write_bytes_succeeds _ _ _ Hbuf) as [m1 Hw1].
    assert (Hacc : is_Some (read_bytes m1 (param (sh w))
                              (Z.of_nat (length fields')))).
    { apply (accessible_after_write _ _ _ _ _ _ Hw1).
      rewrite Hflen', Hflen, Z2Nat.id by lia. eauto. }
    destruct (write_bytes_succeeds _ _ _ Hacc) as [m2 Hw2].
    assert (Hh : handler H (op (sh w)) (after_prologue w)
                 = (Val tt, with_mem m2 (with_sh (set_result 0)
                                          (with_mem m1 (after_prologue w))))).
    { rewrite Hop.
      change (handler H SEMIHOSTING_SYS_GET_CMDLINE) with sys_get_cmdline.
      apply (sys_get_cmdline_stores (after_prologue w) fields m1 m2).
      - exact Hfs.
      - exact Hlen.
      - change (semihosting_get_field (after_prologue w) 1 fields)
          with (semihosting_get_field w 1 fields).
        rewrite Hf1. exact Hfits.
      - change (semihosting_get_field (after_prologue w) 0 fields)
          with (semihosting_get_field w 0 fields).
        rewrite Hf0. exact Hw1.
      - exact Hw2.
      - change (length fields' = Z.to_nat N). congruence. }
    subst final. rewrite (dispatch_to_end H w _ Hh).
    rewrite SemihostingProofs.epilogue_eq.
    assert (Hfinal_buf : read_bytes m2 addr len = Some (arg ++ [0])).
    { rewrite (read_apart _ _ _ _ _ _ Hw2) by lia.
      rewrite Hbytes. exact (read_written _ _ _ _ Hw1). }
    assert (Hfinal_fields : read_bytes m2 (param (sh w)) N = Some fields').
    { replace N with (Z.of_nat (length fields')) by lia.
      exact (read_written _ _ _ _ Hw2). }
    assert (Hget0 : semihosting_get_field w 0 fields' = addr).
    { unfold fields'. rewrite get_field_set_other by (exact Hroom || discriminate).
      exact Hf0. }
    assert (Hget1 : semihosting_get_field w 1 fields' = len).
    { unfold fields'. rewrite get_field_set_field by exact Hroom.
      rewrite Hwidth. apply Z.mod_small.
      destruct Hws as [-> | ->]; lia. }
    destruct (hit_fileio (sh w)) eqn:Hhit;
      cbn [after_prologue with_sh with_mem with_event sh mem set_result
           set_is_resumable hit_fileio fst snd];
      rewrite Hhit;
      cbn [after_prologue with_sh with_mem with_event sh mem set_result
           set_is_resumable hit_fileio result trace fst snd];
      unfold buffer_at, field, fields_at, post_result_event;
      cbn [after_prologue with_sh with_mem with_event sh mem set_result
           set_is_resumable hit_fileio result trace param word_size_bytes
           fst snd];
      change (to_uint32 1) with 1;
      rewrite Z.mul_1_l, (to_uint32_small len Hlen0), Hfinal_buf;
      fold N; rewrite Hfinal_fields, Hhit;
      repeat split; f_equal; assumption.
Qed.

Lemma X20_get_cmdline_witness :
  let final := snd (semihosting_common host_ok world_get_cmdline) in
  result (sh final) = 0
  ∧ buffer_at final 0x2000 10 = Some (bytes_of_string "prog -v x" ++ [0])
  ∧ field final 2 0 = Some 0x2000
  ∧ field final 2 1 = Some 10.
Proof.
  destruct (X20_get_cmdline host_ok world_get_cmdline 0x2000 32
              eq_refl (or_introl eq_refl) eq_refl eq_refl eq_refl)
    as [_ Hstored].
  destruct Hstored as (Hres & Hbuf & Hf0 & Hf1 & _).
  - vm_compute. discriminate.
  - eexists. vm_compute. reflexivity.
  - right. vm_compute. discriminate.
  - auto.
Defined.
End SemihostingMemory.

(** * Part VII: the life cycle of a TPIU/SWO instance *)

Module TpiuLifecycle.
Import Tpiu TpiuSpec TpiuViews TpiuProofs.

Section Lifecycle.

Variable E : env.


Lemma bind_val {A B} (m : M A) (f : A → M B) (st st' : state) (b : B) :
  bind m f st = (Val b, st') →
  ∃ a st1, m st = (Val a, st1) ∧ f a st1 = (Val b, st').
Proof.
  unfold bind. destruct (m st) as [[a | r | r] st1]; [eauto | discriminate..].
Qed.

(** [output_external] is the comparison of the output with "external". *)
Lemma enable_checks_external (argc : Z) (cm : bool) (st st1 : state) (ext : bool) :
  enable_checks E argc cm st = (Val ext, st1) →
  ext = String.eqb (out_filename (obj st)) "external".
Proof.
  unfold enable_checks, command_print, bind, get, modify, emit, return_, skip, ret.
  crunch; intros [= <- <-]; reflexivity.
Qed.

Lemma recheck_ap_out_filename : keeps (λ st, out_filename (obj st)) (recheck_ap E).
Proof. unfold recheck_ap. keeps_auto. Qed.

Lemma enable_checks_out_filename argc cm :
  keeps (λ st, out_filename (obj st)) (enable_checks E argc cm).
Proof. unfold enable_checks. keeps_auto. Qed.

Lemma enable_prepare_external (argc : Z) (cm : bool) (st st1 : state) (ext : bool) :
  enable_prepare E argc cm st = (Val ext, st1) →
  ext = String.eqb (out_filename (obj st)) "external".
Proof.
  unfold enable_prepare. intros Hrun.
  apply bind_val in Hrun as (ext0 & s1 & Hchecks & Hrun).
  apply enable_checks_external in Hchecks as ->.
  apply bind_val in Hrun as (a2 & s2 & _ & Hrun).
  apply bind_val in Hrun as (a3 & s3 & _ & Hrun).
  apply bind_val in Hrun as (a4 & s4 & _ & Hrun).
  apply bind_val in Hrun as (a5 & s5 & _ & Hrun).
  apply bind_val in Hrun as (a6 & s6 & _ & Hrun).
  now injection Hrun as <- _.
Qed.

(** The access port is held once [acquire_ap] is through. *)
Lemma acquire_ap_holds (st st1 : state) :
  acquire_ap E st = (Val tt, st1) → is_Some (ap (obj st1)).
Proof.
  unfold acquire_ap, command_print, bind, get, modify, emit, return_, skip, ret.
  crunch; intros [= <-]; cbn; eauto.
Qed.

Lemma keeps_handle_event_ap (event : arm_tpiu_swo_event) :
  keeps (λ st, ap (obj st)) (arm_tpiu_swo_handle_event E event).
Proof. intros st. now rewrite handle_event_spec. Qed.

Lemma check_protocol_support_ap :
  keeps (λ st, ap (obj st)) (check_protocol_support E).
Proof.
  unfold check_protocol_support.
  repeat first
    [ apply keeps_wrap_read_u32; intros [? ?]; reflexivity
    | keeps_step; simpl ].
Qed.

Lemma enable_prepare_holds_ap (argc : Z) (cm : bool) (st st1 : state) (ext : bool) :
  enable_prepare E argc cm st = (Val ext, st1) → is_Some (ap (obj st1)).
Proof.
  unfold enable_prepare. intros Hrun.
  apply bind_val in Hrun as (ext0 & s1 & _ & Hrun).
  apply bind_val in Hrun as (a2 & s2 & _ & Hrun).
  apply bind_val in Hrun as ([] & s3 & Hacq & Hrun).
  apply acquire_ap_holds in Hacq.
  assert (Hkeep : keeps (λ st, ap (obj st))
            (do retval <- arm_tpiu_swo_handle_event E TPIU_SWO_EVENT_PRE_ENABLE;
             check retval;; check_protocol_support E;; ret ext0)).
  { repeat first
      [ apply keeps_handle_event_ap | apply check_protocol_support_ap
      | keeps_step; simpl ]. }
  specialize (Hkeep s3). rewrite Hrun in Hkeep. cbn in Hkeep.
  now rewrite Hkeep.
Qed.

Lemma start_capture_ap (ext : bool) : keeps (λ st, ap (obj st)) (start_capture E ext).
Proof.
  unfold start_capture, arm_tpiu_swo_close_output, command_print.
  keeps_auto.
Qed.

Lemma program_tpiu_ap (prescaler : Z) :
  keeps (λ st, ap (obj st)) (program_tpiu E prescaler).
Proof.
  unfold program_tpiu.
  repeat first
    [ apply keeps_wrap_read_u32; intros [? ?]; reflexivity
    | apply keeps_wrap_write_u32; intros [? ?]; reflexivity
    | apply keeps_handle_event_ap
    | keeps_step; simpl ].
Qed.

(** With an internal sink, the set-up ends with the capture on. *)
Lemma start_capture_internal (o : arm_tpiu_swo_object) (tr : list event)
    (p : Z) (st' : state) :
  start_capture E false (mk_state o tr) = (Val p, st') →
  en_capture (obj st') = true.
Proof.
  unfold start_capture, arm_tpiu_swo_close_output, command_print,
    bind, get, modify, emit, ret, return_, stop_, skip.
  crunch; intros [= <- <-]; reflexivity.
Qed.

(** [enable] that comes back with [ERROR_OK] from an idle instance: the
    instance is enabled and the trace has what the sink set-up took. *)
Lemma enable_success (o : arm_tpiu_swo_object) (tr : list event) :
  enabled o = false → en_capture o = false → file o = None →
  let out := handle_arm_tpiu_swo_enable E 0 false (mk_state o tr) in
  returned out = Some ERROR_OK →
  let o' := obj (snd out) in
  let before := ledger_of tr in
  let after := ledger_of (trace (snd out)) in
  enabled o' = true
  ∧ out_filename o' = out_filename o
  ∧ event_action o' = event_action o
  ∧ ap_released after = ap_released before
  ∧ stops after = stops before
  ∧ timers after = timers before + (if en_capture o' then 1 else 0)
  ∧ starts after = starts before + (if en_capture o' then 1 else 0)
  ∧ files after = files before + (if file o' is Some _ then 1 else 0)
  ∧ services after
    = services before
      + (if en_capture o'
         then if tcp_port (out_filename o) is Some _ then 1 else 0
         else 0)
  ∧ (en_capture o' = false → file o' = None ∧ out_filename o = "external")
  ∧ is_Some (ap o').
Proof.
  intros Hen Hcap Hfile out.
  assert (Hout : out = handle_arm_tpiu_swo_enable E 0 false (mk_state o tr))
    by reflexivity.
  clearbody out.
  unfold handle_arm_tpiu_swo_enable in Hout. unfold bind at 1 in Hout.
  pose proof (enable_prepare_cases E o tr Hen) as Hprep.
  pose proof (enable_prepare_resources E 0 false (mk_state o tr)) as Hres.
  destruct (enable_prepare E 0 false (mk_state o tr)) as [res [o1 tr1]] eqn:Hrun.
  cbn [fst snd] in *.
  apply resources_eq in Hres
    as (Hen1 & Hcap1 & Hfile1 & Hpin1 & Hproto1 & Hwidth1 & Hclk1 & Hout1
        & Hchain1 & HL1).
  cbn [obj trace] in *.
  destruct Hprep as [(r & -> & Hr & _) | (ext & -> & _)].
  { subst out. cbn. intros [= ->]. now elim Hr. }
  pose proof (enable_prepare_external _ _ _ _ _ Hrun) as Hext.
  pose proof (enable_prepare_holds_ap _ _ _ _ _ Hrun) as Hheld.
  cbn [obj] in Hext, Hheld.
  unfold enable_commit in Hout. unfold bind at 1 in Hout.
  pose proof (start_capture_ap ext (mk_state o1 tr1)) as Hap2.
  pose proof (start_capture_internal o1 tr1) as Hint.
  assert (Hcap1' : en_capture o1 = false) by congruence.
  assert (Hfile1' : file o1 = None) by congruence.
  pose proof (start_capture_cases E ext o1 tr1 Hcap1' Hfile1') as Hsc.
  destruct (start_capture E ext (mk_state o1 tr1)) as [[p | r | r] [o2 tr2]]
    eqn:Hstart; cbn [fst snd obj trace] in Hsc.
  - destruct Hsc as (Hset & Hen2 & Hap & Hstops & Htim & Hsta & Hfil & Hser & Hidle).
    pose proof (keeps_block resources _ (program_tpiu_resources E p)
                  (mk_state o2 tr2)) as Hprog.
    pose proof (block_no_return (program_tpiu E p) (mk_state o2 tr2)) as Hblock.
    pose proof (keeps_block (λ st, ap (obj st)) _ (program_tpiu_ap p)
                  (mk_state o2 tr2)) as Hap3.
    unfold bind at 1 in Hout.
    destruct (block (program_tpiu E p) (mk_state o2 tr2)) as [[rt | r | r] [o3 tr3]];
      cbn [fst snd] in Hprog;
      [| now elim (Hblock r (mk_state o3 tr3)) | subst out; discriminate].
    cbn [fst snd obj] in Hap2, Hap3.
    assert (Hext2 : en_capture o2 = false → out_filename o = "external").
    { intros Hoff. destruct ext.
      - symmetry in Hext. apply String.eqb_eq in Hext. congruence.
      - apply Hint in Hstart. cbn in Hstart. congruence. }
    apply resources_eq in Hprog
      as (Hen3 & Hcap3 & Hfile3 & Hpin3 & Hproto3 & Hwidth3 & Hclk3 & Hout3
          & Hchain3 & HL3).
    cbn [obj trace] in *.
    unfold settings in Hset.
    destruct (rt =? ERROR_OK) eqn:Hrt.
    + subst out. intros _.
      unfold bind, emit, modify, ret. cbn.
      unfold ledger_of in *. simplify_eq.
      cbn [files services timers starts stops ap_released] in *.
      rewrite Hcap3, Hfile3.
      rewrite Hout1 in Hser.
      repeat split; try congruence; try lia; try assumption; auto.
    + pose proof (error_exit_cases E rt o3 tr3) as Hee.
      destruct (error_exit E rt (mk_state o3 tr3)) as [res4 st4].
      cbn [fst snd] in Hee. destruct Hee as (-> & _).
      subst out. cbn. intros [= ->]. discriminate.
  - destruct Hsc as (_ & _ & _ & _ & Hne & _).
    subst out. cbn. intros [= ->]. now elim Hne.
  - subst out. discriminate.
Qed.

(** [disable] on an enabled instance: it always comes back, and gives up
    what a capturing instance holds. *)
Lemma disable_releases (o : arm_tpiu_swo_object) (tr : list event) :
  enabled o = true →
  let out := handle_arm_tpiu_swo_disable E 0 (mk_state o tr) in
  let o' := obj (snd out) in
  let before := ledger_of tr in
  let after := ledger_of (trace (snd out)) in
  (∃ rv, returned out = Some rv)
  ∧ enabled o' = false ∧ en_capture o' = false
  ∧ file o' = (if en_capture o then None else file o)
  ∧ ap o' = ap o
  ∧ ap_released after = ap_released before
  ∧ starts after = starts before
  ∧ stops after = stops before + (if en_capture o then 1 else 0)
  ∧ timers after = timers before - (if en_capture o then 1 else 0)
  ∧ files after
    = files before
      - (if en_capture o then if file o is Some _ then 1 else 0 else 0)
  ∧ services after
    = services before
      - (if en_capture o
         then if tcp_port (out_filename o) is Some _ then 1 else 0
         else 0).
Proof.
  intros Hen.
  unfold handle_arm_tpiu_swo_disable, adapter_config_trace_off,
    arm_tpiu_swo_close_output, command_print, when_,
    bind, get, modify, emit, ret, return_, skip.
  cbn -[arm_tpiu_swo_handle_event]. rewrite Hen.
  repeat (cbn -[arm_tpiu_swo_handle_event];
    first
      [ rewrite handle_event_spec
      | match goal with
        | |- context [match ?x with _ => _ end] =>
            lazymatch x with
            | context [match _ with _ => _ end] => fail
            | _ => destruct x eqn:?
            end
        end ]);
    cbn;
    repeat (progress (rewrite ?tally_app, ?tally_hook_events by reflexivity; cbn));
    (split; [eauto|]); repeat split; try reflexivity; try assumption; try lia.
Qed.

(** With the capture off, [error_exit] only prints. *)
Lemma error_exit_idle (retval : Z) (st : state) :
  en_capture (obj st) = false →
  capture_view (snd (error_exit E retval st)) = capture_view st.
Proof.
  intros Hoff. destruct st as [o tr]. cbn in Hoff.
  unfold error_exit, command_print, when_, bind, get, emit, ret, skip.
  cbn. rewrite Hoff. reflexivity.
Qed.

Lemma start_capture_external : keeps capture_view (start_capture E true).
Proof. unfold start_capture. keeps_auto. Qed.

Lemma program_tpiu_capture prescaler : keeps capture_view (program_tpiu E prescaler).
Proof.
  unfold program_tpiu.
  repeat first
    [ apply keeps_wrap_read_u32; intros [? ?]; reflexivity
    | apply keeps_wrap_write_u32; intros [? ?]; reflexivity
    | apply keeps_handle_event_capture
    | keeps_step; simpl ].
Qed.

Lemma capture_view_off (st st' : state) :
  capture_view st' = capture_view st →
  en_capture (obj st) = false → en_capture (obj st') = false.
Proof. unfold capture_view. intros Heq. simplify_eq. congruence. Qed.

(** [enable] with the output "external". *)
Lemma enable_external (argc : Z) (cm : bool) (st : state) :
  out_filename (obj st) = "external" → en_capture (obj st) = false →
  capture_view (snd (handle_arm_tpiu_swo_enable E argc cm st)) = capture_view st.
Proof.
  intros Hext Hoff.
  unfold handle_arm_tpiu_swo_enable. unfold bind at 1.
  pose proof (enable_prepare_capture E argc cm st) as Hprep.
  destruct (enable_prepare E argc cm st) as [[ext | r | r] st1] eqn:Hrun;
    cbn [snd] in Hprep |- *; [|exact Hprep..].
  apply enable_prepare_external in Hrun. rewrite Hext in Hrun.
  cbn in Hrun. subst ext.
  unfold enable_commit. unfold bind at 1.
  pose proof (start_capture_external st1) as Hstart.
  destruct (start_capture E true st1) as [[p | r | r] st2];
    cbn [snd] in Hstart |- *; [|congruence..].
  unfold bind at 1.
  pose proof (keeps_block capture_view _ (program_tpiu_capture p) st2) as Hprog.
  destruct (block (program_tpiu E p) st2) as [[rt | r | r] st3];
    cbn [snd] in Hprog |- *; [|congruence..].
  destruct (rt =? ERROR_OK).
  - destruct st3 as [o3 tr3]. unfold bind, emit, modify, ret. cbn.
    rewrite <- Hprep, <- Hstart, <- Hprog. reflexivity.
  - rewrite error_exit_idle; [congruence|].
    apply (capture_view_off st); [congruence | exact Hoff].
Qed.

(** [disable] of an instance that is not capturing. *)
Lemma disable_idle (argc : Z) (st : state) :
  en_capture (obj st) = false →
  capture_view (snd (handle_arm_tpiu_swo_disable E argc st)) = capture_view st.
Proof.
  intros Hoff. destruct st as [o tr]. cbn in Hoff.
  unfold handle_arm_tpiu_swo_disable, when_, bind, get, modify, emit, ret,
    return_, skip.
  destruct (negb (argc =? 0)); [reflexivity|].
  cbn -[arm_tpiu_swo_handle_event].
  destruct (enabled o); cbn -[arm_tpiu_swo_handle_event]; [|reflexivity].
  rewrite handle_event_spec. cbn -[arm_tpiu_swo_handle_event].
  rewrite Hoff. cbn -[arm_tpiu_swo_handle_event].
  rewrite handle_event_spec. unfold capture_view. cbn.
  now rewrite !tally_app, !tally_hook_events.
Qed.

End Lifecycle.

(** X21.  [enable] followed by [disable] leaves nothing behind.  When
    [enable] succeeds on an instance that is not enabled, not capturing
    and has no file open, the instance is enabled; a [disable] after it
    always comes back and leaves the instance not enabled, not capturing
    and without a file, with every file opened closed, every service
    added removed, every timer registered unregistered and a started
    trace of the probe stopped.  The access port stays held. *)
Theorem X21_enable_then_disable_releases (E : env) (o : arm_tpiu_swo_object)
    (tr : list event) :
  enabled o = false → en_capture o = false → file o = None →
  let out1 := handle_arm_tpiu_swo_enable E 0 false (mk_state o tr) in
  returned out1 = Some ERROR_OK →
  let out2 := handle_arm_tpiu_swo_disable E 0 (snd out1) in
  enabled (obj (snd out1)) = true
  ∧ (∃ rv, returned out2 = Some rv)
  ∧ enabled (obj (snd out2)) = false
  ∧ en_capture (obj (snd out2)) = false
  ∧ file (obj (snd out2)) = None
  ∧ held (trace (snd out2)) = held tr
  ∧ is_Some (ap (obj (snd out2)))
  ∧ tally puts_ap (trace (snd out2)) = tally puts_ap tr.
Proof.
  intros Hen Hcap Hfile out1 Hok out2.
  pose proof (enable_success E o tr Hen Hcap Hfile Hok)
    as (Hen1 & Hout1 & _ & Hap1 & Hsto1 & Htim1 & Hsta1 & Hfil1 & Hser1 & Hidle1
        & Hheld1).
  fold out1 in Hen1, Hout1, Hap1, Hsto1, Htim1, Hsta1, Hfil1, Hser1, Hidle1, Hheld1.
  subst out2. destruct (snd out1) as [o1 tr1]. cbn [obj trace] in *.
  pose proof (disable_releases E o1 tr1 Hen1)
    as (Hret & Hen2 & Hcap2 & Hfile2 & Hheld2 & Hap2 & Hsta2 & Hsto2 & Htim2 & Hfil2
        & Hser2).
  set (out2 := handle_arm_tpiu_swo_disable E 0 (mk_state o1 tr1)) in *.
  destruct (snd out2) as [o2 tr2]. cbn [obj trace] in *.
  split; [exact Hen1|]. split; [exact Hret|].
  split; [exact Hen2|]. split; [exact Hcap2|].
  unfold held, ledger_of in *.
  cbn [files services timers starts stops ap_released] in *.
  rewrite Hout1 in Hser2.
  destruct (en_capture o1).
  - split; [exact Hfile2|]. split; [|split; [congruence | lia]].
    destruct (file o1); destruct (tcp_port (out_filename o));
      rewrite !pair_equal_spec; repeat split; lia.
  - destruct (Hidle1 eq_refl) as [Hnone _]. rewrite Hnone in *.
    split; [exact Hfile2|]. split; [|split; [congruence | lia]].
    rewrite !pair_equal_spec; repeat split; lia.
Qed.

Lemma X21_enable_then_disable_releases_witness :
  let o := tcp_instance both_disable_hooks in
  let out1 := handle_arm_tpiu_swo_enable env_ok 0 false (mk_state o []) in
  let out2 := handle_arm_tpiu_swo_disable env_ok 0 (snd out1) in
  en_capture (obj (snd out1)) = true
  ∧ tally adds_service (trace (snd out1)) = 1
  ∧ held (trace (snd out2)) = held [].
Proof.
  split; [reflexivity|]. split; [reflexivity|].
  apply (X21_enable_then_disable_releases env_ok (tcp_instance both_disable_hooks) []);
    reflexivity.
Defined.

(** X22.  The cleanup after a successful [enable] gives everything
    back.  When [enable] succeeds on an instance that is not enabled,
    not capturing and has no file open, the body of the cleanup loop
    run on that instance comes to its end with every file opened closed,
    every service added removed, every timer registered unregistered,
    a started trace of the probe stopped, and the access port that
    [enable] took put back exactly once. *)
Theorem X22_cleanup_after_enable (E : env) (o : arm_tpiu_swo_object)
    (tr : list event) :
  enabled o = false → en_capture o = false → file o = None →
  let out1 := handle_arm_tpiu_swo_enable E 0 false (mk_state o tr) in
  returned out1 = Some ERROR_OK →
  let out2 := cleanup_object E (snd out1) in
  fst out2 = Val tt
  ∧ held (trace (snd out2)) = held tr
  ∧ tally puts_ap (trace (snd out2)) = tally puts_ap tr + 1.
Proof.
  intros Hen Hcap Hfile out1 Hok out2.
  pose proof (enable_success E o tr Hen Hcap Hfile Hok)
    as (Hen1 & Hout1 & _ & Hap1 & Hsto1 & Htim1 & Hsta1 & Hfil1 & Hser1 & Hidle1
        & Hheld1).
  fold out1 in Hen1, Hout1, Hap1, Hsto1, Htim1, Hsta1, Hfil1, Hser1, Hidle1, Hheld1.
  subst out2. destruct (snd out1) as [o1 tr1]. cbn [obj trace] in *.
  pose proof (cleanup_object_releases E o1 tr1)
    as (Hrun & Hsta2 & Hsto2 & Htim2 & Hfil2 & Hser2 & Hap2).
  set (out2 := cleanup_object E (mk_state o1 tr1)) in *.
  destruct (snd out2) as [o2 tr2]. cbn [obj trace] in *.
  split; [exact Hrun|].
  unfold held, ledger_of in *.
  cbn [files services timers starts stops ap_released] in *.
  rewrite Hout1 in Hser2.
  destruct Hheld1 as [a Ha]. rewrite Ha in Hap2.
  split; [|lia].
  destruct (en_capture o1).
  - destruct (file o1); destruct (tcp_port (out_filename o));
      rewrite !pair_equal_spec; repeat split; lia.
  - destruct (Hidle1 eq_refl) as [Hnone Hext]. rewrite Hnone, Hext in *.
    cbn in Hser2. rewrite !pair_equal_spec; repeat split; lia.
Qed.

Lemma X22_cleanup_after_enable_witness :
  let o := uart_instance "trace.bin" 168000000 2000000 both_disable_hooks in
  let out1 := handle_arm_tpiu_swo_enable env_ok 0 false (mk_state o []) in
  let out2 := cleanup_object env_ok (snd out1) in
  file (obj (snd out1)) = Some 200
  ∧ fst out2 = Val tt
  ∧ held (trace (snd out2)) = held []
  ∧ tally puts_ap (trace (snd out2)) = tally puts_ap [] + 1.
Proof.
  split; [reflexivity|].
  apply (X22_cleanup_after_enable env_ok
           (uart_instance "trace.bin" 168000000 2000000 both_disable_hooks) []);
    reflexivity.
Defined.

(** X23.  With the output "external" the controller leaves the probe
    and the host alone.  On an instance whose output is "external" and
    that is not capturing, neither [enable] nor a [disable] after it,
    whatever their arguments and results, calls
    [adapter_config_trace], opens or closes a file, adds or removes a
    service or registers or unregisters a timer; the instance stays not
    capturing and without a file. *)
Theorem X23_external_capture_leaves_probe_alone (E : env)
    (o : arm_tpiu_swo_object) (tr : list event) (argc argc' : Z)
    (config_mode : bool) :
  out_filename o = "external" → en_capture o = false →
  let out1 := handle_arm_tpiu_swo_enable E argc config_mode (mk_state o tr) in
  let out2 := handle_arm_tpiu_swo_disable E argc' (snd out1) in
  capture_view (snd out1) = capture_view (mk_state o tr)
  ∧ capture_view (snd out2) = capture_view (mk_state o tr).
Proof.
  intros Hext Hoff out1 out2.
  pose proof (enable_external E argc config_mode (mk_state o tr) Hext Hoff) as H1.
  fold out1 in H1. split; [exact H1|].
  subst out2. rewrite disable_idle; [exact H1|].
  apply (capture_view_off (mk_state o tr)); [exact H1 | exact Hoff].
Qed.

Lemma X23_external_capture_leaves_probe_alone_witness :
  let o := uart_instance "external" 168000000 2000000 both_enable_hooks in
  let out1 := handle_arm_tpiu_swo_enable env_ok 0 false (mk_state o []) in
  let out2 := handle_arm_tpiu_swo_disable env_ok 0 (snd out1) in
  enabled (obj (snd out1)) = true
  ∧ capture_view (snd out1) = capture_view (mk_state o [])
  ∧ capture_view (snd out2) = capture_view (mk_state o []).
Proof.
  split; [reflexivity|].
  apply (X23_external_capture_leaves_probe_alone env_ok
           (uart_instance "external" 168000000 2000000 both_enable_hooks) [] 0 0 false);
    reflexivity.
Defined.

End TpiuLifecycle.

(** * Part VIII: the trace sinks of the TPIU/SWO controller *)

Module TpiuSinks.
Import Tpiu TpiuServices.

Lemma set_connections_same (o : arm_tpiu_swo_object) :
  set_connections (connections o) o = o.
Proof. destruct o; reflexivity. Qed.

Section Sinks.

Variable SE : service_env.

(** The loop over the clients: one write for each, in the order of the
    list, whatever the writes give back. *)
Lemma write_connections_spec (cs : list Z) (buf : list Z) (size : Z)
    (st : service_state) :
  ∃ log', write_connections SE cs buf size st
          = (Val tt, mk_service_state (sobj st) log')
          ∧ delivered log' = delivered (slog st) ++ map (λ c, (c, buf)) cs
          ∧ filed log' = filed (slog st).
Proof.
  revert st. induction cs as [|c next IH]; intros st.
  - exists (slog st). cbn. rewrite app_nil_r. destruct st; auto.
  - cbn [write_connections]. unfold bind at 1. unfold slogged at 1.
    unfold bind at 1.
    destruct (negb (connection_write SE c buf =? to_int size)).
    + unfold LOG_ERROR, slogged at 1.
      destruct (IH (mk_service_state (sobj st)
                      (EvLogError "Error writing to connection"
                       :: EvConnectionWrite c buf (connection_write SE c buf)
                       :: slog st)))
        as (log' & Hrun & Hdel & Hfil).
      exists log'. cbn [sobj slog] in *. split; [exact Hrun|].
      split; [|exact Hfil]. rewrite Hdel. cbn. now rewrite <- app_assoc.
    + unfold skip, ret at 1.
      destruct (IH (mk_service_state (sobj st)
                      (EvConnectionWrite c buf (connection_write SE c buf)
                       :: slog st)))
        as (log' & Hrun & Hdel & Hfil).
      exists log'. cbn [sobj slog] in *. split; [exact Hrun|].
      split; [|exact Hfil]. rewrite Hdel. cbn. now rewrite <- app_assoc.
Qed.

(** The walk that looks for the connection to close. *)
Lemma close_connection_missing (connection : Z) (seen rest : list Z)
    (st : service_state) :
  connection ∉ rest →
  close_connection connection seen rest st
  = (Return ERROR_FAIL,
     mk_service_state (sobj st)
       (EvLogError "Failed to find connection to close!" :: slog st)).
Proof.
  revert seen. induction rest as [|c tmp IH]; intros seen Hnot.
  - reflexivity.
  - cbn [close_connection].
    apply not_elem_of_cons in Hnot as [Hne Hnot].
    destruct (c =? connection) eqn:Hc; [apply Z.eqb_eq in Hc; congruence|].
    now apply IH.
Qed.

Lemma close_connection_found (connection : Z) (seen l1 l2 : list Z)
    (st : service_state) :
  connection ∉ l1 →
  close_connection connection seen (l1 ++ connection :: l2) st
  = (Return ERROR_OK,
     mk_service_state (set_connections (seen ++ l1 ++ l2) (sobj st))
       (EvFreeConnection connection :: slog st)).
Proof.
  revert seen. induction l1 as [|c l1 IH]; intros seen Hnot.
  - cbn. rewrite Z.eqb_refl. reflexivity.
  - cbn [app close_connection].
    apply not_elem_of_cons in Hnot as [Hne Hnot].
    destruct (c =? connection) eqn:Hc; [apply Z.eqb_eq in Hc; congruence|].
    rewrite IH by exact Hnot. now rewrite <- app_assoc.
Qed.

End Sinks.

(** X24.  A client that connects and then closes leaves the list of
    clients as it was.  When the entry can be allocated,
    [arm_tpiu_swo_service_new_connection] returns [ERROR_OK] with the
    connection at the head of [connections], and
    [arm_tpiu_swo_service_connection_closed] for the same connection
    then returns [ERROR_OK] and restores the instance, also when the
    same connection is in the list more than once. *)
Theorem X24_connection_added_then_closed (SE : service_env)
    (o : arm_tpiu_swo_object) (log : list service_event) (connection : Z) :
  connection_alloc_ok SE = true →
  let out1 :=
    arm_tpiu_swo_service_new_connection SE connection (mk_service_state o log) in
  let out2 := arm_tpiu_swo_service_connection_closed connection (snd out1) in
  returned out1 = Some ERROR_OK
  ∧ connections (sobj (snd out1)) = connection :: connections o
  ∧ returned out2 = Some ERROR_OK
  ∧ sobj (snd out2) = o.
Proof.
  intros Halloc.
  unfold arm_tpiu_swo_service_new_connection,
    arm_tpiu_swo_service_connection_closed.
  rewrite Halloc. unfold bind, sget, smodify, return_. cbn.
  rewrite Z.eqb_refl. cbn. repeat split.
  destruct o; reflexivity.
Qed.

Lemma X24_connection_added_then_closed_witness :
  let o := TpiuViews.tcp_instance [] in
  let st := mk_service_state (set_connections [7; 5; 7] o) [] in
  let out1 := arm_tpiu_swo_service_new_connection sinks_stalled 7 st in
  let out2 := arm_tpiu_swo_service_connection_closed 7 (snd out1) in
  returned out1 = Some ERROR_OK
  ∧ connections (sobj (snd out1)) = [7; 7; 5; 7]
  ∧ returned out2 = Some ERROR_OK
  ∧ sobj (snd out2) = set_connections [7; 5; 7] o.
Proof.
  apply (X24_connection_added_then_closed sinks_stalled
           (set_connections [7; 5; 7] (TpiuViews.tcp_instance [])) [] 7).
  reflexivity.
Defined.

(** X25.  Closing a connection removes its first entry and nothing
    else.  [arm_tpiu_swo_service_connection_closed] returns [ERROR_OK]
    when the connection is in [connections], and then only its first
    entry is taken out, the other clients staying in their order; for a
    connection that is not in the list it returns [ERROR_FAIL] and
    leaves the instance as it was. *)
Theorem X25_connection_closed_cases (o : arm_tpiu_swo_object)
    (log : list service_event) (connection : Z) :
  let out :=
    arm_tpiu_swo_service_connection_closed connection (mk_service_state o log) in
  if bool_decide (connection ∈ connections o) then
    returned out = Some ERROR_OK
    ∧ (∃ l1 l2, connections o = l1 ++ connection :: l2 ∧ (connection ∉ l1)
                ∧ sobj (snd out) = set_connections (l1 ++ l2) o)
  else
    returned out = Some ERROR_FAIL ∧ sobj (snd out) = o.
Proof.
  unfold arm_tpiu_swo_service_connection_closed, bind, sget.
  cbn [sobj slog].
  case_bool_decide as Hin.
  - apply list_elem_of_split_l in Hin as (l1 & l2 & Heq & Hnot).
    rewrite Heq, close_connection_found by exact Hnot.
    split; [reflexivity|]. exists l1, l2. rewrite <- Heq. auto.
  - rewrite close_connection_missing by exact Hin. split; reflexivity.
Qed.

(** X26.  What [arm_tpiu_swo_poll_trace] does with the bytes of the
    probe.  It never changes the instance.  When the probe fails or has
    no bytes, the poll returns the probe's code and nothing is written.
    Otherwise the bytes go to the file of the instance, if it has one;
    when the file takes fewer bytes than given the poll returns
    [ERROR_FAIL] and no client is written to; else the poll returns
    [ERROR_OK] and, when the output is a TCP port, every client in
    [connections] is written the whole buffer exactly once, in the order
    of the list, whether or not the writes to other clients succeed. *)
Theorem X26_poll_trace_fan_out (SE : service_env) (o : arm_tpiu_swo_object)
    (log : list service_event) :
  let retval := fst (adapter_poll_trace SE ARM_TPIU_SWO_TRACE_BUF_SIZE) in
  let buf := snd (adapter_poll_trace SE ARM_TPIU_SWO_TRACE_BUF_SIZE) in
  let size := Z.of_nat (length buf) in
  let out := arm_tpiu_swo_poll_trace SE (mk_service_state o log) in
  let log' := slog (snd out) in
  sobj (snd out) = o
  ∧ if negb (retval =? ERROR_OK) || (size =? 0) then
      returned out = Some retval
      ∧ filed log' = filed log ∧ delivered log' = delivered log
    else
      filed log' = filed log ++ (if file o is Some f then [(f, buf)] else [])
      ∧ if (if file o is Some f then negb (fwrite SE f buf =? size) else false)
        then returned out = Some ERROR_FAIL ∧ delivered log' = delivered log
        else
          returned out = Some ERROR_OK
          ∧ delivered log'
            = delivered log
              ++ (if tcp_port (out_filename o) is Some _
                  then map (λ c, (c, buf)) (connections o)
                  else []).
Proof.
  intros retval buf size out.
  assert (Hout : out = arm_tpiu_swo_poll_trace SE (mk_service_state o log))
    by reflexivity.
  clearbody out. unfold arm_tpiu_swo_poll_trace in Hout.
  subst retval buf size.
  destruct (adapter_poll_trace SE ARM_TPIU_SWO_TRACE_BUF_SIZE) as [retval buf].
  cbn [fst snd].
  unfold bind at 1 in Hout. unfold slogged at 1 in Hout.
  destruct (negb (retval =? ERROR_OK) || (Z.of_nat (length buf) =? 0)).
  { subst out. cbn. auto. }
  unfold bind at 1 in Hout. unfold slogged at 1 in Hout.
  unfold bind at 1 in Hout. unfold sget at 1 in Hout. cbn [sobj slog] in Hout.
  unfold bind at 1 in Hout.
  destruct (file o) as [f|].
  - unfold bind at 1 in Hout. unfold slogged at 1 in Hout.
    destruct (fwrite SE f buf =? Z.of_nat (length buf)); cbn [negb].
    + unfold slogged at 1 in Hout. unfold bind at 1 in Hout.
      unfold sget at 1 in Hout. cbn [sobj slog] in Hout.
      unfold bind at 1 in Hout.
      destruct (tcp_port (out_filename o)).
      * unfold bind at 1 in Hout. unfold sget at 1 in Hout.
        cbn [sobj slog] in Hout.
        match type of Hout with
        | context [write_connections SE ?cs ?b ?n ?st] =>
            destruct (write_connections_spec SE cs b n st)
              as (log' & Hrun & Hdel & Hfil)
        end.
        rewrite Hrun in Hout. subst out. cbn in *. rewrite Hdel, Hfil. auto.
      * subst out. cbn. rewrite app_nil_r. auto.
    + subst out. cbn. auto.
  - unfold skip, ret at 1 in Hout. unfold bind at 1 in Hout.
    unfold sget at 1 in Hout. cbn [sobj slog] in Hout.
    unfold bind at 1 in Hout.
    destruct (tcp_port (out_filename o)).
    + unfold bind at 1 in Hout. unfold sget at 1 in Hout.
      cbn [sobj slog] in Hout.
      match type of Hout with
      | context [write_connections SE ?cs ?b ?n ?st] =>
          destruct (write_connections_spec SE cs b n st)
            as (log' & Hrun & Hdel & Hfil)
      end.
      rewrite Hrun in Hout. subst out. cbn in *. rewrite Hdel, Hfil, app_nil_r. auto.
    + subst out. cbn. rewrite !app_nil_r. auto.
Qed.

End TpiuSinks.

(** * Part IX: creating and configuring a TPIU/SWO instance *)

Module TpiuConfigureProofs.
Import Tpiu TpiuSpec TpiuConfigure TpiuConfigureViews TpiuProofs.

(** ** Code that keeps a property of the instance *)

Section Maintains.

Variable I : arm_tpiu_swo_object → Prop.

Lemma maintains_ret {A} (a : A) : maintains I (ret a).
Proof. intros st H. exact H. Qed.

Lemma maintains_return {A} (r : Z) : maintains I (@return_ config_state A r).
Proof. intros st H. exact H. Qed.

Lemma maintains_stop {A} (r : stop) : maintains I (@stop_ config_state A r).
Proof. intros st H. exact H. Qed.

Lemma maintains_skip : maintains I (@skip config_state).
Proof. intros st H. exact H. Qed.

Lemma maintains_bind {A B} (m : J A) (f : A → J B) :
  maintains I m → (∀ a, maintains I (f a)) → maintains I (bind m f).
Proof.
  intros Hm Hf st H. unfold bind. specialize (Hm st H).
  destruct (m st) as [[a | r | r] st1]; simpl in *; [|assumption..].
  now apply Hf.
Qed.

Lemma maintains_cget {A} (f : arm_tpiu_swo_object → A) : maintains I (cget f).
Proof. intros st H. exact H. Qed.

Lemma maintains_cmodify (f : arm_tpiu_swo_object → arm_tpiu_swo_object) :
  (∀ o, I o → I (f o)) → maintains I (cmodify f).
Proof. intros Hf st H. now apply Hf. Qed.

Lemma maintains_clogged (e : config_event) : maintains I (clogged e).
Proof. intros st H. exact H. Qed.

Lemma maintains_argc : maintains I argc.
Proof. intros st H. exact H. Qed.

Lemma maintains_get_result : maintains I get_result.
Proof. intros st H. exact H. Qed.

Lemma maintains_set_result (r : jim_result) : maintains I (set_result r).
Proof. intros st H. exact H. Qed.

Lemma maintains_parse {A} (f : jim_getopt_info → Z * A * jim_getopt_info) :
  maintains I (parse f).
Proof.
  intros st H. unfold parse. destruct (f (goi st)) as [[e a] g]. exact H.
Qed.

Lemma maintains_call (m : J Z) : maintains I m → maintains I (call m).
Proof.
  intros Hm st H. unfold call. specialize (Hm st H).
  destruct (m st) as [[a | r | r] st1]; exact Hm.
Qed.

Lemma maintains_spot_configure (JE : jim_env) (is_configure : bool) :
  (∀ spot o, I o → I (set_spot spot o)) →
  maintains I (spot_configure JE is_configure).
Proof.
  intros Hspot st H. unfold spot_configure.
  destruct (adiv5_jim_mem_ap_spot_configure JE is_configure _ (goi st))
    as [[e spot] g].
  now apply Hspot.
Qed.

End Maintains.

(** One step of the structural proof; the tests are kept as
    equations for the leaves. *)
Ltac maintains_step :=
  match goal with
  | |- maintains _ (bind _ _) => apply maintains_bind; [| intros ?]
  | |- maintains _ (ret _) => apply maintains_ret
  | |- maintains _ (return_ _) => apply maintains_return
  | |- maintains _ (stop_ _) => apply maintains_stop
  | |- maintains _ skip => apply maintains_skip
  | |- maintains _ (cget _) => apply maintains_cget
  | |- maintains _ (clogged _) => apply maintains_clogged
  | |- maintains _ (LOG_ERROR _) => apply maintains_clogged
  | |- maintains _ argc => apply maintains_argc
  | |- maintains _ get_result => apply maintains_get_result
  | |- maintains _ (set_result _) => apply maintains_set_result
  | |- maintains _ (parse _) => apply maintains_parse
  | |- maintains _ (call _) => apply maintains_call
  | |- maintains _ (if ?b then _ else _) => destruct b eqn:?
  | |- maintains _ (match ?x with _ => _ end) => destruct x eqn:?
  | |- maintains _ (let '(_, _) := ?x in _) => destruct x eqn:?
  end.

(** ** The chain of event actions *)

Lemma find_action_None (chain : list arm_tpiu_swo_event_action)
    (event : arm_tpiu_swo_event) :
  find_action chain event = None → event ∉ map ea_event chain.
Proof.
  induction chain as [|ea next IH]; cbn.
  - intros _. apply not_elem_of_nil.
  - case_bool_decide as Hev; [discriminate|].
    destruct (find_action next event) as [[i found]|]; [discriminate|].
    intros _. apply not_elem_of_cons. split; [congruence | now apply IH].
Qed.

Lemma find_action_Some (chain : list arm_tpiu_swo_event_action)
    (event : arm_tpiu_swo_event) (i : nat) (found : arm_tpiu_swo_event_action) :
  find_action chain event = Some (i, found) →
  chain !! i = Some found ∧ ea_event found = event.
Proof.
  revert i. induction chain as [|ea next IH]; intros i; cbn; [discriminate|].
  case_bool_decide as Hev.
  - intros [= <- <-]. auto.
  - destruct (find_action next event) as [[j found']|]; [|discriminate].
    cbn. intros [= <- <-]. now apply IH.
Qed.

(** Binding a body at the position of the first action of an event
    leaves the events of the chain as they are. *)
Lemma events_after_replace (chain : list arm_tpiu_swo_event_action)
    (event : arm_tpiu_swo_event) (i : nat) (found : arm_tpiu_swo_event_action)
    (body : string) :
  find_action chain event = Some (i, found) →
  map ea_event (<[i := mk_event_action event body]> chain) = map ea_event chain.
Proof.
  intros Hfind. apply find_action_Some in Hfind as [Hi Hev].
  rewrite list_fmap_insert. cbn. apply list_insert_id.
  rewrite list_lookup_fmap, Hi. cbn. now rewrite Hev.
Qed.

(** The action that [arm_tpiu_swo_handle_event] runs is the one that
    the [-event] option finds. *)
Lemma hook_body_find_action (chain : list arm_tpiu_swo_event_action)
    (event : arm_tpiu_swo_event) :
  hook_body chain event = (λ p, ea_body p.2) <$> find_action chain event.
Proof.
  induction chain as [|ea next IH]; cbn; [reflexivity|].
  destruct (decide (ea_event ea = event)) as [Heq | Hne].
  - rewrite bool_decide_eq_false_2 by auto.
    rewrite bool_decide_eq_true_2 by exact Heq. reflexivity.
  - rewrite bool_decide_eq_true_2 by exact Hne.
    rewrite bool_decide_eq_false_2 by exact Hne.
    rewrite IH. destruct (find_action next event) as [[j found]|]; reflexivity.
Qed.

Lemma hook_body_new (chain : list arm_tpiu_swo_event_action)
    (event event' : arm_tpiu_swo_event) (body : string) :
  hook_body (mk_event_action event body :: chain) event'
  = if bool_decide (event' = event) then Some body else hook_body chain event'.
Proof.
  cbn. destruct (decide (event' = event)) as [-> | Hne].
  - rewrite bool_decide_eq_false_2 by auto.
    now rewrite bool_decide_eq_true_2.
  - rewrite bool_decide_eq_true_2 by congruence.
    now rewrite bool_decide_eq_false_2.
Qed.

Lemma hook_body_replaced (chain : list arm_tpiu_swo_event_action)
    (event event' : arm_tpiu_swo_event) (body : string) (i : nat)
    (found : arm_tpiu_swo_event_action) :
  find_action chain event = Some (i, found) →
  hook_body (<[i := mk_event_action event body]> chain) event'
  = if bool_decide (event' = event) then Some body else hook_body chain event'.
Proof.
  revert i. induction chain as [|ea next IH]; intros i; [discriminate|].
  cbn [find_action].
  destruct (decide (ea_event ea = event)) as [Heq | Hne].
  - rewrite bool_decide_eq_true_2 by exact Heq. intros [= <- <-].
    cbn.
    destruct (decide (event' = event)) as [-> | Hne'].
    + rewrite bool_decide_eq_false_2 by auto.
      now rewrite bool_decide_eq_true_2.
    + rewrite bool_decide_eq_true_2 by congruence.
      rewrite (bool_decide_eq_false_2 (event' = event)) by exact Hne'.
      rewrite (bool_decide_eq_true_2 (ea_event ea ≠ event')) by congruence.
      reflexivity.
  - rewrite bool_decide_eq_false_2 by exact Hne.
    destruct (find_action next event) as [[j found']|]; [|discriminate].
    cbn. intros [= <- <-]. cbn.
    destruct (decide (ea_event ea = event')) as [Heq' | Hne'].
    + rewrite bool_decide_eq_false_2 by auto.
      rewrite bool_decide_eq_false_2 by congruence. reflexivity.
    + rewrite bool_decide_eq_true_2 by exact Hne'. now apply IH.
Qed.

Lemma events_after_bind (chain : list arm_tpiu_swo_event_action)
    (event : arm_tpiu_swo_event) (body : string) :
  NoDup (map ea_event chain) →
  NoDup (map ea_event
           (match find_action chain event with
            | Some (i, _) => <[i := mk_event_action event body]> chain
            | None => mk_event_action event body :: chain
            end)).
Proof.
  intros Hnd. destruct (find_action chain event) as [[i found]|] eqn:Hfind.
  - now rewrite (events_after_replace _ _ _ _ _ Hfind).
  - cbn. apply NoDup_cons. split; [now apply find_action_None | exact Hnd].
Qed.

Section Options.

Variable JE : jim_env.

(** The [-event] option either leaves the chain alone or binds one
    body, to the first action of its event or to a new action when the
    event has none; it changes nothing else in the instance. *)
Lemma configure_event_chain (is_configure : bool) (st : config_state) :
  let out := configure_event JE is_configure st in
  let chain := event_action (cobj st) in
  let chain' := event_action (cobj (snd out)) in
  cobj (snd out) = set_event_action chain' (cobj st)
  ∧ (chain' = chain
     ∨ is_configure = true
       ∧ ∃ event body,
           chain' = match find_action chain event with
                    | Some (i, _) => <[i := mk_event_action event body]> chain
                    | None => mk_event_action event body :: chain
                    end).
Proof.
  destruct st as [o g log].
  assert (Hsame : o = set_event_action (event_action o) o) by (destruct o; reflexivity).
  unfold configure_event, bind_event_body, LOG_ERROR, bind, cget, cmodify, clogged,
    parse, argc, set_result, return_, stop_, skip, ret.
  cbn [cobj goi clog].
  destruct is_configure.
  - destruct (Z.of_nat (length (argv g)) <? 2); cbn; [auto|].
    destruct (jim_getopt_nvp_event JE g) as [[e p] g1]. cbn.
    destruct (negb (e =? JIM_OK)); cbn; [auto|].
    destruct (find_action (event_action o) p) as [[i old]|] eqn:Hfind; cbn.
    + destruct (jim_getopt_obj JE g1) as [[e1 [body|]] g2]; cbn; [|auto].
      split; [reflexivity|]. right. split; [reflexivity|].
      exists p, body. now rewrite Hfind.
    + destruct (negb (calloc_event_action_ok JE)); cbn; [auto|].
      destruct (jim_getopt_obj JE g1) as [[e1 [body|]] g2]; cbn; [|auto].
      split; [reflexivity|]. right. split; [reflexivity|].
      exists p, body. now rewrite Hfind.
  - destruct (negb (Z.of_nat (length (argv g)) =? 1)); cbn; [auto|].
    destruct (jim_getopt_nvp_event JE g) as [[e p] g1]. cbn.
    destruct (negb (e =? JIM_OK)); cbn; [auto|].
    destruct (find_action (event_action o) p) as [[i old]|]; cbn; auto.
Qed.

Lemma maintains_configure_event (I : arm_tpiu_swo_object → Prop)
    (is_configure : bool) :
  (∀ o event body,
     I o →
     I (set_event_action
          (match find_action (event_action o) event with
           | Some (i, _) => <[i := mk_event_action event body]> (event_action o)
           | None => mk_event_action event body :: event_action o
           end) o)) →
  maintains I (configure_event JE is_configure).
Proof.
  intros Hbind st HI.
  destruct (configure_event_chain is_configure st) as [Hobj Hchain].
  rewrite Hobj.
  destruct Hchain as [-> | (_ & event & body & ->)].
  - destruct (cobj st); exact HI.
  - now apply Hbind.
Qed.

Lemma no_params_maintains (I : arm_tpiu_swo_object → Prop) : maintains I no_params.
Proof. unfold no_params, err_no_params. repeat maintains_step. Qed.

(** [runtime]: no option touches it. *)
Lemma configure_option_runtime (is_configure : bool) (n : Z) r :
  maintains (λ o, runtime o = r) (configure_option JE is_configure n).
Proof.
  unfold configure_option.
  repeat match goal with
         | |- maintains _ (if ?b then _ else _) => destruct b
         end;
    try apply maintains_skip;
    try (apply maintains_configure_event; intros o event body Ho; exact Ho);
    unfold configure_port_width, configure_protocol, configure_formatter,
      configure_traceclkin, configure_bitrate, configure_outfile;
    repeat first
      [ apply no_params_maintains
      | maintains_step; cbn [fst snd]
      | apply maintains_cmodify; intros ? Ho; exact Ho ].
Qed.

(** The port width stays between 1 and 32. *)
Lemma configure_option_port_width (is_configure : bool) (n : Z) :
  maintains (λ o, 1 ≤ port_width o ≤ 32) (configure_option JE is_configure n).
Proof.
  unfold configure_option.
  repeat match goal with
         | |- maintains _ (if ?b then _ else _) => destruct b
         end;
    try apply maintains_skip;
    try (apply maintains_configure_event; intros o event body Ho; exact Ho);
    unfold configure_port_width, configure_protocol, configure_formatter,
      configure_traceclkin, configure_bitrate, configure_outfile;
    repeat first
      [ apply no_params_maintains
      | maintains_step; cbn [fst snd]
      | apply maintains_cmodify; intros ? Ho; first
          [ exact Ho
          | cbn;
            match goal with
            | H : (_ <? 1) || (32 <? _) = false |- _ =>
                apply orb_false_iff in H as [H1 H2];
                apply Z.ltb_ge in H1, H2
            end;
            unfold to_uint32, wrap_unsigned; rewrite Z.mod_small by lia; lia ] ].
Qed.

(** An output that names a TCP port has passed the test of the port. *)
Lemma configure_outfile_output (is_configure : bool) :
  maintains (λ o, valid_output JE (out_filename o))
    (configure_outfile JE is_configure).
Proof.
  intros [o g log] Ho. cbn [cobj] in Ho.
  unfold configure_outfile, no_params, err_no_params, LOG_ERROR, bind, cget,
    cmodify, clogged, parse, argc, set_result, return_, skip, ret.
  destruct is_configure; cbn [cobj goi clog].
  - destruct (jim_getopt_string JE g) as [[e s] g1]. cbn [cobj goi clog].
    destruct (negb (e =? JIM_OK)); cbn [cobj goi clog]; [exact Ho|].
    destruct (tcp_port s) as [text|] eqn:Hport.
    + destruct (invalid_tcp_port JE text) eqn:Hinvalid; cbn [cobj goi clog];
        [exact Ho|].
      destruct (negb (strdup_ok JE s)); cbn [cobj goi clog]; [exact Ho|].
      unfold valid_output. cbn. now rewrite Hport.
    + cbn [cobj goi clog].
      destruct (negb (strdup_ok JE s)); cbn [cobj goi clog]; [exact Ho|].
      unfold valid_output. cbn. now rewrite Hport.
  - destruct (negb (Z.of_nat (length (argv g)) =? 0)); cbn; exact Ho.
Qed.

Lemma configure_option_output (is_configure : bool) (n : Z) :
  maintains (λ o, valid_output JE (out_filename o))
    (configure_option JE is_configure n).
Proof.
  unfold configure_option.
  repeat match goal with
         | |- maintains _ (if ?b then _ else _) => destruct b
         end;
    try apply maintains_skip;
    try apply configure_outfile_output;
    try (apply maintains_configure_event; intros o event body Ho; exact Ho);
    unfold configure_port_width, configure_protocol, configure_formatter,
      configure_traceclkin, configure_bitrate;
    repeat first
      [ apply no_params_maintains
      | maintains_step; cbn [fst snd]
      | apply maintains_cmodify; intros ? Ho; exact Ho ].
Qed.

(** No event has two actions. *)
Lemma configure_option_events (is_configure : bool) (n : Z) :
  maintains (λ o, NoDup (map ea_event (event_action o)))
    (configure_option JE is_configure n).
Proof.
  unfold configure_option.
  repeat match goal with
         | |- maintains _ (if ?b then _ else _) => destruct b
         end;
    try apply maintains_skip;
    try (apply maintains_configure_event; intros o event body Ho;
         now apply events_after_bind);
    unfold configure_port_width, configure_protocol, configure_formatter,
      configure_traceclkin, configure_bitrate, configure_outfile;
    repeat first
      [ apply no_params_maintains
      | maintains_step; cbn [fst snd]
      | apply maintains_cmodify; intros ? Ho; exact Ho ].
Qed.

(** The loop and the function keep what the options and the [spot]
    keep. *)
Lemma maintains_configure_options (I : arm_tpiu_swo_object → Prop)
    (is_configure : bool) :
  (∀ spot o, I o → I (set_spot spot o)) →
  (∀ n, maintains I (configure_option JE is_configure n)) →
  ∀ fuel, maintains I (configure_options JE fuel is_configure).
Proof.
  intros Hspot Hopt fuel. induction fuel as [|fuel IH]; cbn [configure_options].
  - apply maintains_stop.
  - repeat first
      [ exact IH | apply Hopt
      | apply maintains_spot_configure; exact Hspot
      | maintains_step; cbn [fst snd] ].
Qed.

Lemma maintains_configure (I : arm_tpiu_swo_object → Prop)
    (fuel : nat) (is_configure : bool) :
  (∀ spot o, I o → I (set_spot spot o)) →
  (∀ n, maintains I (configure_option JE is_configure n)) →
  maintains I (arm_tpiu_swo_configure JE fuel is_configure).
Proof.
  intros Hspot Hopt. unfold arm_tpiu_swo_configure.
  repeat first
    [ apply maintains_configure_options; assumption
    | maintains_step; cbn [fst snd] ].
Qed.

Lemma configure_well_formed (fuel : nat) (is_configure : bool) :
  maintains (well_formed JE) (arm_tpiu_swo_configure JE fuel is_configure).
Proof.
  intros st (Hw & He & Ho). repeat split.
  - apply (maintains_configure (λ o, 1 ≤ port_width o ≤ 32));
      [auto | apply configure_option_port_width | exact Hw].
  - apply (maintains_configure (λ o, 1 ≤ port_width o ≤ 32));
      [auto | apply configure_option_port_width | exact Hw].
  - apply (maintains_configure (λ o, NoDup (map ea_event (event_action o))));
      [auto | apply configure_option_events | exact He].
  - apply (maintains_configure (λ o, valid_output JE (out_filename o)));
      [auto | apply configure_option_output | exact Ho].
Qed.

Lemma configure_runtime (fuel : nat) (is_configure : bool) (st : config_state) :
  runtime (cobj (snd (arm_tpiu_swo_configure JE fuel is_configure st)))
  = runtime (cobj st).
Proof.
  apply (maintains_configure (λ o, runtime o = runtime (cobj st)));
    [auto | intros n; apply configure_option_runtime | reflexivity].
Qed.

(** [cget] sets nothing. *)
Lemma cget_option_options (n : Z) c :
  maintains (λ o, options o = c) (configure_option JE false n).
Proof.
  unfold configure_option.
  repeat match goal with
         | |- maintains _ (if ?b then _ else _) => destruct b
         end;
    try apply maintains_skip;
    try (intros st Ho;
         destruct (configure_event_chain false st) as [Hobj [Hchain | [? _]]];
         [| discriminate];
         rewrite Hobj, Hchain; destruct (cobj st); exact Ho);
    unfold configure_port_width, configure_protocol, configure_formatter,
      configure_traceclkin, configure_bitrate, configure_outfile;
    repeat first
      [ apply no_params_maintains
      | maintains_step; cbn [fst snd] ].
Qed.

Lemma cget_options (fuel : nat) (st : config_state) :
  options (cobj (snd (arm_tpiu_swo_configure JE fuel false st)))
  = options (cobj st).
Proof.
  apply (maintains_configure (λ o, options o = options (cobj st)));
    [auto | intros n; apply cget_option_options | reflexivity].
Qed.

(** A call comes back with a value or stops. *)
Lemma call_cases (m : J Z) (st : config_state) :
  (∃ r, fst (call m st) = Val r) ∨ (∃ r, fst (call m st) = Stop r).
Proof.
  unfold call. destruct (m st) as [[a | r | r] st1]; cbn; eauto.
Qed.

End Options.

(** X27.  [configure] and [cget] keep an instance well formed and never
    touch its state.  Whatever the words and whatever the parser makes
    of them, and whether the function returns [JIM_OK], returns an error
    or is cut off, an instance whose port width is between 1 and 32,
    whose events have one action each and whose output, when it names a
    TCP port, names a valid one, is left such an instance; and the
    access port, the name, the flags [enabled], [en_capture] and
    [deferred_enable], the file and the clients are as they were. *)
Theorem X27_configure_keeps_instance_well_formed (JE : jim_env) (fuel : nat)
    (is_configure : bool) (st : config_state) :
  well_formed JE (cobj st) →
  let out := arm_tpiu_swo_configure JE fuel is_configure st in
  well_formed JE (cobj (snd out)) ∧ runtime (cobj (snd out)) = runtime (cobj st).
Proof.
  intros Hwf out. split.
  - now apply configure_well_formed.
  - apply configure_runtime.
Qed.

Lemma X27_configure_keeps_instance_well_formed_witness :
  let o := uart_instance "external" 168000000 2000000 both_enable_hooks in
  let args := ["-port-width"; "8"; "-event"; "pre-enable"; "halt";
               "-output"; ":3344"; "-port-width"; "33"] in
  let out := arm_tpiu_swo_configure jim_words 10 true (at_command o args) in
  returned out = Some JIM_ERR
  ∧ result (goi (snd out)) = ResultString "Invalid port width!"
  ∧ port_width (cobj (snd out)) = 8
  ∧ out_filename (cobj (snd out)) = ":3344"
  ∧ event_action (cobj (snd out))
    = [ mk_event_action TPIU_SWO_EVENT_PRE_ENABLE "halt";
        mk_event_action TPIU_SWO_EVENT_POST_ENABLE "post" ]
  ∧ well_formed jim_words (cobj (snd out))
  ∧ runtime (cobj (snd out)) = runtime o.
Proof.
  do 5 (split; [reflexivity|]).
  apply (X27_configure_keeps_instance_well_formed jim_words 10 true
           (at_command
              (uart_instance "external" 168000000 2000000 both_enable_hooks)
              ["-port-width"; "8"; "-event"; "pre-enable"; "halt";
               "-output"; ":3344"; "-port-width"; "33"])).
  split; [cbn; lia|]. split; [|exact I].
  apply (bool_decide_unpack _). vm_compute. exact I.
Defined.

(** X28.  [configure] refuses an enabled instance and [cget] sets
    nothing.  On an enabled instance [configure] returns [JIM_ERR]
    without reading a word and leaves the instance as it was.  [cget],
    whatever its words, leaves the options and the state of the
    instance as they were. *)
Theorem X28_configure_refused_when_enabled (JE : jim_env) (fuel : nat)
    (st : config_state) :
  (enabled (cobj st) = true →
   let out := arm_tpiu_swo_configure JE fuel true st in
   returned out = Some JIM_ERR
   ∧ cobj (snd out) = cobj st ∧ argv (goi (snd out)) = argv (goi st))
  ∧ (let out := arm_tpiu_swo_configure JE fuel false st in
     options (cobj (snd out)) = options (cobj st)
     ∧ runtime (cobj (snd out)) = runtime (cobj st)).
Proof.
  split.
  - intros Hen. unfold arm_tpiu_swo_configure, bind, cget, set_result, return_.
    rewrite Hen. cbn. auto.
  - split; [apply cget_options | apply configure_runtime].
Qed.

Lemma X28_configure_refused_when_enabled_witness :
  let st := at_command (enabled_instance []) ["-port-width"; "8"] in
  let out := arm_tpiu_swo_configure jim_words 10 true st in
  let out' := arm_tpiu_swo_configure jim_words 10 false
                (at_command (enabled_instance []) ["-port-width"]) in
  result (goi (snd out'))= ResultInt 1
  ∧ returned out = Some JIM_ERR
  ∧ cobj (snd out) = cobj st ∧ argv (goi (snd out)) = argv (goi st).
Proof.
  split; [reflexivity|].
  apply (X28_configure_refused_when_enabled jim_words 10
           (at_command (enabled_instance []) ["-port-width"; "8"])).
  reflexivity.
Defined.

(** X29.  The body that [-event] binds is the one that runs and the
    one that [cget] shows.  When the [-event] option of [configure] has
    two words left, the parser reads an event from the first and a body
    from the second, and a new action can be allocated, the option
    succeeds; from then on [arm_tpiu_swo_handle_event] for that event
    runs this body and no other, for every other event it does what it
    did before, and [cget -event] for that event gives this body. *)
Theorem X29_event_body_bound_is_run (JE : jim_env) (E : env)
    (o : arm_tpiu_swo_object) (g g1 g2 : jim_getopt_info)
    (log : list config_event) (event : arm_tpiu_swo_event) (body : string)
    (e1 : Z) :
  (2 ≤ length (argv g))%nat →
  jim_getopt_nvp_event JE g = (JIM_OK, event, g1) →
  jim_getopt_obj JE g1 = (e1, Some body, g2) →
  calloc_event_action_ok JE = true →
  let out := configure_event JE true (mk_config_state o g log) in
  let o' := cobj (snd out) in
  fst out = Val tt
  ∧ (∀ tr, arm_tpiu_swo_handle_event E event (mk_state o' tr)
           = handle_event_chain E [mk_event_action event body] event
               (mk_state o' tr))
  ∧ (∀ event' tr, event' ≠ event →
       arm_tpiu_swo_handle_event E event' (mk_state o' tr)
       = handle_event_chain E (event_action o) event' (mk_state o' tr))
  ∧ (∀ g' g'' log',
       length (argv g') = 1%nat →
       jim_getopt_nvp_event JE g' = (JIM_OK, event, g'') →
       result (goi (snd (configure_event JE false (mk_config_state o' g' log'))))
       = ResultObj body).
Proof.
  intros Hargc Hnvp Hobj Halloc out.
  assert (Hout : fst out = Val tt
                 ∧ ∀ event',
                     hook_body (event_action (cobj (snd out))) event'
                     = if bool_decide (event' = event) then Some body
                       else hook_body (event_action o) event').
  { subst out.
    unfold configure_event, bind_event_body, LOG_ERROR, bind, cget, cmodify,
      clogged, parse, argc, set_result, return_, stop_, skip, ret.
    cbn [cobj goi clog].
    assert (Hlt : (Z.of_nat (length (argv g)) <? 2) = false)
      by (apply Z.ltb_ge; lia).
    rewrite Hlt. cbn [cobj goi clog]. rewrite Hnvp. cbn [cobj goi clog].
    change (negb (JIM_OK =? JIM_OK)) with false. cbn iota.
    destruct (find_action (event_action o) event) as [[i old]|] eqn:Hfind.
    - cbn [cobj goi clog]. rewrite Hobj. cbn.
      split; [reflexivity|]. intros event'.
      now apply (hook_body_replaced _ _ _ _ _ old).
    - rewrite Halloc. cbn [negb cobj goi clog]. rewrite Hobj. cbn [cobj goi clog].
      split; [reflexivity|]. intros event'. cbn [event_action set_event_action].
      apply hook_body_new. }
  destruct Hout as [Hval Hhook]. split; [exact Hval|].
  split; [|split].
  - intros tr. unfold arm_tpiu_swo_handle_event, bind, get. cbn [obj].
    rewrite !handle_event_chain_spec. unfold hook_retval, hook_events.
    rewrite Hhook, hook_body_new.
    now rewrite bool_decide_eq_true_2.
  - intros event' tr Hne. unfold arm_tpiu_swo_handle_event, bind, get. cbn [obj].
    rewrite !handle_event_chain_spec. unfold hook_retval, hook_events.
    rewrite Hhook. now rewrite bool_decide_eq_false_2.
  - intros g' g'' log' Hone Hnvp'.
    specialize (Hhook event). rewrite bool_decide_eq_true_2 in Hhook by reflexivity.
    rewrite hook_body_find_action in Hhook.
    unfold configure_event, bind, cget, parse, argc, set_result, return_, skip, ret.
    cbn [cobj goi clog]. rewrite Hone.
    change (negb (Z.of_nat 1 =? 1)) with false. cbn [cobj goi clog].
    rewrite Hnvp'. cbn [cobj goi clog].
    change (negb (JIM_OK =? JIM_OK)) with false. cbn iota.
    destruct (find_action (event_action (cobj (snd out))) event) as [[i found]|];
      [|discriminate].
    cbn in Hhook |- *. now injection Hhook as ->.
Qed.

Lemma X29_event_body_bound_is_run_witness :
  let o := uart_instance "external" 168000000 2000000 both_enable_hooks in
  let g := mk_goi ["post-enable"; "resume"] ResultEmpty in
  let out := configure_event jim_words true (mk_config_state o g []) in
  let o' := cobj (snd out) in
  event_action o'
  = [ mk_event_action TPIU_SWO_EVENT_PRE_ENABLE "pre";
      mk_event_action TPIU_SWO_EVENT_POST_ENABLE "resume" ]
  ∧ trace (snd (arm_tpiu_swo_handle_event env_ok TPIU_SWO_EVENT_POST_ENABLE
                  (mk_state o' [])))
    = [EvHook TPIU_SWO_EVENT_POST_ENABLE "resume"].
Proof.
  split; [reflexivity|].
  destruct (X29_event_body_bound_is_run jim_words env_ok
              (uart_instance "external" 168000000 2000000 both_enable_hooks)
              (mk_goi ["post-enable"; "resume"] ResultEmpty)
              (mk_goi ["resume"] ResultEmpty) (mk_goi [] ResultEmpty) []
              TPIU_SWO_EVENT_POST_ENABLE "resume" JIM_OK)
    as (_ & Hrun & _); [cbn; lia | reflexivity..|].
  rewrite Hrun. reflexivity.
Defined.

(** ** [tpiu create] *)

Section Create.

Variable JE : jim_env.

Lemma fresh_object_well_formed (nm : string) :
  well_formed JE (set_name nm (set_out_filename "external" (fresh_object JE)))
  ∧ runtime (set_name nm (set_out_filename "external" (fresh_object JE)))
    = (None, nm, false, false, false, None, [], false).
Proof.
  split; [|reflexivity]. split; [cbn; lia|]. split; [|exact I].
  cbn. apply NoDup_nil. exact I.
Qed.

(** The options of [create] are read into the new instance; the
    registry is not touched. *)
Lemma configure_new_cases (fuel : nat) (o : arm_tpiu_swo_object)
    (args : list string) (w : creation_state) :
  let out := configure_new JE fuel o args w in
  reg (snd out) = reg w
  ∧ ((∃ e o', fst out = Val (e, o') ∧ runtime o' = runtime o
              ∧ (well_formed JE o → well_formed JE o'))
     ∨ ∃ r, fst out = Stop r).
Proof.
  intros out.
  assert (Hout : out = configure_new JE fuel o args w) by reflexivity.
  clearbody out. unfold configure_new in Hout.
  set (st0 := mk_config_state o (mk_goi args (interp_result w)) (created_log w))
    in Hout.
  pose proof (configure_runtime JE fuel true st0) as Hrt.
  pose proof (configure_well_formed JE fuel true st0) as Hwf.
  unfold bind at 1 in Hout. unfold call in Hout.
  destruct (arm_tpiu_swo_configure JE fuel true st0) as [[e | e | r] st1];
    cbn [snd] in Hrt, Hwf; subst st0; cbn [cobj] in Hrt, Hwf.
  - unfold print_result, bind, get_result, clogged, skip, ret in Hout.
    destruct (result_has_text (result (goi st1))); subst out; cbn;
      (split; [reflexivity|]); left; exists e, (cobj st1); auto.
  - unfold print_result, bind, get_result, clogged, skip, ret in Hout.
    destruct (result_has_text (result (goi st1))); subst out; cbn;
      (split; [reflexivity|]); left; exists e, (cobj st1); auto.
  - subst out. cbn. split; [reflexivity|]. right. eauto.
Qed.

End Create.

(** X30.  [tpiu create] adds an instance that is ready for [enable],
    or adds nothing.  When the command returns [ERROR_OK], no command
    had the name, and the registry has one more instance, at its tail:
    named as asked, not enabled, not capturing, without a file, an
    access port or clients, well formed (port width between 1 and 32,
    one action for each event, a valid output), and with a debug port
    and an access port number set.  When it returns anything else the
    registry is as it was. *)
Theorem X30_create_adds_an_idle_instance (JE : jim_env) (fuel : nat)
    (args : list string) (w : creation_state) (rv : Z) :
  let out := handle_arm_tpiu_swo_create JE fuel args w in
  returned out = Some rv →
  if rv =? ERROR_OK then
    ∃ p o nm rest,
      args = nm :: rest
      ∧ jim_command_exists JE nm = false
      ∧ calloc_object JE = Some p
      ∧ all_tpiu_swo (reg (snd out)) = all_tpiu_swo (reg w) ++ [p]
      ∧ heap (reg (snd out)) = <[p := o]> (heap (reg w))
      ∧ runtime o = (None, nm, false, false, false, None, [], false)
      ∧ well_formed JE o
      ∧ spot_dap o ≠ 0 ∧ spot_ap_num o ≠ DP_APSEL_INVALID JE
  else reg (snd out) = reg w.
Proof.
  intros out.
  assert (Hout : out = handle_arm_tpiu_swo_create JE fuel args w) by reflexivity.
  clearbody out. unfold handle_arm_tpiu_swo_create in Hout.
  destruct args as [|nm rest]; [subst out; cbn; intros [= <-]; reflexivity|].
  destruct (jim_command_exists JE nm) eqn:Hexists;
    [subst out; cbn; intros [= <-]; reflexivity|].
  destruct (calloc_object JE) as [p|] eqn:Hcalloc;
    [|subst out; cbn; intros [= <-]; reflexivity].
  destruct (negb (strdup_ok JE "external"));
    [subst out; cbn; intros [= <-]; reflexivity|].
  destruct (negb (strdup_ok JE nm));
    [subst out; cbn; intros [= <-]; reflexivity|].
  destruct (fresh_object_well_formed JE nm) as [Hwf0 Hrt0].
  unfold bind at 1 in Hout.
  pose proof (configure_new_cases JE fuel
                (set_name nm (set_out_filename "external" (fresh_object JE)))
                rest w) as [Hreg Hcases].
  destruct (configure_new JE fuel _ rest w) as [[[e o'] | r | r] w1];
    cbn [fst snd] in Hreg, Hcases.
  - destruct Hcases as [(e0 & o0 & [= <- <-] & Hrt & Hwf) | [r [=]]].
    destruct (negb (e =? JIM_OK));
      [subst out; cbn; intros [= <-]; exact Hreg|].
    destruct ((spot_dap o' =? 0) || (spot_ap_num o' =? DP_APSEL_INVALID JE))
      eqn:Hspot; [subst out; cbn; intros [= <-]; exact Hreg|].
    apply orb_false_iff in Hspot as [Hdap Hap].
    apply Z.eqb_neq in Hdap, Hap.
    unfold bind at 1 in Hout. unfold klogged at 1 in Hout.
    destruct (negb (register_commands_with_data JE (name o') =? ERROR_OK))
      eqn:Hregister.
    + subst out. cbn. intros [= <-].
      apply negb_true_iff in Hregister. rewrite Hregister. exact Hreg.
    + subst out. cbn. intros [= <-]. cbn.
      exists p, o', nm, rest. rewrite Hreg.
      split; [reflexivity|]. split; [exact Hexists|]. split; [reflexivity|].
      split; [reflexivity|]. split; [reflexivity|]. split; [congruence|].
      split; [now apply Hwf|]. split; assumption.
  - destruct Hcases as [(e0 & o0 & [=] & _) | [r0 [=]]].
  - subst out. discriminate.
Qed.

Lemma X30_create_adds_an_idle_instance_witness :
  let args := ["tpiu0"; "-dap"; "1"; "-ap-num"; "0"; "-port-width"; "4"] in
  let out := handle_arm_tpiu_swo_create jim_words 10 args no_instances in
  returned out = Some ERROR_OK
  ∧ ∃ p o nm rest,
      args = nm :: rest
      ∧ jim_command_exists jim_words nm = false
      ∧ calloc_object jim_words = Some p
      ∧ all_tpiu_swo (reg (snd out)) = all_tpiu_swo (reg no_instances) ++ [p]
      ∧ heap (reg (snd out)) = <[p := o]> (heap (reg no_instances))
      ∧ runtime o = (None, nm, false, false, false, None, [], false)
      ∧ well_formed jim_words o
      ∧ spot_dap o ≠ 0 ∧ spot_ap_num o ≠ DP_APSEL_INVALID jim_words.
Proof.
  split; [reflexivity|].
  exact (X30_create_adds_an_idle_instance jim_words 10
           ["tpiu0"; "-dap"; "1"; "-ap-num"; "0"; "-port-width"; "4"]
           no_instances ERROR_OK eq_refl).
Defined.

End TpiuConfigureProofs.
